(** * Grid search engine of the path-finder visualizer

    Shallow embedding of [src/app/algorithms.ts]: the neighbour generator,
    the start/end locator and the five search strategies ([bfs], [dfs],
    [dijkstra], [aStar], [greedyBestFirst]); of the [greedyBestFirst] of
    the second copy of the engine; and of the code of the page component
    that builds the grid, handles clicks and paints the result of a
    search.  The properties of the engine and of the page follow.

    Conventions of the embedding.
    - A JS number that holds a coordinate is a [Z]; a score is a [num]
      (an integer, [Infinity] or [NaN]).
    - The string keys [`${row},${col}`] (and [`${row}-${col}`] in the greedy
      strategy) are only used for identity on in-bounds coordinates, where
      the rendering is injective: a key is the [Position] itself.
    - [Set<string>] and [Map<string, _>] whose iteration order is never
      observed are [gset] and [gmap]; the open set of [aStar], which is
      iterated in insertion order, is a duplicate-free list.
    - Every [while] loop is one transition of a state machine; [run] drives
      the machine with a bound on the number of loop iterations.  Reading a
      property of [undefined] is the outcome [Threw]. *)

From Stdlib Require Import ZArith Lia.
From stdpp Require Import gmap list sets fin_sets sorting.

Local Open Scope Z_scope.

(** ** Data model *)

Inductive CellType := T_empty | T_start | T_end | T_wall | T_path | T_visited.

Record Cell := mkCell { cell_type : CellType; cell_row : Z; cell_col : Z }.

Record Position := mkPos { row : Z; col : Z }.

Definition Grid := list (list Cell).

Record AlgorithmResult := mkResult {
  path : list Position;
  visited : list Position;
  success : bool
}.

Global Instance CellType_eq_dec : EqDecision CellType.
Proof. solve_decision. Defined.

Global Instance Position_eq_dec : EqDecision Position.
Proof. solve_decision. Defined.

Global Instance Position_countable : Countable Position.
Proof.
  apply (inj_countable' (fun p => (row p, col p)) (fun rc => mkPos (fst rc) (snd rc))).
  intros []; reflexivity.
Defined.

(** [a.row === b.row && a.col === b.col] *)
Definition pos_eqb (a b : Position) : bool :=
  (row a =? row b) && (col a =? col b).

(** JS numbers that occur as scores. *)
Inductive num := Fin (n : Z) | Infinity | NaN.

(** [m.get(k)!] used as a number: [undefined] behaves as [NaN]. *)
Definition num_of (o : option num) : num :=
  match o with Some n => n | None => NaN end.

(** [a < b] *)
Definition num_lt (a b : num) : bool :=
  match a, b with
  | Fin x, Fin y => x <? y
  | Fin _, Infinity => true
  | _, _ => false
  end.

(** [a >= b] *)
Definition num_ge (a b : num) : bool :=
  match a, b with
  | Fin x, Fin y => y <=? x
  | Infinity, Fin _ => true
  | Infinity, Infinity => true
  | _, _ => false
  end.

(** [a + b] *)
Definition num_add (a b : num) : num :=
  match a, b with
  | Fin x, Fin y => Fin (x + y)
  | NaN, _ | _, NaN => NaN
  | _, _ => Infinity
  end.

(** Outcome of a call: a returned value, a thrown [TypeError], or the
    iteration bound was reached before the call returned. *)
Inductive outcome (A : Type) :=
  | Returned (a : A)
  | Threw
  | OutOfFuel.
Arguments Returned {A} a.
Arguments Threw {A}.
Arguments OutOfFuel {A}.

(** [grid[r][c]], [undefined] when out of range. *)
Definition cellAt (grid : Grid) (r c : Z) : option Cell :=
  if (r <? 0) || (c <? 0) then None
  else match grid !! Z.to_nat r with
       | Some cells => cells !! Z.to_nat c
       | None => None
       end.

Definition cellOf (grid : Grid) (p : Position) : option Cell :=
  cellAt grid (row p) (col p).

(** ** Neighbor generation *)

Definition directions : list Position :=
  [ mkPos (-1) 0;   (* up *)
    mkPos 1 0;      (* down *)
    mkPos 0 (-1);   (* left *)
    mkPos 0 1 ].    (* right *)

(** The body of the [for (const dir of directions)] loop of [getNeighbors];
    [None] is the [TypeError] of [grid[newRow][newCol].type] on a ragged
    grid. *)
Fixpoint getNeighbors_loop (grid : Grid) (position : Position)
    (dirs : list Position) (neighbors : list Position) : option (list Position) :=
  match dirs with
  | [] => Some neighbors
  | dir :: dirs' =>
      let newRow := row position + row dir in
      let newCol := col position + col dir in
      if (0 <=? newRow) && (newRow <? Z.of_nat (length grid)) && (0 <=? newCol) then
        match grid with
        | [] => None
        | row0 :: _ =>
            if newCol <? Z.of_nat (length row0) then
              match cellAt grid newRow newCol with
              | None => None
              | Some c =>
                  if decide (cell_type c = T_wall)
                  then getNeighbors_loop grid position dirs' neighbors
                  else getNeighbors_loop grid position dirs'
                         (neighbors ++ [mkPos newRow newCol])
              end
            else getNeighbors_loop grid position dirs' neighbors
        end
      else getNeighbors_loop grid position dirs' neighbors
  end.

Definition getNeighbors (grid : Grid) (position : Position) : option (list Position) :=
  getNeighbors_loop grid position directions [].

(** ** Start/end location *)

Record StartEnd := mkStartEnd { se_start : option Position; se_end : option Position }.

(** Inner loop of [findStartAndEnd]: the cells of row [r] from column [c]. *)
Fixpoint findStartAndEnd_row (cells : list Cell) (r c : Z) (acc : StartEnd) : StartEnd :=
  match cells with
  | [] => acc
  | cell :: cells' =>
      findStartAndEnd_row cells' r (c + 1)
        (if decide (cell_type cell = T_start) then mkStartEnd (Some (mkPos r c)) (se_end acc)
         else if decide (cell_type cell = T_end) then mkStartEnd (se_start acc) (Some (mkPos r c))
         else acc)
  end.

(** Outer loop of [findStartAndEnd]: the rows from index [r]. *)
Fixpoint findStartAndEnd_rows (rows : list (list Cell)) (r : Z) (acc : StartEnd) : StartEnd :=
  match rows with
  | [] => acc
  | cells :: rows' => findStartAndEnd_rows rows' (r + 1) (findStartAndEnd_row cells r 0 acc)
  end.

Definition findStartAndEnd (grid : Grid) : StartEnd :=
  findStartAndEnd_rows grid 0 (mkStartEnd None None).

(** ** The loop driver *)

Inductive step_result (St : Type) :=
  | Continue (s : St)
  | Done (r : AlgorithmResult)
  | Throw.
Arguments Continue {St} s.
Arguments Done {St} r.
Arguments Throw {St}.

Fixpoint run {St : Type} (step : St -> step_result St) (fuel : nat) (s : St)
    : outcome AlgorithmResult :=
  match fuel with
  | O => OutOfFuel
  | S fuel' =>
      match step s with
      | Continue s' => run step fuel' s'
      | Done r => Returned r
      | Throw => Threw
      end
  end.

(** ** Path reconstruction

    The loop [while (currentPos.row !== start.row || currentPos.col !== start.col)]
    that every strategy runs once the end is reached. *)

Record rebuild_state := mkRebuild {
  rb_grid : Grid;
  rb_start : Position;
  rb_parent : gmap Position Position;
  rb_visitedPositions : list Position;
  rb_path : list Position;
  rb_currentPos : Position
}.

Definition rebuild_step (r : rebuild_state) : step_result rebuild_state :=
  if negb (pos_eqb (rb_currentPos r) (rb_start r)) then
    (* path.unshift(currentPos); currentPos = parent.get(key)! *)
    match rb_parent r !! rb_currentPos r with
    | Some p =>
        Continue (mkRebuild (rb_grid r) (rb_start r) (rb_parent r) (rb_visitedPositions r)
                    (rb_currentPos r :: rb_path r) p)
    | None => Throw  (* the next test reads [undefined.row] *)
    end
  else
    (* path.unshift(start); return { path, visited, success: true } *)
    Done (mkResult (rb_start r :: rb_path r) (rb_visitedPositions r) true).

(** A strategy is searching, or has reached the end and rebuilds the path. *)
Inductive machine (St : Type) :=
  | Searching (s : St)
  | Rebuilding (r : rebuild_state).
Arguments Searching {St} s.
Arguments Rebuilding {St} r.

Definition machine_step {St : Type} (search : St -> step_result (machine St))
    (m : machine St) : step_result (machine St) :=
  match m with
  | Searching s => search s
  | Rebuilding r =>
      match rebuild_step r with
      | Continue r' => Continue (Rebuilding r')
      | Done res => Done res
      | Throw => Throw
      end
  end.

(** ** Breadth-first search *)

Record bfs_state := mkBfs {
  bfs_grid : Grid;
  bfs_start : Position;
  bfs_end : Position;
  bfs_queue : list Position;
  bfs_visited : gset Position;
  bfs_parent : gmap Position Position;
  bfs_visitedPositions : list Position
}.

(** One round of [for (const neighbor of getNeighbors(grid, current))]:
    the frontier, the visited set and the parent map after looking at
    [neighbor]. *)
Definition discover (current : Position)
    (acc : list Position * gset Position * gmap Position Position)
    (neighbor : Position) : list Position * gset Position * gmap Position Position :=
  let '(frontier, seen, parent) := acc in
  if decide (neighbor ∈ seen) then acc
  else (frontier ++ [neighbor], {[neighbor]} ∪ seen, <[neighbor := current]> parent).

Definition bfs_search (st : bfs_state) : step_result (machine bfs_state) :=
  match bfs_queue st with
  | [] => Done (mkResult [] (bfs_visitedPositions st) false)
  | current :: queue' =>                      (* queue.shift() *)
      let visitedPositions := bfs_visitedPositions st ++ [current] in
      if pos_eqb current (bfs_end st) then
        Continue (Rebuilding (mkRebuild (bfs_grid st) (bfs_start st) (bfs_parent st)
                                visitedPositions [] (bfs_end st)))
      else
        match getNeighbors (bfs_grid st) current with
        | None => Throw
        | Some ns =>
            let '(queue'', seen, parent) :=
              fold_left (discover current) ns (queue', bfs_visited st, bfs_parent st) in
            Continue (Searching (mkBfs (bfs_grid st) (bfs_start st) (bfs_end st)
                                   queue'' seen parent visitedPositions))
        end
  end.

Definition bfs (fuel : nat) (grid : Grid) : outcome AlgorithmResult :=
  match se_start (findStartAndEnd grid), se_end (findStartAndEnd grid) with
  | Some start, Some end_ =>
      run (machine_step bfs_search) fuel
        (Searching (mkBfs grid start end_ [start] {[start]} ∅ []))
  | _, _ => Returned (mkResult [] [] false)
  end.

(** ** Depth-first search *)

Record dfs_state := mkDfs {
  dfs_grid : Grid;
  dfs_start : Position;
  dfs_end : Position;
  dfs_stack : list Position;
  dfs_visited : gset Position;
  dfs_parent : gmap Position Position;
  dfs_visitedPositions : list Position
}.

Definition dfs_search (st : dfs_state) : step_result (machine dfs_state) :=
  match last (dfs_stack st) with
  | None => Done (mkResult [] (dfs_visitedPositions st) false)
  | Some current =>                           (* stack.pop() *)
      let stack' := removelast (dfs_stack st) in
      let visitedPositions := dfs_visitedPositions st ++ [current] in
      if pos_eqb current (dfs_end st) then
        Continue (Rebuilding (mkRebuild (dfs_grid st) (dfs_start st) (dfs_parent st)
                                visitedPositions [] (dfs_end st)))
      else
        match getNeighbors (dfs_grid st) current with
        | None => Throw
        | Some ns =>
            let '(stack'', seen, parent) :=
              fold_left (discover current) ns (stack', dfs_visited st, dfs_parent st) in
            Continue (Searching (mkDfs (dfs_grid st) (dfs_start st) (dfs_end st)
                                   stack'' seen parent visitedPositions))
        end
  end.

Definition dfs (fuel : nat) (grid : Grid) : outcome AlgorithmResult :=
  match se_start (findStartAndEnd grid), se_end (findStartAndEnd grid) with
  | Some start, Some end_ =>
      run (machine_step dfs_search) fuel
        (Searching (mkDfs grid start end_ [start] {[start]} ∅ []))
  | _, _ => Returned (mkResult [] [] false)
  end.

(** ** Dijkstra *)

(** The pairs [(row, col)] that the nested loops
    [for (row < grid.length) for (col < grid[row].length)] go through. *)
Fixpoint grid_keys_from (r : Z) (rows : Grid) : list Position :=
  match rows with
  | [] => []
  | cells :: rows' =>
      map (fun c => mkPos r (Z.of_nat c)) (seq 0 (length cells))
        ++ grid_keys_from (r + 1) rows'
  end.

Definition grid_keys (grid : Grid) : list Position := grid_keys_from 0 grid.

Record dijkstra_state := mkDijkstra {
  dj_grid : Grid;
  dj_start : Position;
  dj_end : Position;
  dj_distances : gmap Position num;
  dj_parent : gmap Position Position;
  dj_visited : gset Position;
  dj_visitedPositions : list Position
}.

Definition getMinDistance_body (visited : gset Position) (distances : gmap Position num)
    (acc : num * option Position) (key : Position) : num * option Position :=
  if negb (bool_decide (key ∈ visited)) && num_lt (num_of (distances !! key)) (fst acc)
  then (num_of (distances !! key), Some key)
  else acc.

Definition getMinDistance (grid : Grid) (visited : gset Position)
    (distances : gmap Position num) : option Position :=
  snd (fold_left (getMinDistance_body visited distances) (grid_keys grid) (Infinity, None)).

(** One round of the relaxation loop of [dijkstra]. *)
Definition dijkstra_relax (visited : gset Position) (current : Position)
    (acc : gmap Position num * gmap Position Position) (neighbor : Position)
    : gmap Position num * gmap Position Position :=
  let '(distances, parent) := acc in
  if decide (neighbor ∈ visited) then acc
  else
    let newDist := num_add (num_of (distances !! current)) (Fin 1) in
    if num_lt newDist (num_of (distances !! neighbor))
    then (<[neighbor := newDist]> distances, <[neighbor := current]> parent)
    else acc.

Definition dijkstra_search (st : dijkstra_state) : step_result (machine dijkstra_state) :=
  match getMinDistance (dj_grid st) (dj_visited st) (dj_distances st) with
  | None => Done (mkResult [] (dj_visitedPositions st) false)
  | Some current =>
      let visited := {[current]} ∪ dj_visited st in
      let visitedPositions := dj_visitedPositions st ++ [current] in
      if pos_eqb current (dj_end st) then
        Continue (Rebuilding (mkRebuild (dj_grid st) (dj_start st) (dj_parent st)
                                visitedPositions [] (dj_end st)))
      else
        match getNeighbors (dj_grid st) current with
        | None => Throw
        | Some ns =>
            let '(distances, parent) :=
              fold_left (dijkstra_relax visited current) ns (dj_distances st, dj_parent st) in
            Continue (Searching (mkDijkstra (dj_grid st) (dj_start st) (dj_end st)
                                   distances parent visited visitedPositions))
        end
  end.

Definition init_scores (grid : Grid) : gmap Position num :=
  fold_left (fun m key => <[key := Infinity]> m) (grid_keys grid) ∅.

Definition dijkstra (fuel : nat) (grid : Grid) : outcome AlgorithmResult :=
  match se_start (findStartAndEnd grid), se_end (findStartAndEnd grid) with
  | Some start, Some end_ =>
      run (machine_step dijkstra_search) fuel
        (Searching (mkDijkstra grid start end_ (<[start := Fin 0]> (init_scores grid))
                      ∅ ∅ []))
  | _, _ => Returned (mkResult [] [] false)
  end.

(** ** A* *)

(** [Math.abs(a.row - b.row) + Math.abs(a.col - b.col)] *)
Definition heuristic (a b : Position) : Z :=
  Z.abs (row a - row b) + Z.abs (col a - col b).

Record astar_state := mkAstar {
  as_grid : Grid;
  as_start : Position;
  as_end : Position;
  as_openSet : list Position;
  as_closedSet : gset Position;
  as_gScore : gmap Position num;
  as_fScore : gmap Position num;
  as_parent : gmap Position Position;
  as_visitedPositions : list Position
}.

(** The scan for the open key of lowest f-score; [None] is the initial
    [currentKey = ''] that no key has replaced. *)
Definition lowest_body (fScore : gmap Position num)
    (acc : option Position * num) (key : Position) : option Position * num :=
  if num_lt (num_of (fScore !! key)) (snd acc)
  then (Some key, num_of (fScore !! key))
  else acc.

Definition lowest_fScore (openSet : list Position) (fScore : gmap Position num)
    : option Position :=
  fst (fold_left (lowest_body fScore) openSet (None, Infinity)).

(** One round of the neighbor loop of [aStar]. *)
Definition astar_relax (closedSet : gset Position) (current end_ : Position)
    (acc : list Position * gmap Position num * gmap Position num * gmap Position Position)
    (neighbor : Position)
    : list Position * gmap Position num * gmap Position num * gmap Position Position :=
  let '(openSet, gScore, fScore, parent) := acc in
  if decide (neighbor ∈ closedSet) then acc
  else
    let tentativeGScore := num_add (num_of (gScore !! current)) (Fin 1) in
    let update openSet' :=
      (openSet', <[neighbor := tentativeGScore]> gScore,
       <[neighbor := num_add tentativeGScore (Fin (heuristic neighbor end_))]> fScore,
       <[neighbor := current]> parent) in
    if negb (bool_decide (neighbor ∈ openSet)) then update (openSet ++ [neighbor])
    else if num_ge tentativeGScore (num_of (gScore !! neighbor)) then acc
    else update openSet.

Definition astar_search (st : astar_state) : step_result (machine astar_state) :=
  match as_openSet st with
  | [] => Done (mkResult [] (as_visitedPositions st) false)
  | _ =>
      match lowest_fScore (as_openSet st) (as_fScore st) with
      | None =>
          (* [currentKey] is still [''] : nothing leaves the open set and
             no neighbor passes the bounds test, the loop goes round again *)
          Continue (Searching st)
      | Some current =>
          if pos_eqb current (as_end st) then
            Continue (Rebuilding (mkRebuild (as_grid st) (as_start st) (as_parent st)
                                    (as_visitedPositions st) [] (as_end st)))
          else
            let openSet := filter (fun k => k ≠ current) (as_openSet st) in
            let closedSet := {[current]} ∪ as_closedSet st in
            let visitedPositions := as_visitedPositions st ++ [current] in
            match getNeighbors (as_grid st) current with
            | None => Throw
            | Some ns =>
                let '(openSet', gScore, fScore, parent) :=
                  fold_left (astar_relax closedSet current (as_end st)) ns
                    (openSet, as_gScore st, as_fScore st, as_parent st) in
                Continue (Searching (mkAstar (as_grid st) (as_start st) (as_end st)
                                       openSet' closedSet gScore fScore parent
                                       visitedPositions))
            end
      end
  end.

Definition aStar (fuel : nat) (grid : Grid) : outcome AlgorithmResult :=
  match se_start (findStartAndEnd grid), se_end (findStartAndEnd grid) with
  | Some start, Some end_ =>
      run (machine_step astar_search) fuel
        (Searching (mkAstar grid start end_ [start] ∅
                      (<[start := Fin 0]> (init_scores grid))
                      (<[start := Fin (heuristic start end_)]> (init_scores grid))
                      ∅ []))
  | _, _ => Returned (mkResult [] [] false)
  end.

(** ** Greedy best-first search *)

Record greedy_state := mkGreedy {
  gr_grid : Grid;
  gr_rows : Z;
  gr_cols : Z;
  gr_start : Position;
  gr_end : Position;
  gr_openSet : list Position;
  gr_closedSet : gset Position;
  gr_cameFrom : gmap Position Position;
  gr_visited : list Position;
  gr_path : list Position
}.

(** The scan of [greedyBestFirst] for the start and the end: columns [js]
    of row [i]; [None] is the [TypeError] of reading [grid[i][j].type]
    outside a row. *)
Fixpoint greedy_locate_row (grid : Grid) (i : Z) (js : list nat) (acc : StartEnd)
    : option StartEnd :=
  match js with
  | [] => Some acc
  | j :: js' =>
      match cellAt grid i (Z.of_nat j) with
      | None => None
      | Some c =>
          let acc1 := if decide (cell_type c = T_start)
                      then mkStartEnd (Some (mkPos i (Z.of_nat j))) (se_end acc) else acc in
          let acc2 := if decide (cell_type c = T_end)
                      then mkStartEnd (se_start acc1) (Some (mkPos i (Z.of_nat j))) else acc1 in
          greedy_locate_row grid i js' acc2
      end
  end.

Fixpoint greedy_locate_rows (grid : Grid) (rs : list nat) (cols : nat) (acc : StartEnd)
    : option StartEnd :=
  match rs with
  | [] => Some acc
  | i :: rs' =>
      match greedy_locate_row grid (Z.of_nat i) (seq 0 cols) acc with
      | None => None
      | Some acc' => greedy_locate_rows grid rs' cols acc'
      end
  end.

Definition greedy_locate (grid : Grid) (rows cols : nat) : option StartEnd :=
  greedy_locate_rows grid (seq 0 rows) cols (mkStartEnd None None).

(** The index of the first open position of lowest heuristic value. *)
Definition greedy_lowest (end_ : Position) (openSet : list Position) : nat :=
  fold_left
    (fun currentIndex i =>
       match openSet !! i, openSet !! currentIndex with
       | Some a, Some b => if heuristic a end_ <? heuristic b end_ then i else currentIndex
       | _, _ => currentIndex
       end)
    (seq 0 (length openSet)) 0%nat.

(** One round of [for (const neighbor of neighbors)] of [greedyBestFirst]. *)
Definition greedy_visit (grid : Grid) (rows cols : Z) (closedSet : gset Position)
    (current : Position)
    (acc : option (list Position * gmap Position Position)) (neighbor : Position)
    : option (list Position * gmap Position Position) :=
  match acc with
  | None => None
  | Some (openSet, cameFrom) =>
      if (row neighbor <? 0) || (rows <=? row neighbor)
         || (col neighbor <? 0) || (cols <=? col neighbor)
      then acc
      else
        match cellOf grid neighbor with
        | None => None
        | Some c =>
            if bool_decide (cell_type c = T_wall) || bool_decide (neighbor ∈ closedSet)
            then acc
            else if negb (existsb (fun pos => pos_eqb pos neighbor) openSet)
            then Some (openSet ++ [neighbor], <[neighbor := current]> cameFrom)
            else acc
        end
  end.

Definition greedy_search (st : greedy_state) : step_result (machine greedy_state) :=
  match gr_openSet st with
  | [] => Done (mkResult (gr_path st) (gr_visited st) false)
  | _ =>
      let currentIndex := greedy_lowest (gr_end st) (gr_openSet st) in
      match gr_openSet st !! currentIndex with
      | None => Throw
      | Some current =>
          let visited := gr_visited st ++ [current] in
          let openSet := delete currentIndex (gr_openSet st) in   (* splice *)
          if pos_eqb current (gr_end st) then
            Continue (Rebuilding (mkRebuild (gr_grid st) (gr_start st) (gr_cameFrom st)
                                    visited (gr_path st) current))
          else
            let neighbors :=
              [ mkPos (row current - 1) (col current);
                mkPos (row current + 1) (col current);
                mkPos (row current) (col current - 1);
                mkPos (row current) (col current + 1) ] in
            match fold_left (greedy_visit (gr_grid st) (gr_rows st) (gr_cols st)
                               (gr_closedSet st) current)
                    neighbors (Some (openSet, gr_cameFrom st)) with
            | None => Throw
            | Some (openSet', cameFrom) =>
                Continue (Searching (mkGreedy (gr_grid st) (gr_rows st) (gr_cols st)
                                       (gr_start st) (gr_end st) openSet'
                                       (gr_closedSet st) cameFrom visited (gr_path st)))
            end
      end
  end.

Definition greedyBestFirst (fuel : nat) (grid : Grid) : outcome AlgorithmResult :=
  match grid with
  | [] => Threw                                (* grid[0].length *)
  | row0 :: _ =>
      match greedy_locate grid (length grid) (length row0) with
      | None => Threw
      | Some (mkStartEnd (Some start) (Some end_)) =>
          run (machine_step greedy_search) fuel
            (Searching (mkGreedy grid (Z.of_nat (length grid)) (Z.of_nat (length row0))
                          start end_ [start] {[start]} ∅ [] []))
      | Some _ => Returned (mkResult [] [] false)
      end
  end.

(** ** Test grids *)

Fixpoint mkRow (r c : Z) (ts : list CellType) : list Cell :=
  match ts with
  | [] => []
  | t :: ts' => mkCell t r c :: mkRow r (c + 1) ts'
  end.

Fixpoint mkRows (r : Z) (tss : list (list CellType)) : Grid :=
  match tss with
  | [] => []
  | ts :: tss' => mkRow r 0 ts :: mkRows (r + 1) tss'
  end.

Definition mkGrid (tss : list (list CellType)) : Grid := mkRows 0 tss.

Definition grid3x3 : Grid :=
  mkGrid [ [T_start; T_empty; T_empty];
           [T_empty; T_empty; T_empty];
           [T_empty; T_empty; T_end] ].

Definition grid_detour : Grid :=
  mkGrid [ [T_start; T_wall; T_end];
           [T_empty; T_wall; T_empty];
           [T_empty; T_empty; T_empty] ].

Definition grid1x4 : Grid := mkGrid [ [T_start; T_empty; T_empty; T_end] ].
Definition grid1x3 : Grid := mkGrid [ [T_start; T_empty; T_end] ].
Definition grid1x2 : Grid := mkGrid [ [T_start; T_end] ].
Definition grid_blocked : Grid :=
  mkGrid [ [T_start; T_empty; T_empty; T_wall; T_end] ].
Definition grid_two_starts : Grid :=
  mkGrid [ [T_start; T_empty; T_end];
           [T_end; T_start; T_empty] ].
Definition grid_enclosed : Grid :=
  mkGrid [ [T_empty; T_wall; T_empty];
           [T_wall; T_start; T_wall];
           [T_empty; T_wall; T_end] ].


(** ** Vocabulary of the properties *)

(** The cell at [p] exists and has kind [t]. *)
Definition kind_is (grid : Grid) (t : CellType) (p : Position) : Prop :=
  exists c, cellOf grid p = Some c /\ cell_type c = t.

(** The cell at [p] exists and is not a wall. *)
Definition passable (grid : Grid) (p : Position) : Prop :=
  exists c, cellOf grid p = Some c /\ cell_type c <> T_wall.

(** [q] is one step up, down, left or right of [p]. *)
Definition adjacent (p q : Position) : Prop :=
  (row q = row p - 1 /\ col q = col p) \/
  (row q = row p + 1 /\ col q = col p) \/
  (row q = row p /\ col q = col p - 1) \/
  (row q = row p /\ col q = col p + 1).

(** A move of the 4-connected grid graph: into an adjacent cell that is
    not a wall. *)
Definition edge (grid : Grid) (p q : Position) : Prop :=
  adjacent p q /\ passable grid q.

(** [walk grid p q n]: [q] is reached from [p] in [n] moves. *)
Inductive walk (grid : Grid) (p : Position) : Position -> nat -> Prop :=
  | walk_here : walk grid p p 0
  | walk_step q q' n : walk grid p q n -> edge grid q q' -> walk grid p q' (S n).

Definition reachable (grid : Grid) (p q : Position) : Prop :=
  exists n, walk grid p q n.

(** Consecutive positions of [l] are adjacent. *)
Fixpoint chain (l : list Position) : Prop :=
  match l with
  | p :: ((q :: _) as l') => adjacent p q /\ chain l'
  | _ => True
  end.

(** The walk a successful search must return: consecutive positions are
    adjacent, no position repeats, every position is a cell of the grid
    that is not a wall, the first is the start and the last is the end. *)
Definition valid_walk (grid : Grid) (start end_ : Position) (l : list Position) : Prop :=
  chain l /\ NoDup l /\ (forall p, p ∈ l -> passable grid p) /\
  head l = Some start /\ last l = Some end_.

(** The cells of the grid with their positions, in row-major order. *)
Fixpoint row_entries (r c : Z) (cells : list Cell) : list (Position * Cell) :=
  match cells with
  | [] => []
  | cell :: cells' => (mkPos r c, cell) :: row_entries r (c + 1) cells'
  end.

Fixpoint grid_entries_from (r : Z) (rows : Grid) : list (Position * Cell) :=
  match rows with
  | [] => []
  | cells :: rows' => row_entries r 0 cells ++ grid_entries_from (r + 1) rows'
  end.

Definition grid_entries (grid : Grid) : list (Position * Cell) :=
  grid_entries_from 0 grid.

Definition count_type (t : CellType) (grid : Grid) : nat :=
  length (filter (fun e => cell_type (snd e) = t) (grid_entries grid)).

(** Rectangular, at least one row and one column, at most one start and at
    most one end. *)
Definition wf_grid (grid : Grid) : Prop :=
  (1 <= length grid)%nat /\
  (exists cols, (1 <= cols)%nat /\ Forall (fun cells => length cells = cols) grid) /\
  (count_type T_start grid <= 1)%nat /\
  (count_type T_end grid <= 1)%nat.

(** Row-major order on positions. *)
Definition row_major_lt (p q : Position) : Prop :=
  row p < row q \/ (row p = row q /\ col p < col q).

(** [o] is the last position of kind [t] of a row-major scan, or [None]
    when there is no cell of that kind. *)
Definition last_of_kind (grid : Grid) (t : CellType) (o : option Position) : Prop :=
  match o with
  | Some p => kind_is grid t p /\ forall q, kind_is grid t q -> q = p \/ row_major_lt q p
  | None => forall q, ~ kind_is grid t q
  end.

(** The state of the machine after [n] transitions, when it is still
    running. *)
Fixpoint state_after {St : Type} (step : St -> step_result St) (n : nat) (s : St)
    : option St :=
  match n with
  | O => Some s
  | S n' =>
      match step s with
      | Continue s' => state_after step n' s'
      | _ => None
      end
  end.

(** ** The second copy of the greedy strategy

    The repository holds a second copy of the engine whose
    [greedyBestFirst] keeps the open set as a [Set] of keys, scanned in
    insertion order, and moves every expanded key to the closed set. *)

Module Part002.

Record greedy_state := mkGreedy {
  gr_grid : Grid;
  gr_start : Position;
  gr_end : Position;
  gr_openSet : list Position;
  gr_closedSet : gset Position;
  gr_parent : gmap Position Position;
  gr_visitedPositions : list Position
}.

(** The scan for the open key of lowest heuristic value; [None] is the
    initial [currentKey = ''] that no key has replaced. *)
Definition lowest_body (end_ : Position)
    (acc : option Position * num) (key : Position) : option Position * num :=
  if num_lt (Fin (heuristic key end_)) (snd acc)
  then (Some key, Fin (heuristic key end_))
  else acc.

Definition lowest_heuristic (openSet : list Position) (end_ : Position)
    : option Position :=
  fst (fold_left (lowest_body end_) openSet (None, Infinity)).

(** One round of the neighbor loop. *)
Definition greedy_relax (closedSet : gset Position) (current : Position)
    (acc : list Position * gmap Position Position) (neighbor : Position)
    : list Position * gmap Position Position :=
  let '(openSet, parent) := acc in
  if decide (neighbor ∈ closedSet) then acc
  else if negb (bool_decide (neighbor ∈ openSet))
       then (openSet ++ [neighbor], <[neighbor := current]> parent)
       else acc.

Definition greedy_search (st : greedy_state) : step_result (machine greedy_state) :=
  match gr_openSet st with
  | [] => Done (mkResult [] (gr_visitedPositions st) false)
  | _ =>
      match lowest_heuristic (gr_openSet st) (gr_end st) with
      | None => Continue (Searching st)
      | Some current =>
          if pos_eqb current (gr_end st) then
            Continue (Rebuilding (mkRebuild (gr_grid st) (gr_start st) (gr_parent st)
                                    (gr_visitedPositions st) [] (gr_end st)))
          else
            let openSet := filter (fun k => k ≠ current) (gr_openSet st) in
            let closedSet := {[current]} ∪ gr_closedSet st in
            let visitedPositions := gr_visitedPositions st ++ [current] in
            match getNeighbors (gr_grid st) current with
            | None => Throw
            | Some ns =>
                let '(openSet', parent) :=
                  fold_left (greedy_relax closedSet current) ns (openSet, gr_parent st) in
                Continue (Searching (mkGreedy (gr_grid st) (gr_start st) (gr_end st)
                                       openSet' closedSet parent visitedPositions))
            end
      end
  end.

Definition greedyBestFirst (fuel : nat) (grid : Grid) : outcome AlgorithmResult :=
  match se_start (findStartAndEnd grid), se_end (findStartAndEnd grid) with
  | Some start, Some end_ =>
      run (machine_step greedy_search) fuel
        (Searching (mkGreedy grid start end_ [start] ∅ ∅ []))
  | _, _ => Returned (mkResult [] [] false)
  end.

End Part002.

(** ** The page

    The grid state of the page component [Home] and the code that updates
    it.  A handler is a function of the state that its closure captured;
    the dependency lists of the [useCallback] hooks name every state value
    a handler reads, so a handler always runs on the state that is
    displayed.  An updater passed to [setGrid] is a function of the
    previous grid.  Reading a property of [undefined] is [None]. *)

Inductive Algorithm := A_dijkstra | A_astar | A_bfs | A_dfs.

Record Page := mkPage {
  pg_gridSize : nat;
  pg_grid : Grid;
  pg_isDrawing : bool;
  pg_selectedAlgorithm : Algorithm;
  pg_isRunning : bool
}.

(** [{ ...cell, type: t }] *)
Definition with_type (t : CellType) (cell : Cell) : Cell :=
  mkCell t (cell_row cell) (cell_col cell).

(** The effect that initializes the grid: [gridSize] rows of [gridSize]
    empty cells, each carrying its coordinates. *)
Definition initGrid (gridSize : nat) : Grid :=
  map (fun i => map (fun j => mkCell T_empty (Z.of_nat i) (Z.of_nat j)) (seq 0 gridSize))
      (seq 0 gridSize).

(** The page once mounted: the initial values of the state hooks, and the
    grid that the effect has built. *)
Definition mount : Page := mkPage 5 (initGrid 5) false A_dijkstra false.

(** [setGridSize(n)] followed by the effect, which runs when [gridSize]
    has changed. *)
Definition setGridSize (n : nat) (pg : Page) : Page :=
  if decide (n = pg_gridSize pg) then pg
  else mkPage n (initGrid n) (pg_isDrawing pg) (pg_selectedAlgorithm pg) (pg_isRunning pg).

Definition setSelectedAlgorithm (a : Algorithm) (pg : Page) : Page :=
  mkPage (pg_gridSize pg) (pg_grid pg) (pg_isDrawing pg) a (pg_isRunning pg).

Definition setGrid (update : Grid -> Grid) (pg : Page) : Page :=
  mkPage (pg_gridSize pg) (update (pg_grid pg)) (pg_isDrawing pg)
         (pg_selectedAlgorithm pg) (pg_isRunning pg).

Definition setIsDrawing (b : bool) (pg : Page) : Page :=
  mkPage (pg_gridSize pg) (pg_grid pg) b (pg_selectedAlgorithm pg) (pg_isRunning pg).

Definition clearGrid (pg : Page) : Page :=
  if pg_isRunning pg then pg
  else setGrid (map (map (with_type T_empty))) pg.

Definition clearPath (pg : Page) : Page :=
  if pg_isRunning pg then pg
  else setGrid
         (map (map (fun cell =>
            with_type (if bool_decide (cell_type cell = T_path)
                          || bool_decide (cell_type cell = T_visited)
                       then T_empty else cell_type cell) cell)))
         pg.

(** [grid.some((row) => row.some((cell) => cell.type === t))] *)
Definition some_type (t : CellType) (grid : Grid) : bool :=
  existsb (fun cells => existsb (fun cell => bool_decide (cell_type cell = t)) cells) grid.

(** [newGrid[r][c].type = t] on a copy [newGrid] of [grid], for a cell that
    exists. *)
Definition set_type (t : CellType) (r c : Z) (grid : Grid) : Grid :=
  alter (alter (with_type t) (Z.to_nat c)) (Z.to_nat r) grid.

(** The updater of [handleCellClick]. *)
Definition handleCellClick_update (r c : Z) (prevGrid : Grid) : option Grid :=
  match cellAt prevGrid r c with
  | None => None
  | Some cell =>
      if bool_decide (cell_type cell = T_start) || bool_decide (cell_type cell = T_end)
      then Some (set_type T_empty r c prevGrid)
      else if negb (some_type T_start prevGrid)
      then Some (set_type T_start r c prevGrid)
      else if negb (some_type T_end prevGrid)
      then Some (set_type T_end r c prevGrid)
      else Some (set_type (if bool_decide (cell_type cell = T_wall) then T_empty else T_wall)
                   r c prevGrid)
  end.

Definition handleCellClick (r c : Z) (pg : Page) : option Page :=
  if pg_isRunning pg then Some pg
  else match handleCellClick_update r c (pg_grid pg) with
       | None => None
       | Some grid => Some (setGrid (fun _ => grid) pg)
       end.

Definition handleMouseDown (r c : Z) (pg : Page) : option Page :=
  if pg_isRunning pg then Some pg
  else handleCellClick r c (setIsDrawing true pg).

Definition handleMouseEnter (r c : Z) (pg : Page) : option Page :=
  if negb (pg_isDrawing pg) || pg_isRunning pg then Some pg
  else handleCellClick r c pg.

Definition handleMouseUp (pg : Page) : Page := setIsDrawing false pg.

(** The updater of [visualizeAlgorithm]:
    [newGrid[pos.row][pos.col].type = t] on a copy of the previous grid. *)
Definition paint (t : CellType) (pos : Position) (prevGrid : Grid) : option Grid :=
  match cellOf prevGrid pos with
  | None => None
  | Some _ => Some (set_type t (row pos) (col pos) prevGrid)
  end.

(** One of the two loops of [visualizeAlgorithm]: [grid] is the grid that
    the closure captured, [cur] the grid that the updaters are applied
    to. *)
Fixpoint visualize_loop (grid : Grid) (t : CellType) (ps : list Position) (cur : Grid)
    : option Grid :=
  match ps with
  | [] => Some cur
  | pos :: ps' =>
      match cellOf grid pos with
      | None => None
      | Some cell =>
          if negb (bool_decide (cell_type cell = T_start))
             && negb (bool_decide (cell_type cell = T_end))
          then match paint t pos cur with
               | None => None
               | Some cur' => visualize_loop grid t ps' cur'
               end
          else visualize_loop grid t ps' cur
      end
  end.

(** [visualizeAlgorithm(result)]: nothing is painted for a failure (the
    page alerts), else the visited cells and then the path. *)
Definition visualizeAlgorithm (grid : Grid) (result : AlgorithmResult) (cur : Grid)
    : option Grid :=
  if negb (success result) then Some cur
  else match visualize_loop grid T_visited (visited result) cur with
       | None => None
       | Some cur' => visualize_loop grid T_path (path result) cur'
       end.

(** The [switch (selectedAlgorithm)] of [runAlgorithm]. *)
Definition run_selected (a : Algorithm) (fuel : nat) (grid : Grid)
    : outcome AlgorithmResult :=
  match a with
  | A_dijkstra => dijkstra fuel grid
  | A_astar => aStar fuel grid
  | A_bfs => bfs fuel grid
  | A_dfs => dfs fuel grid
  end.

(** [runAlgorithm()], when no other event is handled before the
    visualization has finished: the updaters are applied to the grid that
    was searched. *)
Definition runAlgorithm (fuel : nat) (pg : Page) : outcome Page :=
  if pg_isRunning pg then
    Returned (mkPage (pg_gridSize pg) (pg_grid pg) (pg_isDrawing pg)
                     (pg_selectedAlgorithm pg) false)
  else
    match run_selected (pg_selectedAlgorithm pg) fuel (pg_grid pg) with
    | Returned result =>
        match visualizeAlgorithm (pg_grid pg) result (pg_grid pg) with
        | Some grid =>
            Returned (mkPage (pg_gridSize pg) grid (pg_isDrawing pg)
                             (pg_selectedAlgorithm pg) false)
        | None => Threw
        end
    | Threw => Threw
    | OutOfFuel => OutOfFuel
    end.

(** The states of the page: those that the handlers produce from the
    mounted page. *)
Inductive page_state : Page -> Prop :=
  | ps_mount : page_state mount
  | ps_setGridSize n pg : page_state pg -> page_state (setGridSize n pg)
  | ps_setSelectedAlgorithm a pg : page_state pg -> page_state (setSelectedAlgorithm a pg)
  | ps_clearGrid pg : page_state pg -> page_state (clearGrid pg)
  | ps_clearPath pg : page_state pg -> page_state (clearPath pg)
  | ps_mouseDown r c pg pg' :
      page_state pg -> handleMouseDown r c pg = Some pg' -> page_state pg'
  | ps_mouseEnter r c pg pg' :
      page_state pg -> handleMouseEnter r c pg = Some pg' -> page_state pg'
  | ps_mouseUp pg : page_state pg -> page_state (handleMouseUp pg)
  | ps_run fuel pg pg' :
      page_state pg -> runAlgorithm fuel pg = Returned pg' -> page_state pg'.

(** * Properties *)

(** ** The loop driver *)

Section Driver.
Context {St : Type} (step : St -> step_result St).

Lemma run_S_Continue fuel s s' :
  step s = Continue s' -> run step (S fuel) s = run step fuel s'.
Proof. intros H; simpl; rewrite H; reflexivity. Qed.

Lemma run_mono fuel fuel' s r :
  run step fuel s = Returned r -> (fuel <= fuel')%nat -> run step fuel' s = Returned r.
Proof.
  revert fuel' s; induction fuel as [|fuel IH]; intros fuel' s H Hle; [discriminate|].
  destruct fuel' as [|fuel']; [lia|].
  simpl in *. destruct (step s); try assumption.
  apply IH; [assumption | lia].
Qed.

Lemma run_deterministic fuel1 fuel2 s r1 r2 :
  run step fuel1 s = Returned r1 -> run step fuel2 s = Returned r2 -> r1 = r2.
Proof.
  intros H1 H2.
  apply (run_mono _ (fuel1 + fuel2)) in H1; [|lia].
  apply (run_mono _ (fuel1 + fuel2)) in H2; [|lia].
  congruence.
Qed.

(** Total correctness from an invariant and a measure: every transition
    from a state of [Inv] either returns a result of [Post], or goes on to
    a state of [Inv] of smaller measure, or goes on to a state from which
    the machine is known to return a result of [Post]. *)
Lemma run_total (Inv : St -> Prop) (mu : St -> nat) (Post : AlgorithmResult -> Prop) :
  (forall s, Inv s ->
     match step s with
     | Continue s' =>
         (Inv s' /\ (mu s' < mu s)%nat) \/
         (exists fuel r, run step fuel s' = Returned r /\ Post r)
     | Done r => Post r
     | Throw => False
     end) ->
  forall s, Inv s -> exists fuel r, run step fuel s = Returned r /\ Post r.
Proof.
  intros Hstep s.
  remember (mu s) as n eqn:Hn. revert s Hn.
  induction n as [n IH] using lt_wf_ind; intros s Hn Hs.
  specialize (Hstep s Hs).
  destruct (step s) as [s'| r |] eqn:E; [| |contradiction].
  - destruct Hstep as [[Hs' Hlt] | (fuel & r & Hrun & HP)].
    + destruct (IH (mu s') ltac:(lia) s' eq_refl Hs') as (fuel & r & Hrun & HP).
      exists (S fuel), r. split; [|assumption].
      rewrite (run_S_Continue _ _ _ E). assumption.
    + exists (S fuel), r. split; [|assumption].
      rewrite (run_S_Continue _ _ _ E). assumption.
  - exists 1%nat, r. simpl. rewrite E. auto.
Qed.

(** A property of the result that holds for one bound holds for every
    bound under which the machine returns. *)
Lemma run_total_partial (Post : AlgorithmResult -> Prop) s :
  (exists fuel r, run step fuel s = Returned r /\ Post r) ->
  forall fuel r, run step fuel s = Returned r -> Post r.
Proof.
  intros (fuel0 & r0 & H0 & HP) fuel r H.
  rewrite (run_deterministic _ _ _ _ _ H H0). assumption.
Qed.

(** A set of states closed under the transitions, none of which returns:
    the machine never returns from it. *)
Lemma run_never (Bad : St -> Prop) :
  (forall s, Bad s -> exists s', step s = Continue s' /\ Bad s') ->
  forall fuel s, Bad s -> run step fuel s = OutOfFuel.
Proof.
  intros Hstep fuel; induction fuel as [|fuel IH]; intros s Hs; [reflexivity|].
  destruct (Hstep s Hs) as (s' & E & Hs'). simpl. rewrite E. auto.
Qed.

Lemma state_after_invariant (Inv : St -> Prop) :
  (forall s s', Inv s -> step s = Continue s' -> Inv s') ->
  forall n s s', Inv s -> state_after step n s = Some s' -> Inv s'.
Proof.
  intros Hstep n; induction n as [|n IH]; intros s s' Hs H; simpl in H.
  - congruence.
  - destruct (step s) eqn:E; try discriminate. eauto.
Qed.

End Driver.

(** ** Positions and cells *)

Lemma pos_eqb_eq a b : pos_eqb a b = true <-> a = b.
Proof.
  unfold pos_eqb. rewrite andb_true_iff, !Z.eqb_eq.
  destruct a, b; simpl; split; [intros [-> ->]; reflexivity | intros [= -> ->]; auto].
Qed.

Lemma pos_eqb_refl a : pos_eqb a a = true.
Proof. apply pos_eqb_eq; reflexivity. Qed.

Lemma pos_eqb_neq a b : pos_eqb a b = false <-> a <> b.
Proof.
  rewrite <- pos_eqb_eq. destruct (pos_eqb a b); split; congruence.
Qed.

Lemma cellAt_Some grid r c cell :
  cellAt grid r c = Some cell <->
  exists (i j : nat) cells,
    r = Z.of_nat i /\ c = Z.of_nat j /\ grid !! i = Some cells /\ cells !! j = Some cell.
Proof.
  unfold cellAt. split.
  - destruct (r <? 0) eqn:Er; [discriminate|].
    destruct (c <? 0) eqn:Ec; [discriminate|]. simpl.
    apply Z.ltb_ge in Er, Ec.
    destruct (grid !! Z.to_nat r) as [cells|] eqn:Eg; [|discriminate].
    intros H. exists (Z.to_nat r), (Z.to_nat c), cells.
    repeat split; try assumption; lia.
  - intros (i & j & cells & -> & -> & Hg & Hc).
    destruct (Z.of_nat i <? 0) eqn:Er; [apply Z.ltb_lt in Er; lia|].
    destruct (Z.of_nat j <? 0) eqn:Ec; [apply Z.ltb_lt in Ec; lia|]. simpl.
    rewrite !Nat2Z.id, Hg. assumption.
Qed.

Lemma row_entries_elem r c0 cells p cell :
  (p, cell) ∈ row_entries r c0 cells <->
  exists j : nat, p = mkPos r (c0 + Z.of_nat j) /\ cells !! j = Some cell.
Proof.
  revert c0; induction cells as [|x cells IH]; intros c0; simpl.
  - rewrite elem_of_nil. split; [tauto | intros (j & _ & H); discriminate].
  - rewrite elem_of_cons, IH. split.
    + intros [[= -> ->] | (j & -> & Hj)].
      * exists 0%nat. split; [f_equal; lia | reflexivity].
      * exists (S j). split; [f_equal; lia | assumption].
    + intros ([|j] & -> & Hj); simpl in Hj.
      * left. injection Hj as ->. f_equal. f_equal. lia.
      * right. exists j. split; [f_equal; lia | assumption].
Qed.

Lemma grid_entries_from_elem r0 rows p cell :
  (p, cell) ∈ grid_entries_from r0 rows <->
  exists (i j : nat) cells,
    p = mkPos (r0 + Z.of_nat i) (Z.of_nat j) /\ rows !! i = Some cells /\ cells !! j = Some cell.
Proof.
  revert r0; induction rows as [|cells rows IH]; intros r0; simpl.
  - rewrite elem_of_nil. split; [tauto | intros (i & j & c & _ & H & _); discriminate].
  - rewrite elem_of_app, row_entries_elem, IH. split.
    + intros [(j & -> & Hj) | (i & j & cs & -> & Hi & Hj)].
      * exists 0%nat, j, cells. repeat split; [f_equal; lia | assumption].
      * exists (S i), j, cs. repeat split; [f_equal; lia | assumption | assumption].
    + intros ([|i] & j & cs & -> & Hi & Hj); simpl in Hi.
      * left. injection Hi as ->. exists j. split; [f_equal; lia | assumption].
      * right. exists i, j, cs. repeat split; [f_equal; lia | assumption | assumption].
Qed.

Lemma grid_entries_elem grid p cell :
  (p, cell) ∈ grid_entries grid <-> cellOf grid p = Some cell.
Proof.
  unfold grid_entries, cellOf. rewrite grid_entries_from_elem, cellAt_Some.
  split.
  - intros (i & j & cells & -> & Hi & Hj). exists i, j, cells. simpl.
    repeat split; try assumption; lia.
  - intros (i & j & cells & Hr & Hc & Hi & Hj). exists i, j, cells.
    repeat split; try assumption. destruct p; simpl in *; subst. f_equal.
Qed.

Definition entry_lt (a b : Position * Cell) : Prop := row_major_lt (fst a) (fst b).

Lemma row_entries_sorted r c0 cells : StronglySorted entry_lt (row_entries r c0 cells).
Proof.
  revert c0; induction cells as [|x cells IH]; intros c0; simpl; constructor; [apply IH|].
  apply Forall_forall. intros [p cell] Hin.
  apply row_entries_elem in Hin as (j & -> & _).
  right; simpl; lia.
Qed.

Lemma grid_entries_from_sorted r0 rows : StronglySorted entry_lt (grid_entries_from r0 rows).
Proof.
  revert r0; induction rows as [|cells rows IH]; intros r0; simpl; [constructor|].
  apply StronglySorted_app_2; [|apply row_entries_sorted|apply IH].
  intros [p c] [q d] Hp Hq.
  apply row_entries_elem in Hp as (j & -> & _).
  apply grid_entries_from_elem in Hq as (i & j' & cs & -> & _).
  left; simpl; lia.
Qed.

Lemma row_major_lt_irrefl p : ~ row_major_lt p p.
Proof. unfold row_major_lt; lia. Qed.

(** A grid cell of kind [t] is unique when the grid has at most one. *)
Lemma kind_unique grid t p q :
  (count_type t grid <= 1)%nat -> kind_is grid t p -> kind_is grid t q -> p = q.
Proof.
  unfold count_type. intros Hc (c & Hp & Hpt) (d & Hq & Hqt).
  apply grid_entries_elem in Hp, Hq.
  assert (Hp' : (p, c) ∈ filter (fun e => cell_type (snd e) = t) (grid_entries grid))
    by (apply list_elem_of_filter; auto).
  assert (Hq' : (q, d) ∈ filter (fun e => cell_type (snd e) = t) (grid_entries grid))
    by (apply list_elem_of_filter; auto).
  destruct (filter _ (grid_entries grid)) as [|x [|y l]]; simpl in Hc; [| |lia].
  - apply elem_of_nil in Hp'. contradiction.
  - apply list_elem_of_singleton in Hp', Hq'. congruence.
Qed.

(** ** The start/end locator *)

Definition locate_body (acc : StartEnd) (e : Position * Cell) : StartEnd :=
  if decide (cell_type (snd e) = T_start) then mkStartEnd (Some (fst e)) (se_end acc)
  else if decide (cell_type (snd e) = T_end) then mkStartEnd (se_start acc) (Some (fst e))
  else acc.

Lemma findStartAndEnd_row_fold cells r c acc :
  findStartAndEnd_row cells r c acc = fold_left locate_body (row_entries r c cells) acc.
Proof.
  revert c acc; induction cells as [|x cells IH]; intros c acc; simpl; [reflexivity|].
  rewrite IH. reflexivity.
Qed.

Lemma findStartAndEnd_rows_fold rows r acc :
  findStartAndEnd_rows rows r acc = fold_left locate_body (grid_entries_from r rows) acc.
Proof.
  revert r acc; induction rows as [|cells rows IH]; intros r acc; simpl; [reflexivity|].
  rewrite IH, fold_left_app, findStartAndEnd_row_fold. reflexivity.
Qed.

(** The component of a [StartEnd] for the kind [t]. *)
Definition se_sel (t : CellType) (se : StartEnd) : option Position :=
  match t with T_start => se_start se | _ => se_end se end.

Lemma locate_body_sel t acc e :
  t = T_start \/ t = T_end ->
  se_sel t (locate_body acc e) =
  if decide (cell_type (snd e) = t) then Some (fst e) else se_sel t acc.
Proof.
  unfold locate_body. intros [-> | ->]; simpl;
    repeat (destruct (decide _)); simpl; congruence.
Qed.

Lemma locate_fold_sel t l acc :
  t = T_start \/ t = T_end ->
  se_sel t (fold_left locate_body l acc) =
  match last (filter (fun e => cell_type (snd e) = t) l) with
  | Some e => Some (fst e)
  | None => se_sel t acc
  end.
Proof.
  intros Ht. revert acc; induction l as [|x l IH] using rev_ind; intros acc; [reflexivity|].
  rewrite fold_left_app, filter_app. simpl.
  rewrite locate_body_sel by assumption.
  rewrite filter_cons, filter_nil.
  destruct (decide (cell_type (snd x) = t)).
  - rewrite last_snoc. reflexivity.
  - rewrite app_nil_r. apply IH.
Qed.

Lemma last_filter_split {A} (P : A -> Prop) `{forall x, Decision (P x)} (l : list A) e :
  last (filter P l) = Some e ->
  exists l1 l2, l = l1 ++ e :: l2 /\ P e /\ Forall (fun x => ~ P x) l2.
Proof.
  induction l as [|x l IH] using rev_ind; [discriminate|].
  rewrite filter_app, filter_cons, filter_nil.
  destruct (decide (P x)).
  - rewrite last_snoc. intros [= ->]. exists l, []. auto.
  - rewrite app_nil_r. intros Hl.
    destruct (IH Hl) as (l1 & l2 & -> & He & Hl2).
    exists l1, (l2 ++ [x]). rewrite <- app_assoc. simpl. repeat split; [assumption|].
    apply Forall_app; split; [assumption|]. constructor; [assumption|constructor].
Qed.

Lemma locate_last_of_kind grid t :
  t = T_start \/ t = T_end ->
  last_of_kind grid t (se_sel t (findStartAndEnd grid)).
Proof.
  intros Ht. unfold findStartAndEnd. rewrite findStartAndEnd_rows_fold.
  rewrite locate_fold_sel by assumption. fold (grid_entries grid).
  unfold last_of_kind.
  destruct (last _) as [[p c]|] eqn:El; simpl.
  - destruct (last_filter_split _ _ _ El) as (l1 & l2 & Hl & Hp & Hl2). simpl in Hp.
    split.
    + exists c. split; [|assumption]. apply grid_entries_elem. rewrite Hl.
      apply elem_of_app; right; left.
    + intros q (d & Hq & Hqt). apply grid_entries_elem in Hq. rewrite Hl in Hq.
      apply elem_of_app in Hq as [Hq | Hq].
      * right.
        pose proof (grid_entries_from_sorted 0 grid) as Hs.
        fold (grid_entries grid) in Hs. rewrite Hl in Hs.
        apply (StronglySorted_app_1_elem_of _ _ _ (q, d) (p, c)) in Hs;
          [exact Hs | assumption | left].
      * apply elem_of_cons in Hq as [[= -> ->] | Hq]; [left; reflexivity|].
        rewrite Forall_forall in Hl2. exfalso. apply (Hl2 _ Hq). assumption.
  - replace (se_sel t (mkStartEnd None None)) with (@None Position)
      by (destruct Ht as [-> | ->]; reflexivity).
    intros q (d & Hq & Hqt). apply grid_entries_elem in Hq.
    apply last_None in El.
    eapply (filter_nil_not_elem_of _ _ (q, d)); eauto.
Qed.

Lemma last_of_kind_unique grid t p o :
  (count_type t grid <= 1)%nat -> kind_is grid t p -> last_of_kind grid t o -> o = Some p.
Proof.
  intros Hc Hp Ho. destruct o as [q|]; simpl in Ho.
  - destruct Ho as [Hq _]. f_equal. eapply kind_unique; eauto.
  - exfalso. eapply Ho; eauto.
Qed.

(** On a well-formed grid that has a start and an end the locator finds
    them. *)
Lemma findStartAndEnd_found grid s e :
  wf_grid grid -> kind_is grid T_start s -> kind_is grid T_end e ->
  findStartAndEnd grid = mkStartEnd (Some s) (Some e).
Proof.
  intros (_ & _ & Hs & He) Ks Ke.
  pose proof (locate_last_of_kind grid T_start (or_introl eq_refl)) as H1.
  pose proof (locate_last_of_kind grid T_end (or_intror eq_refl)) as H2.
  apply (last_of_kind_unique _ _ s) in H1; [|assumption..].
  apply (last_of_kind_unique _ _ e) in H2; [|assumption..].
  simpl in H1, H2. destruct (findStartAndEnd grid); simpl in *; congruence.
Qed.

Lemma start_neq_end grid s e :
  kind_is grid T_start s -> kind_is grid T_end e -> s <> e.
Proof. intros (c & Hc & Ht) (d & Hd & Hu) ->. congruence. Qed.

(** ** Rectangular grids and the neighbor generator *)

Definition rect (grid : Grid) (cols : nat) : Prop :=
  Forall (fun cells => length cells = cols) grid.

Definition passableb (grid : Grid) (p : Position) : bool :=
  match cellOf grid p with
  | Some c => bool_decide (cell_type c <> T_wall)
  | None => false
  end.

Definition shift (p d : Position) : Position :=
  mkPos (row p + row d) (col p + col d).

(** The passable cells among the four candidates, in the order up, down,
    left, right. *)
Definition neighbors (grid : Grid) (p : Position) : list Position :=
  filter (fun q => passableb grid q = true) (map (shift p) directions).

Lemma passableb_spec grid p : passableb grid p = true <-> passable grid p.
Proof.
  unfold passableb, passable. destruct (cellOf grid p) as [c|].
  - rewrite bool_decide_eq_true. split; [eauto | intros (c' & [= <-] & H); exact H].
  - split; [discriminate | intros (c' & H & _); discriminate].
Qed.

Lemma cellAt_rect_bounds grid cols r c cell :
  rect grid cols -> cellAt grid r c = Some cell ->
  0 <= r < Z.of_nat (length grid) /\ 0 <= c < Z.of_nat cols.
Proof.
  intros Hr H. apply cellAt_Some in H as (i & j & cells & -> & -> & Hi & Hj).
  pose proof (lookup_lt_Some _ _ _ Hi).
  pose proof (lookup_lt_Some _ _ _ Hj).
  pose proof (Forall_lookup_1 _ _ _ _ Hr Hi) as Hlen. simpl in Hlen. lia.
Qed.

Lemma cellAt_rect_Some grid cols r c :
  rect grid cols -> 0 <= r < Z.of_nat (length grid) -> 0 <= c < Z.of_nat cols ->
  is_Some (cellAt grid r c).
Proof.
  intros Hr Hrow Hcol.
  destruct (lookup_lt_is_Some_2 grid (Z.to_nat r)) as [cells Hi]; [lia|].
  pose proof (Forall_lookup_1 _ _ _ _ Hr Hi) as Hlen. simpl in Hlen.
  destruct (lookup_lt_is_Some_2 cells (Z.to_nat c)) as [cell Hj]; [lia|].
  exists cell. apply cellAt_Some. exists (Z.to_nat r), (Z.to_nat c), cells.
  repeat split; try assumption; lia.
Qed.

Lemma passableb_cellAt grid p d o :
  cellAt grid (row p + row d) (col p + col d) = o ->
  passableb grid (shift p d) =
  match o with Some c => bool_decide (cell_type c <> T_wall) | None => false end.
Proof. intros <-. reflexivity. Qed.

Lemma getNeighbors_loop_rect grid cols p dirs acc :
  rect grid cols ->
  getNeighbors_loop grid p dirs acc =
  Some (acc ++ filter (fun q => passableb grid q = true) (map (shift p) dirs)).
Proof.
  intros Hr. revert acc; induction dirs as [|d dirs IH]; intros acc; simpl.
  - rewrite app_nil_r. reflexivity.
  - destruct ((0 <=? row p + row d) && (row p + row d <? Z.of_nat (length grid))
              && (0 <=? col p + col d)) eqn:T1.
    + apply andb_true_iff in T1 as [T1 T1c]. apply andb_true_iff in T1 as [T1a T1b].
      apply Z.leb_le in T1a, T1c. apply Z.ltb_lt in T1b.
      destruct grid as [|row0 rows] eqn:Eg; [simpl in T1b; lia|]. rewrite <- Eg in *.
      assert (Hlen : length row0 = cols).
      { rewrite Eg in Hr. apply Forall_cons in Hr as [Hr _]. exact Hr. }
      rewrite Hlen.
      destruct (col p + col d <? Z.of_nat cols) eqn:T2.
      * apply Z.ltb_lt in T2.
        destruct (cellAt_rect_Some grid cols (row p + row d) (col p + col d) Hr
                    ltac:(lia) ltac:(lia)) as [c Hc].
        rewrite Hc. pose proof (passableb_cellAt _ _ _ _ Hc) as Hpb. simpl in Hpb.
        destruct (decide (cell_type c = T_wall)) as [Hw|Hw].
        -- rewrite bool_decide_eq_false_2 in Hpb by tauto.
           rewrite filter_cons_False by congruence. apply IH.
        -- rewrite bool_decide_eq_true_2 in Hpb by assumption.
           rewrite filter_cons_True by assumption.
           rewrite IH, <- app_assoc. reflexivity.
      * apply Z.ltb_ge in T2.
        destruct (cellAt grid (row p + row d) (col p + col d)) as [c|] eqn:Hc.
        -- apply (cellAt_rect_bounds _ cols) in Hc; [lia | assumption].
        -- pose proof (passableb_cellAt _ _ _ _ Hc) as Hpb.
           rewrite filter_cons_False by congruence. apply IH.
    + destruct (cellAt grid (row p + row d) (col p + col d)) as [c|] eqn:Hc.
      * apply (cellAt_rect_bounds _ cols) in Hc; [|assumption].
        apply andb_false_iff in T1 as [T1 | T1]; [apply andb_false_iff in T1 as [T1|T1]|].
        -- apply Z.leb_gt in T1. lia.
        -- apply Z.ltb_ge in T1. lia.
        -- apply Z.leb_gt in T1. lia.
      * pose proof (passableb_cellAt _ _ _ _ Hc) as Hpb.
        rewrite filter_cons_False by congruence. apply IH.
Qed.

Lemma getNeighbors_rect grid cols p :
  rect grid cols -> getNeighbors grid p = Some (neighbors grid p).
Proof. intros Hr. unfold getNeighbors. rewrite (getNeighbors_loop_rect _ cols) by assumption. reflexivity. Qed.

Lemma elem_of_neighbors grid p q : q ∈ neighbors grid p <-> edge grid p q.
Proof.
  unfold neighbors, edge. rewrite list_elem_of_filter, passableb_spec.
  unfold directions, shift, adjacent. simpl.
  rewrite !elem_of_cons, elem_of_nil.
  destruct p as [pr pc], q as [qr qc]; simpl.
  split.
  - intros [Hp [H | [H | [H | [H | []]]]]]; injection H as -> ->;
      (split; [lia | assumption]).
  - intros [[[-> ->] | [[-> ->] | [[-> ->] | [-> ->]]]] Hp]; (split; [assumption|]).
    + left. f_equal; lia.
    + right; left. f_equal; lia.
    + right; right; left. f_equal; lia.
    + right; right; right; left. f_equal; lia.
Qed.

Lemma NoDup_neighbors grid p : NoDup (neighbors grid p).
Proof.
  unfold neighbors. apply NoDup_filter.
  unfold directions, shift; simpl.
  repeat (apply NoDup_cons; split;
          [rewrite ?elem_of_cons, elem_of_nil; intros H;
           repeat (destruct H as [H|H]; [injection H; lia|]); exact H |]).
  apply NoDup_nil. exact I.
Qed.

(** ** Walks *)

Lemma chain_snoc l p q :
  chain l -> last l = Some p -> adjacent p q -> chain (l ++ [q]).
Proof.
  induction l as [|x [|y l] IH]; simpl; intros Hc Hl Ha.
  - exact I.
  - injection Hl as ->. auto.
  - destruct Hc as [Hxy Hc]. split; [assumption|]. apply IH; assumption.
Qed.

Lemma edge_passable grid p q : edge grid p q -> passable grid q.
Proof. intros [_ H]; exact H. Qed.

Lemma passable_in_grid grid p : passable grid p -> is_Some (cellOf grid p).
Proof. intros (c & H & _). eauto. Qed.


Lemma kind_start_passable grid p : kind_is grid T_start p -> passable grid p.
Proof. intros (c & H & Hc). exists c. split; [assumption | congruence]. Qed.

Lemma kind_end_passable grid p : kind_is grid T_end p -> passable grid p.
Proof. intros (c & H & Hc). exists c. split; [assumption | congruence]. Qed.

(** The lower bound that the three optimal strategies share.  [T] are the
    settled positions, [F] the frontier, [d] the cost labels and [h] a
    consistent heuristic: along every walk from the start, either the walk
    ends in a settled position whose label is at most the length of the
    walk, or the frontier holds a position whose priority is at most the
    length of the walk plus the heuristic of its last position. *)
Lemma frontier_lower_bound grid s (T F : Position -> Prop) (d h : Position -> nat) :
  (T s \/ F s) -> d s = 0%nat ->
  (forall u v, T u -> edge grid u v -> (T v \/ F v) /\ (d v <= d u + 1)%nat) ->
  (forall u v, edge grid u v -> (h u <= h v + 1)%nat) ->
  forall q n, walk grid s q n ->
    (T q /\ (d q <= n)%nat) \/ (exists y, F y /\ (d y + h y <= n + h q)%nat).
Proof.
  intros Hs Hd0 Hclos Hcons q n Hw. induction Hw as [|q q' n Hw IH He].
  - destruct Hs as [Hs|Hs]; [left; split; [assumption|lia] | right; exists s; split; [assumption|lia]].
  - pose proof (Hcons _ _ He) as Hh.
    destruct IH as [[HT Hdq] | (y & Hy & Hb)].
    + destruct (Hclos _ _ HT He) as [[HT'|HF'] Hd'].
      * left; split; [assumption|lia].
      * right; exists q'; split; [assumption|lia].
    + right; exists y; split; [assumption|lia].
Qed.

(** ** Path reconstruction *)

Lemma run_rebuilding {St : Type} (search : St -> step_result (machine St)) fuel r :
  run (machine_step search) fuel (Rebuilding r) = run rebuild_step fuel r.
Proof.
  revert r; induction fuel as [|fuel IH]; intros r; [reflexivity|].
  simpl. destruct (rebuild_step r); auto.
Qed.

(** The parent map is a tree rooted at the start over the positions [D],
    with depth labels [d]. *)
Definition parent_tree (grid : Grid) (start : Position)
    (parent : gmap Position Position) (D : Position -> Prop) (d : Position -> nat) : Prop :=
  forall x, D x ->
    (x = start /\ d x = 0%nat) \/
    (x <> start /\ exists p, parent !! x = Some p /\ D p /\ edge grid p x /\ d x = S (d p)).

Lemma parent_tree_walk grid start parent D d x :
  parent_tree grid start parent D d -> D x -> walk grid start x (d x).
Proof.
  intros Ht. remember (d x) as n eqn:Hn. revert x Hn.
  induction n as [|n IH]; intros x Hn Hx.
  - destruct (Ht x Hx) as [[-> _] | (_ & p & _ & _ & _ & Hd)]; [constructor | lia].
  - destruct (Ht x Hx) as [[_ Hd] | (_ & p & _ & Hp & He & Hd)]; [lia|].
    apply walk_step with p; [|assumption]. apply IH; [lia | assumption].
Qed.

(** From a position of the tree the reconstruction loop returns, after
    [d x + 1] rounds, the branch of the tree from the start to [x] in front
    of the positions it already holds. *)
Lemma rebuild_total grid start parent D d vp :
  parent_tree grid start parent D d ->
  forall x acc, D x ->
  exists l,
    run rebuild_step (S (d x)) (mkRebuild grid start parent vp acc x)
      = Returned (mkResult (l ++ acc) vp true) /\
    length l = S (d x) /\ head l = Some start /\ last l = Some x /\
    chain l /\ NoDup l /\
    (forall y, y ∈ l -> D y /\ (d y <= d x)%nat) /\
    (forall y, y ∈ l -> y = start \/ passable grid y).
Proof.
  intros Ht x. remember (d x) as n eqn:Hn. revert x Hn.
  induction n as [|n IH]; intros x Hn acc Hx.
  - destruct (Ht x Hx) as [[-> _] | (_ & p & _ & _ & _ & Hd)]; [|lia].
    exists [start]. simpl. unfold rebuild_step. simpl. rewrite pos_eqb_refl. simpl.
    repeat split; auto.
    + apply NoDup_singleton.
    + apply list_elem_of_singleton in H. subst. assumption.
    + apply list_elem_of_singleton in H. subst. lia.
    + intros y Hy. apply list_elem_of_singleton in Hy. auto.
  - destruct (Ht x Hx) as [[_ Hd] | (Hne & p & Hpar & Hp & He & Hd)]; [lia|].
    assert (Hdp : n = d p) by lia.
    destruct (IH p Hdp (x :: acc) Hp) as (l & Hrun & Hlen & Hhd & Hlast & Hch & Hnd & HD & Hpass).
    exists (l ++ [x]).
    split; [|split; [|split; [|split; [|split; [|split; [|split]]]]]].
    + rewrite (run_S_Continue rebuild_step (S n) _ (mkRebuild grid start parent vp (x :: acc) p)).
      * rewrite Hrun, <- app_assoc. reflexivity.
      * unfold rebuild_step. simpl. apply pos_eqb_neq in Hne. rewrite Hne. simpl.
        rewrite Hpar. reflexivity.
    + rewrite length_app, Hlen. simpl. lia.
    + destruct l; [discriminate|]. exact Hhd.
    + apply last_snoc.
    + eapply chain_snoc; eauto. destruct He; assumption.
    + apply NoDup_app. split; [assumption|]. split; [|apply NoDup_singleton].
      intros y Hy Hy'. apply list_elem_of_singleton in Hy'. subst y.
      destruct (HD _ Hy) as [_ Hle]. lia.
    + intros y Hy. apply elem_of_app in Hy as [Hy|Hy].
      * destruct (HD _ Hy). split; [assumption|lia].
      * apply list_elem_of_singleton in Hy. subst. split; [assumption|lia].
    + intros y Hy. apply elem_of_app in Hy as [Hy|Hy]; [auto|].
      apply list_elem_of_singleton in Hy. subst. right. eapply edge_passable; eauto.
Qed.

(** What a strategy promises about its result on a grid whose start is [s]
    and whose end is [e]. *)
Definition sound_result (grid : Grid) (s e : Position) (r : AlgorithmResult) : Prop :=
  NoDup (visited r) /\
  head (visited r) = Some s /\
  (success r = true -> valid_walk grid s e (path r)) /\
  (success r = false -> path r = [] /\ ~ reachable grid s e).

(** The returned path is a shortest one. *)
Definition shortest_result (grid : Grid) (s e : Position) (r : AlgorithmResult) : Prop :=
  success r = true ->
  exists n, length (path r) = S n /\ walk grid s e n /\
            forall m, walk grid s e m -> (n <= m)%nat.

(** The result of the reconstruction from the end of a tree that spans the
    end: a valid walk of [d e + 1] positions. *)
Lemma rebuild_from_end {St : Type} (search : St -> step_result (machine St))
    grid s e parent D d vp :
  kind_is grid T_start s ->
  parent_tree grid s parent D d -> D e ->
  exists l,
    run (machine_step search) (S (d e))
        (Rebuilding (mkRebuild grid s parent vp [] e)) = Returned (mkResult l vp true) /\
    valid_walk grid s e l /\ length l = S (d e) /\ walk grid s e (d e).
Proof.
  intros Hs Ht He.
  destruct (rebuild_total grid s parent D d vp Ht e [] He)
    as (l & Hrun & Hlen & Hhd & Hlast & Hch & Hnd & HD & Hpass).
  exists l. rewrite run_rebuilding, Hrun, app_nil_r.
  split; [reflexivity|]. split; [|split; [assumption | eapply parent_tree_walk; eauto]].
  repeat split; try assumption.
  intros p Hp. destruct (Hpass p Hp) as [-> | Hq].
  - apply kind_start_passable; assumption.
  - assumption.
Qed.

(** ** The cells of a grid as a finite set *)

Definition cells (grid : Grid) : gset Position := list_to_set (grid_keys grid).

Lemma grid_keys_from_entries r rows :
  grid_keys_from r rows = map fst (grid_entries_from r rows).
Proof.
  revert r; induction rows as [|cs rows IH]; intros r; simpl; [reflexivity|].
  rewrite map_app, IH. f_equal.
  assert (H : forall k c, map (fun j => mkPos r (c + Z.of_nat j)) (seq 0 (length k))
                          = map fst (row_entries r c k)).
  { induction k as [|x k IHk]; intros c; simpl; [reflexivity|].
    f_equal; [f_equal; lia|]. rewrite <- seq_shift, map_map, <- IHk.
    apply map_ext. intros j. f_equal. lia. }
  rewrite <- (H cs 0). apply map_ext. intros j. f_equal.
Qed.

Lemma elem_of_grid_keys grid p : p ∈ grid_keys grid <-> is_Some (cellOf grid p).
Proof.
  unfold grid_keys. rewrite grid_keys_from_entries. fold (grid_entries grid).
  change (map fst (grid_entries grid)) with (fst <$> grid_entries grid).
  rewrite list_elem_of_fmap. split.
  - intros ([q c] & -> & H). exists c. apply grid_entries_elem. exact H.
  - intros [c H]. exists (p, c). split; [reflexivity | apply grid_entries_elem; exact H].
Qed.

Lemma elem_of_cells grid p : p ∈ cells grid <-> is_Some (cellOf grid p).
Proof. unfold cells. rewrite elem_of_list_to_set. apply elem_of_grid_keys. Qed.

(** The number of cells outside the trace: the measure of every search
    loop. *)
Definition remaining (grid : Grid) (trace : list Position) : nat :=
  size (cells grid ∖ list_to_set trace).

Lemma remaining_snoc grid trace x :
  is_Some (cellOf grid x) -> x ∉ trace ->
  (remaining grid (trace ++ [x]) < remaining grid trace)%nat.
Proof.
  intros Hx Hn. unfold remaining. apply subset_size.
  apply elem_of_cells in Hx.
  assert (Hx' : x ∉ (list_to_set trace : gset Position))
    by (rewrite elem_of_list_to_set; exact Hn).
  rewrite list_to_set_app_L. simpl.
  split.
  - set_solver.
  - intros Hsub. specialize (Hsub x). set_solver.
Qed.

(** ** Breadth-first and depth-first search: the common invariant *)

Record frontier_inv (grid : Grid) (s e : Position) (d : Position -> nat)
    (F : list Position) (seen : gset Position) (parent : gmap Position Position)
    (trace : list Position) : Prop := mkFrontierInv {
  fi_nodup : NoDup (trace ++ F);
  fi_seen : forall x, x ∈ seen <-> x ∈ trace \/ x ∈ F;
  fi_start : s ∈ seen;
  fi_tree : parent_tree grid s parent (fun x => x ∈ seen) d;
  fi_end : e ∉ trace;
  fi_closed : forall u v, u ∈ trace -> edge grid u v -> v ∈ seen;
  fi_cells : forall x, x ∈ seen -> is_Some (cellOf grid x);
  fi_head : (trace = [] /\ F = [s]) \/ exists t, trace = s :: t
}.

Lemma discover_fold current ns :
  NoDup ns -> forall F (seen : gset Position) (parent : gmap Position Position),
  exists new parent',
    fold_left (discover current) ns (F, seen, parent)
      = (F ++ new, list_to_set new ∪ seen, parent') /\
    NoDup new /\
    (forall x, x ∈ new <-> x ∈ ns /\ x ∉ seen) /\
    (forall x, x ∈ new -> parent' !! x = Some current) /\
    (forall x, x ∉ new -> parent' !! x = parent !! x).
Proof.
  induction ns as [|n ns IH]; intros Hnd F seen parent; simpl.
  - exists [], parent. rewrite app_nil_r, list_to_set_nil, (left_id_L ∅ (∪)).
    split; [reflexivity|]. split; [apply NoDup_nil; exact I|]. split; [|split].
    + intros x. rewrite elem_of_nil. tauto.
    + intros x H. apply elem_of_nil in H. contradiction.
    + intros; reflexivity.
  - apply NoDup_cons in Hnd as [Hn Hnd].
    destruct (decide (n ∈ seen)) as [Hin|Hout].
    + destruct (IH Hnd F seen parent) as (new & parent' & Hf & Hnew & Hmem & Hp1 & Hp2).
      exists new, parent'. split; [exact Hf|]. split; [exact Hnew|].
      split; [|split; assumption].
      intros x. rewrite Hmem, elem_of_cons. split; [tauto|].
      intros [[-> | Hx] Hs]; [contradiction | auto].
    + destruct (IH Hnd (F ++ [n]) ({[n]} ∪ seen) (<[n := current]> parent))
        as (new & parent' & Hf & Hnew & Hmem & Hp1 & Hp2).
      assert (Hnn : n ∉ new).
      { intros Hx. apply Hmem in Hx as [Hx _]. contradiction. }
      exists (n :: new), parent'. split; [|split; [|split; [|split]]].
      * rewrite Hf, <- app_assoc. simpl. f_equal. f_equal. set_solver.
      * apply NoDup_cons; auto.
      * intros x. rewrite !elem_of_cons, Hmem. split.
        -- intros [-> | [Hx Hs]]; [auto|]. split; [auto | set_solver].
        -- intros [[-> | Hx] Hs]; [auto|]. right. split; [assumption|].
           assert (x <> n) by (intros ->; contradiction). set_solver.
      * intros x Hx. apply elem_of_cons in Hx as [-> | Hx]; [|auto].
        rewrite Hp2 by assumption. apply lookup_insert_eq.
      * intros x Hx. rewrite not_elem_of_cons in Hx. destruct Hx as [Hne Hx].
        rewrite Hp2 by assumption. apply lookup_insert_ne. congruence.
Qed.

Lemma frontier_step grid s e d F seen parent trace current rest :
  frontier_inv grid s e d F seen parent trace ->
  F ≡ₚ current :: rest -> current <> e ->
  exists new parent',
    fold_left (discover current) (neighbors grid current) (rest, seen, parent)
      = (rest ++ new, list_to_set new ∪ seen, parent') /\
    (forall x, x ∈ new <-> edge grid current x /\ x ∉ seen) /\
    frontier_inv grid s e (fun x => if decide (x ∈ seen) then d x else S (d current))
      (rest ++ new) (list_to_set new ∪ seen) parent' (trace ++ [current]).
Proof.
  intros [Hnd Hseen Hs Htree Hend Hclosed Hcells Hhead] HF Hne.
  destruct (discover_fold current (neighbors grid current) (NoDup_neighbors _ _)
              rest seen parent) as (new & parent' & Hf & Hnew & Hmem & Hp1 & Hp2).
  assert (Hmem' : forall x, x ∈ new <-> edge grid current x /\ x ∉ seen).
  { intros x. rewrite Hmem, elem_of_neighbors. reflexivity. }
  assert (HinF : forall x, x ∈ F <-> x = current \/ x ∈ rest).
  { intros x. rewrite HF, elem_of_cons. reflexivity. }
  assert (Hcur : current ∈ seen) by (apply Hseen; right; apply HinF; auto).
  rewrite HF in Hnd.
  assert (Hnd' : NoDup (trace ++ [current] ++ rest)) by exact Hnd.
  apply NoDup_app in Hnd' as (Hnt & Hdisj & Hncr).
  apply NoDup_cons in Hncr as [Hcr Hnr].
  exists new, parent'. split; [exact Hf|]. split; [exact Hmem'|].
  constructor.
  - rewrite <- app_assoc. apply NoDup_app. split; [assumption|]. split.
    + intros x Hx Hx'. simpl in Hx'. apply elem_of_cons in Hx' as [-> | Hx'].
      * apply (Hdisj current Hx). left.
      * apply elem_of_app in Hx' as [Hx' | Hx'].
        -- apply (Hdisj x Hx). right. exact Hx'.
        -- apply Hmem' in Hx' as [_ Hx']. apply Hx', Hseen. auto.
    + simpl. apply NoDup_cons. split.
      * intros Hx. apply elem_of_app in Hx as [Hx|Hx]; [contradiction|].
        apply Hmem' in Hx as [_ Hx]. contradiction.
      * apply NoDup_app. split; [assumption|]. split; [|assumption].
        intros x Hx Hx'. apply Hmem' in Hx' as [_ Hx']. apply Hx', Hseen.
        right. apply HinF. auto.
  - intros x. rewrite elem_of_union, elem_of_list_to_set, Hseen, HinF.
    rewrite !elem_of_app, list_elem_of_singleton. tauto.
  - set_solver.
  - intros x Hx. apply elem_of_union in Hx as [Hx | Hx].
    + apply elem_of_list_to_set in Hx.
      pose proof (proj1 (Hmem' x) Hx) as [He Hxs].
      right. split; [intros ->; contradiction|].
      exists current. rewrite Hp1 by assumption.
      split; [reflexivity|]. split; [set_solver|]. split; [assumption|].
      rewrite decide_False by assumption. rewrite decide_True by assumption. reflexivity.
    + assert (Hxn : x ∉ new) by (intros Hx'; apply Hmem' in Hx' as [_ Hx']; contradiction).
      rewrite decide_True by assumption.
      destruct (Htree x Hx) as [[-> Hd] | (Hxs & p & Hpar & Hp & He & Hd)].
      * left. auto.
      * right. split; [assumption|]. exists p. rewrite Hp2 by assumption.
        split; [assumption|]. split; [set_solver|]. split; [assumption|].
        rewrite decide_True by assumption. assumption.
  - intros Hx. apply elem_of_app in Hx as [Hx|Hx]; [contradiction|].
    apply list_elem_of_singleton in Hx. congruence.
  - intros u v Hu He. apply elem_of_union. rewrite elem_of_list_to_set.
    apply elem_of_app in Hu as [Hu|Hu].
    + right. eapply Hclosed; eauto.
    + apply list_elem_of_singleton in Hu. subst u.
      destruct (decide (v ∈ seen)); [right; assumption|]. left. apply Hmem'. auto.
  - intros x Hx. apply elem_of_union in Hx as [Hx | Hx]; [|auto].
    apply elem_of_list_to_set, Hmem' in Hx as [He _].
    apply passable_in_grid. eapply edge_passable; eauto.
  - right. destruct Hhead as [[-> HFs] | [t ->]].
    + exists []. simpl. f_equal.
      assert (Hc : current ∈ F) by (apply HinF; auto).
      rewrite HFs in Hc. apply list_elem_of_singleton in Hc. congruence.
    + exists (t ++ [current]). reflexivity.
Qed.

Section Search.

(** A rectangular grid whose start is [s] and whose end is [e]. *)
Context (grid : Grid) (cols : nat) (s e : Position).
Hypothesis Hrect : rect grid cols.
Hypothesis Hstart : kind_is grid T_start s.
Hypothesis Hend : kind_is grid T_end e.

Lemma s_neq_e : s <> e.
Proof. eapply start_neq_end; eauto. Qed.

(** The frontier is empty: every reachable position is in the trace, which
    does not hold the end. *)
Lemma frontier_exhausted d seen parent trace :
  frontier_inv grid s e d [] seen parent trace ->
  sound_result grid s e (mkResult [] trace false).
Proof.
  intros [Hnd Hseen Hs Htree Hend' Hclosed Hcells Hhead].
  rewrite app_nil_r in Hnd.
  assert (Hst : forall x, x ∈ seen <-> x ∈ trace).
  { intros x. rewrite Hseen, elem_of_nil. tauto. }
  split; [exact Hnd|]. split; [|split]; simpl.
  - destruct Hhead as [[_ H] | [t ->]]; [discriminate | reflexivity].
  - discriminate.
  - intros _. split; [reflexivity|]. intros [n Hw].
    assert (Hin : forall q k, walk grid s q k -> q ∈ trace).
    { intros q k Hq. induction Hq as [|q q' k Hq IH He].
      - apply Hst, Hs.
      - apply Hst. eapply Hclosed; eauto. }
    apply Hend'. eapply Hin; eauto.
Qed.

(** The end is taken from the frontier: the reconstruction returns a valid
    walk of [d e + 1] positions. *)
Lemma frontier_found {St : Type} (search : St -> step_result (machine St))
    d F seen parent trace :
  frontier_inv grid s e d F seen parent trace -> e ∈ F ->
  exists l,
    run (machine_step search) (S (d e))
        (Rebuilding (mkRebuild grid s parent (trace ++ [e]) [] e))
      = Returned (mkResult l (trace ++ [e]) true) /\
    sound_result grid s e (mkResult l (trace ++ [e]) true) /\
    length l = S (d e) /\ walk grid s e (d e).
Proof.
  intros [Hnd Hseen Hs Htree Hend' Hclosed Hcells Hhead] HeF.
  assert (Hes : e ∈ seen) by (apply Hseen; auto).
  destruct (rebuild_from_end search grid s e parent (fun x => x ∈ seen) d (trace ++ [e])
              Hstart Htree Hes) as (l & Hrun & Hvalid & Hlen & Hwalk).
  exists l. split; [exact Hrun|]. split; [|auto].
  split; [|split; [|split]]; simpl.
  - apply NoDup_app in Hnd as (Hnt & Hdisj & _).
    apply NoDup_app. split; [assumption|]. split; [|apply NoDup_singleton].
    intros x Hx Hx'. apply list_elem_of_singleton in Hx'. subst. contradiction.
  - destruct Hhead as [[-> HFs] | [t ->]]; [|reflexivity].
    rewrite HFs in HeF. apply list_elem_of_singleton in HeF.
    exfalso. apply s_neq_e. congruence.
  - intros _. exact Hvalid.
  - discriminate.
Qed.

Lemma frontier_measure d F seen parent trace current :
  frontier_inv grid s e d F seen parent trace -> current ∈ F ->
  (remaining grid (trace ++ [current]) < remaining grid trace)%nat.
Proof.
  intros [Hnd Hseen Hs Htree Hend' Hclosed Hcells Hhead] Hc.
  apply remaining_snoc.
  - apply Hcells, Hseen. auto.
  - apply NoDup_app in Hnd as (_ & Hdisj & _). intros Hx. exact (Hdisj _ Hx Hc).
Qed.

Lemma frontier_init :
  frontier_inv grid s e (fun _ => 0%nat) [s] {[s]} ∅ [].
Proof.
  constructor; simpl.
  - apply NoDup_singleton.
  - intros x. rewrite elem_of_singleton, list_elem_of_singleton, elem_of_nil. tauto.
  - apply elem_of_singleton. reflexivity.
  - intros x Hx. apply elem_of_singleton in Hx. left. auto.
  - apply not_elem_of_nil.
  - intros u v Hu. apply elem_of_nil in Hu. contradiction.
  - intros x Hx. apply elem_of_singleton in Hx. subst.
    destruct Hstart as (c & Hc & _). eauto.
  - left. auto.
Qed.

(** ** Depth-first search *)

Definition dfs_inv (st : dfs_state) : Prop :=
  dfs_grid st = grid /\ dfs_start st = s /\ dfs_end st = e /\
  exists d, frontier_inv grid s e d (dfs_stack st) (dfs_visited st) (dfs_parent st)
              (dfs_visitedPositions st).

Definition dfs_minv (m : machine dfs_state) : Prop :=
  match m with Searching st => dfs_inv st | Rebuilding _ => False end.

Definition dfs_measure (m : machine dfs_state) : nat :=
  match m with
  | Searching st => remaining grid (dfs_visitedPositions st)
  | Rebuilding _ => 0%nat
  end.

Lemma last_removelast {A} (l : list A) x : last l = Some x -> l = removelast l ++ [x].
Proof.
  intros H. apply last_Some in H as [l' ->].
  rewrite removelast_last. reflexivity.
Qed.

Lemma dfs_total :
  exists fuel r,
    run (machine_step dfs_search) fuel (Searching (mkDfs grid s e [s] {[s]} ∅ []))
      = Returned r /\ sound_result grid s e r.
Proof.
  apply (run_total _ dfs_minv dfs_measure).
  - intros [st|r] Hinv; [|contradiction]. simpl in Hinv.
    destruct st as [g s0 e0 stack seen parent trace].
    destruct Hinv as (Hg & Hs0 & He0 & d & Hfi). simpl in *. subst g s0 e0.
    unfold dfs_search; simpl.
    destruct (last stack) as [current|] eqn:Elast.
    + pose proof (last_removelast _ _ Elast) as Hstack.
      assert (Hperm : stack ≡ₚ current :: removelast stack).
      { rewrite Hstack at 1. rewrite Permutation_app_comm. reflexivity. }
      assert (Hcur : current ∈ stack) by (rewrite Hperm; left).
      destruct (pos_eqb current e) eqn:Eq.
      * apply pos_eqb_eq in Eq. subst current. right.
        destruct (frontier_found dfs_search d stack seen parent trace Hfi Hcur)
          as (l & Hrun & Hsound & _).
        eauto.
      * apply pos_eqb_neq in Eq.
        rewrite (getNeighbors_rect _ cols) by assumption.
        destruct (frontier_step _ _ _ _ _ _ _ _ _ _ Hfi Hperm Eq)
          as (new & parent' & Hfold & _ & Hfi').
        rewrite Hfold. left. split.
        -- simpl. repeat split; try reflexivity. eexists; exact Hfi'.
        -- simpl. eapply frontier_measure; eauto.
    + apply last_None in Elast. subst stack.
      eapply frontier_exhausted; eauto.
  - simpl. repeat split; try reflexivity. eexists. apply frontier_init.
Qed.

(** ** Breadth-first search *)

(** The queue holds the positions of depth [k], then those of depth
    [k + 1]; the trace holds positions of depth at most [k]; an edge out of
    the trace raises the depth by at most one. *)
Definition bfs_levels (d : Position -> nat) (queue trace : list Position) : Prop :=
  (exists k F1 F2, queue = F1 ++ F2 /\
     Forall (fun x => d x = k) F1 /\ Forall (fun x => d x = S k) F2 /\
     Forall (fun x => (d x <= k)%nat) trace) /\
  (forall u v, u ∈ trace -> edge grid u v -> (d v <= d u + 1)%nat).

Definition bfs_inv (st : bfs_state) : Prop :=
  bfs_grid st = grid /\ bfs_start st = s /\ bfs_end st = e /\
  exists d, frontier_inv grid s e d (bfs_queue st) (bfs_visited st) (bfs_parent st)
              (bfs_visitedPositions st) /\
            bfs_levels d (bfs_queue st) (bfs_visitedPositions st).

Definition bfs_minv (m : machine bfs_state) : Prop :=
  match m with Searching st => bfs_inv st | Rebuilding _ => False end.

Definition bfs_measure (m : machine bfs_state) : nat :=
  match m with
  | Searching st => remaining grid (bfs_visitedPositions st)
  | Rebuilding _ => 0%nat
  end.

Lemma bfs_levels_head d current rest trace :
  bfs_levels d (current :: rest) trace ->
  (forall y, y ∈ current :: rest -> (d current <= d y <= d current + 1)%nat) /\
  (forall t, t ∈ trace -> (d t <= d current)%nat).
Proof.
  intros [(k & F1 & F2 & HF & H1 & H2 & Ht) _].
  rewrite Forall_forall in H1, H2, Ht.
  destruct F1 as [|c F1]; simpl in HF.
  - subst F2. pose proof (H2 current ltac:(left)) as Hc. split.
    + intros y Hy. rewrite (H2 y Hy). lia.
    + intros t Hin. specialize (Ht t Hin). lia.
  - injection HF as <- ->. pose proof (H1 current ltac:(left)) as Hc. split.
    + intros y Hy. apply elem_of_cons in Hy as [-> | Hy]; [lia|].
      apply elem_of_app in Hy as [Hy|Hy].
      * rewrite (H1 y) by (right; exact Hy). lia.
      * rewrite (H2 y Hy). lia.
    + intros t Hin. specialize (Ht t Hin). lia.
Qed.

Lemma bfs_levels_step d current rest seen parent trace new :
  frontier_inv grid s e d (current :: rest) seen parent trace ->
  bfs_levels d (current :: rest) trace ->
  (forall x, x ∈ new <-> edge grid current x /\ x ∉ seen) ->
  bfs_levels (fun x => if decide (x ∈ seen) then d x else S (d current))
    (rest ++ new) (trace ++ [current]).
Proof.
  intros Hfi Hlv Hnew.
  pose proof (bfs_levels_head _ _ _ _ Hlv) as [Hq Ht].
  destruct Hfi as [Hnd Hseen Hs Htree Hend' Hclosed Hcells Hhead].
  destruct Hlv as [(k & F1 & F2 & HF & H1 & H2 & Htr) Hedge].
  assert (Hcs : current ∈ seen) by (apply Hseen; right; left).
  assert (Hrs : forall x, x ∈ rest -> x ∈ seen) by (intros x Hx; apply Hseen; right; right; exact Hx).
  assert (Hts : forall x, x ∈ trace -> x ∈ seen) by (intros x Hx; apply Hseen; auto).
  split.
  - rewrite Forall_forall in H1, H2, Htr.
    destruct F1 as [|c F1]; simpl in HF.
    + subst F2. exists (S k), rest, new. split; [reflexivity|].
      rewrite !Forall_forall. split; [|split].
      * intros x Hx. rewrite decide_True by auto. apply H2. right. exact Hx.
      * intros x Hx. apply Hnew in Hx as [_ Hx]. rewrite decide_False by assumption.
        rewrite (H2 current) by left. reflexivity.
      * intros x Hx. apply elem_of_app in Hx as [Hx|Hx].
        -- rewrite decide_True by auto. specialize (Htr x Hx). lia.
        -- apply list_elem_of_singleton in Hx. subst x. rewrite decide_True by auto.
           rewrite (H2 current) by left. lia.
    + injection HF as <- ->. exists k, F1, (F2 ++ new). split; [symmetry; apply app_assoc|].
      rewrite !Forall_forall. split; [|split].
      * intros x Hx. rewrite decide_True by (apply Hrs, elem_of_app; auto).
        apply H1. right. exact Hx.
      * intros x Hx. apply elem_of_app in Hx as [Hx|Hx].
        -- rewrite decide_True by (apply Hrs, elem_of_app; auto). apply H2, Hx.
        -- apply Hnew in Hx as [_ Hx]. rewrite decide_False by assumption.
           rewrite (H1 current) by left. reflexivity.
      * intros x Hx. apply elem_of_app in Hx as [Hx|Hx].
        -- rewrite decide_True by auto. apply Htr, Hx.
        -- apply list_elem_of_singleton in Hx. subst x. rewrite decide_True by auto.
           rewrite (H1 current) by left. lia.
  - intros u v Hu He. apply elem_of_app in Hu as [Hu|Hu].
    + rewrite (decide_True _ _ (Hts u Hu)).
      rewrite (decide_True _ _ (Hclosed u v Hu He)). eapply Hedge; eauto.
    + apply list_elem_of_singleton in Hu. subst u. rewrite (decide_True _ _ Hcs).
      destruct (decide (v ∈ seen)) as [Hv|Hv]; [|lia].
      apply Hseen in Hv as [Hv|Hv].
      * specialize (Ht v Hv). lia.
      * specialize (Hq v Hv). lia.
Qed.

Lemma bfs_total :
  exists fuel r,
    run (machine_step bfs_search) fuel (Searching (mkBfs grid s e [s] {[s]} ∅ []))
      = Returned r /\ sound_result grid s e r /\ shortest_result grid s e r.
Proof.
  apply (run_total _ bfs_minv bfs_measure).
  - intros [st|r] Hinv; [|contradiction]. simpl in Hinv.
    destruct st as [g s0 e0 queue seen parent trace].
    destruct Hinv as (Hg & Hs0 & He0 & d & Hfi & Hlv). simpl in *. subst g s0 e0.
    unfold bfs_search; simpl.
    destruct queue as [|current rest].
    + split; [eapply frontier_exhausted; eauto | discriminate].
    + assert (Hcur : current ∈ current :: rest) by left.
      destruct (pos_eqb current e) eqn:Eq.
      * apply pos_eqb_eq in Eq. subst current. right.
        destruct (frontier_found bfs_search d _ seen parent trace Hfi Hcur)
          as (l & Hrun & Hsound & Hlen & Hwalk).
        exists (S (d e)), (mkResult l (trace ++ [e]) true).
        split; [exact Hrun|]. split; [exact Hsound|].
        intros _. exists (d e). simpl. split; [exact Hlen|]. split; [exact Hwalk|].
        intros m Hm.
        pose proof (bfs_levels_head _ _ _ _ Hlv) as [Hq _].
        destruct Hfi as [Hnd Hseen Hs Htree Hend' Hclosed Hcells Hhead].
        destruct Hlv as [_ Hedge].
        destruct (frontier_lower_bound grid s (fun x => x ∈ trace) (fun x => x ∈ e :: rest)
                    d (fun _ => 0%nat)) with (q := e) (n := m)
          as [[Hin _] | (y & Hy & Hb)].
        -- apply Hseen, Hs.
        -- destruct (Htree s Hs) as [[_ H0] | [Hn _]]; [exact H0 | congruence].
        -- intros u v Hu He. split; [apply Hseen; eauto | eauto].
        -- intros; lia.
        -- exact Hm.
        -- contradiction.
        -- specialize (Hq y Hy). lia.
      * apply pos_eqb_neq in Eq.
        rewrite (getNeighbors_rect _ cols) by assumption.
        destruct (frontier_step _ _ _ _ _ _ _ _ _ rest Hfi (reflexivity _) Eq)
          as (new & parent' & Hfold & Hnew & Hfi').
        rewrite Hfold. left. split.
        -- simpl. repeat split; try reflexivity. eexists; split; [exact Hfi'|].
           eapply bfs_levels_step; eauto.
        -- simpl. eapply frontier_measure; eauto.
  - simpl. repeat split; try reflexivity. exists (fun _ => 0%nat).
    split; [apply frontier_init|]. split.
    + exists 0%nat, [s], []. repeat split; auto.
    + intros u v Hu. apply elem_of_nil in Hu. contradiction.
Qed.

End Search.

(** ** Score maps *)

Lemma init_scores_lookup grid x :
  init_scores grid !! x = if decide (x ∈ grid_keys grid) then Some Infinity else None.
Proof.
  unfold init_scores.
  assert (H : forall l (m : gmap Position num),
             fold_left (fun m key => <[key := Infinity]> m) l m !! x
             = if decide (x ∈ l) then Some Infinity else m !! x).
  { induction l as [|k l IH]; intros m; cbn [fold_left].
    - rewrite decide_False by apply not_elem_of_nil. reflexivity.
    - rewrite IH. destruct (decide (x ∈ l)) as [Hl|Hl].
      + rewrite decide_True by (right; exact Hl). reflexivity.
      + destruct (decide (x = k)) as [->|Hne].
        * rewrite decide_True by left. apply lookup_insert_eq.
        * rewrite decide_False by (rewrite elem_of_cons; tauto).
          apply lookup_insert_ne. congruence. }
  rewrite H. rewrite lookup_empty. reflexivity.
Qed.

(** [x] carries the finite score [n]. *)
Definition label (scores : gmap Position num) (x : Position) (n : nat) : Prop :=
  scores !! x = Some (Fin (Z.of_nat n)).

Definition labelled (scores : gmap Position num) (x : Position) : Prop :=
  exists n, label scores x n.

(** The score of [x] as a natural number ([0] when it has none). *)
Definition score (scores : gmap Position num) (x : Position) : nat :=
  match scores !! x with Some (Fin z) => Z.to_nat z | _ => 0%nat end.

Lemma label_score scores x n : label scores x n -> score scores x = n.
Proof. unfold label, score. intros ->. apply Nat2Z.id. Qed.

Lemma labelled_label scores x : labelled scores x -> label scores x (score scores x).
Proof. intros [n H]. rewrite (label_score _ _ _ H). exact H. Qed.

(** Every cell has a score, which is a natural number or [Infinity], and
    only cells have one. *)
Definition scores_ok (grid : Grid) (scores : gmap Position num) : Prop :=
  (forall x, is_Some (cellOf grid x) ->
     scores !! x = Some Infinity \/ labelled scores x) /\
  (forall x, is_Some (scores !! x) -> is_Some (cellOf grid x)).

Lemma num_lt_Fin_label scores x n z :
  label scores x n -> num_lt (Fin z) (num_of (scores !! x)) = (z <? Z.of_nat n).
Proof. unfold label. intros ->. reflexivity. Qed.

(** ** Dijkstra: the scan for the closest unvisited cell *)

Lemma getMinDistance_body_fold visited distances keys acc :
  (fst acc = Infinity /\ snd acc = None) \/
  (exists c n, snd acc = Some c /\ fst acc = Fin (Z.of_nat n) /\ label distances c n) ->
  (forall x v, distances !! x = Some v -> v = Infinity \/ exists n : nat, v = Fin (Z.of_nat n)) ->
  let res := fold_left (getMinDistance_body visited distances) keys acc in
  match snd res with
  | None =>
      snd acc = None /\
      forall x, x ∈ keys -> x ∉ visited -> ~ labelled distances x
  | Some c =>
      exists n, fst res = Fin (Z.of_nat n) /\ label distances c n /\
        (snd acc = Some c \/ (c ∈ keys /\ c ∉ visited)) /\
        (forall x m, x ∈ keys -> x ∉ visited -> label distances x m -> (n <= m)%nat) /\
        (forall c0 n0, snd acc = Some c0 -> fst acc = Fin (Z.of_nat n0) -> (n <= n0)%nat)
  end.
Proof.
  intros Hacc Hok. revert acc Hacc; induction keys as [|k keys IH]; intros acc Hacc; simpl.
  - destruct Hacc as [[Hf Hs] | (c & n & Hs & Hf & Hl)]; rewrite Hs.
    + split; [reflexivity|]. intros x Hx. apply elem_of_nil in Hx. contradiction.
    + exists n. split; [assumption|]. split; [assumption|]. split; [auto|]. split.
      * intros x m Hx. apply elem_of_nil in Hx. contradiction.
      * intros c0 n0 _ Hn0. rewrite Hf in Hn0. injection Hn0. lia.
  - set (acc' := getMinDistance_body visited distances acc k).
    assert (Hacc' :
      (fst acc' = Infinity /\ snd acc' = None) \/
      (exists c n, snd acc' = Some c /\ fst acc' = Fin (Z.of_nat n) /\ label distances c n)).
    { unfold acc', getMinDistance_body.
      destruct (negb (bool_decide (k ∈ visited)) && num_lt (num_of (distances !! k)) (fst acc)) eqn:T;
        [|exact Hacc].
      apply andb_true_iff in T as [_ T]. right.
      destruct (distances !! k) as [v|] eqn:Ek; [|discriminate].
      destruct (Hok _ _ Ek) as [-> | [n ->]]; [discriminate|].
      exists k, n. simpl. repeat split. exact Ek. }
    specialize (IH acc' Hacc'). simpl in IH.
    fold acc'.
    destruct (snd (fold_left (getMinDistance_body visited distances) keys acc')) as [c|] eqn:Eres.
    + destruct IH as (n & Hfst & Hlab & Hwhere & Hmin & Hprev).
      exists n. split; [assumption|]. split; [assumption|].
      unfold acc', getMinDistance_body in *.
      destruct (negb (bool_decide (k ∈ visited)) && num_lt (num_of (distances !! k)) (fst acc)) eqn:T.
      * apply andb_true_iff in T as [Tv T]. apply negb_true_iff, bool_decide_eq_false in Tv.
        destruct (distances !! k) as [v|] eqn:Ek; [|discriminate].
        destruct (Hok _ _ Ek) as [-> | [nk ->]]; [discriminate|]. simpl in *.
        pose proof (Hprev k nk eq_refl eq_refl) as Hnk.
        split; [|split].
        -- right. destruct Hwhere as [[= <-] | [Hc Hv]]; [split; [left|assumption] | split; [right|]; assumption].
        -- intros x m Hx Hxv Hxl. apply elem_of_cons in Hx as [-> | Hx]; [|eauto].
           unfold label in Hxl. rewrite Ek in Hxl. injection Hxl. lia.
        -- intros c0 n0 Hc0 Hn0. destruct Hacc as [[Hf Hs] | (c1 & n1 & Hs & Hf & Hl)]; [congruence|].
           rewrite Hf in T, Hn0. simpl in T. apply Z.ltb_lt in T. injection Hn0. lia.
      * split; [|split].
        -- destruct Hwhere as [Hw | [Hc Hv]]; [left; assumption | right; split; [right|]; assumption].
        -- intros x m Hx Hxv Hxl. apply elem_of_cons in Hx as [-> | Hx]; [|eauto].
           apply andb_false_iff in T as [T|T].
           ++ apply negb_false_iff, bool_decide_eq_true in T. contradiction.
           ++ unfold label in Hxl. rewrite Hxl in T. simpl in T.
              destruct Hacc as [[Hf Hs] | (c1 & n1 & Hs & Hf & Hl)].
              ** rewrite Hf in T. discriminate.
              ** rewrite Hf in T. apply Z.ltb_ge in T.
                 pose proof (Hprev c1 n1 Hs Hf). lia.
        -- exact Hprev.
    + destruct IH as [Hnone Hno].
      unfold acc', getMinDistance_body in *.
      destruct (negb (bool_decide (k ∈ visited)) && num_lt (num_of (distances !! k)) (fst acc)) eqn:T;
        [discriminate|].
      split; [assumption|].
      intros x Hx Hxv [m Hxl]. apply elem_of_cons in Hx as [-> | Hx].
      2: { apply (Hno x Hx Hxv). exists m. exact Hxl. }
      apply andb_false_iff in T as [T|T].
      * apply negb_false_iff, bool_decide_eq_true in T. contradiction.
      * unfold label in Hxl. rewrite Hxl in T.
        destruct Hacc as [[Hf Hs] | (c1 & n1 & Hs & Hf & Hl)]; [|congruence].
        rewrite Hf in T. discriminate.
Qed.

Lemma getMinDistance_spec grid visited distances :
  (forall x v, distances !! x = Some v -> v = Infinity \/ exists n : nat, v = Fin (Z.of_nat n)) ->
  match getMinDistance grid visited distances with
  | None => forall x, x ∈ grid_keys grid -> x ∉ visited -> ~ labelled distances x
  | Some c =>
      c ∈ grid_keys grid /\ (c ∉ visited) /\ labelled distances c /\
      forall x, x ∈ grid_keys grid -> x ∉ visited -> labelled distances x ->
                (score distances c <= score distances x)%nat
  end.
Proof.
  intros Hok. unfold getMinDistance.
  pose proof (getMinDistance_body_fold visited distances (grid_keys grid) (Infinity, None)
                (or_introl (conj eq_refl eq_refl)) Hok) as H.
  simpl in H.
  destruct (snd (fold_left _ (grid_keys grid) (Infinity, None))) as [c|].
  - destruct H as (n & _ & Hlab & [Hw | [Hc Hv]] & Hmin & _); [discriminate|].
    split; [assumption|]. split; [assumption|]. split; [eexists; eauto|].
    intros x Hx Hxv Hxl. rewrite (label_score _ _ _ Hlab).
    apply labelled_label in Hxl. eauto.
  - destruct H as [_ H]. exact H.
Qed.

(** ** Dijkstra: relaxation *)

(** The score [dc + 1] is strictly below the score of [x]. *)
Definition improves (dc : nat) (scores : gmap Position num) (x : Position) : Prop :=
  num_lt (Fin (Z.of_nat dc + 1)) (num_of (scores !! x)) = true.

Lemma label_S scores x dc :
  scores !! x = Some (Fin (Z.of_nat dc + 1)) -> label scores x (S dc).
Proof. unfold label. intros ->. do 2 f_equal. lia. Qed.

Lemma dijkstra_relax_eq visited current distances parent n dc :
  label distances current dc ->
  dijkstra_relax visited current (distances, parent) n =
  if decide (n ∈ visited) then (distances, parent)
  else if num_lt (Fin (Z.of_nat dc + 1)) (num_of (distances !! n))
       then (<[n := Fin (Z.of_nat dc + 1)]> distances, <[n := current]> parent)
       else (distances, parent).
Proof. unfold dijkstra_relax, label. intros ->. reflexivity. Qed.

Lemma dijkstra_relax_fold visited current dc ns :
  NoDup ns -> current ∈ visited ->
  forall distances parent, label distances current dc ->
  exists distances' parent',
    fold_left (dijkstra_relax visited current) ns (distances, parent)
      = (distances', parent') /\
    forall x,
      (x ∈ ns -> x ∉ visited -> improves dc distances x ->
         label distances' x (S dc) /\ parent' !! x = Some current) /\
      (x ∉ ns \/ x ∈ visited \/ ~ improves dc distances x ->
         distances' !! x = distances !! x /\ parent' !! x = parent !! x).
Proof.
  intros Hnd Hcur. induction ns as [|n ns IH]; intros distances parent Hlab; cbn [fold_left].
  - exists distances, parent. split; [reflexivity|]. intros x. split.
    + intros Hx. apply elem_of_nil in Hx. contradiction.
    + auto.
  - apply NoDup_cons in Hnd as [Hn Hnd]. specialize (IH Hnd).
    rewrite (dijkstra_relax_eq _ _ _ _ _ _ Hlab).
    destruct (decide (n ∈ visited)) as [Hv|Hv].
    + destruct (IH distances parent Hlab) as (ds & ps & Hf & Hx).
      exists ds, ps. split; [exact Hf|]. intros x. destruct (Hx x) as [H1 H2]. split.
      * intros Hin Hxv Himp. apply elem_of_cons in Hin as [-> | Hin]; [contradiction | auto].
      * intros [Hin | H]; [|auto]. apply H2. left. rewrite not_elem_of_cons in Hin. tauto.
    + destruct (num_lt (Fin (Z.of_nat dc + 1)) (num_of (distances !! n))) eqn:Himp.
      * assert (Hnc : n <> current) by (intros ->; contradiction).
        destruct (IH (<[n := Fin (Z.of_nat dc + 1)]> distances) (<[n := current]> parent))
          as (ds & ps & Hf & Hx).
        { unfold label. rewrite lookup_insert_ne by assumption. exact Hlab. }
        exists ds, ps. split; [exact Hf|]. intros x.
        destruct (decide (x = n)) as [->|Hne].
        -- destruct (Hx n) as [_ H2]. destruct (H2 (or_introl Hn)) as [Hd Hp].
           rewrite lookup_insert_eq in Hd. rewrite lookup_insert_eq in Hp. split.
           ++ intros _ _ _. split; [apply label_S; exact Hd | exact Hp].
           ++ intros [Hin | [Hin | Hin]]; [exfalso; apply Hin; left | contradiction | contradiction].
        -- destruct (Hx x) as [H1 H2]. unfold improves in *.
           rewrite (lookup_insert_ne distances) in H1, H2 by congruence.
           rewrite (lookup_insert_ne parent) in H2 by congruence. split.
           ++ intros Hin. apply elem_of_cons in Hin as [-> | Hin]; [congruence | auto].
           ++ intros [Hin | H]; [|auto]. apply H2. left. rewrite not_elem_of_cons in Hin. tauto.
      * destruct (IH distances parent Hlab) as (ds & ps & Hf & Hx).
        exists ds, ps. split; [exact Hf|]. intros x. destruct (Hx x) as [H1 H2]. split.
        -- intros Hin Hxv Hi. apply elem_of_cons in Hin as [-> | Hin]; [|auto].
           unfold improves in Hi. congruence.
        -- intros [Hin | H]; [|auto]. apply H2. left. rewrite not_elem_of_cons in Hin. tauto.
Qed.

(** A score that is a natural number or [Infinity] either improves to
    [dc + 1] or is a natural number of at most [dc + 1]. *)
Lemma improves_or_le dc scores x :
  scores !! x = Some Infinity \/ labelled scores x ->
  improves dc scores x \/ (exists m, label scores x m /\ (m <= S dc)%nat).
Proof.
  unfold improves. intros [H | [m H]].
  - left. rewrite H. reflexivity.
  - rewrite (num_lt_Fin_label _ _ _ _ H).
    destruct (Z.of_nat dc + 1 <? Z.of_nat m) eqn:E; [left; reflexivity|].
    right. exists m. split; [assumption|]. apply Z.ltb_ge in E. lia.
Qed.

Lemma improves_label dc scores x m :
  improves dc scores x -> label scores x m -> (S dc < m)%nat.
Proof.
  unfold improves. intros Hi Hl. rewrite (num_lt_Fin_label _ _ _ _ Hl) in Hi.
  apply Z.ltb_lt in Hi. lia.
Qed.

Lemma adjacent_irrefl p : ~ adjacent p p.
Proof. unfold adjacent. lia. Qed.

Section Dijkstra.

Context (grid : Grid) (cols : nat) (s e : Position).
Hypothesis Hrect : rect grid cols.
Hypothesis Hstart : kind_is grid T_start s.
Hypothesis Hend : kind_is grid T_end e.

(** The invariant of the loop of [dijkstra]. *)
Record dijkstra_ok (distances : gmap Position num) (parent : gmap Position Position)
    (visited : gset Position) (trace : list Position) : Prop := mkDijkstraOk {
  dj_nodup : NoDup trace;
  dj_visited_trace : forall x, x ∈ visited <-> x ∈ trace;
  dj_scores : scores_ok grid distances;
  dj_settled : forall x, x ∈ trace -> labelled distances x;
  dj_source : label distances s 0;
  dj_tree : forall x, labelled distances x ->
      x = s \/
      (x <> s /\ exists p, parent !! x = Some p /\ p ∈ trace /\ edge grid p x /\
                           score distances x = S (score distances p));
  dj_end_out : e ∉ trace;
  dj_closed : forall u v, u ∈ trace -> edge grid u v ->
      labelled distances v /\ (score distances v <= score distances u + 1)%nat;
  dj_mono : forall t x, t ∈ trace -> x ∉ trace -> labelled distances x ->
      (score distances t <= score distances x)%nat;
  dj_head : trace = [] \/ exists t, trace = s :: t
}.

Definition dijkstra_inv (st : dijkstra_state) : Prop :=
  dj_grid st = grid /\ dj_start st = s /\ dj_end st = e /\
  dijkstra_ok (dj_distances st) (dj_parent st) (dj_visited st) (dj_visitedPositions st).

Definition dijkstra_minv (m : machine dijkstra_state) : Prop :=
  match m with Searching st => dijkstra_inv st | Rebuilding _ => False end.

Definition dijkstra_measure (m : machine dijkstra_state) : nat :=
  match m with
  | Searching st => remaining grid (dj_visitedPositions st)
  | Rebuilding _ => 0%nat
  end.

Lemma scores_ok_values distances :
  scores_ok grid distances ->
  forall x v, distances !! x = Some v -> v = Infinity \/ exists n : nat, v = Fin (Z.of_nat n).
Proof.
  intros [H1 H2] x v Hv.
  destruct (H1 x (H2 x (ex_intro _ v Hv))) as [H | [n H]].
  - left. congruence.
  - right. exists n. unfold label in H. congruence.
Qed.

Lemma dijkstra_tree distances parent visited trace :
  dijkstra_ok distances parent visited trace ->
  parent_tree grid s parent (labelled distances) (score distances).
Proof.
  intros Hok x Hx. destruct (dj_tree _ _ _ _ Hok x Hx) as [-> | (Hne & p & Hp & Hpt & He & Hd)].
  - left. split; [reflexivity|]. apply label_score. apply (dj_source _ _ _ _ Hok).
  - right. split; [assumption|]. exists p. split; [assumption|].
    split; [apply (dj_settled _ _ _ _ Hok); assumption|]. split; assumption.
Qed.

Lemma dijkstra_zero distances parent visited trace x :
  dijkstra_ok distances parent visited trace ->
  labelled distances x -> score distances x = 0%nat -> x = s.
Proof.
  intros Hok Hx H0.
  destruct (dj_tree _ _ _ _ Hok x Hx) as [-> | (_ & p & _ & _ & _ & Hd)]; [reflexivity | lia].
Qed.

(** The selected cell when nothing is visited yet is the start. *)
Lemma dijkstra_first distances parent visited current :
  dijkstra_ok distances parent visited [] ->
  labelled distances current ->
  (forall x, x ∈ grid_keys grid -> x ∉ visited -> labelled distances x ->
             (score distances current <= score distances x)%nat) ->
  current = s.
Proof.
  intros Hok Hc Hmin. eapply dijkstra_zero; eauto.
  pose proof (dj_source _ _ _ _ Hok) as Hs.
  assert (Hle : (score distances current <= score distances s)%nat).
  { apply Hmin.
    - apply elem_of_grid_keys. destruct Hstart as (c & H & _). eauto.
    - rewrite (dj_visited_trace _ _ _ _ Hok). apply not_elem_of_nil.
    - exists 0%nat. exact Hs. }
  rewrite (label_score _ _ _ Hs) in Hle. lia.
Qed.

Lemma dijkstra_step distances parent visited trace current :
  dijkstra_ok distances parent visited trace ->
  current ∈ grid_keys grid -> current ∉ visited -> labelled distances current ->
  (forall x, x ∈ grid_keys grid -> x ∉ visited -> labelled distances x ->
             (score distances current <= score distances x)%nat) ->
  current <> e ->
  exists distances' parent',
    fold_left (dijkstra_relax ({[current]} ∪ visited) current) (neighbors grid current)
      (distances, parent) = (distances', parent') /\
    dijkstra_ok distances' parent' ({[current]} ∪ visited) (trace ++ [current]).
Proof.
  intros Hok Hkey Hnv Hlc Hmin Hne.
  pose proof (labelled_label _ _ Hlc) as Hlabc.
  set (dc := score distances current) in *.
  assert (Hcv : current ∈ ({[current]} ∪ visited : gset Position)) by set_solver.
  destruct (dijkstra_relax_fold _ current dc (neighbors grid current)
              (NoDup_neighbors _ _) Hcv distances parent Hlabc)
    as (ds & ps & Hfold & Hx).
  exists ds, ps. split; [exact Hfold|].
  destruct Hok as [Hnd Hvt Hsc Hset Hsrc Htree Hend' Hclosed Hmono Hhead].
  assert (Hnt : current ∉ trace) by (rewrite <- Hvt; exact Hnv).
  (* every position either improves to [dc + 1] with parent [current],
     or keeps its score and its parent *)
  assert (Hcls : forall x,
    (label ds x (S dc) /\ ps !! x = Some current /\ edge grid current x /\
     (x ∉ trace) /\ x <> current /\ improves dc distances x) \/
    (ds !! x = distances !! x /\ ps !! x = parent !! x /\
     (~ edge grid current x \/ x ∈ trace \/ x = current \/ ~ improves dc distances x))).
  { intros x. destruct (Hx x) as [H1 H2].
    destruct (decide (x ∈ neighbors grid current)) as [Hn|Hn].
    - destruct (decide (x ∈ ({[current]} ∪ visited : gset Position))) as [Hv|Hv].
      + right. destruct (H2 (or_intror (or_introl Hv))) as [Ha Hb].
        split; [assumption|]. split; [assumption|].
        apply elem_of_union in Hv as [Hv|Hv].
        * apply elem_of_singleton in Hv. auto.
        * apply Hvt in Hv. auto.
      + destruct (num_lt (Fin (Z.of_nat dc + 1)) (num_of (distances !! x))) eqn:Hi.
        * left. destruct (H1 Hn Hv Hi) as [Ha Hb].
          split; [assumption|]. split; [assumption|].
          split; [apply elem_of_neighbors; assumption|].
          split; [rewrite <- Hvt; set_solver|]. split; [set_solver | exact Hi].
        * right. assert (Hni : ~ improves dc distances x) by (unfold improves; congruence).
          destruct (H2 (or_intror (or_intror Hni))) as [Ha Hb].
          split; [assumption|]. split; [assumption|]. auto.
    - right. destruct (H2 (or_introl Hn)) as [Ha Hb].
      split; [assumption|]. split; [assumption|]. left. rewrite <- elem_of_neighbors. exact Hn. }
  assert (Hkeep : forall x, x ∈ trace \/ x = current ->
                            ds !! x = distances !! x /\ ps !! x = parent !! x).
  { intros x Hxin. destruct (Hcls x) as [(_ & _ & _ & Hxt & Hxc & _) | (Ha & Hb & _)]; [|auto].
    destruct Hxin; contradiction. }
  assert (Hscore : forall x, ds !! x = distances !! x -> score ds x = score distances x).
  { intros x Hxe. unfold score. rewrite Hxe. reflexivity. }
  assert (Hlab : forall x, ds !! x = distances !! x -> labelled ds x <-> labelled distances x).
  { intros x Hxe. unfold labelled, label. rewrite Hxe. reflexivity. }
  assert (Hsrc' : ds !! s = distances !! s /\ ps !! s = parent !! s).
  { destruct (Hcls s) as [(_ & _ & _ & _ & _ & Hi) | (Ha & Hb & _)]; [|auto].
    pose proof (improves_label _ _ _ _ Hi Hsrc). lia. }
  constructor.
  - apply NoDup_app. split; [assumption|]. split; [|apply NoDup_singleton].
    intros x Hxt Hxc. apply list_elem_of_singleton in Hxc. subst. contradiction.
  - intros x. rewrite elem_of_union, elem_of_singleton, Hvt, elem_of_app,
      list_elem_of_singleton. tauto.
  - destruct Hsc as [Hs1 Hs2]. split.
    + intros x Hxg. destruct (Hcls x) as [(Ha & _) | (Ha & _)].
      * right. eexists; exact Ha.
      * unfold labelled, label. rewrite Ha. apply Hs1. assumption.
    + intros x Hxs. destruct (Hcls x) as [(_ & _ & He & _) | (Ha & _)].
      * apply passable_in_grid. eapply edge_passable; eauto.
      * apply Hs2. rewrite <- Ha. assumption.
  - intros x Hxin. apply elem_of_app in Hxin as [Hxin|Hxin].
    + apply Hlab; [apply Hkeep; auto | auto].
    + apply list_elem_of_singleton in Hxin. subst x. apply Hlab; [apply Hkeep; auto | auto].
  - unfold label. rewrite (proj1 Hsrc'). exact Hsrc.
  - intros x Hxl. destruct (Hcls x) as [(Ha & Hb & He & Hxt & Hxc & Hi) | (Ha & Hb & _)].
    + right. split.
      * intros ->. pose proof (improves_label _ _ _ _ Hi Hsrc). lia.
      * exists current. split; [assumption|]. split; [apply elem_of_app; right; left|].
        split; [assumption|].
        rewrite (label_score _ _ _ Ha).
        rewrite (Hscore current) by (apply Hkeep; auto). reflexivity.
    + apply Hlab in Hxl; [|assumption].
      destruct (Htree x Hxl) as [-> | (Hxs & p & Hp & Hpt & He & Hd)]; [left; reflexivity|].
      right. split; [assumption|]. exists p. rewrite Hb.
      split; [assumption|]. split; [apply elem_of_app; auto|]. split; [assumption|].
      rewrite (Hscore x Ha), (Hscore p) by (apply Hkeep; auto). assumption.
  - intros Hin. apply elem_of_app in Hin as [Hin|Hin]; [contradiction|].
    apply list_elem_of_singleton in Hin. congruence.
  - intros u v Hu He.
    assert (Hgv : is_Some (cellOf grid v)) by (eapply passable_in_grid, edge_passable; eauto).
    rewrite (Hscore u) by (apply Hkeep; rewrite elem_of_app, list_elem_of_singleton in Hu; tauto).
    apply elem_of_app in Hu as [Hu|Hu].
    + destruct (Hclosed u v Hu He) as [Hvl Hvd].
      destruct (Hcls v) as [(Ha & _ & _ & _ & _ & Hi) | (Ha & _)].
      * split; [eexists; exact Ha|]. rewrite (label_score _ _ _ Ha).
        pose proof (improves_label _ _ _ _ Hi (labelled_label _ _ Hvl)). lia.
      * split; [apply Hlab; assumption|]. rewrite (Hscore v Ha). assumption.
    + apply list_elem_of_singleton in Hu. subst u. fold dc.
      destruct (Hcls v) as [(Ha & _) | (Ha & _ & [Hc | [Hc | [Hc | Hc]]])].
      * split; [eexists; exact Ha|]. rewrite (label_score _ _ _ Ha). lia.
      * contradiction.
      * split; [apply Hlab; auto|]. rewrite (Hscore v Ha).
        pose proof (Hmono v current Hc Hnt Hlc). fold dc in H. lia.
      * subst v. destruct He as [He _]. exfalso. eapply adjacent_irrefl; eauto.
      * destruct (improves_or_le dc distances v (proj1 Hsc v Hgv)) as [Hi | (m & Hm & Hle)];
          [contradiction|].
        split; [apply Hlab; [assumption | eexists; exact Hm]|].
        rewrite (Hscore v Ha), (label_score _ _ _ Hm). lia.
  - intros t x Ht Hxt Hxl.
    assert (Hxt' : (x ∉ trace) /\ x <> current).
    { rewrite elem_of_app, list_elem_of_singleton in Hxt. tauto. }
    destruct Hxt' as [Hxt1 Hxt2].
    rewrite (Hscore t) by (apply Hkeep; rewrite elem_of_app, list_elem_of_singleton in Ht; tauto).
    assert (Htc : (score distances t <= dc)%nat).
    { apply elem_of_app in Ht as [Ht|Ht].
      - apply (Hmono t current Ht Hnt Hlc).
      - apply list_elem_of_singleton in Ht. subst t. reflexivity. }
    destruct (Hcls x) as [(Ha & _) | (Ha & _)].
    + rewrite (label_score _ _ _ Ha). lia.
    + rewrite (Hscore x Ha). apply Hlab in Hxl; [|assumption].
      apply elem_of_app in Ht as [Ht|Ht].
      * apply Hmono; assumption.
      * apply list_elem_of_singleton in Ht. subst t. apply Hmin; [|rewrite Hvt|]; try assumption.
        apply elem_of_grid_keys. destruct Hsc as [_ Hs2]. apply Hs2.
        destruct Hxl as [m Hm]. unfold label in Hm. eauto.
  - right. destruct Hhead as [-> | [t ->]].
    + exists []. simpl. f_equal.
      eapply (dijkstra_first distances parent visited); eauto.
      constructor; auto. 
    + exists (t ++ [current]). reflexivity.
Qed.

Lemma dijkstra_init :
  dijkstra_ok (<[s := Fin 0]> (init_scores grid)) ∅ ∅ [].
Proof.
  assert (Hsg : is_Some (cellOf grid s)) by (destruct Hstart as (c & H & _); eauto).
  assert (Hlab : forall x, labelled (<[s := Fin 0]> (init_scores grid)) x -> x = s).
  { intros x [n Hn]. unfold label in Hn. destruct (decide (x = s)) as [|Hne]; [assumption|].
    rewrite lookup_insert_ne, init_scores_lookup in Hn by congruence.
    destruct (decide (x ∈ grid_keys grid)); discriminate. }
  constructor.
  - apply NoDup_nil; exact I.
  - intros x. rewrite elem_of_nil. set_solver.
  - split.
    + intros x Hx. destruct (decide (x = s)) as [->|Hne].
      * right. exists 0%nat. apply lookup_insert_eq.
      * left. rewrite lookup_insert_ne, init_scores_lookup by congruence.
        rewrite decide_True by (apply elem_of_grid_keys; exact Hx). reflexivity.
    + intros x Hx. destruct (decide (x = s)) as [->|Hne]; [assumption|].
      rewrite lookup_insert_ne, init_scores_lookup in Hx by congruence.
      destruct (decide (x ∈ grid_keys grid)) as [Hk|Hk].
      * apply elem_of_grid_keys. exact Hk.
      * destruct Hx; discriminate.
  - intros x Hx. apply elem_of_nil in Hx. contradiction.
  - apply lookup_insert_eq.
  - intros x Hx. left. auto.
  - apply not_elem_of_nil.
  - intros u v Hu. apply elem_of_nil in Hu. contradiction.
  - intros t x Ht. apply elem_of_nil in Ht. contradiction.
  - left. reflexivity.
Qed.

Lemma dijkstra_total :
  exists fuel r,
    run (machine_step dijkstra_search) fuel
      (Searching (mkDijkstra grid s e (<[s := Fin 0]> (init_scores grid)) ∅ ∅ []))
      = Returned r /\ sound_result grid s e r /\ shortest_result grid s e r.
Proof.
  apply (run_total _ dijkstra_minv dijkstra_measure).
  - intros [st|r] Hinv; [|contradiction]. simpl in Hinv.
    destruct st as [g s0 e0 distances parent visited trace].
    destruct Hinv as (Hg & Hs0 & He0 & Hok). simpl in *. subst g s0 e0.
    unfold dijkstra_search; simpl.
    pose proof (getMinDistance_spec grid visited distances
                  (scores_ok_values _ (dj_scores _ _ _ _ Hok))) as Hmin.
    destruct (getMinDistance grid visited distances) as [current|].
    + destruct Hmin as (Hkey & Hnv & Hlc & Hmin).
      assert (Hnt : current ∉ trace) by (rewrite <- (dj_visited_trace _ _ _ _ Hok); exact Hnv).
      destruct (pos_eqb current e) eqn:Eq.
      * apply pos_eqb_eq in Eq. subst current. right.
        destruct (rebuild_from_end dijkstra_search grid s e parent (labelled distances)
                    (score distances) (trace ++ [e]) Hstart (dijkstra_tree _ _ _ _ Hok) Hlc)
          as (l & Hrun & Hvalid & Hlen & Hwalk).
        exists (S (score distances e)), (mkResult l (trace ++ [e]) true).
        split; [exact Hrun|]. split.
        -- split; [|split; [|split]]; simpl.
           ++ apply NoDup_app. split; [apply (dj_nodup _ _ _ _ Hok)|].
              split; [|apply NoDup_singleton].
              intros x Hx Hx'. apply list_elem_of_singleton in Hx'. subst. contradiction.
           ++ destruct (dj_head _ _ _ _ Hok) as [Ht | [t ->]]; [|reflexivity].
              subst trace. exfalso. apply (start_neq_end grid s e Hstart Hend).
              symmetry. eapply dijkstra_first; eauto.
           ++ intros _. exact Hvalid.
           ++ discriminate.
        -- intros _. exists (score distances e). simpl.
           split; [exact Hlen|]. split; [exact Hwalk|]. intros m Hm.
           destruct (frontier_lower_bound grid s (fun x => x ∈ trace)
                       (fun x => labelled distances x /\ x ∉ trace)
                       (score distances) (fun _ => 0%nat)) with (q := e) (n := m)
             as [[Hin _] | (y & [Hyl Hyt] & Hb)].
           ++ destruct (decide (s ∈ trace)); [left; assumption|].
              right. split; [|assumption]. exists 0%nat. apply (dj_source _ _ _ _ Hok).
           ++ apply label_score, (dj_source _ _ _ _ Hok).
           ++ intros u v Hu He. destruct (dj_closed _ _ _ _ Hok u v Hu He) as [Hvl Hvd].
              split; [|assumption].
              destruct (decide (v ∈ trace)); [left; assumption | right; split; assumption].
           ++ intros; lia.
           ++ exact Hm.
           ++ exfalso. apply (dj_end_out _ _ _ _ Hok). assumption.
           ++ assert (Hle : (score distances e <= score distances y)%nat).
              { apply Hmin; [|rewrite (dj_visited_trace _ _ _ _ Hok)|]; try assumption.
                apply elem_of_grid_keys. apply (proj2 (dj_scores _ _ _ _ Hok)).
                destruct Hyl as [k Hk]. unfold label in Hk. eauto. }
              lia.
      * apply pos_eqb_neq in Eq.
        rewrite (getNeighbors_rect _ cols) by assumption.
        destruct (dijkstra_step _ _ _ _ _ Hok Hkey Hnv Hlc Hmin Eq)
          as (ds & ps & Hfold & Hok').
        rewrite Hfold. left. split.
        -- simpl. split; [reflexivity|]. split; [reflexivity|]. split; [reflexivity|].
           exact Hok'.
        -- simpl. apply remaining_snoc; [|assumption].
           apply elem_of_grid_keys. assumption.
    + split; [|discriminate].
      assert (Hall : forall x, labelled distances x -> x ∈ trace).
      { intros x Hx. destruct (decide (x ∈ trace)) as [|Hn]; [assumption|]. exfalso.
        apply (Hmin x); [| rewrite (dj_visited_trace _ _ _ _ Hok) |]; try assumption.
        apply elem_of_grid_keys. apply (proj2 (dj_scores _ _ _ _ Hok)).
        destruct Hx as [k Hk]. unfold label in Hk. eauto. }
      assert (Hst : s ∈ trace) by (apply Hall; exists 0%nat; apply (dj_source _ _ _ _ Hok)).
      split; [apply (dj_nodup _ _ _ _ Hok)|]. split; [|split]; simpl.
      * destruct (dj_head _ _ _ _ Hok) as [-> | [t ->]]; [|reflexivity].
        apply elem_of_nil in Hst. contradiction.
      * discriminate.
      * intros _. split; [reflexivity|]. intros [n Hw].
        assert (Hin : forall q k, walk grid s q k -> q ∈ trace).
        { intros q k Hq. induction Hq as [|q q' k Hq IH He]; [assumption|].
          apply Hall. eapply (dj_closed _ _ _ _ Hok); eauto. }
        apply (dj_end_out _ _ _ _ Hok). eapply Hin; eauto.
  - simpl. split; [reflexivity|]. split; [reflexivity|]. split; [reflexivity|].
    apply dijkstra_init.
Qed.

End Dijkstra.

(** ** A*: selection and relaxation *)

(** The heuristic as a natural number. *)
Definition hn (e x : Position) : nat := Z.to_nat (heuristic x e).

Lemma heuristic_nonneg a b : 0 <= heuristic a b.
Proof. unfold heuristic. lia. Qed.

Lemma hn_end e : hn e e = 0%nat.
Proof. unfold hn, heuristic. lia. Qed.

Lemma hn_zero e x : hn e x = 0%nat -> x = e.
Proof. unfold hn, heuristic. destruct x, e; simpl. intros H. f_equal; lia. Qed.

(** The Manhattan distance is consistent: one move changes it by one. *)
Lemma hn_adjacent e u v : adjacent u v -> (hn e u <= hn e v + 1)%nat /\ (hn e v <= hn e u + 1)%nat.
Proof. unfold hn, heuristic, adjacent. lia. Qed.

Lemma lowest_fScore_fold openSet fScore :
  (forall x, x ∈ openSet -> labelled fScore x) ->
  match fold_left (lowest_body fScore) openSet (None, Infinity) with
  | (None, v) => openSet = [] /\ v = Infinity
  | (Some c, v) =>
      exists n, v = Fin (Z.of_nat n) /\ label fScore c n /\ c ∈ openSet /\
                forall x, x ∈ openSet -> (n <= score fScore x)%nat
  end.
Proof.
  induction openSet as [|x l IH] using rev_ind; intros Hlab; [simpl; auto|].
  rewrite fold_left_app. cbn [fold_left].
  assert (Hl : forall y, y ∈ l -> labelled fScore y)
    by (intros y Hy; apply Hlab, elem_of_app; auto).
  specialize (IH Hl).
  destruct (Hlab x) as [m Hm]; [apply elem_of_app; right; left|].
  destruct (fold_left (lowest_body fScore) l (None, Infinity)) as [[c|] v].
  - destruct IH as (n & -> & Hc & Hcl & Hmin).
    unfold lowest_body. cbn [fst snd].
    pose proof Hm as Hm'. unfold label in Hm'. rewrite Hm'. cbn [num_of num_lt].
    destruct (Z.of_nat m <? Z.of_nat n) eqn:E.
    + apply Z.ltb_lt in E.
      exists m. split; [reflexivity|]. split; [exact Hm|].
      split; [apply elem_of_app; right; left|].
      intros y Hy. apply elem_of_app in Hy as [Hy|Hy].
      * specialize (Hmin y Hy). lia.
      * apply list_elem_of_singleton in Hy. subst y. rewrite (label_score _ _ _ Hm). lia.
    + apply Z.ltb_ge in E. exists n. split; [reflexivity|]. split; [exact Hc|].
      split; [apply elem_of_app; auto|].
      intros y Hy. apply elem_of_app in Hy as [Hy|Hy]; [auto|].
      apply list_elem_of_singleton in Hy. subst y. rewrite (label_score _ _ _ Hm). lia.
  - destruct IH as [-> ->]. unfold lowest_body. cbn [fst snd].
    pose proof Hm as Hm'. unfold label in Hm'. rewrite Hm'. simpl.
    exists m. split; [reflexivity|]. split; [exact Hm|]. split; [left|].
    intros y Hy. apply list_elem_of_singleton in Hy. subst y.
    rewrite (label_score _ _ _ Hm). lia.
Qed.

Lemma lowest_fScore_spec openSet fScore :
  (forall x, x ∈ openSet -> labelled fScore x) -> openSet <> [] ->
  exists c, lowest_fScore openSet fScore = Some c /\ c ∈ openSet /\
            forall x, x ∈ openSet -> (score fScore c <= score fScore x)%nat.
Proof.
  intros Hlab Hne. pose proof (lowest_fScore_fold openSet fScore Hlab) as H.
  unfold lowest_fScore.
  destruct (fold_left (lowest_body fScore) openSet (None, Infinity)) as [[c|] v].
  - destruct H as (n & _ & Hc & Hin & Hmin). exists c.
    split; [reflexivity|]. split; [assumption|].
    rewrite (label_score _ _ _ Hc). exact Hmin.
  - destruct H as [H _]. contradiction.
Qed.

(** The tentative score [gc + 1] is strictly below the score of [x]. *)
Definition better (gc : nat) (gScore : gmap Position num) (x : Position) : Prop :=
  num_ge (Fin (Z.of_nat gc + 1)) (num_of (gScore !! x)) = false.

Lemma better_label gc gScore x m :
  label gScore x m -> (better gc gScore x <-> (S gc < m)%nat).
Proof.
  unfold better, label. intros ->. simpl. rewrite Z.leb_gt. lia.
Qed.

Lemma astar_relax_eq closedSet current end_ openSet gScore fScore parent n gc :
  label gScore current gc ->
  astar_relax closedSet current end_ (openSet, gScore, fScore, parent) n =
  if decide (n ∈ closedSet) then (openSet, gScore, fScore, parent)
  else if negb (bool_decide (n ∈ openSet))
       then (openSet ++ [n], <[n := Fin (Z.of_nat gc + 1)]> gScore,
             <[n := Fin (Z.of_nat gc + 1 + heuristic n end_)]> fScore,
             <[n := current]> parent)
       else if num_ge (Fin (Z.of_nat gc + 1)) (num_of (gScore !! n))
            then (openSet, gScore, fScore, parent)
            else (openSet, <[n := Fin (Z.of_nat gc + 1)]> gScore,
                  <[n := Fin (Z.of_nat gc + 1 + heuristic n end_)]> fScore,
                  <[n := current]> parent).
Proof. unfold astar_relax, label. intros ->. reflexivity. Qed.

(** What the neighbor loop of [aStar] does to a position [x]. *)
Definition astar_updated (current end_ : Position) (gc : nat)
    (gScore' fScore' : gmap Position num) (parent' : gmap Position Position)
    (x : Position) : Prop :=
  gScore' !! x = Some (Fin (Z.of_nat gc + 1)) /\
  fScore' !! x = Some (Fin (Z.of_nat gc + 1 + heuristic x end_)) /\
  parent' !! x = Some current.

Definition astar_kept (gScore fScore gScore' fScore' : gmap Position num)
    (parent parent' : gmap Position Position) (x : Position) : Prop :=
  gScore' !! x = gScore !! x /\ fScore' !! x = fScore !! x /\ parent' !! x = parent !! x.

Lemma astar_relax_fold closedSet current end_ gc ns :
  NoDup ns -> current ∈ closedSet ->
  forall openSet gScore fScore parent, label gScore current gc ->
  exists new gScore' fScore' parent',
    fold_left (astar_relax closedSet current end_) ns (openSet, gScore, fScore, parent)
      = (openSet ++ new, gScore', fScore', parent') /\
    NoDup new /\
    (forall x, x ∈ new <-> x ∈ ns /\ (x ∉ closedSet) /\ x ∉ openSet) /\
    forall x,
      (x ∈ ns -> x ∉ closedSet -> x ∉ openSet \/ better gc gScore x ->
         astar_updated current end_ gc gScore' fScore' parent' x) /\
      (x ∉ ns \/ x ∈ closedSet \/ (x ∈ openSet /\ ~ better gc gScore x) ->
         astar_kept gScore fScore gScore' fScore' parent parent' x).
Proof.
  intros Hnd Hcur. induction ns as [|n ns IH];
    intros openSet gScore fScore parent Hlab; cbn [fold_left].
  - exists [], gScore, fScore, parent. rewrite app_nil_r.
    split; [reflexivity|]. split; [apply NoDup_nil; exact I|]. split.
    + intros x. rewrite elem_of_nil. tauto.
    + intros x. split.
      * intros Hx. apply elem_of_nil in Hx. contradiction.
      * intros _. repeat split.
  - apply NoDup_cons in Hnd as [Hn Hnd]. specialize (IH Hnd).
    rewrite (astar_relax_eq _ _ _ _ _ _ _ _ _ Hlab).
    destruct (decide (n ∈ closedSet)) as [Hc|Hc].
    { destruct (IH openSet gScore fScore parent Hlab)
        as (new & g' & f' & p' & Hf & Hnew & Hmem & Hx).
      exists new, g', f', p'. split; [exact Hf|]. split; [exact Hnew|]. split.
      - intros x. rewrite Hmem, elem_of_cons. split; [tauto|].
        intros [[-> | Hin] [Hxc Hxo]]; [contradiction | auto].
      - intros x. destruct (Hx x) as [H1 H2]. split.
        + intros Hin Hxc. apply elem_of_cons in Hin as [-> | Hin]; [contradiction | auto].
        + intros [Hin | H]; [|auto]. apply H2. left. rewrite not_elem_of_cons in Hin. tauto. }
    assert (Hnc : n <> current) by (intros ->; contradiction).
    destruct (decide (n ∈ openSet)) as [Ho|Ho].
    + rewrite bool_decide_eq_true_2 by assumption. cbn [negb].
      destruct (num_ge (Fin (Z.of_nat gc + 1)) (num_of (gScore !! n))) eqn:Hge.
      * destruct (IH openSet gScore fScore parent Hlab)
          as (new & g' & f' & p' & Hf & Hnew & Hmem & Hx).
        exists new, g', f', p'. split; [exact Hf|]. split; [exact Hnew|]. split.
        -- intros x. rewrite Hmem, elem_of_cons. split; [tauto|].
           intros [[-> | Hin] [Hxc Hxo]]; [contradiction | auto].
        -- intros x. destruct (Hx x) as [H1 H2]. split.
           ++ intros Hin Hxc Hcond. apply elem_of_cons in Hin as [-> | Hin]; [|auto].
              destruct Hcond as [Hcond|Hcond]; [contradiction|].
              unfold better in Hcond. congruence.
           ++ intros [Hin | H]; [|auto]. apply H2. left. rewrite not_elem_of_cons in Hin. tauto.
      * destruct (IH openSet (<[n := Fin (Z.of_nat gc + 1)]> gScore)
                    (<[n := Fin (Z.of_nat gc + 1 + heuristic n end_)]> fScore)
                    (<[n := current]> parent))
          as (new & g' & f' & p' & Hf & Hnew & Hmem & Hx).
        { unfold label. rewrite lookup_insert_ne by assumption. exact Hlab. }
        exists new, g', f', p'. split; [exact Hf|]. split; [exact Hnew|]. split.
        -- intros x. rewrite Hmem, elem_of_cons. split; [tauto|].
           intros [[-> | Hin] [Hxc Hxo]]; [contradiction | auto].
        -- intros x. destruct (decide (x = n)) as [->|Hne].
           ++ destruct (Hx n) as [_ H2]. destruct (H2 (or_introl Hn)) as (Hg & Hfs & Hp).
              rewrite lookup_insert_eq in Hg. rewrite lookup_insert_eq in Hfs.
              rewrite lookup_insert_eq in Hp. split.
              ** intros _ _ _. repeat split; assumption.
              ** intros [Hin | [Hin | [_ Hin]]].
                 --- exfalso; apply Hin; left.
                 --- contradiction.
                 --- exfalso. apply Hin. exact Hge.
           ++ destruct (Hx x) as [H1 H2]. unfold better, astar_kept in *.
              rewrite (lookup_insert_ne gScore) in H1, H2 by congruence.
              rewrite (lookup_insert_ne fScore) in H2 by congruence.
              rewrite (lookup_insert_ne parent) in H2 by congruence. split.
              ** intros Hin. apply elem_of_cons in Hin as [-> | Hin]; [congruence | auto].
              ** intros [Hin | H]; [|auto]. apply H2. left.
                 rewrite not_elem_of_cons in Hin. tauto.
    + rewrite bool_decide_eq_false_2 by assumption. cbn [negb].
      destruct (IH (openSet ++ [n]) (<[n := Fin (Z.of_nat gc + 1)]> gScore)
                  (<[n := Fin (Z.of_nat gc + 1 + heuristic n end_)]> fScore)
                  (<[n := current]> parent))
        as (new & g' & f' & p' & Hf & Hnew & Hmem & Hx).
      { unfold label. rewrite lookup_insert_ne by assumption. exact Hlab. }
      assert (Hnn : n ∉ new).
      { intros Hin. apply Hmem in Hin as (_ & _ & Hin). apply Hin, elem_of_app. right. left. }
      exists (n :: new), g', f', p'. split; [rewrite Hf, <- app_assoc; reflexivity|].
      split; [apply NoDup_cons; auto|]. split.
      * intros x. rewrite !elem_of_cons, Hmem, elem_of_app, list_elem_of_singleton. split.
        -- intros [-> | (Hin & Hxc & Hxo)]; [auto|]. tauto.
        -- intros [[-> | Hin] [Hxc Hxo]]; [auto|]. right.
           assert (x <> n) by (intros ->; contradiction). tauto.
      * intros x. destruct (decide (x = n)) as [->|Hne].
        -- destruct (Hx n) as [_ H2]. destruct (H2 (or_introl Hn)) as (Hg & Hfs & Hp).
           rewrite lookup_insert_eq in Hg. rewrite lookup_insert_eq in Hfs.
           rewrite lookup_insert_eq in Hp. split.
           ++ intros _ _ _. repeat split; assumption.
           ++ intros [Hin | [Hin | [Hin _]]].
              ** exfalso; apply Hin; left.
              ** contradiction.
              ** contradiction.
        -- destruct (Hx x) as [H1 H2]. unfold better, astar_kept in *.
           rewrite (lookup_insert_ne gScore) in H1, H2 by congruence.
           rewrite (lookup_insert_ne fScore) in H2 by congruence.
           rewrite (lookup_insert_ne parent) in H2 by congruence.
           assert (Hoo : x ∈ openSet ++ [n] <-> x ∈ openSet).
           { rewrite elem_of_app, list_elem_of_singleton. tauto. }
           split.
           ++ intros Hin Hxc Hcond. apply elem_of_cons in Hin as [-> | Hin]; [congruence|].
              apply H1; [assumption..|]. rewrite Hoo. exact Hcond.
           ++ intros [Hin | [Hin | [Hin Hb]]].
              ** apply H2. left. rewrite not_elem_of_cons in Hin. tauto.
              ** apply H2. auto.
              ** apply H2. right. right. rewrite Hoo. auto.
Qed.

Section AStar.

Context (grid : Grid) (cols : nat) (s e : Position).
Hypothesis Hrect : rect grid cols.
Hypothesis Hstart : kind_is grid T_start s.
Hypothesis Hend : kind_is grid T_end e.

(** The priority [g + h] of a position. *)
Definition fval (gScore : gmap Position num) (x : Position) : nat :=
  (score gScore x + hn e x)%nat.

(** The invariant of the loop of [aStar]. *)
Record astar_ok (openSet : list Position) (closedSet : gset Position)
    (gScore fScore : gmap Position num) (parent : gmap Position Position)
    (trace : list Position) : Prop := mkAstarOk {
  ao_nodup : NoDup trace;
  ao_closed_trace : forall x, x ∈ closedSet <-> x ∈ trace;
  ao_open_nodup : NoDup openSet;
  ao_open_fresh : forall x, x ∈ openSet -> x ∉ trace;
  ao_scores : scores_ok grid gScore;
  ao_known : forall x, x ∈ openSet \/ x ∈ trace -> labelled gScore x;
  ao_fscore : forall x, x ∈ openSet -> label fScore x (fval gScore x);
  ao_source : label gScore s 0;
  ao_tree : forall x, x ∈ openSet \/ x ∈ trace ->
      x = s \/
      (x <> s /\ exists p, parent !! x = Some p /\ p ∈ trace /\ edge grid p x /\
                           score gScore x = S (score gScore p));
  ao_end_out : e ∉ trace;
  ao_closure : forall u v, u ∈ trace -> edge grid u v ->
      (v ∈ trace \/ v ∈ openSet) /\ (score gScore v <= score gScore u + 1)%nat;
  ao_mono : forall t x, t ∈ trace -> x ∈ openSet -> (fval gScore t <= fval gScore x)%nat;
  ao_head : (trace = [] /\ openSet = [s]) \/ exists t, trace = s :: t
}.

Definition astar_inv (st : astar_state) : Prop :=
  as_grid st = grid /\ as_start st = s /\ as_end st = e /\
  astar_ok (as_openSet st) (as_closedSet st) (as_gScore st) (as_fScore st)
    (as_parent st) (as_visitedPositions st).

Definition astar_minv (m : machine astar_state) : Prop :=
  match m with Searching st => astar_inv st | Rebuilding _ => False end.

Definition astar_measure (m : machine astar_state) : nat :=
  match m with
  | Searching st => remaining grid (as_visitedPositions st)
  | Rebuilding _ => 0%nat
  end.

Lemma astar_tree openSet closedSet gScore fScore parent trace :
  astar_ok openSet closedSet gScore fScore parent trace ->
  parent_tree grid s parent (fun x => x ∈ openSet \/ x ∈ trace) (score gScore).
Proof.
  intros Hok x Hx.
  destruct (ao_tree _ _ _ _ _ _ Hok x Hx) as [-> | (Hne & p & Hp & Hpt & He & Hd)].
  - left. split; [reflexivity|]. apply label_score. apply (ao_source _ _ _ _ _ _ Hok).
  - right. split; [assumption|]. exists p. split; [assumption|].
    split; [right; assumption|]. split; assumption.
Qed.

Lemma astar_source_known openSet closedSet gScore fScore parent trace :
  astar_ok openSet closedSet gScore fScore parent trace -> s ∈ openSet \/ s ∈ trace.
Proof.
  intros Hok. destruct (ao_head _ _ _ _ _ _ Hok) as [[_ ->] | [t ->]].
  - left. left.
  - right. left.
Qed.

Lemma label_updated gc x scores :
  scores !! x = Some (Fin (Z.of_nat gc + 1 + heuristic x e)) ->
  label scores x (S gc + hn e x).
Proof.
  unfold label, hn. intros ->. do 2 f_equal. pose proof (heuristic_nonneg x e). lia.
Qed.

Lemma astar_step openSet closedSet gScore fScore parent trace current :
  astar_ok openSet closedSet gScore fScore parent trace ->
  current ∈ openSet ->
  (forall x, x ∈ openSet -> (score fScore current <= score fScore x)%nat) ->
  current <> e ->
  exists openSet' gScore' fScore' parent',
    fold_left (astar_relax ({[current]} ∪ closedSet) current e) (neighbors grid current)
      (filter (fun k => k <> current) openSet, gScore, fScore, parent)
      = (openSet', gScore', fScore', parent') /\
    astar_ok openSet' ({[current]} ∪ closedSet) gScore' fScore' parent' (trace ++ [current]).
Proof.
  intros Hok Hco Hmin Hne.
  assert (Hlc : labelled gScore current) by (apply (ao_known _ _ _ _ _ _ Hok); auto).
  pose proof (labelled_label _ _ Hlc) as Hlabc.
  set (gc := score gScore current) in *.
  assert (Hcv : current ∈ ({[current]} ∪ closedSet : gset Position)) by set_solver.
  destruct (astar_relax_fold _ current e gc (neighbors grid current)
              (NoDup_neighbors _ _) Hcv (filter (fun k => k <> current) openSet)
              gScore fScore parent Hlabc)
    as (new & g' & f' & p' & Hfold & Hnew & Hmem & Hx).
  exists (filter (fun k => k <> current) openSet ++ new), g', f', p'.
  split; [exact Hfold|].
  pose proof (astar_source_known _ _ _ _ _ _ Hok) as Hsk.
  destruct Hok as [Hnd Hct Hond Hfresh Hsc Hknown Hfs Hsrc Htree Hend' Hclosure Hmono Hhead].
  assert (Hnt : current ∉ trace) by (apply Hfresh; assumption).
  assert (Hopen0 : forall x, x ∈ filter (fun k => k <> current) openSet <->
                             x ∈ openSet /\ x <> current).
  { intros x. rewrite list_elem_of_filter. tauto. }
  assert (Hcl' : forall x, x ∈ ({[current]} ∪ closedSet : gset Position) <->
                           x = current \/ x ∈ trace).
  { intros x. rewrite elem_of_union, elem_of_singleton, Hct. tauto. }
  assert (Hmem' : forall x, x ∈ new <->
                            edge grid current x /\ (x ∉ trace) /\ x <> current /\ x ∉ openSet).
  { intros x. rewrite Hmem, elem_of_neighbors, Hcl', Hopen0. tauto. }
  assert (Hfmin : forall x, x ∈ openSet -> (fval gScore current <= fval gScore x)%nat).
  { intros x Hxo. specialize (Hmin x Hxo).
    rewrite (label_score _ _ _ (Hfs _ Hco)), (label_score _ _ _ (Hfs _ Hxo)) in Hmin.
    exact Hmin. }
  (* every position is either updated to [gc + 1] or keeps its scores *)
  assert (Hcls : forall x,
    (astar_updated current e gc g' f' p' x /\ edge grid current x /\
     (x ∉ trace) /\ x <> current /\ (x ∉ openSet \/ better gc gScore x)) \/
    (astar_kept gScore fScore g' f' parent p' x /\
     (x ∈ new -> False) /\
     (~ edge grid current x \/ x ∈ trace \/ x = current \/
      (x ∈ openSet /\ ~ better gc gScore x)))).
  { intros x. destruct (Hx x) as [H1 H2].
    destruct (decide (x ∈ neighbors grid current)) as [Hn|Hn].
    - destruct (decide (x ∈ ({[current]} ∪ closedSet : gset Position))) as [Hv|Hv].
      + right. split; [apply H2; auto|]. split.
        * intros Hin. apply Hmem in Hin. tauto.
        * apply Hcl' in Hv. tauto.
      + assert (Hxc : x <> current /\ x ∉ trace) by (rewrite Hcl' in Hv; tauto).
        destruct (decide (x ∈ openSet)) as [Ho|Ho].
        * destruct (num_ge (Fin (Z.of_nat gc + 1)) (num_of (gScore !! x))) eqn:Hb.
          -- right. assert (Hnb : ~ better gc gScore x) by (unfold better; congruence).
             split; [apply H2; right; right; split; [apply Hopen0; tauto | assumption]|].
             split; [|auto 6].
             intros Hin. apply Hmem' in Hin. tauto.
          -- left. split; [apply H1; [assumption..| right; exact Hb]|].
             split; [apply elem_of_neighbors; assumption|].
             split; [tauto|]. split; [tauto|]. right. exact Hb.
        * left. split; [apply H1; [assumption..| left; rewrite Hopen0; tauto]|].
          split; [apply elem_of_neighbors; assumption|]. tauto.
    - right. split; [apply H2; auto|]. split.
      + intros Hin. apply Hmem in Hin. tauto.
      + left. rewrite <- elem_of_neighbors. exact Hn. }
  assert (Hkeep : forall x, x ∈ trace \/ x = current ->
                            astar_kept gScore fScore g' f' parent p' x).
  { intros x Hxin. destruct (Hcls x) as [(_ & _ & Hxt & Hxc & _) | (Ha & _)]; [|auto].
    destruct Hxin; contradiction. }
  assert (Hscore : forall x, g' !! x = gScore !! x -> score g' x = score gScore x).
  { intros x Hxe. unfold score. rewrite Hxe. reflexivity. }
  assert (Hfval : forall x, g' !! x = gScore !! x -> fval g' x = fval gScore x).
  { intros x Hxe. unfold fval. rewrite (Hscore x Hxe). reflexivity. }
  assert (Hlab : forall x, g' !! x = gScore !! x -> labelled g' x <-> labelled gScore x).
  { intros x Hxe. unfold labelled, label. rewrite Hxe. reflexivity. }
  assert (Hupd : forall x, astar_updated current e gc g' f' p' x -> label g' x (S gc)).
  { intros x (Hg & _). apply label_S. exact Hg. }
  assert (Hsk' : s ∈ trace \/ s = current).
  { destruct Hhead as [[_ Ho] | [t ->]]; [|left; left].
    rewrite Ho in Hco. apply list_elem_of_singleton in Hco. auto. }
  assert (Hopen' : forall x, x ∈ filter (fun k => k <> current) openSet ++ new ->
                             (x ∈ openSet /\ x <> current) \/ x ∈ new).
  { intros x Hxin. apply elem_of_app in Hxin as [Hxin|Hxin]; [left; apply Hopen0|right]; assumption. }
  constructor.
  - apply NoDup_app. split; [assumption|]. split; [|apply NoDup_singleton].
    intros x Hxt Hxc. apply list_elem_of_singleton in Hxc. subst. contradiction.
  - intros x. rewrite Hcl', elem_of_app, list_elem_of_singleton. tauto.
  - apply NoDup_app. split; [apply NoDup_filter; assumption|]. split; [|assumption].
    intros x Hxo Hxn. apply Hmem in Hxn. tauto.
  - intros x Hxin Hxt. rewrite elem_of_app, list_elem_of_singleton in Hxt.
    apply Hopen' in Hxin as [[Hxo Hxc] | Hxn].
    + destruct Hxt; [eapply Hfresh; eauto | contradiction].
    + apply Hmem' in Hxn. tauto.
  - destruct Hsc as [Hs1 Hs2]. split.
    + intros x Hxg. destruct (Hcls x) as [(Ha & _) | ((Ha & _) & _)].
      * right. eexists; apply Hupd; exact Ha.
      * unfold labelled, label. rewrite Ha. apply Hs1. assumption.
    + intros x Hxs. destruct (Hcls x) as [(_ & He & _) | ((Ha & _) & _)].
      * apply passable_in_grid. eapply edge_passable; eauto.
      * apply Hs2. rewrite <- Ha. assumption.
  - intros x Hxin. destruct (Hcls x) as [(Ha & _) | ((Ha & _) & Hnn & _)].
    + eexists; apply Hupd; exact Ha.
    + apply Hlab; [assumption|]. apply Hknown.
      destruct Hxin as [Hxin|Hxin].
      * apply Hopen' in Hxin as [[Hxo _] | Hxn]; [auto | contradiction].
      * rewrite elem_of_app, list_elem_of_singleton in Hxin.
        destruct Hxin as [Hxin | ->]; auto.
  - intros x Hxin. destruct (Hcls x) as [(Ha & _) | ((Ha & Hb & _) & Hnn & _)].
    + unfold fval. rewrite (label_score _ _ _ (Hupd _ Ha)).
      destruct Ha as (_ & Hf' & _). apply label_updated. exact Hf'.
    + apply Hopen' in Hxin as [[Hxo _] | Hxn]; [|contradiction].
      unfold label. rewrite Hb, (Hfval x Ha). apply Hfs. assumption.
  - unfold label. destruct (Hkeep s Hsk') as (Ha & _). rewrite Ha. exact Hsrc.
  - intros x Hxin. destruct (Hcls x) as [(Ha & He & Hxt & Hxc & _) | ((Ha & Hb & Hc) & Hnn & _)].
    + right. split; [destruct Hsk' as [Hk| ->]; [intros ->; contradiction | congruence]|].
      exists current. destruct Ha as (Hg & Hf' & Hp).
      split; [assumption|]. split; [apply elem_of_app; right; left|]. split; [assumption|].
      rewrite (label_score _ _ _ (label_S _ _ _ Hg)).
      destruct (Hkeep current (or_intror eq_refl)) as (Hgc & _).
      rewrite (Hscore current Hgc). reflexivity.
    + assert (Hold : x ∈ openSet \/ x ∈ trace).
      { destruct Hxin as [Hxin|Hxin].
        - apply Hopen' in Hxin as [[Hxo _] | Hxn]; [auto | contradiction].
        - rewrite elem_of_app, list_elem_of_singleton in Hxin.
          destruct Hxin as [Hxin | ->]; auto. }
      destruct (Htree x Hold) as [-> | (Hxs & p & Hp & Hpt & He & Hd)]; [left; reflexivity|].
      right. split; [assumption|]. exists p. rewrite Hc.
      split; [assumption|]. split; [apply elem_of_app; auto|]. split; [assumption|].
      destruct (Hkeep p (or_introl Hpt)) as (Hgp & _).
      rewrite (Hscore x Ha), (Hscore p Hgp). assumption.
  - intros Hin. apply elem_of_app in Hin as [Hin|Hin]; [contradiction|].
    apply list_elem_of_singleton in Hin. congruence.
  - intros u v Hu He.
    assert (Hu' : u ∈ trace \/ u = current)
      by (rewrite elem_of_app, list_elem_of_singleton in Hu; exact Hu).
    destruct (Hkeep u Hu') as (Hgu & _). rewrite (Hscore u Hgu).
    rewrite !elem_of_app, list_elem_of_singleton, Hopen0.
    destruct Hu' as [Hut | ->].
    + destruct (Hclosure u v Hut He) as [Hv Hvd].
      assert (Hvl : labelled gScore v) by (apply Hknown; tauto).
      destruct (Hcls v) as [(Ha & _ & Hvt & Hvc & Hcond) | ((Ha & _) & _)].
      * split; [destruct Hv as [Hv|Hv]; [contradiction | tauto]|].
        rewrite (label_score _ _ _ (Hupd _ Ha)).
        destruct Hcond as [Hcond|Hcond]; [destruct Hv; contradiction|].
        apply (better_label _ _ _ _ (labelled_label _ _ Hvl)) in Hcond. lia.
      * split; [|rewrite (Hscore v Ha); assumption].
        destruct Hv as [Hv|Hv]; [tauto|].
        destruct (decide (v = current)); tauto.
    + fold gc.
      destruct (Hcls v) as [(Ha & _ & Hvt & Hvc & Hcond) | ((Ha & _) & _ & [Hc | [Hc | [Hc | Hc]]])].
      * split; [|rewrite (label_score _ _ _ (Hupd _ Ha)); lia].
        destruct (decide (v ∈ openSet)); [tauto|].
        right. right. apply Hmem'. tauto.
      * contradiction.
      * split; [tauto|]. rewrite (Hscore v Ha).
        pose proof (Hmono v current Hc Hco) as Hf. unfold fval in Hf. fold gc in Hf.
        destruct He as [Hadj _]. pose proof (hn_adjacent e current v Hadj). lia.
      * subst v. destruct He as [He _]. exfalso. eapply adjacent_irrefl; eauto.
      * destruct Hc as [Hvo Hnb].
        assert (Hvl : labelled gScore v) by (apply Hknown; tauto).
        split.
        -- destruct (decide (v = current)); tauto.
        -- rewrite (Hscore v Ha).
           rewrite (better_label _ _ _ _ (labelled_label _ _ Hvl)) in Hnb. lia.
  - intros t x Ht Hxin.
    assert (Ht' : t ∈ trace \/ t = current)
      by (rewrite elem_of_app, list_elem_of_singleton in Ht; exact Ht).
    destruct (Hkeep t Ht') as (Hgt & _). rewrite (Hfval t Hgt).
    assert (Htc : (fval gScore t <= fval gScore current)%nat).
    { destruct Ht' as [Ht'| ->]; [apply Hmono; assumption | reflexivity]. }
    destruct (Hcls x) as [(Ha & He & _) | ((Ha & _) & Hnn & _)].
    + unfold fval at 2. rewrite (label_score _ _ _ (Hupd _ Ha)).
      unfold fval in Htc at 2. fold gc in Htc.
      destruct He as [Hadj _]. pose proof (hn_adjacent e current x Hadj). lia.
    + rewrite (Hfval x Ha).
      apply Hopen' in Hxin as [[Hxo _] | Hxn]; [|contradiction].
      specialize (Hfmin x Hxo). lia.
  - right. destruct Hhead as [[-> Ho] | [t ->]].
    + exists []. simpl. f_equal.
      rewrite Ho in Hco. apply list_elem_of_singleton in Hco. congruence.
    + exists (t ++ [current]). reflexivity.
Qed.

Lemma scores_ok_init :
  scores_ok grid (<[s := Fin 0]> (init_scores grid)).
Proof.
  assert (Hsg : is_Some (cellOf grid s)) by (destruct Hstart as (c & H & _); eauto).
  split.
  - intros x Hx. destruct (decide (x = s)) as [->|Hne].
    + right. exists 0%nat. apply lookup_insert_eq.
    + left. rewrite lookup_insert_ne, init_scores_lookup by congruence.
      rewrite decide_True by (apply elem_of_grid_keys; exact Hx). reflexivity.
  - intros x Hx. destruct (decide (x = s)) as [->|Hne]; [assumption|].
    rewrite lookup_insert_ne, init_scores_lookup in Hx by congruence.
    destruct (decide (x ∈ grid_keys grid)) as [Hk|Hk].
    + apply elem_of_grid_keys. exact Hk.
    + destruct Hx; discriminate.
Qed.

Lemma astar_init :
  astar_ok [s] ∅ (<[s := Fin 0]> (init_scores grid))
    (<[s := Fin (heuristic s e)]> (init_scores grid)) ∅ [].
Proof.
  assert (Hs0 : label (<[s := Fin 0]> (init_scores grid)) s 0) by apply lookup_insert_eq.
  constructor.
  - apply NoDup_nil; exact I.
  - intros x. rewrite elem_of_nil. set_solver.
  - apply NoDup_singleton.
  - intros x _. apply not_elem_of_nil.
  - apply scores_ok_init.
  - intros x [Hx|Hx]; [|apply elem_of_nil in Hx; contradiction].
    apply list_elem_of_singleton in Hx. subst. exists 0%nat. exact Hs0.
  - intros x Hx. apply list_elem_of_singleton in Hx. subst x.
    unfold label, fval. rewrite lookup_insert_eq, (label_score _ _ _ Hs0).
    do 2 f_equal. unfold hn. pose proof (heuristic_nonneg s e). lia.
  - exact Hs0.
  - intros x [Hx|Hx]; [|apply elem_of_nil in Hx; contradiction].
    apply list_elem_of_singleton in Hx. auto.
  - apply not_elem_of_nil.
  - intros u v Hu. apply elem_of_nil in Hu. contradiction.
  - intros t x Ht. apply elem_of_nil in Ht. contradiction.
  - left. auto.
Qed.

Lemma astar_search_open st :
  as_openSet st <> [] ->
  astar_search st =
  match lowest_fScore (as_openSet st) (as_fScore st) with
  | None => Continue (Searching st)
  | Some current =>
      if pos_eqb current (as_end st) then
        Continue (Rebuilding (mkRebuild (as_grid st) (as_start st) (as_parent st)
                                (as_visitedPositions st) [] (as_end st)))
      else
        match getNeighbors (as_grid st) current with
        | None => Throw
        | Some ns =>
            let '(openSet', gScore, fScore, parent) :=
              fold_left (astar_relax ({[current]} ∪ as_closedSet st) current (as_end st)) ns
                (filter (fun k => k <> current) (as_openSet st),
                 as_gScore st, as_fScore st, as_parent st) in
            Continue (Searching (mkAstar (as_grid st) (as_start st) (as_end st)
                                   openSet' ({[current]} ∪ as_closedSet st) gScore fScore
                                   parent (as_visitedPositions st ++ [current])))
        end
  end.
Proof. unfold astar_search. destruct (as_openSet st); [contradiction | reflexivity]. Qed.

Lemma astar_total :
  exists fuel r,
    run (machine_step astar_search) fuel
      (Searching (mkAstar grid s e [s] ∅ (<[s := Fin 0]> (init_scores grid))
                    (<[s := Fin (heuristic s e)]> (init_scores grid)) ∅ []))
      = Returned r /\
    sound_result grid s e r /\ shortest_result grid s e r /\
    (success r = true -> e ∉ visited r).
Proof.
  apply (run_total _ astar_minv astar_measure).
  - intros [st|r] Hinv; [|contradiction]. simpl in Hinv.
    destruct st as [g s0 e0 openSet closedSet gScore fScore parent trace].
    destruct Hinv as (Hg & Hs0 & He0 & Hok). simpl in *. subst g s0 e0.
    destruct (decide (openSet = [])) as [->|Hne0].
    + unfold astar_search; simpl.
      split; [|split; discriminate].
      split; [apply (ao_nodup _ _ _ _ _ _ Hok)|]. split; [|split]; simpl.
      * destruct (ao_head _ _ _ _ _ _ Hok) as [[_ H] | [t ->]]; [discriminate | reflexivity].
      * discriminate.
      * intros _. split; [reflexivity|]. intros [n Hw].
        assert (Hin : forall q k, walk grid s q k -> q ∈ trace).
        { intros q k Hq. induction Hq as [|q q' k Hq IH He].
          - destruct (astar_source_known _ _ _ _ _ _ Hok) as [H|H]; [|assumption].
            apply elem_of_nil in H. contradiction.
          - destruct (ao_closure _ _ _ _ _ _ Hok q q' IH He) as [[H|H] _]; [assumption|].
            apply elem_of_nil in H. contradiction. }
        apply (ao_end_out _ _ _ _ _ _ Hok). eapply Hin; eauto.
    + rewrite astar_search_open by exact Hne0.
      cbn [as_openSet as_fScore as_end as_grid as_start as_parent
           as_visitedPositions as_closedSet as_gScore].
      destruct (lowest_fScore_spec openSet fScore) as (current & Hsel & Hco & Hmin).
      { intros x Hx. eexists. apply (ao_fscore _ _ _ _ _ _ Hok). assumption. }
      { exact Hne0. }
      rewrite Hsel.
      destruct (pos_eqb current e) eqn:Eq.
      * apply pos_eqb_eq in Eq. subst current. right.
        destruct (rebuild_from_end astar_search grid s e parent
                    (fun x => x ∈ openSet \/ x ∈ trace) (score gScore) trace
                    Hstart (astar_tree _ _ _ _ _ _ Hok) (or_introl Hco))
          as (l & Hrun & Hvalid & Hlen & Hwalk).
        exists (S (score gScore e)), (mkResult l trace true).
        split; [exact Hrun|]. split; [|split].
        -- split; [apply (ao_nodup _ _ _ _ _ _ Hok)|]. split; [|split]; simpl.
           ++ destruct (ao_head _ _ _ _ _ _ Hok) as [[_ Ho] | [t ->]]; [|reflexivity].
              rewrite Ho in Hco. apply list_elem_of_singleton in Hco.
              exfalso. apply (start_neq_end grid s e Hstart Hend). congruence.
           ++ intros _. exact Hvalid.
           ++ discriminate.
        -- intros _. exists (score gScore e). simpl.
           split; [exact Hlen|]. split; [exact Hwalk|]. intros m Hm.
           destruct (frontier_lower_bound grid s (fun x => x ∈ trace)
                       (fun x => x ∈ openSet) (score gScore) (hn e)) with (q := e) (n := m)
             as [[Hin _] | (y & Hyo & Hb)].
           ++ destruct (astar_source_known _ _ _ _ _ _ Hok); auto.
           ++ apply label_score, (ao_source _ _ _ _ _ _ Hok).
           ++ intros u v Hu He. apply (ao_closure _ _ _ _ _ _ Hok); assumption.
           ++ intros u v [Hadj _]. apply (hn_adjacent e u v Hadj).
           ++ exact Hm.
           ++ exfalso. apply (ao_end_out _ _ _ _ _ _ Hok). assumption.
           ++ specialize (Hmin y Hyo).
              rewrite (label_score _ _ _ (ao_fscore _ _ _ _ _ _ Hok e Hco)) in Hmin.
              rewrite (label_score _ _ _ (ao_fscore _ _ _ _ _ _ Hok y Hyo)) in Hmin.
              unfold fval in Hmin. rewrite hn_end in Hmin, Hb. lia.
        -- intros _. simpl. apply (ao_end_out _ _ _ _ _ _ Hok).
      * apply pos_eqb_neq in Eq.
        rewrite (getNeighbors_rect _ cols) by assumption.
        destruct (astar_step _ _ _ _ _ _ _ Hok Hco Hmin Eq)
          as (os & gs & fs & ps & Hfold & Hok').
        rewrite Hfold. left. split.
        -- simpl. split; [reflexivity|]. split; [reflexivity|]. split; [reflexivity|].
           exact Hok'.
        -- simpl. apply remaining_snoc.
           ++ apply (proj2 (ao_scores _ _ _ _ _ _ Hok)).
              destruct (ao_known _ _ _ _ _ _ Hok current (or_introl Hco)) as [k Hk].
              unfold label in Hk. eauto.
           ++ apply (ao_open_fresh _ _ _ _ _ _ Hok). assumption.
  - simpl. split; [reflexivity|]. split; [reflexivity|]. split; [reflexivity|].
    apply astar_init.
Qed.

End AStar.

(** ** Greedy best-first search: selection and the neighbor loop *)

Lemma adjacent_sym p q : adjacent p q -> adjacent q p.
Proof. unfold adjacent. lia. Qed.

(** The grid graph is bipartite: two neighbors of a cell are not
    adjacent. *)
Lemma adjacent_parity a b c : adjacent a b -> adjacent b c -> ~ adjacent a c.
Proof. unfold adjacent. lia. Qed.

Lemma hn_one_adjacent e x : hn e x = 1%nat <-> adjacent x e.
Proof. unfold hn, heuristic, adjacent. lia. Qed.

Lemma greedy_lowest_spec end_ openSet :
  openSet <> [] ->
  exists c, openSet !! greedy_lowest end_ openSet = Some c /\
            forall x, x ∈ openSet -> heuristic c end_ <= heuristic x end_.
Proof.
  intros Hne. unfold greedy_lowest.
  set (body := fun currentIndex i =>
       match openSet !! i, openSet !! currentIndex with
       | Some a, Some b => if heuristic a end_ <? heuristic b end_ then i else currentIndex
       | _, _ => currentIndex
       end).
  assert (H : forall k, (k <= length openSet)%nat ->
            exists c, openSet !! fold_left body (seq 0 k) 0%nat = Some c /\
                      forall i x, (i < k)%nat -> openSet !! i = Some x ->
                                  heuristic c end_ <= heuristic x end_).
  { induction k as [|k IH]; intros Hk.
    - destruct openSet as [|c l]; [contradiction|]. exists c. simpl.
      split; [reflexivity|]. intros; lia.
    - destruct IH as (c & Hc & Hmin); [lia|].
      rewrite seq_S, fold_left_app. simpl.
      destruct (lookup_lt_is_Some_2 openSet k) as [a Ha]; [lia|].
      unfold body at 1. rewrite Ha, Hc.
      destruct (heuristic a end_ <? heuristic c end_) eqn:E.
      + apply Z.ltb_lt in E. exists a. split; [assumption|].
        intros i x Hi Hx. destruct (decide (i = k)) as [->|Hik].
        * rewrite Ha in Hx. injection Hx as ->. lia.
        * specialize (Hmin i x ltac:(lia) Hx). lia.
      + apply Z.ltb_ge in E. exists c. split; [assumption|].
        intros i x Hi Hx. destruct (decide (i = k)) as [->|Hik].
        * rewrite Ha in Hx. injection Hx as ->. lia.
        * apply (Hmin i x); [lia | assumption]. }
  destruct (H (length openSet) (le_n _)) as (c & Hc & Hmin).
  exists c. split; [exact Hc|].
  intros x Hx. apply list_elem_of_lookup in Hx as [i Hi].
  apply (Hmin i x); [|assumption]. eapply lookup_lt_Some; eauto.
Qed.

Lemma delete_lookup_NoDup (l : list Position) i c :
  NoDup l -> l !! i = Some c ->
  NoDup (delete i l) /\ forall x, x ∈ delete i l <-> x ∈ l /\ x <> c.
Proof.
  intros Hnd Hi. rewrite delete_take_drop.
  pose proof (take_drop_middle l i c Hi) as Hl.
  remember (take i l) as a eqn:Ea. remember (drop (S i) l) as b eqn:Eb.
  clear Ea Eb Hi. subst l.
  apply NoDup_app in Hnd as (H1 & H2 & H3).
  apply NoDup_cons in H3 as [H3 H4].
  split.
  - apply NoDup_app. split; [assumption|]. split; [|assumption].
    intros x Hx Hx'. apply (H2 x Hx). right. exact Hx'.
  - intros x. rewrite !elem_of_app, elem_of_cons. split.
    + intros [Hx|Hx].
      * split; [auto|]. intros ->. apply (H2 c Hx). left.
      * split; [auto|]. intros ->. contradiction.
    + intros [[Hx | [-> | Hx]] Hne]; [auto | contradiction | auto].
Qed.

(** The neighbor loop of [greedyBestFirst] on a passable candidate. *)
Definition greedy_push (closedSet : gset Position) (current : Position)
    (acc : list Position * gmap Position Position) (neighbor : Position)
    : list Position * gmap Position Position :=
  if decide (neighbor ∈ closedSet) then acc
  else if decide (neighbor ∈ fst acc) then acc
  else (fst acc ++ [neighbor], <[neighbor := current]> (snd acc)).

Lemma existsb_pos_eqb openSet n :
  existsb (fun pos => pos_eqb pos n) openSet = bool_decide (n ∈ openSet).
Proof.
  destruct (existsb _ openSet) eqn:E.
  - apply existsb_exists in E as (x & Hin & Hx). apply pos_eqb_eq in Hx. subst.
    symmetry. apply bool_decide_eq_true. apply list_elem_of_In. exact Hin.
  - symmetry. apply bool_decide_eq_false. intros Hin.
    assert (existsb (fun pos => pos_eqb pos n) openSet = true); [|congruence].
    apply existsb_exists. exists n. split; [apply list_elem_of_In; exact Hin | apply pos_eqb_refl].
Qed.

Lemma greedy_visit_fold grid cols closedSet current cands :
  rect grid cols ->
  forall openSet cameFrom,
  fold_left (greedy_visit grid (Z.of_nat (length grid)) (Z.of_nat cols) closedSet current)
    cands (Some (openSet, cameFrom))
  = Some (fold_left (greedy_push closedSet current)
            (filter (fun q => passableb grid q = true) cands) (openSet, cameFrom)).
Proof.
  intros Hr. induction cands as [|n cands IH]; intros openSet cameFrom; [reflexivity|].
  cbn [fold_left]. unfold greedy_visit at 2.
  destruct ((row n <? 0) || (Z.of_nat (length grid) <=? row n)
            || (col n <? 0) || (Z.of_nat cols <=? col n)) eqn:T.
  - assert (Hp : passableb grid n <> true).
    { unfold passableb, cellOf. destruct (cellAt grid (row n) (col n)) as [c|] eqn:Hc; [|discriminate].
      apply (cellAt_rect_bounds _ cols) in Hc; [|assumption]. exfalso.
      rewrite !orb_true_iff in T. rewrite !Z.ltb_lt, !Z.leb_le in T. lia. }
    rewrite filter_cons_False by assumption. apply IH.
  - rewrite !orb_false_iff in T. rewrite !Z.ltb_ge, !Z.leb_gt in T.
    destruct (cellAt_rect_Some grid cols (row n) (col n) Hr ltac:(lia) ltac:(lia)) as [c Hc].
    assert (Hpb : passableb grid n = bool_decide (cell_type c <> T_wall)).
    { unfold passableb, cellOf. rewrite Hc. reflexivity. }
    unfold cellOf. rewrite Hc.
    destruct (decide (cell_type c = T_wall)) as [Hw|Hw].
    + rewrite (bool_decide_eq_true_2 _ Hw). cbn [orb].
      rewrite bool_decide_eq_false_2 in Hpb by tauto.
      rewrite filter_cons_False by congruence. apply IH.
    + rewrite (bool_decide_eq_false_2 _ Hw). cbn [orb].
      rewrite bool_decide_eq_true_2 in Hpb by assumption.
      rewrite filter_cons_True by assumption. cbn [fold_left].
      unfold greedy_push at 2. cbn [fst snd].
      destruct (decide (n ∈ closedSet)) as [Hcl|Hcl].
      * rewrite (bool_decide_eq_true_2 _ Hcl). apply IH.
      * rewrite (bool_decide_eq_false_2 _ Hcl). rewrite existsb_pos_eqb.
        destruct (decide (n ∈ openSet)) as [Ho|Ho].
        -- rewrite (bool_decide_eq_true_2 _ Ho). apply IH.
        -- rewrite (bool_decide_eq_false_2 _ Ho). apply IH.
Qed.

Lemma greedy_push_fold closedSet current ns :
  NoDup ns -> forall openSet cameFrom,
  exists new cameFrom',
    fold_left (greedy_push closedSet current) ns (openSet, cameFrom)
      = (openSet ++ new, cameFrom') /\
    NoDup new /\
    (forall x, x ∈ new <-> x ∈ ns /\ (x ∉ closedSet) /\ x ∉ openSet) /\
    (forall x, x ∈ new -> cameFrom' !! x = Some current) /\
    (forall x, x ∉ new -> cameFrom' !! x = cameFrom !! x).
Proof.
  induction ns as [|n ns IH]; intros Hnd openSet cameFrom; cbn [fold_left].
  - exists [], cameFrom. rewrite app_nil_r.
    split; [reflexivity|]. split; [apply NoDup_nil; exact I|]. split; [|split].
    + intros x. rewrite elem_of_nil. tauto.
    + intros x H. apply elem_of_nil in H. contradiction.
    + intros; reflexivity.
  - apply NoDup_cons in Hnd as [Hn Hnd]. specialize (IH Hnd).
    unfold greedy_push at 2. cbn [fst snd].
    assert (Hskip : n ∈ closedSet \/ n ∈ openSet ->
      exists new cameFrom',
        fold_left (greedy_push closedSet current) ns (openSet, cameFrom)
          = (openSet ++ new, cameFrom') /\
        NoDup new /\
        (forall x, x ∈ new <-> x ∈ n :: ns /\ (x ∉ closedSet) /\ x ∉ openSet) /\
        (forall x, x ∈ new -> cameFrom' !! x = Some current) /\
        (forall x, x ∉ new -> cameFrom' !! x = cameFrom !! x)).
    { intros Hs. destruct (IH openSet cameFrom) as (new & cf & Hf & Hnew & Hmem & H1 & H2).
      exists new, cf. split; [exact Hf|]. split; [exact Hnew|]. split; [|auto].
      intros x. rewrite Hmem, elem_of_cons. split; [tauto|].
      intros [[-> | Hin] [Hxc Hxo]]; [tauto | auto]. }
    destruct (decide (n ∈ closedSet)) as [Hc|Hc]; [apply Hskip; auto|].
    destruct (decide (n ∈ openSet)) as [Ho|Ho]; [apply Hskip; auto|].
    destruct (IH (openSet ++ [n]) (<[n := current]> cameFrom))
      as (new & cf & Hf & Hnew & Hmem & H1 & H2).
    assert (Hnn : n ∉ new).
    { intros Hin. apply Hmem in Hin as (_ & _ & Hin). apply Hin, elem_of_app. right. left. }
    exists (n :: new), cf. split; [rewrite Hf, <- app_assoc; reflexivity|].
    split; [apply NoDup_cons; auto|]. split; [|split].
    + intros x. rewrite !elem_of_cons, Hmem, elem_of_app, list_elem_of_singleton. split.
      * intros [-> | (Hin & Hxc & Hxo)]; [auto|]. tauto.
      * intros [[-> | Hin] [Hxc Hxo]]; [auto|]. right.
        assert (x <> n) by (intros ->; contradiction). tauto.
    + intros x Hx. apply elem_of_cons in Hx as [-> | Hx]; [|auto].
      rewrite H2 by assumption. apply lookup_insert_eq.
    + intros x Hx. rewrite not_elem_of_cons in Hx. destruct Hx as [Hne Hx].
      rewrite H2 by assumption. apply lookup_insert_ne. congruence.
Qed.

Lemma greedy_candidates current :
  [ mkPos (row current - 1) (col current);
    mkPos (row current + 1) (col current);
    mkPos (row current) (col current - 1);
    mkPos (row current) (col current + 1) ] = map (shift current) directions.
Proof. unfold directions, shift. simpl. repeat f_equal; lia. Qed.

Lemma run_partial {St : Type} (step : St -> step_result St)
    (Inv : St -> Prop) (Post : AlgorithmResult -> Prop) :
  (forall s, Inv s ->
     match step s with
     | Continue s' => Inv s' \/ (exists fuel r, run step fuel s' = Returned r /\ Post r)
     | Done r => Post r
     | Throw => True
     end) ->
  forall fuel s r, Inv s -> run step fuel s = Returned r -> Post r.
Proof.
  intros Hstep fuel; induction fuel as [|fuel IH]; intros s r Hs Hrun; [discriminate|].
  specialize (Hstep s Hs). simpl in Hrun.
  destruct (step s) as [s'|r'|]; [| |discriminate].
  - destruct Hstep as [Hs' | (fuel0 & r0 & Hrun0 & HP)]; [eauto|].
    rewrite (run_deterministic _ _ _ _ _ _ Hrun Hrun0). exact HP.
  - injection Hrun as <-. exact Hstep.
Qed.

Lemma run_state_after {St : Type} (step : St -> step_result St) k fuel s s' :
  state_after step k s = Some s' -> run step (k + fuel) s = run step fuel s'.
Proof.
  revert s; induction k as [|k IH]; intros s H; simpl in *.
  - injection H as ->. reflexivity.
  - destruct (step s); try discriminate. apply IH. exact H.
Qed.

Section Greedy.

Context (grid : Grid) (cols : nat) (s e : Position).
Hypothesis Hrect : rect grid cols.
Hypothesis Hstart : kind_is grid T_start s.
Hypothesis Hend : kind_is grid T_end e.

(** What never changes in the state of [greedyBestFirst]: the closed set
    holds the start and nothing else. *)
Definition greedy_static (st : greedy_state) : Prop :=
  gr_grid st = grid /\ gr_rows st = Z.of_nat (length grid) /\
  gr_cols st = Z.of_nat cols /\ gr_start st = s /\ gr_end st = e /\
  gr_closedSet st = {[s]} /\ gr_path st = [].

(** One round of the loop of [greedyBestFirst] from a non-empty open set. *)
Lemma greedy_search_step st :
  greedy_static st -> gr_openSet st <> [] -> NoDup (gr_openSet st) ->
  exists current rest new cameFrom',
    current ∈ gr_openSet st /\
    (forall x, x ∈ gr_openSet st -> heuristic current e <= heuristic x e) /\
    NoDup rest /\ (forall x, x ∈ rest <-> x ∈ gr_openSet st /\ x <> current) /\
    NoDup new /\
    (forall x, x ∈ new <-> edge grid current x /\ x <> s /\ x ∉ rest) /\
    (forall x, x ∈ new -> cameFrom' !! x = Some current) /\
    (forall x, x ∉ new -> cameFrom' !! x = gr_cameFrom st !! x) /\
    greedy_search st =
    if pos_eqb current e then
      Continue (Rebuilding (mkRebuild grid s (gr_cameFrom st)
                              (gr_visited st ++ [current]) [] current))
    else
      Continue (Searching (mkGreedy grid (Z.of_nat (length grid)) (Z.of_nat cols) s e
                             (rest ++ new) {[s]} cameFrom'
                             (gr_visited st ++ [current]) [])).
Proof.
  intros (Hg & Hrows & Hcols & Hs & He & Hcl & Hpath) Hne Hnd.
  destruct (greedy_lowest_spec e (gr_openSet st) Hne) as (current & Hsel & Hmin).
  destruct (delete_lookup_NoDup _ _ _ Hnd Hsel) as [Hndr Hrest].
  remember (delete (greedy_lowest e (gr_openSet st)) (gr_openSet st)) as rest eqn:Erest.
  destruct (greedy_push_fold {[s]} current (neighbors grid current) (NoDup_neighbors _ _)
              rest (gr_cameFrom st)) as (new & cf & Hfold & Hnew & Hmem & H1 & H2).
  exists current, rest, new, cf.
  split; [eapply list_elem_of_lookup_2; eauto|]. split; [exact Hmin|].
  split; [exact Hndr|]. split; [exact Hrest|]. split; [exact Hnew|].
  split; [|split; [exact H1|split; [exact H2|]]].
  - intros x. rewrite Hmem, elem_of_neighbors, elem_of_singleton. tauto.
  - unfold greedy_search. destruct (gr_openSet st) as [|o l] eqn:Eo; [contradiction|].
    cbv iota. rewrite <- Eo in *. rewrite Hg, Hrows, Hcols, Hs, He, Hcl, Hpath, Hsel.
    destruct (pos_eqb current e); [reflexivity|].
    rewrite greedy_candidates, (greedy_visit_fold grid cols) by assumption.
    fold (neighbors grid current). rewrite <- Erest, Hfold. reflexivity.
Qed.

(** Passable and not the start: a cell the loop may push. *)
Definition free (x : Position) : Prop := passable grid x /\ x <> s.

(** The parent map sends [P] and [Q] to each other: the reconstruction
    loop never leaves them. *)
Definition cycle (cameFrom : gmap Position Position) (P Q : Position) : Prop :=
  cameFrom !! P = Some Q /\ cameFrom !! Q = Some P /\ P <> s /\ Q <> s.

(** A state from which [greedyBestFirst] never returns: the open set is
    never empty, and either the end is open with a parent on a cycle, or
    every open neighbor of the end has a parent that it will push back. *)
Definition greedy_B (st : greedy_state) : Prop :=
  greedy_static st /\ NoDup (gr_openSet st) /\
  (forall x, x ∈ gr_openSet st -> free x) /\
  (exists U W, U ∈ gr_openSet st /\ free W /\ adjacent U W) /\
  ((e ∈ gr_openSet st /\
    exists P Q, gr_cameFrom st !! e = Some P /\ cycle (gr_cameFrom st) P Q) \/
   ((e ∉ gr_openSet st) /\
    forall Z, Z ∈ gr_openSet st -> adjacent Z e ->
      exists Y, gr_cameFrom st !! Z = Some Y /\ free Y /\ (Y ∉ gr_openSet st) /\
                adjacent Z Y /\ Y <> e)).

Definition rebuild_bad (r : rebuild_state) : Prop :=
  rb_start r = s /\
  exists P Q, cycle (rb_parent r) P Q /\
    (rb_currentPos r = P \/ rb_currentPos r = Q \/
     (rb_currentPos r = e /\ rb_parent r !! e = Some P)).

Definition greedy_bad (m : machine greedy_state) : Prop :=
  match m with
  | Searching st => greedy_B st
  | Rebuilding r => rebuild_bad r
  end.

Lemma heuristic_zero x : heuristic x e <= 0 -> x = e.
Proof. unfold heuristic. destruct x, e; simpl. intros H. f_equal; lia. Qed.

Lemma heuristic_adjacent x : adjacent x e <-> heuristic x e = 1.
Proof. unfold heuristic, adjacent. lia. Qed.

Lemma e_free : free e.
Proof.
  split; [apply kind_end_passable; assumption|].
  intros H. apply (start_neq_end grid s e Hstart Hend). congruence.
Qed.

Lemma greedy_bad_step m :
  greedy_bad m -> exists m', machine_step greedy_search m = Continue m' /\ greedy_bad m'.
Proof.
  destruct m as [st|r]; simpl.
  - intros (Hst & Hnd & Hfree & (U & W & HU & HW & HUW) & Hcase).
    assert (Hne : gr_openSet st <> []) by (intros H; rewrite H in HU; apply elem_of_nil in HU; exact HU).
    destruct (greedy_search_step st Hst Hne Hnd)
      as (Z & rest & new & cf & HZ & Hmin & Hndr & Hrest & Hnew & Hmem & H1 & H2 & Hstep).
    rewrite Hstep.
    destruct Hcase as [[Heo (P & Q & HeP & Hcyc)] | [Heo Hone]].
    + (* the end is open: it is selected and the reconstruction starts *)
      assert (Z = e).
      { apply heuristic_zero. specialize (Hmin e Heo). unfold heuristic in *. lia. }
      subst Z. rewrite pos_eqb_refl. eexists. split; [reflexivity|]. simpl.
      split; [reflexivity|]. exists P, Q. split; [exact Hcyc|]. auto.
    + assert (HZe : Z <> e) by (intros ->; contradiction).
      apply pos_eqb_neq in HZe as HZe'. rewrite HZe'.
      eexists. split; [reflexivity|]. simpl.
      destruct (Hfree Z HZ) as [HZp HZs].
      assert (HZnew : Z ∉ new).
      { intros Hin. apply Hmem in Hin as [[Ha _] _]. eapply adjacent_irrefl; eauto. }
      assert (HZrest : Z ∉ rest) by (rewrite Hrest; tauto).
      split; [repeat split|]. split; [|split; [|split]].
      * apply NoDup_app. split; [assumption|]. split; [|assumption].
        intros x Hx Hx'. apply Hmem in Hx'. tauto.
      * intros x Hx. apply elem_of_app in Hx as [Hx|Hx].
        -- apply Hfree. apply Hrest in Hx. tauto.
        -- apply Hmem in Hx as [[_ Hp] [Hs _]]. split; assumption.
      * (* the open set stays non-empty *)
        destruct (decide (U = Z)) as [->|HUZ].
        -- exists W, Z. split; [|split; [split; assumption | apply adjacent_sym; assumption]].
           apply elem_of_app.
           destruct (decide (W ∈ rest)); [auto|]. right. apply Hmem.
           destruct HW as [HWp HWs]. split; [split; assumption|]. split; assumption.
        -- exists U, W. split; [|split; assumption].
           apply elem_of_app. left. apply Hrest. auto.
      * destruct (decide (adjacent Z e)) as [HZadj|HZadj].
        -- (* a neighbor of the end is expanded: it pushes the end and its
              own parent, which closes a cycle *)
           left. destruct (Hone Z HZ HZadj) as (Y & HcfZ & [HYp HYs] & HYo & HZY & HYe).
           assert (Hen : e ∈ new).
           { apply Hmem. split; [split; [assumption | apply kind_end_passable; assumption]|].
             split; [apply e_free|]. rewrite Hrest. tauto. }
           assert (HYn : Y ∈ new).
           { apply Hmem. split; [split; assumption|]. split; [assumption|].
             rewrite Hrest. tauto. }
           split; [apply elem_of_app; auto|].
           exists Z, Y. split; [apply H1; assumption|].
           split; [rewrite H2 by assumption; exact HcfZ|].
           split; [apply H1; assumption|]. split; assumption.
        -- right.
           assert (Hen : e ∉ new) by (intros Hin; apply Hmem in Hin as [[Ha _] _]; contradiction).
           split.
           ++ intros Hin. apply elem_of_app in Hin as [Hin|Hin]; [|contradiction].
              apply Hrest in Hin. tauto.
           ++ intros Z' HZ' HZ'e.
              apply elem_of_app in HZ' as [HZ'|HZ'].
              ** exfalso. apply Hrest in HZ' as [HZ' _].
                 specialize (Hmin Z' HZ').
                 apply heuristic_adjacent in HZ'e.
                 apply HZadj. apply heuristic_adjacent.
                 pose proof (heuristic_nonneg Z e).
                 destruct (decide (heuristic Z e = 0)) as [H0|H0]; [|lia].
                 exfalso. apply HZe. apply heuristic_zero. lia.
              ** exists Z. split; [apply H1; assumption|].
                 split; [split; assumption|].
                 split; [simpl; rewrite elem_of_app; tauto|].
                 apply Hmem in HZ' as [[Ha _] _].
                 split; [apply adjacent_sym; assumption | assumption].
  - intros (Hs & P & Q & (HP & HQ & HPs & HQs) & Hcur).
    unfold rebuild_step. rewrite Hs.
    assert (Hne : rb_currentPos r <> s).
    { destruct Hcur as [-> | [-> | [-> _]]]; try assumption. apply e_free. }
    apply pos_eqb_neq in Hne. rewrite Hne. simpl.
    destruct Hcur as [Hc | [Hc | [Hc HeP]]]; rewrite Hc.
    + rewrite HP. eexists. split; [reflexivity|]. simpl.
      split; [reflexivity|]. exists P, Q. repeat split; auto.
    + rewrite HQ. eexists. split; [reflexivity|]. simpl.
      split; [reflexivity|]. exists P, Q. repeat split; auto.
    + rewrite HeP. eexists. split; [reflexivity|]. simpl.
      split; [reflexivity|]. exists P, Q. repeat split; auto.
Qed.

(** From such a state no bound on the number of rounds is enough. *)
Lemma greedy_bad_diverges fuel m :
  greedy_bad m -> run (machine_step greedy_search) fuel m = OutOfFuel.
Proof. apply run_never. apply greedy_bad_step. Qed.

(** The states from which [greedyBestFirst] does return: nothing is
    expanded yet; or only neighbors of the start that lead nowhere were
    expanded; or a neighbor of the start has just pushed the end. *)
Definition greedy_G0 (st : greedy_state) : Prop :=
  greedy_static st /\ gr_openSet st = [s] /\ gr_visited st = [].

Definition greedy_G (st : greedy_state) : Prop :=
  greedy_static st /\
  exists L, gr_visited st = s :: L /\ NoDup (L ++ gr_openSet st) /\
    (forall x, x ∈ L ++ gr_openSet st -> edge grid s x) /\
    (forall x, x ∈ gr_openSet st -> gr_cameFrom st !! x = Some s) /\
    (e ∉ L) /\
    (forall x y, x ∈ L -> edge grid x y -> y = s) /\
    (forall y, edge grid s y -> y ∈ L ++ gr_openSet st).

Definition greedy_G2 (st : greedy_state) : Prop :=
  greedy_static st /\
  exists L X, gr_visited st = s :: L /\ NoDup L /\ (s ∉ L) /\ (e ∉ L) /\
    NoDup (gr_openSet st) /\ e ∈ gr_openSet st /\
    gr_cameFrom st !! e = Some X /\ gr_cameFrom st !! X = Some s /\
    edge grid s X /\ edge grid X e.

Definition greedy_minv (m : machine greedy_state) : Prop :=
  match m with
  | Searching st => greedy_G0 st \/ greedy_G st \/ greedy_G2 st \/ greedy_B st
  | Rebuilding r => rebuild_bad r
  end.

Lemma edge_s_neq x : edge grid s x -> x <> s.
Proof. intros [Ha _] ->. eapply adjacent_irrefl; eauto. Qed.

Lemma greedy_found_direct L cameFrom :
  NoDup L -> s ∉ L -> e ∉ L -> cameFrom !! e = Some s -> edge grid s e ->
  exists fuel r,
    run (machine_step greedy_search) fuel
        (Rebuilding (mkRebuild grid s cameFrom ((s :: L) ++ [e]) [] e)) = Returned r /\
    sound_result grid s e r.
Proof.
  intros HL HsL HeL Hcf Hedge.
  pose proof (start_neq_end grid s e Hstart Hend) as Hse.
  destruct (rebuild_from_end greedy_search grid s e cameFrom (fun x => x = s \/ x = e)
              (fun x => if decide (x = s) then 0%nat else 1%nat) ((s :: L) ++ [e]) Hstart)
    as (l & Hrun & Hvalid & _).
  - intros x [-> | ->].
    + left. rewrite decide_True by reflexivity. auto.
    + right. split; [congruence|]. exists s. split; [assumption|]. split; [auto|].
      split; [assumption|]. rewrite decide_False by congruence.
      rewrite decide_True by reflexivity. reflexivity.
  - auto.
  - eexists _, _. split; [exact Hrun|].
    split; [|split; [reflexivity | split; [intros _; exact Hvalid | discriminate]]].
    simpl. apply NoDup_cons. split.
    + rewrite elem_of_app, list_elem_of_singleton. intros [H|H]; [contradiction | congruence].
    + apply NoDup_app. split; [assumption|]. split; [|apply NoDup_singleton].
      intros x Hx Hx'. apply list_elem_of_singleton in Hx'. subst. contradiction.
Qed.

Lemma greedy_found_via L X cameFrom :
  NoDup L -> s ∉ L -> e ∉ L ->
  cameFrom !! e = Some X -> cameFrom !! X = Some s -> edge grid s X -> edge grid X e ->
  exists fuel r,
    run (machine_step greedy_search) fuel
        (Rebuilding (mkRebuild grid s cameFrom ((s :: L) ++ [e]) [] e)) = Returned r /\
    sound_result grid s e r.
Proof.
  intros HL HsL HeL HcfE HcfX HsX HXe.
  pose proof (start_neq_end grid s e Hstart Hend) as Hse.
  pose proof (edge_s_neq X HsX) as HXs.
  assert (HeX : e <> X) by (intros ->; destruct HXe as [Ha _]; eapply adjacent_irrefl; eauto).
  destruct (rebuild_from_end greedy_search grid s e cameFrom
              (fun x => x = s \/ x = X \/ x = e)
              (fun x => if decide (x = s) then 0%nat else if decide (x = X) then 1%nat else 2%nat)
              ((s :: L) ++ [e]) Hstart)
    as (l & Hrun & Hvalid & _).
  - intros x [-> | [-> | ->]].
    + left. rewrite decide_True by reflexivity. auto.
    + right. split; [assumption|]. exists s. split; [assumption|]. split; [auto|].
      split; [assumption|]. rewrite decide_False by assumption.
      rewrite !decide_True by reflexivity. reflexivity.
    + right. split; [congruence|]. exists X. split; [assumption|]. split; [auto|].
      split; [assumption|]. rewrite (decide_False (P := e = s)) by congruence.
      rewrite (decide_False (P := e = X)) by assumption.
      rewrite (decide_False (P := X = s)) by assumption.
      rewrite decide_True by reflexivity. reflexivity.
  - auto.
  - eexists _, _. split; [exact Hrun|].
    split; [|split; [reflexivity | split; [intros _; exact Hvalid | discriminate]]].
    simpl. apply NoDup_cons. split.
    + rewrite elem_of_app, list_elem_of_singleton. intros [H|H]; [contradiction | congruence].
    + apply NoDup_app. split; [assumption|]. split; [|apply NoDup_singleton].
      intros x Hx Hx'. apply list_elem_of_singleton in Hx'. subst. contradiction.
Qed.

Lemma greedy_exhausted L :
  NoDup L -> (forall x, x ∈ L -> edge grid s x) -> e ∉ L ->
  (forall x y, x ∈ L -> edge grid x y -> y = s) ->
  (forall y, edge grid s y -> y ∈ L) ->
  sound_result grid s e (mkResult [] (s :: L) false).
Proof.
  intros HL Hedge HeL Hdead Hall.
  split; [|split; [reflexivity | split; [discriminate|]]].
  - simpl. apply NoDup_cons. split; [|assumption].
    intros Hin. apply (edge_s_neq s); auto.
  - intros _. split; [reflexivity|]. intros [n Hw].
    assert (Hin : forall q k, walk grid s q k -> q = s \/ q ∈ L).
    { intros q k Hq. induction Hq as [|q q' k Hq IH He]; [auto|].
      destruct IH as [-> | IH]; [right; auto | left; eauto]. }
    destruct (Hin e n Hw) as [H|H]; [|contradiction].
    apply (start_neq_end grid s e Hstart Hend). congruence.
Qed.

Lemma greedy_step_ok m :
  greedy_minv m ->
  match machine_step greedy_search m with
  | Continue m' =>
      greedy_minv m' \/
      (exists fuel r, run (machine_step greedy_search) fuel m' = Returned r /\
                      sound_result grid s e r)
  | Done r => sound_result grid s e r
  | Throw => True
  end.
Proof.
  pose proof (start_neq_end grid s e Hstart Hend) as Hse.
  assert (Hbad : greedy_bad m ->
    match machine_step greedy_search m with
    | Continue m' =>
        greedy_minv m' \/
        (exists fuel r, run (machine_step greedy_search) fuel m' = Returned r /\
                        sound_result grid s e r)
    | Done r => sound_result grid s e r
    | Throw => True
    end).
  { intros Hb. destruct (greedy_bad_step m Hb) as (m' & -> & Hb').
    left. destruct m'; simpl in *; auto. }
  destruct m as [st|r]; [|exact Hbad].
  intros [HG0 | [HG | [HG2 | HB]]]; [| | |apply Hbad; exact HB]; simpl.
  - (* nothing expanded yet *)
    destruct HG0 as (Hst & Hopen & Hvis).
    destruct (greedy_search_step st Hst) as
      (X & rest & new & cf & HX & Hmin & Hndr & Hrest & Hnew & Hmem & H1 & H2 & Hstep).
    { rewrite Hopen. discriminate. }
    { rewrite Hopen. apply NoDup_singleton. }
    rewrite Hstep, Hvis. rewrite Hopen in HX, Hrest.
    apply list_elem_of_singleton in HX. subst X.
    apply pos_eqb_neq in Hse as Hse'. rewrite Hse'.
    assert (Hrest0 : forall x, x ∉ rest).
    { intros x Hx. apply Hrest in Hx as [Hx Hne]. apply list_elem_of_singleton in Hx. contradiction. }
    left. right. left. split; [repeat split|]. exists []. simpl.
    split; [reflexivity|]. split; [|split; [|split; [|split; [|split]]]].
    + apply NoDup_app. split; [assumption|]. split; [|assumption].
      intros x Hx. exfalso. eapply Hrest0; eauto.
    + intros x Hx. apply elem_of_app in Hx as [Hx|Hx]; [exfalso; eapply Hrest0; eauto|].
      apply Hmem in Hx. tauto.
    + intros x Hx. apply elem_of_app in Hx as [Hx|Hx]; [exfalso; eapply Hrest0; eauto|].
      apply H1. assumption.
    + apply not_elem_of_nil.
    + intros x y Hx. apply elem_of_nil in Hx. contradiction.
    + intros y Hy. apply elem_of_app. right. apply Hmem.
      split; [assumption|]. split; [apply edge_s_neq; assumption | apply Hrest0].
  - (* only dead ends next to the start were expanded *)
    destruct HG as (Hst & L & Hvis & Hnd & Hedge & Hcf & HeL & Hdead & Hall).
    assert (HsL : forall x, x ∈ L ++ gr_openSet st -> x <> s)
      by (intros x Hx; apply edge_s_neq, Hedge, Hx).
    apply NoDup_app in Hnd as (HndL & Hdisj & Hndo).
    destruct (decide (gr_openSet st = [])) as [Hopen|Hopen].
    + unfold greedy_search. rewrite Hopen, Hvis.
      destruct Hst as (_ & _ & _ & _ & _ & _ & ->).
      rewrite Hopen, app_nil_r in *.
      apply greedy_exhausted; auto.
    + destruct (greedy_search_step st Hst Hopen Hndo) as
        (X & rest & new & cf & HX & Hmin & Hndr & Hrest & Hnew & Hmem & H1 & H2 & Hstep).
      rewrite Hstep, Hvis.
      assert (HsX : edge grid s X) by (apply Hedge, elem_of_app; auto).
      assert (HXL : X ∉ L) by (intros Hin; exact (Hdisj X Hin HX)).
      assert (HsnL : s ∉ L) by (intros Hin; apply (HsL s); [apply elem_of_app; auto | reflexivity]).
      destruct (pos_eqb X e) eqn:Eq.
      * apply pos_eqb_eq in Eq. subst X. right.
        apply greedy_found_direct; auto.
      * apply pos_eqb_neq in Eq.
        (* no neighbor of [X] is open: the grid graph is bipartite *)
        assert (Hpar : forall y, edge grid X y -> y ∉ gr_openSet st).
        { intros y [Ha _] Hy.
          assert (Hsy : edge grid s y) by (apply Hedge, elem_of_app; auto).
          destruct HsX as [HsX _], Hsy as [Hsy _].
          exact (adjacent_parity s X y HsX Ha Hsy). }
        assert (Hmem' : forall y, y ∈ new <-> edge grid X y /\ y <> s).
        { intros y. rewrite Hmem, Hrest. split; [tauto|].
          intros [Hy Hys]. split; [assumption|]. split; [assumption|].
          intros [Hyo _]. exact (Hpar y Hy Hyo). }
        assert (HXnew : X ∉ new).
        { intros Hin. apply Hmem' in Hin as [[Ha _] _]. eapply adjacent_irrefl; eauto. }
        assert (Hnd' : NoDup (rest ++ new)).
        { apply NoDup_app. split; [assumption|]. split; [|assumption].
          intros x Hx Hx'. apply Hmem in Hx'. tauto. }
        left. destruct (decide (e ∈ new)) as [Hen|Hen]; [|destruct new as [|y0 new0] eqn:Enew].
        -- (* the end is pushed: it is selected next *)
           right. right. left. split; [repeat split|]. exists (L ++ [X]), X. simpl.
           split; [reflexivity|]. split; [|split; [|split; [|split; [|split; [|split; [|split; [|split]]]]]]].
           ++ apply NoDup_app. split; [assumption|]. split; [|apply NoDup_singleton].
              intros x Hx Hx'. apply list_elem_of_singleton in Hx'. subst. contradiction.
           ++ rewrite elem_of_app, list_elem_of_singleton.
              intros [H|H]; [contradiction|]. apply (edge_s_neq X HsX). congruence.
           ++ rewrite elem_of_app, list_elem_of_singleton.
              intros [H|H]; [contradiction | congruence].
           ++ exact Hnd'.
           ++ apply elem_of_app. auto.
           ++ apply H1. assumption.
           ++ rewrite H2 by assumption. apply Hcf. assumption.
           ++ assumption.
           ++ apply Hmem' in Hen. tauto.
        -- (* a dead end *)
           right. left. split; [repeat split|]. exists (L ++ [X]). simpl.
           split; [reflexivity|]. rewrite app_nil_r.
           split; [|split; [|split; [|split; [|split]]]].
           ++ apply NoDup_app. split; [|split; [|assumption]].
              ** apply NoDup_app. split; [assumption|]. split; [|apply NoDup_singleton].
                 intros x Hx Hx'. apply list_elem_of_singleton in Hx'. subst. contradiction.
              ** intros x Hx Hx'. apply Hrest in Hx' as [Hxo Hxne].
                 apply elem_of_app in Hx as [Hx|Hx]; [exact (Hdisj x Hx Hxo)|].
                 apply list_elem_of_singleton in Hx. contradiction.
           ++ intros x Hx. apply Hedge. rewrite !elem_of_app in *.
              rewrite list_elem_of_singleton, Hrest in Hx.
              destruct Hx as [[Hx | ->] | [Hx _]]; auto.
           ++ intros x Hx. rewrite H2 by apply not_elem_of_nil.
              apply Hcf. apply Hrest in Hx. tauto.
           ++ rewrite elem_of_app, list_elem_of_singleton.
              intros [H|H]; [contradiction | congruence].
           ++ intros x y Hx Hy. apply elem_of_app in Hx as [Hx|Hx]; [eauto|].
              apply list_elem_of_singleton in Hx. subst x.
              destruct (decide (y = s)) as [|Hys]; [assumption|]. exfalso.
              apply (not_elem_of_nil y). apply Hmem'. auto.
           ++ intros y Hy. specialize (Hall y Hy).
              rewrite !elem_of_app in *. rewrite list_elem_of_singleton, Hrest.
              destruct (decide (y = X)); tauto.
        -- (* cells beyond the neighbors of the start are pushed: from
              here on the search never returns *)
           right. right. right. rewrite <- Enew in *.
           assert (Hy0 : y0 ∈ new) by (rewrite Enew; left).
           split; [repeat split|]. simpl.
           split; [exact Hnd'|]. split; [|split].
           ++ intros x Hx. apply elem_of_app in Hx as [Hx|Hx].
              ** apply Hrest in Hx as [Hx _]. split; [|apply HsL, elem_of_app; auto].
                 eapply edge_passable. apply Hedge, elem_of_app. eauto.
              ** apply Hmem' in Hx as [[_ Hp] Hxs]. split; assumption.
           ++ exists y0, X. split; [apply elem_of_app; auto|].
              split; [split; [eapply edge_passable; eauto | apply edge_s_neq; assumption]|].
              apply Hmem' in Hy0 as [[Ha _] _]. apply adjacent_sym. assumption.
           ++ right.
              assert (Heo : e ∉ gr_openSet st).
              { intros Heo. apply Eq. apply heuristic_zero.
                specialize (Hmin e Heo). unfold heuristic in *. lia. }
              split.
              ** rewrite elem_of_app, Hrest. tauto.
              ** intros Z HZ HZe. apply elem_of_app in HZ as [HZ|HZ].
                 --- exfalso. apply Hrest in HZ as [HZ _]. apply Hen, Hmem'.
                     split; [|congruence].
                     split; [|apply kind_end_passable; assumption].
                     apply heuristic_adjacent. apply heuristic_adjacent in HZe.
                     specialize (Hmin Z HZ). pose proof (heuristic_nonneg X e).
                     destruct (decide (heuristic X e = 0)) as [H0|H0]; [|lia].
                     exfalso. apply Eq. apply heuristic_zero. lia.
                 --- exists X. split; [apply H1; assumption|].
                     split; [split; [eapply edge_passable; eauto | apply edge_s_neq; assumption]|].
                     split; [rewrite elem_of_app, Hrest; tauto|].
                     apply Hmem' in HZ as [[Ha _] _].
                     split; [apply adjacent_sym; assumption | assumption].
  - (* the end is open next to a neighbor of the start *)
    destruct HG2 as (Hst & L & X & Hvis & HndL & HsL & HeL & Hndo & Heo & HcfE & HcfX & HsX & HXe).
    destruct (greedy_search_step st Hst) as
      (c & rest & new & cf & Hc & Hmin & _ & _ & _ & _ & _ & _ & Hstep).
    { intros H. rewrite H in Heo. apply elem_of_nil in Heo. exact Heo. }
    { exact Hndo. }
    assert (c = e).
    { apply heuristic_zero. specialize (Hmin e Heo). unfold heuristic in *. lia. }
    subst c. rewrite Hstep, pos_eqb_refl, Hvis. right.
    eapply greedy_found_via; eauto.
Qed.

(** Whatever [greedyBestFirst] returns is sound. *)
Lemma greedy_partial fuel r :
  run (machine_step greedy_search) fuel
    (Searching (mkGreedy grid (Z.of_nat (length grid)) (Z.of_nat cols) s e
                  [s] {[s]} ∅ [] [])) = Returned r ->
  sound_result grid s e r.
Proof.
  apply (run_partial (machine_step greedy_search) greedy_minv).
  - apply greedy_step_ok.
  - left. repeat split.
Qed.

End Greedy.

(** ** The scan of [greedyBestFirst] agrees with [findStartAndEnd] *)

Lemma greedy_locate_row_spec grid i cells :
  grid !! i = Some cells ->
  forall n k acc, (k + n = length cells)%nat ->
  greedy_locate_row grid (Z.of_nat i) (seq k n) acc
  = Some (findStartAndEnd_row (drop k cells) (Z.of_nat i) (Z.of_nat k) acc).
Proof.
  intros Hi. induction n as [|n IH]; intros k acc Hk; simpl.
  - rewrite drop_ge by lia. reflexivity.
  - destruct (lookup_lt_is_Some_2 cells k) as [cell Hcell]; [lia|].
    assert (Hc : cellAt grid (Z.of_nat i) (Z.of_nat k) = Some cell).
    { apply cellAt_Some. exists i, k, cells. auto. }
    rewrite Hc, (drop_S _ _ _ Hcell). simpl.
    rewrite IH by lia. f_equal.
    replace (Z.of_nat (S k)) with (Z.of_nat k + 1) by lia. f_equal.
    destruct (decide (cell_type cell = T_start)) as [Hs|Hs]; simpl.
    + rewrite decide_False by congruence. reflexivity.
    + destruct (decide (cell_type cell = T_end)); reflexivity.
Qed.

Lemma greedy_locate_rows_spec grid cols :
  rect grid cols ->
  forall n k acc, (k + n = length grid)%nat ->
  greedy_locate_rows grid (seq k n) cols acc
  = Some (findStartAndEnd_rows (drop k grid) (Z.of_nat k) acc).
Proof.
  intros Hr. induction n as [|n IH]; intros k acc Hk; simpl.
  - rewrite drop_ge by lia. reflexivity.
  - destruct (lookup_lt_is_Some_2 grid k) as [cells Hcells]; [lia|].
    pose proof (Forall_lookup_1 _ _ _ _ Hr Hcells) as Hlen. simpl in Hlen.
    rewrite (greedy_locate_row_spec grid k cells Hcells cols 0%nat) by lia.
    rewrite drop_0, IH by lia. rewrite (drop_S _ _ _ Hcells). simpl.
    replace (Z.of_nat (S k)) with (Z.of_nat k + 1) by lia. reflexivity.
Qed.

Lemma greedy_locate_rect grid cols :
  rect grid cols -> greedy_locate grid (length grid) cols = Some (findStartAndEnd grid).
Proof.
  intros Hr. unfold greedy_locate, findStartAndEnd.
  rewrite (greedy_locate_rows_spec grid cols Hr (length grid) 0%nat) by lia.
  rewrite drop_0. reflexivity.
Qed.

(** ** The five strategies on a well-formed grid *)

Inductive Strategy := BFS | DFS | Dijkstra | AStar | Greedy.

Definition search (a : Strategy) (fuel : nat) (grid : Grid) : outcome AlgorithmResult :=
  match a with
  | BFS => bfs fuel grid
  | DFS => dfs fuel grid
  | Dijkstra => dijkstra fuel grid
  | AStar => aStar fuel grid
  | Greedy => greedyBestFirst fuel grid
  end.

Lemma wf_grid_rect grid :
  wf_grid grid -> exists row0 rows, grid = row0 :: rows /\ rect grid (length row0).
Proof.
  intros (Hlen & (cols & _ & Hr) & _).
  destruct grid as [|row0 rows]; [simpl in Hlen; lia|].
  exists row0, rows. split; [reflexivity|].
  pose proof (Forall_inv Hr) as H0. simpl in H0. subst cols. exact Hr.
Qed.

Lemma located_kind grid t p :
  t = T_start \/ t = T_end -> se_sel t (findStartAndEnd grid) = Some p -> kind_is grid t p.
Proof.
  intros Ht Hp. pose proof (locate_last_of_kind grid t Ht) as H.
  rewrite Hp in H. destruct H as [H _]. exact H.
Qed.

Lemma not_located grid t :
  t = T_start \/ t = T_end -> (forall p, ~ kind_is grid t p) ->
  se_sel t (findStartAndEnd grid) = None.
Proof.
  intros Ht Hno. destruct (se_sel t (findStartAndEnd grid)) as [p|] eqn:E; [|reflexivity].
  exfalso. apply (Hno p). eapply located_kind; eauto.
Qed.

(** Results of a strategy do not depend on the bound. *)
Lemma search_deterministic a grid fuel1 fuel2 r1 r2 :
  search a fuel1 grid = Returned r1 -> search a fuel2 grid = Returned r2 -> r1 = r2.
Proof.
  destruct a; simpl.
  - unfold bfs. destruct (findStartAndEnd grid) as [[st|] [en|]]; simpl; try congruence.
    apply run_deterministic.
  - unfold dfs. destruct (findStartAndEnd grid) as [[st|] [en|]]; simpl; try congruence.
    apply run_deterministic.
  - unfold dijkstra. destruct (findStartAndEnd grid) as [[st|] [en|]]; simpl; try congruence.
    apply run_deterministic.
  - unfold aStar. destruct (findStartAndEnd grid) as [[st|] [en|]]; simpl; try congruence.
    apply run_deterministic.
  - unfold greedyBestFirst. destruct grid as [|row0 rows]; [discriminate|].
    destruct (greedy_locate _ _ _) as [[[st|] [en|]]|]; try congruence.
    apply run_deterministic.
Qed.

Lemma greedyBestFirst_wf grid fuel :
  wf_grid grid ->
  exists cols, rect grid cols /\
    greedyBestFirst fuel grid =
    match findStartAndEnd grid with
    | mkStartEnd (Some start) (Some end_) =>
        run (machine_step greedy_search) fuel
          (Searching (mkGreedy grid (Z.of_nat (length grid)) (Z.of_nat cols)
                        start end_ [start] {[start]} ∅ [] []))
    | _ => Returned (mkResult [] [] false)
    end.
Proof.
  intros Hwf. destruct (wf_grid_rect grid Hwf) as (row0 & rows & -> & Hr).
  exists (length row0). split; [exact Hr|].
  unfold greedyBestFirst. rewrite (greedy_locate_rect _ _ Hr). reflexivity.
Qed.

Section TopLevel.

Context (grid : Grid) (s e : Position).
Hypothesis Hwf : wf_grid grid.
Hypothesis Hstart : kind_is grid T_start s.
Hypothesis Hend : kind_is grid T_end e.

Lemma bfs_correct :
  exists fuel r, bfs fuel grid = Returned r /\
                 sound_result grid s e r /\ shortest_result grid s e r.
Proof.
  destruct (wf_grid_rect grid Hwf) as (row0 & rows & _ & Hr).
  unfold bfs. rewrite (findStartAndEnd_found grid s e Hwf Hstart Hend). simpl.
  eapply bfs_total; eauto.
Qed.

Lemma dfs_correct :
  exists fuel r, dfs fuel grid = Returned r /\ sound_result grid s e r.
Proof.
  destruct (wf_grid_rect grid Hwf) as (row0 & rows & _ & Hr).
  unfold dfs. rewrite (findStartAndEnd_found grid s e Hwf Hstart Hend). simpl.
  eapply dfs_total; eauto.
Qed.

Lemma dijkstra_correct :
  exists fuel r, dijkstra fuel grid = Returned r /\
                 sound_result grid s e r /\ shortest_result grid s e r.
Proof.
  destruct (wf_grid_rect grid Hwf) as (row0 & rows & _ & Hr).
  unfold dijkstra. rewrite (findStartAndEnd_found grid s e Hwf Hstart Hend). simpl.
  eapply dijkstra_total; eauto.
Qed.

Lemma aStar_correct :
  exists fuel r, aStar fuel grid = Returned r /\
                 sound_result grid s e r /\ shortest_result grid s e r /\
                 (success r = true -> e ∉ visited r).
Proof.
  destruct (wf_grid_rect grid Hwf) as (row0 & rows & _ & Hr).
  unfold aStar. rewrite (findStartAndEnd_found grid s e Hwf Hstart Hend). simpl.
  eapply astar_total; eauto.
Qed.

Lemma greedy_sound fuel r :
  greedyBestFirst fuel grid = Returned r -> sound_result grid s e r.
Proof.
  destruct (greedyBestFirst_wf grid fuel Hwf) as (cols & Hr & ->).
  rewrite (findStartAndEnd_found grid s e Hwf Hstart Hend).
  eapply greedy_partial; eauto.
Qed.

(** The four strategies other than the greedy one return, and every result
    that any of the five returns is sound. *)
Lemma search_returns a :
  a <> Greedy -> exists fuel r, search a fuel grid = Returned r.
Proof.
  destruct a; intros Ha; simpl.
  - destruct bfs_correct as (fuel & r & H & _). eauto.
  - destruct dfs_correct as (fuel & r & H & _). eauto.
  - destruct dijkstra_correct as (fuel & r & H & _). eauto.
  - destruct aStar_correct as (fuel & r & H & _). eauto.
  - contradiction.
Qed.

Lemma search_sound a fuel r :
  search a fuel grid = Returned r -> sound_result grid s e r.
Proof.
  destruct a; intros H.
  - destruct bfs_correct as (fuel0 & r0 & H0 & Hs & _).
    rewrite (search_deterministic BFS grid _ _ _ _ H H0). exact Hs.
  - destruct dfs_correct as (fuel0 & r0 & H0 & Hs).
    rewrite (search_deterministic DFS grid _ _ _ _ H H0). exact Hs.
  - destruct dijkstra_correct as (fuel0 & r0 & H0 & Hs & _).
    rewrite (search_deterministic Dijkstra grid _ _ _ _ H H0). exact Hs.
  - destruct aStar_correct as (fuel0 & r0 & H0 & Hs & _).
    rewrite (search_deterministic AStar grid _ _ _ _ H H0). exact Hs.
  - apply (greedy_sound fuel). exact H.
Qed.

End TopLevel.

(** Without a start or without an end every strategy returns the empty
    failure at once. *)
Lemma search_missing a fuel grid :
  wf_grid grid ->
  (forall p, ~ kind_is grid T_start p) \/ (forall p, ~ kind_is grid T_end p) ->
  search a fuel grid = Returned (mkResult [] [] false).
Proof.
  intros Hwf Hno.
  assert (Hse : se_start (findStartAndEnd grid) = None \/ se_end (findStartAndEnd grid) = None).
  { destruct Hno as [H|H]; [left | right].
    - apply (not_located grid T_start); auto.
    - apply (not_located grid T_end); auto. }
  destruct a; simpl.
  - unfold bfs. destruct Hse as [-> | ->]; [reflexivity|]. destruct (se_start _); reflexivity.
  - unfold dfs. destruct Hse as [-> | ->]; [reflexivity|]. destruct (se_start _); reflexivity.
  - unfold dijkstra. destruct Hse as [-> | ->]; [reflexivity|]. destruct (se_start _); reflexivity.
  - unfold aStar. destruct Hse as [-> | ->]; [reflexivity|]. destruct (se_start _); reflexivity.
  - destruct (greedyBestFirst_wf grid fuel Hwf) as (cols & Hr & ->).
    destruct (findStartAndEnd grid) as [[st|] [en|]]; simpl in Hse; try reflexivity.
    destruct Hse; discriminate.
Qed.

(** ** Grids without walls: the Manhattan distance *)

Definition no_walls (grid : Grid) : Prop := forall p, ~ kind_is grid T_wall p.

Lemma walk_heuristic grid e p q n :
  walk grid p q n -> (hn e p <= hn e q + n)%nat.
Proof.
  induction 1 as [|q q' n Hw IH [Hadj _]]; [lia|].
  pose proof (hn_adjacent e q q' Hadj). lia.
Qed.

Lemma cellOf_rect grid cols p :
  rect grid cols ->
  (is_Some (cellOf grid p) <->
   0 <= row p < Z.of_nat (length grid) /\ 0 <= col p < Z.of_nat cols).
Proof.
  intros Hr. unfold cellOf. split.
  - intros [c Hc]. eapply cellAt_rect_bounds; eauto.
  - intros [H1 H2]. eapply cellAt_rect_Some; eauto.
Qed.

Lemma manhattan_walk grid cols s :
  rect grid cols -> no_walls grid -> is_Some (cellOf grid s) ->
  forall n q, is_Some (cellOf grid q) -> hn s q = n -> walk grid s q n.
Proof.
  intros Hr Hnw Hs. induction n as [|n IH]; intros q Hq Hn.
  - apply hn_zero in Hn. subst q. constructor.
  - assert (Hpass : passable grid q).
    { destruct Hq as [c Hc]. exists c. split; [assumption|].
      intros Hw. apply (Hnw q). exists c. auto. }
    apply (cellOf_rect grid cols) in Hs, Hq; [|assumption..].
    assert (Hex : exists q', adjacent q' q /\ hn s q' = n /\
                 0 <= row q' < Z.of_nat (length grid) /\ 0 <= col q' < Z.of_nat cols).
    { unfold hn, heuristic, adjacent in *.
      destruct (Z_lt_le_dec (row s) (row q)) as [H1|H1].
      - exists (mkPos (row q - 1) (col q)). simpl. lia.
      - destruct (Z_lt_le_dec (row q) (row s)) as [H2|H2].
        + exists (mkPos (row q + 1) (col q)). simpl. lia.
        + destruct (Z_lt_le_dec (col s) (col q)) as [H3|H3].
          * exists (mkPos (row q) (col q - 1)). simpl. lia.
          * exists (mkPos (row q) (col q + 1)). simpl. lia. }
    destruct Hex as (q' & Hadj & Hq' & Hb1 & Hb2).
    apply walk_step with q'.
    + apply IH; [|assumption]. apply (cellOf_rect grid cols); auto.
    + split; assumption.
Qed.

Lemma hn_sym a b : hn a b = hn b a.
Proof. unfold hn, heuristic. lia. Qed.

(** ** What [aStar] records *)

Lemma astar_search_records st m :
  astar_search st = Continue m ->
  match m with
  | Searching st' =>
      st' = st \/
      exists current,
        lowest_fScore (as_openSet st) (as_fScore st) = Some current /\
        current <> as_end st /\
        as_visitedPositions st' = as_visitedPositions st ++ [current] /\
        current ∈ as_closedSet st'
  | Rebuilding r =>
      lowest_fScore (as_openSet st) (as_fScore st) = Some (as_end st) /\
      rb_visitedPositions r = as_visitedPositions st
  end.
Proof.
  unfold astar_search. destruct (as_openSet st) as [|o l]; [discriminate|].
  destruct (lowest_fScore _ _) as [current|]; [|intros [= <-]; left; reflexivity].
  destruct (pos_eqb current (as_end st)) eqn:Eq.
  - apply pos_eqb_eq in Eq. subst current. intros [= <-]. auto.
  - apply pos_eqb_neq in Eq.
    destruct (getNeighbors _ _) as [ns|]; [|discriminate].
    destruct (fold_left _ _ _) as [[[o' g] f] p]. intros [= <-]. right.
    exists current. simpl. repeat split; try assumption. set_solver.
Qed.

(** ** Runs that never return *)

Lemma run_OutOfFuel_le {St : Type} (step : St -> step_result St) fuel fuel' s :
  run step fuel' s = OutOfFuel -> (fuel <= fuel')%nat -> run step fuel s = OutOfFuel.
Proof.
  revert fuel' s; induction fuel as [|fuel IH]; intros fuel' s H Hle; [reflexivity|].
  destruct fuel' as [|fuel']; [lia|]. simpl in *.
  destruct (step s); try discriminate. apply (IH fuel'); [assumption | lia].
Qed.

(** Once the search has reached a state of [greedy_bad], no bound on the
    number of rounds lets [greedyBestFirst] return. *)
Lemma greedy_never_returns grid cols s e k m :
  rect grid cols -> kind_is grid T_start s -> kind_is grid T_end e ->
  state_after (machine_step greedy_search) k
    (Searching (mkGreedy grid (Z.of_nat (length grid)) (Z.of_nat cols) s e
                  [s] {[s]} ∅ [] [])) = Some m ->
  greedy_bad grid cols s e m ->
  forall fuel,
    run (machine_step greedy_search) fuel
      (Searching (mkGreedy grid (Z.of_nat (length grid)) (Z.of_nat cols) s e
                    [s] {[s]} ∅ [] [])) = OutOfFuel.
Proof.
  intros Hr Hs He Hk Hbad fuel.
  apply (run_OutOfFuel_le _ fuel (k + fuel)); [|lia].
  rewrite (run_state_after _ _ _ _ _ Hk).
  eapply greedy_bad_diverges; eauto.
Qed.

(** ** Checking concrete grids *)

Definition wf_gridb (grid : Grid) : bool :=
  match grid with
  | [] => false
  | row0 :: _ =>
      (1 <=? length row0)%nat
      && forallb (fun cells => (length cells =? length row0)%nat) grid
      && (count_type T_start grid <=? 1)%nat
      && (count_type T_end grid <=? 1)%nat
  end.

Lemma wf_gridb_ok grid : wf_gridb grid = true -> wf_grid grid.
Proof.
  unfold wf_gridb, wf_grid. destruct grid as [|row0 rows]; [discriminate|].
  rewrite !andb_true_iff, !Nat.leb_le, forallb_forall.
  intros [[[H1 H2] H3] H4]. split; [simpl; lia|]. split; [|split; assumption].
  exists (length row0). split; [assumption|].
  apply Forall_forall. intros cells Hin. apply Nat.eqb_eq, H2.
  apply list_elem_of_In. exact Hin.
Qed.

Definition no_wallsb (grid : Grid) : bool :=
  forallb (fun en => negb (bool_decide (cell_type (snd en) = T_wall))) (grid_entries grid).

Lemma no_wallsb_ok grid : no_wallsb grid = true -> no_walls grid.
Proof.
  unfold no_wallsb. rewrite forallb_forall. intros H p (c & Hc & Ht).
  apply grid_entries_elem, list_elem_of_In in Hc.
  specialize (H _ Hc). simpl in H.
  rewrite bool_decide_eq_true_2 in H by assumption. discriminate.
Qed.

Lemma walk_cons grid p p' q n :
  edge grid p p' -> walk grid p' q n -> walk grid p q (S n).
Proof.
  intros He Hw. induction Hw as [|q q' n Hw IH He'].
  - apply walk_step with p; [constructor | assumption].
  - apply walk_step with q; assumption.
Qed.

(** A valid walk is a walk of the grid graph. *)
Lemma valid_walk_reachable grid s e l :
  valid_walk grid s e l -> walk grid s e (length l - 1).
Proof.
  intros (Hch & _ & Hpass & Hhd & Hlast).
  revert s Hch Hpass Hhd Hlast. induction l as [|x [|y l] IH]; intros s Hch Hpass Hhd Hlast.
  - discriminate.
  - simpl in *. injection Hhd as <-. injection Hlast as <-. constructor.
  - injection Hhd as <-. destruct Hch as [Hxy Hch].
    replace (length (x :: y :: l) - 1)%nat with (S (length (y :: l) - 1))
      by (simpl; lia).
    apply walk_cons with y.
    + split; [assumption|]. apply Hpass. right. left.
    + apply IH; try assumption; try reflexivity.
      intros p Hp. apply Hpass. right. exact Hp.
Qed.

Lemma start_end_cases grid :
  (exists s e, kind_is grid T_start s /\ kind_is grid T_end e) \/
  ((forall p, ~ kind_is grid T_start p) \/ (forall p, ~ kind_is grid T_end p)).
Proof.
  pose proof (locate_last_of_kind grid T_start (or_introl eq_refl)) as Hs.
  pose proof (locate_last_of_kind grid T_end (or_intror eq_refl)) as He.
  simpl in Hs, He.
  destruct (se_start (findStartAndEnd grid)) as [s|]; [|right; left; exact Hs].
  destruct (se_end (findStartAndEnd grid)) as [e|]; [|right; right; exact He].
  left. exists s, e. split; [apply Hs | apply He].
Qed.

(** The state of [greedyBestFirst] on a corridor after the start and its
    neighbor were expanded: the third cell of the corridor is open and will
    push the second one back. *)
Definition corridor_state (grid : Grid) (cols : Z) (e : Position) : greedy_state :=
  mkGreedy grid 1 cols (mkPos 0 0) e [mkPos 0 2] {[mkPos 0 0]}
    (<[mkPos 0 2 := mkPos 0 1]> (<[mkPos 0 1 := mkPos 0 0]> ∅))
    [mkPos 0 0; mkPos 0 1] [].

Lemma corridor_state_bad grid cols e :
  length grid = 1%nat ->
  cellOf grid (mkPos 0 1) = Some (mkCell T_empty 0 1) ->
  cellOf grid (mkPos 0 2) = Some (mkCell T_empty 0 2) ->
  e <> mkPos 0 1 -> e <> mkPos 0 2 ->
  greedy_bad grid cols (mkPos 0 0) e
    (Searching (corridor_state grid (Z.of_nat cols) e)).
Proof.
  intros Hlen H1 H2 He1 He2. simpl.
  assert (Hf1 : free grid (mkPos 0 0) (mkPos 0 1)).
  { split; [eexists; split; [exact H1 | discriminate] | discriminate]. }
  assert (Hf2 : free grid (mkPos 0 0) (mkPos 0 2)).
  { split; [eexists; split; [exact H2 | discriminate] | discriminate]. }
  assert (Hadj : adjacent (mkPos 0 2) (mkPos 0 1)) by (unfold adjacent; simpl; lia).
  split; [|split; [|split; [|split]]].
  - unfold greedy_static, corridor_state. simpl. rewrite Hlen. repeat split.
  - apply NoDup_singleton.
  - intros x Hx. apply list_elem_of_singleton in Hx. subst x. exact Hf2.
  - exists (mkPos 0 2), (mkPos 0 1). split; [left|]. split; assumption.
  - right. split.
    + intros Hin. apply list_elem_of_singleton in Hin. contradiction.
    + intros Z HZ _. apply list_elem_of_singleton in HZ. subst Z.
      exists (mkPos 0 1). split; [apply lookup_insert_eq|]. split; [exact Hf1|].
      split; [|split; [exact Hadj | congruence]].
      intros Hin. apply list_elem_of_singleton in Hin. discriminate.
Qed.

Definition has_kindb (t : CellType) (grid : Grid) : bool :=
  existsb (fun en => bool_decide (cell_type (snd en) = t)) (grid_entries grid).

Lemma has_kindb_false t grid : has_kindb t grid = false -> forall p, ~ kind_is grid t p.
Proof.
  unfold has_kindb. intros H p (c & Hc & Ht).
  apply grid_entries_elem, list_elem_of_In in Hc.
  assert (Htrue : existsb (fun en => bool_decide (cell_type (snd en) = t)) (grid_entries grid) = true).
  { apply existsb_exists. exists (p, c). split; [assumption|].
    apply bool_decide_eq_true_2. exact Ht. }
  congruence.
Qed.

(** The four strategies other than the greedy one return on every
    well-formed grid with a start and an end, and succeed exactly when the
    end is reachable. *)
Lemma four_strategies_return grid s e a :
  wf_grid grid -> kind_is grid T_start s -> kind_is grid T_end e -> a <> Greedy ->
  exists fuel r, search a fuel grid = Returned r /\
                 (success r = true <-> reachable grid s e).
Proof.
  intros Hwf Hs He Ha.
  destruct (search_returns grid s e Hwf Hs He a Ha) as (fuel & r & Hrun).
  exists fuel, r. split; [exact Hrun|].
  destruct (search_sound grid s e Hwf Hs He a fuel r Hrun) as (_ & _ & Hok & Hfail).
  split.
  - intros Hsucc. eexists. apply valid_walk_reachable. apply Hok. exact Hsucc.
  - intros Hreach. destruct (success r); [reflexivity|].
    destruct (Hfail eq_refl) as [_ Hn]. contradiction.
Qed.

(** ** [greedyBestFirst] on two corridors *)

(** The state in which the loop of [greedyBestFirst] starts on a grid of
    one row and [cols] columns whose start is the first cell. *)
Definition corridor_init (grid : Grid) (cols : Z) (e : Position) : greedy_state :=
  mkGreedy grid 1 cols (mkPos 0 0) e [mkPos 0 0] {[mkPos 0 0]} ∅ [] [].

Lemma greedyBestFirst_grid1x4 fuel :
  greedyBestFirst fuel grid1x4 =
  run (machine_step greedy_search) fuel (Searching (corridor_init grid1x4 4 (mkPos 0 3))).
Proof. reflexivity. Qed.

Lemma greedyBestFirst_grid_blocked fuel :
  greedyBestFirst fuel grid_blocked =
  run (machine_step greedy_search) fuel (Searching (corridor_init grid_blocked 5 (mkPos 0 4))).
Proof. reflexivity. Qed.

Lemma grid1x4_never_returns fuel : greedyBestFirst fuel grid1x4 = OutOfFuel.
Proof.
  rewrite greedyBestFirst_grid1x4.
  apply (greedy_never_returns grid1x4 4 (mkPos 0 0) (mkPos 0 3) 2
           (Searching (corridor_state grid1x4 (Z.of_nat 4) (mkPos 0 3)))).
  - repeat constructor.
  - eexists; split; reflexivity.
  - eexists; split; reflexivity.
  - vm_compute. reflexivity.
  - apply corridor_state_bad; try reflexivity; discriminate.
Qed.

Lemma grid_blocked_never_returns fuel : greedyBestFirst fuel grid_blocked = OutOfFuel.
Proof.
  rewrite greedyBestFirst_grid_blocked.
  apply (greedy_never_returns grid_blocked 5 (mkPos 0 0) (mkPos 0 4) 2
           (Searching (corridor_state grid_blocked (Z.of_nat 5) (mkPos 0 4)))).
  - repeat constructor.
  - eexists; split; reflexivity.
  - eexists; split; reflexivity.
  - vm_compute. reflexivity.
  - apply corridor_state_bad; try reflexivity; discriminate.
Qed.

(** [greedyBestFirst] does return when the end is within two moves of the
    start. *)
Example greedyBestFirst_returns_nearby :
  greedyBestFirst 10 grid1x3
  = Returned (mkResult [mkPos 0 0; mkPos 0 1; mkPos 0 2]
                       [mkPos 0 0; mkPos 0 1; mkPos 0 2] true).
Proof. vm_compute. reflexivity. Qed.

(** * The claims *)

(** C1 (the code does not meet it).  [greedyBestFirst] does not terminate on
    well-formed grids: on the corridor [start, empty, empty, end], whose end
    is reachable, and on the corridor [start, empty, empty, wall, end],
    whose end is not, no bound on the number of loop rounds lets it
    return.  ([four_strategies_return] is the claim for the other four
    strategies.) *)
Theorem greedyBestFirst_does_not_terminate :
  (wf_grid grid1x4 /\
   kind_is grid1x4 T_start (mkPos 0 0) /\ kind_is grid1x4 T_end (mkPos 0 3) /\
   reachable grid1x4 (mkPos 0 0) (mkPos 0 3) /\
   forall fuel, greedyBestFirst fuel grid1x4 = OutOfFuel) /\
  (wf_grid grid_blocked /\
   kind_is grid_blocked T_start (mkPos 0 0) /\ kind_is grid_blocked T_end (mkPos 0 4) /\
   ~ reachable grid_blocked (mkPos 0 0) (mkPos 0 4) /\
   forall fuel, greedyBestFirst fuel grid_blocked = OutOfFuel).
Proof.
  assert (Hwf1 : wf_grid grid1x4) by (apply wf_gridb_ok; reflexivity).
  assert (Hwf2 : wf_grid grid_blocked) by (apply wf_gridb_ok; reflexivity).
  assert (Hs1 : kind_is grid1x4 T_start (mkPos 0 0)) by (eexists; split; reflexivity).
  assert (He1 : kind_is grid1x4 T_end (mkPos 0 3)) by (eexists; split; reflexivity).
  assert (Hs2 : kind_is grid_blocked T_start (mkPos 0 0)) by (eexists; split; reflexivity).
  assert (He2 : kind_is grid_blocked T_end (mkPos 0 4)) by (eexists; split; reflexivity).
  split.
  - split; [exact Hwf1|]. split; [exact Hs1|]. split; [exact He1|]. split.
    + destruct (four_strategies_return grid1x4 _ _ BFS Hwf1 Hs1 He1 ltac:(discriminate))
        as (fuel & r & Hrun & Hiff).
      apply Hiff.
      assert (H10 : search BFS 10 grid1x4 = Returned
                (mkResult [mkPos 0 0; mkPos 0 1; mkPos 0 2; mkPos 0 3]
                          [mkPos 0 0; mkPos 0 1; mkPos 0 2; mkPos 0 3] true))
        by (vm_compute; reflexivity).
      rewrite (search_deterministic _ _ _ _ _ _ Hrun H10). reflexivity.
    + intros fuel.
      transitivity (run (machine_step greedy_search) fuel
        (Searching (mkGreedy grid1x4 (Z.of_nat (length grid1x4)) (Z.of_nat 4)
                      (mkPos 0 0) (mkPos 0 3) [mkPos 0 0] {[mkPos 0 0]} ∅ [] [])));
        [reflexivity|].
      apply (greedy_never_returns grid1x4 4 (mkPos 0 0) (mkPos 0 3) 2
               (Searching (corridor_state grid1x4 (Z.of_nat 4) (mkPos 0 3)))).
      * repeat constructor.
      * exact Hs1.
      * exact He1.
      * vm_compute. reflexivity.
      * apply corridor_state_bad; try reflexivity; discriminate.
  - split; [exact Hwf2|]. split; [exact Hs2|]. split; [exact He2|]. split.
    + destruct (four_strategies_return grid_blocked _ _ BFS Hwf2 Hs2 He2 ltac:(discriminate))
        as (fuel & r & Hrun & Hiff).
      intros Hreach. apply Hiff in Hreach.
      assert (H10 : search BFS 10 grid_blocked = Returned
                (mkResult [] [mkPos 0 0; mkPos 0 1; mkPos 0 2] false))
        by (vm_compute; reflexivity).
      rewrite (search_deterministic _ _ _ _ _ _ Hrun H10) in Hreach. discriminate.
    + intros fuel.
      transitivity (run (machine_step greedy_search) fuel
        (Searching (mkGreedy grid_blocked (Z.of_nat (length grid_blocked)) (Z.of_nat 5)
                      (mkPos 0 0) (mkPos 0 4) [mkPos 0 0] {[mkPos 0 0]} ∅ [] [])));
        [reflexivity|].
      apply (greedy_never_returns grid_blocked 5 (mkPos 0 0) (mkPos 0 4) 2
               (Searching (corridor_state grid_blocked (Z.of_nat 5) (mkPos 0 4)))).
      * repeat constructor.
      * exact Hs2.
      * exact He2.
      * vm_compute. reflexivity.
      * apply corridor_state_bad; try reflexivity; discriminate.
Qed.

(** C2 (the code does not meet it).  On the well-formed corridor
    [start, empty, empty, wall, end] the call of [greedyBestFirst] is the
    run of its loop from the state that holds the start alone; after four
    rounds the visited sequence that it builds is (0,0), (0,1), (0,2),
    (0,1), which holds (0,1) twice, and the call never returns.  On every
    well-formed grid the other four strategies return, and the visited
    sequence of every result that a strategy returns holds no position
    twice. *)
Theorem greedyBestFirst_visits_twice :
  (wf_grid grid_blocked /\
   kind_is grid_blocked T_start (mkPos 0 0) /\ kind_is grid_blocked T_end (mkPos 0 4) /\
   (forall fuel,
      greedyBestFirst fuel grid_blocked =
      run (machine_step greedy_search) fuel
        (Searching (corridor_init grid_blocked 5 (mkPos 0 4)))) /\
   (exists st,
      state_after (machine_step greedy_search) 4
        (Searching (corridor_init grid_blocked 5 (mkPos 0 4))) = Some (Searching st) /\
      gr_visited st = [mkPos 0 0; mkPos 0 1; mkPos 0 2; mkPos 0 1] /\
      ~ NoDup (gr_visited st)) /\
   forall fuel, greedyBestFirst fuel grid_blocked = OutOfFuel) /\
  (forall grid a,
     wf_grid grid ->
     (a <> Greedy -> exists fuel r, search a fuel grid = Returned r) /\
     (forall fuel r, search a fuel grid = Returned r -> NoDup (visited r))).
Proof.
  split.
  - split; [apply wf_gridb_ok; reflexivity|].
    split; [eexists; split; reflexivity|].
    split; [eexists; split; reflexivity|].
    split; [exact greedyBestFirst_grid_blocked|].
    split; [|exact grid_blocked_never_returns].
    eexists. split; [vm_compute; reflexivity|].
    split; [reflexivity|].
    simpl. intros Hnd.
    apply NoDup_cons in Hnd as [_ Hnd]. apply NoDup_cons in Hnd as [Hin _].
    apply Hin. right. left.
  - intros grid a Hwf.
    destruct (start_end_cases grid) as [(s & e & Hs & He) | Hno].
    + split.
      * apply (search_returns grid s e); assumption.
      * intros fuel r Hrun.
        apply (search_sound grid s e Hwf Hs He a fuel r Hrun).
    + split.
      * intros _. exists 0%nat. eexists. apply search_missing; assumption.
      * intros fuel r Hrun. rewrite (search_missing a fuel grid Hwf Hno) in Hrun.
        injection Hrun as <-. apply NoDup_nil. exact I.
Qed.

Lemma greedyBestFirst_visits_twice_witness :
  wf_grid grid1x3 /\
  (BFS <> Greedy -> exists fuel r, search BFS fuel grid1x3 = Returned r) /\
  (forall fuel r, search BFS fuel grid1x3 = Returned r -> NoDup (visited r)).
Proof.
  split; [apply wf_gridb_ok; reflexivity|].
  apply (proj2 greedyBestFirst_visits_twice grid1x3 BFS).
  apply wf_gridb_ok; reflexivity.
Defined.

(** C3 (the code does not meet it).  On the grid [start, end], [aStar]
    succeeds with a visited sequence that holds the start only, while the
    end is in the visited sequence of [bfs], [dfs] and [dijkstra]. *)
Theorem aStar_omits_end :
  aStar 5 grid1x2 = Returned (mkResult [mkPos 0 0; mkPos 0 1] [mkPos 0 0] true) /\
  (mkPos 0 1 ∉ [mkPos 0 0]) /\
  bfs 5 grid1x2 = Returned (mkResult [mkPos 0 0; mkPos 0 1] [mkPos 0 0; mkPos 0 1] true) /\
  dfs 5 grid1x2 = Returned (mkResult [mkPos 0 0; mkPos 0 1] [mkPos 0 0; mkPos 0 1] true) /\
  dijkstra 5 grid1x2
    = Returned (mkResult [mkPos 0 0; mkPos 0 1] [mkPos 0 0; mkPos 0 1] true).
Proof.
  split; [vm_compute; reflexivity|]. split.
  - intros H. apply list_elem_of_singleton in H. discriminate.
  - repeat split; vm_compute; reflexivity.
Qed.

(** What [aStar] does record: a round of the loop appends the selected
    position to the visited sequence when it moves it to the closed set;
    when the selected position is the end, the reconstruction starts from
    the visited sequence as it is.  On every well-formed grid with a start
    and an end [aStar] returns, and the visited sequence of a success does
    not hold the end. *)
Lemma aStar_never_records_end grid s e :
  wf_grid grid -> kind_is grid T_start s -> kind_is grid T_end e ->
  (exists fuel r, aStar fuel grid = Returned r) /\
  (forall fuel r, aStar fuel grid = Returned r -> success r = true -> e ∉ visited r).
Proof.
  intros Hwf Hs He.
  destruct (aStar_correct grid s e Hwf Hs He) as (fuel0 & r0 & Hrun0 & _ & _ & Hout).
  split; [eauto|].
  intros fuel r Hrun. rewrite (search_deterministic AStar grid _ _ _ _ Hrun Hrun0).
  exact Hout.
Qed.



(** C5.  On a well-formed grid whose end is reachable from its start,
    [bfs], [dijkstra] and [aStar] each succeed with a path of [n + 1]
    positions, where [n] is the least number of moves of a walk from the
    start to the end; without walls that is the Manhattan distance between
    the start and the end, plus one. *)
Theorem shortest_paths_agree grid s e :
  wf_grid grid -> kind_is grid T_start s -> kind_is grid T_end e ->
  reachable grid s e ->
  exists n,
    walk grid s e n /\ (forall m, walk grid s e m -> (n <= m)%nat) /\
    (forall a, a = BFS \/ a = Dijkstra \/ a = AStar ->
       exists fuel r, search a fuel grid = Returned r /\
                      success r = true /\ length (path r) = S n) /\
    (no_walls grid -> Z.of_nat (S n) = heuristic s e + 1).
Proof.
  intros Hwf Hs He Hreach.
  assert (Hopt : forall r, sound_result grid s e r -> shortest_result grid s e r ->
            success r = true /\
            exists n, length (path r) = S n /\ walk grid s e n /\
                      forall m, walk grid s e m -> (n <= m)%nat).
  { intros r (_ & _ & _ & Hfail) Hshort.
    assert (Hsucc : success r = true).
    { destruct (success r); [reflexivity|]. destruct (Hfail eq_refl). contradiction. }
    split; [exact Hsucc | apply Hshort; exact Hsucc]. }
  destruct (bfs_correct grid s e Hwf Hs He) as (f1 & r1 & Hrun1 & Hsound1 & Hshort1).
  destruct (dijkstra_correct grid s e Hwf Hs He) as (f2 & r2 & Hrun2 & Hsound2 & Hshort2).
  destruct (aStar_correct grid s e Hwf Hs He) as (f3 & r3 & Hrun3 & Hsound3 & Hshort3 & _).
  destruct (Hopt r1 Hsound1 Hshort1) as (Hs1 & n1 & Hl1 & Hw1 & Hm1).
  destruct (Hopt r2 Hsound2 Hshort2) as (Hs2 & n2 & Hl2 & Hw2 & Hm2).
  destruct (Hopt r3 Hsound3 Hshort3) as (Hs3 & n3 & Hl3 & Hw3 & Hm3).
  assert (n2 = n1) by (specialize (Hm1 _ Hw2); specialize (Hm2 _ Hw1); lia).
  assert (n3 = n1) by (specialize (Hm1 _ Hw3); specialize (Hm3 _ Hw1); lia).
  subst n2 n3.
  exists n1. split; [exact Hw1|]. split; [exact Hm1|]. split.
  - intros a [-> | [-> | ->]]; eexists _, _; (split; [eassumption|]); auto.
  - intros Hnw.
    destruct (wf_grid_rect grid Hwf) as (row0 & rows & _ & Hr).
    assert (Hsg : is_Some (cellOf grid s)) by (destruct Hs as (c & H & _); eauto).
    assert (Heg : is_Some (cellOf grid e)) by (destruct He as (c & H & _); eauto).
    pose proof (manhattan_walk grid _ s Hr Hnw Hsg (hn s e) e Heg eq_refl) as Hman.
    pose proof (walk_heuristic grid e s e n1 Hw1) as Hlow.
    rewrite hn_end in Hlow. specialize (Hm1 _ Hman). rewrite hn_sym in Hm1.
    assert (n1 = hn e s) by lia. subst n1.
    unfold hn. pose proof (heuristic_nonneg s e). lia.
Qed.

Lemma grid1x3_reachable : reachable grid1x3 (mkPos 0 0) (mkPos 0 2).
Proof.
  exists 2%nat.
  apply walk_step with (mkPos 0 1); [apply walk_step with (mkPos 0 0); [constructor|]|].
  - split; [unfold adjacent; simpl; lia|]. eexists. split; [reflexivity | discriminate].
  - split; [unfold adjacent; simpl; lia|]. eexists. split; [reflexivity | discriminate].
Defined.

Lemma shortest_paths_agree_witness :
  wf_grid grid1x3 /\
  kind_is grid1x3 T_start (mkPos 0 0) /\ kind_is grid1x3 T_end (mkPos 0 2) /\
  reachable grid1x3 (mkPos 0 0) (mkPos 0 2) /\
  no_walls grid1x3 /\
  exists n,
    walk grid1x3 (mkPos 0 0) (mkPos 0 2) n /\
    (forall m, walk grid1x3 (mkPos 0 0) (mkPos 0 2) m -> (n <= m)%nat) /\
    (forall a, a = BFS \/ a = Dijkstra \/ a = AStar ->
       exists fuel r, search a fuel grid1x3 = Returned r /\
                      success r = true /\ length (path r) = S n) /\
    Z.of_nat (S n) = heuristic (mkPos 0 0) (mkPos 0 2) + 1.
Proof.
  split; [apply wf_gridb_ok; reflexivity|].
  split; [eexists; split; reflexivity|].
  split; [eexists; split; reflexivity|].
  split; [exact grid1x3_reachable|].
  split; [apply no_wallsb_ok; reflexivity|].
  destruct (shortest_paths_agree grid1x3 (mkPos 0 0) (mkPos 0 2))
    as (n & Hw & Hmin & Hall & Hman).
  - apply wf_gridb_ok; reflexivity.
  - eexists; split; reflexivity.
  - eexists; split; reflexivity.
  - exact grid1x3_reachable.
  - exists n. split; [exact Hw|]. split; [exact Hmin|]. split; [exact Hall|].
    apply Hman. apply no_wallsb_ok. reflexivity.
Defined.

(** C6.  On a well-formed grid without a start, or without an end, each of
    the five strategies returns the failure with an empty path and an empty
    visited sequence. *)
Theorem missing_start_or_end grid :
  wf_grid grid ->
  (forall p, ~ kind_is grid T_start p) \/ (forall p, ~ kind_is grid T_end p) ->
  forall a fuel, search a fuel grid = Returned (mkResult [] [] false).
Proof. intros Hwf Hno a fuel. apply search_missing; assumption. Qed.

Definition grid_no_start : Grid :=
  mkGrid [ [T_empty; T_wall; T_end];
           [T_empty; T_empty; T_empty] ].

Lemma missing_start_or_end_witness :
  wf_grid grid_no_start /\
  ((forall p, ~ kind_is grid_no_start T_start p) \/
   (forall p, ~ kind_is grid_no_start T_end p)) /\
  forall a fuel, search a fuel grid_no_start = Returned (mkResult [] [] false).
Proof.
  split; [apply wf_gridb_ok; reflexivity|].
  split; [left; apply has_kindb_false; reflexivity|].
  apply missing_start_or_end.
  - apply wf_gridb_ok; reflexivity.
  - left. apply has_kindb_false. reflexivity.
Defined.

(** C7.  On a rectangular grid [findStartAndEnd] returns the last position
    of kind start and the last position of kind end of the row-major order,
    each [None] when there is no such cell, whether or not the kind occurs
    more than once; the scan of [greedyBestFirst] returns the same. *)
Theorem locator_last_wins grid cols :
  rect grid cols ->
  last_of_kind grid T_start (se_start (findStartAndEnd grid)) /\
  last_of_kind grid T_end (se_end (findStartAndEnd grid)) /\
  greedy_locate grid (length grid) cols = Some (findStartAndEnd grid).
Proof.
  intros Hr. split; [|split].
  - apply (locate_last_of_kind grid T_start). auto.
  - apply (locate_last_of_kind grid T_end). auto.
  - apply greedy_locate_rect. exact Hr.
Qed.

Lemma locator_last_wins_witness :
  rect grid_two_starts 3 /\
  findStartAndEnd grid_two_starts = mkStartEnd (Some (mkPos 1 1)) (Some (mkPos 1 0)) /\
  last_of_kind grid_two_starts T_start (se_start (findStartAndEnd grid_two_starts)) /\
  last_of_kind grid_two_starts T_end (se_end (findStartAndEnd grid_two_starts)) /\
  greedy_locate grid_two_starts (length grid_two_starts) 3
    = Some (findStartAndEnd grid_two_starts).
Proof.
  split; [repeat constructor|]. split; [reflexivity|].
  apply locator_last_wins. repeat constructor.
Defined.

(** C10 (the code does not meet it).  On the well-formed corridor
    [start, empty, empty, end], which has a start and an end,
    [greedyBestFirst] returns no result, hence no visited sequence, whatever
    the bound on the rounds of its loops.  On every well-formed grid with a
    start and an end the other four strategies return, and the visited
    sequence of every result that a strategy returns begins with the
    start. *)
Theorem greedyBestFirst_returns_no_visited :
  (wf_grid grid1x4 /\
   kind_is grid1x4 T_start (mkPos 0 0) /\ kind_is grid1x4 T_end (mkPos 0 3) /\
   (forall fuel, greedyBestFirst fuel grid1x4 = OutOfFuel) /\
   forall fuel r, search Greedy fuel grid1x4 <> Returned r) /\
  (forall grid s e a,
     wf_grid grid -> kind_is grid T_start s -> kind_is grid T_end e ->
     (a <> Greedy -> exists fuel r, search a fuel grid = Returned r) /\
     (forall fuel r, search a fuel grid = Returned r -> head (visited r) = Some s)).
Proof.
  split.
  - split; [apply wf_gridb_ok; reflexivity|].
    split; [eexists; split; reflexivity|].
    split; [eexists; split; reflexivity|].
    split; [exact grid1x4_never_returns|].
    intros fuel r. unfold search. rewrite grid1x4_never_returns. discriminate.
  - intros grid s e a Hwf Hs He. split.
    + apply (search_returns grid s e); assumption.
    + intros fuel r Hrun. apply (search_sound grid s e Hwf Hs He a fuel r Hrun).
Qed.

Lemma greedyBestFirst_returns_no_visited_witness :
  wf_grid grid1x3 /\
  kind_is grid1x3 T_start (mkPos 0 0) /\ kind_is grid1x3 T_end (mkPos 0 2) /\
  (DFS <> Greedy -> exists fuel r, search DFS fuel grid1x3 = Returned r) /\
  (forall fuel r, search DFS fuel grid1x3 = Returned r ->
     head (visited r) = Some (mkPos 0 0)).
Proof.
  split; [apply wf_gridb_ok; reflexivity|].
  split; [eexists; split; reflexivity|].
  split; [eexists; split; reflexivity|].
  apply (proj2 greedyBestFirst_returns_no_visited grid1x3 (mkPos 0 0) (mkPos 0 2) DFS).
  - apply wf_gridb_ok; reflexivity.
  - eexists; split; reflexivity.
  - eexists; split; reflexivity.
Defined.

(** * Further properties of the engine *)

(** ** The neighbor generator *)

(** X1.  On a rectangular grid (the empty grid included) [getNeighbors]
    returns without an error; what it returns is a sublist of the four
    positions up, down, left and right of [p], in that order, without
    duplicates, and holds exactly the positions next to [p] that are cells
    of the grid and are not walls. *)
Theorem getNeighbors_exact grid cols p :
  rect grid cols ->
  exists l,
    getNeighbors grid p = Some l /\
    sublist l [ mkPos (row p - 1) (col p); mkPos (row p + 1) (col p);
                mkPos (row p) (col p - 1); mkPos (row p) (col p + 1) ] /\
    NoDup l /\
    forall q, q ∈ l <-> adjacent p q /\ passable grid q.
Proof.
  intros Hr. exists (neighbors grid p).
  split; [eapply getNeighbors_rect; eauto|].
  split; [|split].
  - rewrite greedy_candidates. unfold neighbors. apply sublist_filter.
  - apply NoDup_neighbors.
  - intros q. rewrite elem_of_neighbors. reflexivity.
Qed.

Lemma getNeighbors_exact_witness :
  rect grid_detour 3 /\
  exists l,
    getNeighbors grid_detour (mkPos 1 0) = Some l /\
    sublist l [ mkPos (1 - 1) 0; mkPos (1 + 1) 0; mkPos 1 (0 - 1); mkPos 1 (0 + 1) ] /\
    NoDup l /\
    forall q, q ∈ l <-> adjacent (mkPos 1 0) q /\ passable grid_detour q.
Proof.
  split; [repeat constructor|].
  apply (getNeighbors_exact grid_detour 3 (mkPos 1 0)). repeat constructor.
Defined.

Lemma getNeighbors_loop_throws grid row0 rest p d dirs acc :
  grid = row0 :: rest -> d ∈ dirs ->
  0 <= row p + row d < Z.of_nat (length grid) ->
  0 <= col p + col d < Z.of_nat (length row0) ->
  cellAt grid (row p + row d) (col p + col d) = None ->
  getNeighbors_loop grid p dirs acc = None.
Proof.
  intros Hg Hd Hrow Hcol Hcell. revert acc.
  induction dirs as [|dir dirs IH]; intros acc; [apply elem_of_nil in Hd; contradiction|].
  apply elem_of_cons in Hd. cbn [getNeighbors_loop].
  destruct (decide (dir = d)) as [->|Hne].
  - replace ((0 <=? row p + row d) && (row p + row d <? Z.of_nat (length grid))
             && (0 <=? col p + col d)) with true
      by (symmetry; rewrite !andb_true_iff, !Z.leb_le, Z.ltb_lt; lia).
    rewrite Hg at 1. cbv iota.
    replace (col p + col d <? Z.of_nat (length row0)) with true
      by (symmetry; apply Z.ltb_lt; lia).
    rewrite Hcell. reflexivity.
  - destruct Hd as [Hd|Hd]; [congruence|]. specialize (IH Hd).
    destruct ((0 <=? row p + row dir) && _ && _); [|apply IH].
    rewrite Hg at 1. cbv iota.
    destruct (col p + col dir <? Z.of_nat (length row0)); [|apply IH].
    destruct (cellAt grid (row p + row dir) (col p + col dir)) as [c|]; [|reflexivity].
    destruct (decide (cell_type c = T_wall)); apply IH.
Qed.

(** X2.  [getNeighbors] bounds the column of a neighbor by the width of the
    first row: on a grid whose rows differ in length it throws as soon as
    one of the four candidates lies in a row that exists, at a column
    within the first row, where that row has no cell. *)
Theorem getNeighbors_throws_on_short_row grid row0 rest p d :
  grid = row0 :: rest -> d ∈ directions ->
  0 <= row p + row d < Z.of_nat (length grid) ->
  0 <= col p + col d < Z.of_nat (length row0) ->
  cellAt grid (row p + row d) (col p + col d) = None ->
  getNeighbors grid p = None.
Proof. intros. unfold getNeighbors. eapply getNeighbors_loop_throws; eauto. Qed.

Definition grid_ragged : Grid :=
  mkGrid [ [T_start; T_empty]; [T_end] ].

Lemma getNeighbors_throws_on_short_row_witness :
  getNeighbors grid_ragged (mkPos 0 1) = None.
Proof.
  apply (getNeighbors_throws_on_short_row grid_ragged
           (mkRow 0 0 [T_start; T_empty]) [mkRow 1 0 [T_end]] (mkPos 0 1) (mkPos 1 0)).
  - reflexivity.
  - unfold directions. apply elem_of_cons. right. apply elem_of_cons. left. reflexivity.
  - simpl. lia.
  - simpl. lia.
  - reflexivity.
Defined.

(** ** The heuristic *)

(** X3.  The heuristic is a metric on positions: it is never negative, it
    is zero exactly between a position and itself, it is symmetric and it
    satisfies the triangle inequality. *)
Theorem heuristic_metric a b c :
  0 <= heuristic a b /\
  (heuristic a b = 0 <-> a = b) /\
  heuristic a b = heuristic b a /\
  heuristic a c <= heuristic a b + heuristic b c.
Proof.
  unfold heuristic. destruct a as [ar ac], b as [br bc], c as [cr cc]. simpl.
  split; [lia|]. split; [|split; lia].
  split.
  - intros H. f_equal; lia.
  - intros [= -> ->]. lia.
Qed.

Lemma heuristic_step e u v :
  adjacent u v -> heuristic v e = heuristic u e + 1 \/ heuristic v e = heuristic u e - 1.
Proof. unfold adjacent, heuristic. lia. Qed.

(** X4.  The heuristic never overestimates: a walk of [n] moves from [p] to
    [q] has at least [heuristic p q] moves, and the number of moves beyond
    that is even. *)
Theorem heuristic_admissible grid p q n :
  walk grid p q n ->
  heuristic p q <= Z.of_nat n /\ Z.even (Z.of_nat n - heuristic p q) = true.
Proof.
  induction 1 as [|q q' n Hw [IH1 IH2] [Hadj _]].
  - assert (heuristic p p = 0) as -> by (unfold heuristic; lia).
    split; [lia | reflexivity].
  - assert (H : heuristic p q' = heuristic p q + 1 \/ heuristic p q' = heuristic p q - 1).
    { destruct (heuristic_step p q q' Hadj) as [H|H];
        unfold heuristic in *; lia. }
    destruct H as [-> | ->].
    + split; [lia|].
      replace (Z.of_nat (S n) - (heuristic p q + 1)) with (Z.of_nat n - heuristic p q) by lia.
      exact IH2.
    + split; [lia|].
      replace (Z.of_nat (S n) - (heuristic p q - 1))
        with (Z.succ (Z.succ (Z.of_nat n - heuristic p q))) by lia.
      rewrite Z.even_succ_succ. exact IH2.
Qed.

Lemma grid_detour_walk : walk grid_detour (mkPos 0 0) (mkPos 0 2) 6.
Proof.
  assert (E : forall p q n, walk grid_detour (mkPos 0 0) p n ->
              adjacent p q -> passableb grid_detour q = true ->
              walk grid_detour (mkPos 0 0) q (S n)).
  { intros p q n Hw Ha Hp. eapply walk_step; [exact Hw|].
    split; [exact Ha | apply passableb_spec; exact Hp]. }
  apply (E (mkPos 1 2)); [|unfold adjacent; simpl; lia | reflexivity].
  apply (E (mkPos 2 2)); [|unfold adjacent; simpl; lia | reflexivity].
  apply (E (mkPos 2 1)); [|unfold adjacent; simpl; lia | reflexivity].
  apply (E (mkPos 2 0)); [|unfold adjacent; simpl; lia | reflexivity].
  apply (E (mkPos 1 0)); [|unfold adjacent; simpl; lia | reflexivity].
  apply (E (mkPos 0 0)); [|unfold adjacent; simpl; lia | reflexivity].
  constructor.
Defined.

Lemma heuristic_admissible_witness :
  walk grid_detour (mkPos 0 0) (mkPos 0 2) 6 /\
  heuristic (mkPos 0 0) (mkPos 0 2) <= Z.of_nat 6 /\
  Z.even (Z.of_nat 6 - heuristic (mkPos 0 0) (mkPos 0 2)) = true.
Proof.
  split; [exact grid_detour_walk|].
  apply (heuristic_admissible grid_detour (mkPos 0 0) (mkPos 0 2) 6).
  exact grid_detour_walk.
Defined.

(** ** What the strategies explore *)

(** [n] is the least number of moves of a walk from [s] to [x]. *)
Definition distance (grid : Grid) (s x : Position) (n : nat) : Prop :=
  walk grid s x n /\ forall k, walk grid s x k -> (n <= k)%nat.

(** The visited positions are reachable from the start, and a failed
    search has visited every reachable position. *)
Definition explored_result (grid : Grid) (s : Position) (r : AlgorithmResult) : Prop :=
  (forall x, x ∈ visited r -> reachable grid s x) /\
  (success r = false -> forall x, reachable grid s x -> x ∈ visited r).

(** The visited positions come in the order of their distance from the
    start. *)
Definition ordered_result (grid : Grid) (s : Position) (r : AlgorithmResult) : Prop :=
  exists d : Position -> nat,
    (forall x, x ∈ visited r -> distance grid s x (d x)) /\
    StronglySorted (fun a b => (d a <= d b)%nat) (visited r).

Lemma sorted_by_ext (d d' : Position -> nat) l :
  (forall x, x ∈ l -> d' x = d x) ->
  StronglySorted (fun a b => (d a <= d b)%nat) l ->
  StronglySorted (fun a b => (d' a <= d' b)%nat) l.
Proof.
  intros Hext Hs. induction Hs as [|a l Hs IH Hall]; constructor.
  - apply IH. intros x Hx. apply Hext. right. exact Hx.
  - apply Forall_forall. intros x Hx.
    rewrite (Hext a) by left. rewrite (Hext x) by (right; exact Hx).
    rewrite Forall_forall in Hall. apply Hall. exact Hx.
Qed.

Lemma sorted_by_snoc (d : Position -> nat) l c :
  StronglySorted (fun a b => (d a <= d b)%nat) l ->
  (forall t, t ∈ l -> (d t <= d c)%nat) ->
  StronglySorted (fun a b => (d a <= d b)%nat) (l ++ [c]).
Proof.
  intros Hs Hle. apply StronglySorted_app_2; [|exact Hs|repeat constructor].
  intros x1 x2 H1 H2. apply list_elem_of_singleton in H2. subst. auto.
Qed.

Section Explore.

Context (grid : Grid) (cols : nat) (s e : Position).
Hypothesis Hrect : rect grid cols.
Hypothesis Hstart : kind_is grid T_start s.
Hypothesis Hend : kind_is grid T_end e.

Lemma frontier_reachable d F seen parent trace x :
  frontier_inv grid s e d F seen parent trace -> x ∈ seen -> walk grid s x (d x).
Proof.
  intros Hfi Hx. eapply parent_tree_walk; [apply (fi_tree _ _ _ _ _ _ _ _ Hfi)|exact Hx].
Qed.

Lemma frontier_exhausted_explored d seen parent trace :
  frontier_inv grid s e d [] seen parent trace ->
  explored_result grid s (mkResult [] trace false).
Proof.
  intros Hfi. pose proof Hfi as [Hnd Hseen Hs Htree Hend' Hclosed Hcells Hhead].
  assert (Hst : forall x, x ∈ seen <-> x ∈ trace).
  { intros x. rewrite Hseen, elem_of_nil. tauto. }
  split; simpl.
  - intros x Hx. exists (d x). eapply frontier_reachable; eauto. apply Hst. exact Hx.
  - intros _ x [n Hw]. induction Hw as [|q q' k Hq IH He].
    + apply Hst, Hs.
    + apply Hst. eapply Hclosed; eauto.
Qed.

Lemma frontier_found_explored d F seen parent trace l :
  frontier_inv grid s e d F seen parent trace -> e ∈ F ->
  explored_result grid s (mkResult l (trace ++ [e]) true).
Proof.
  intros Hfi He. pose proof Hfi as [Hnd Hseen Hs Htree Hend' Hclosed Hcells Hhead].
  split; simpl; [|discriminate].
  intros x Hx. exists (d x). eapply frontier_reachable; eauto.
  apply Hseen. apply elem_of_app in Hx as [Hx|Hx]; [auto|].
  apply list_elem_of_singleton in Hx. subst. auto.
Qed.

(** *** Depth-first search *)

Lemma dfs_explores fuel r :
  run (machine_step dfs_search) fuel (Searching (mkDfs grid s e [s] {[s]} ∅ []))
    = Returned r ->
  explored_result grid s r.
Proof.
  apply (run_partial _ (dfs_minv grid s e)).
  - intros [st|r0] Hinv; [|contradiction]. simpl in Hinv.
    destruct st as [g s0 e0 stack seen parent trace].
    destruct Hinv as (Hg & Hs0 & He0 & d & Hfi). simpl in *. subst g s0 e0.
    unfold dfs_search; simpl.
    destruct (last stack) as [current|] eqn:Elast.
    + pose proof (last_removelast _ _ Elast) as Hstack.
      assert (Hperm : stack ≡ₚ current :: removelast stack).
      { rewrite Hstack at 1. rewrite Permutation_app_comm. reflexivity. }
      assert (Hcur : current ∈ stack) by (rewrite Hperm; left).
      destruct (pos_eqb current e) eqn:Eq.
      * apply pos_eqb_eq in Eq. subst current. right.
        destruct (frontier_found grid s e Hstart Hend dfs_search d stack seen parent trace
                    Hfi Hcur) as (l & Hrun & _).
        exists (S (d e)), (mkResult l (trace ++ [e]) true).
        split; [exact Hrun|]. eapply frontier_found_explored; eauto.
      * apply pos_eqb_neq in Eq.
        rewrite (getNeighbors_rect _ cols) by assumption.
        destruct (frontier_step _ _ _ _ _ _ _ _ _ _ Hfi Hperm Eq)
          as (new & parent' & Hfold & _ & Hfi').
        rewrite Hfold. left.
        simpl. repeat split; try reflexivity. eexists; exact Hfi'.
    + apply last_None in Elast. subst stack.
      eapply frontier_exhausted_explored; eauto.
  - simpl. repeat split; try reflexivity. eexists. apply frontier_init; assumption.
Qed.

(** *** Breadth-first search *)

Definition bfs_ord (m : machine bfs_state) : Prop :=
  match m with
  | Searching st =>
      bfs_grid st = grid /\ bfs_start st = s /\ bfs_end st = e /\
      exists d, frontier_inv grid s e d (bfs_queue st) (bfs_visited st) (bfs_parent st)
                  (bfs_visitedPositions st) /\
                bfs_levels grid d (bfs_queue st) (bfs_visitedPositions st) /\
                StronglySorted (fun a b => (d a <= d b)%nat) (bfs_visitedPositions st)
  | Rebuilding _ => False
  end.

(** The depth of a position that the search has seen is its distance from
    the start. *)
Lemma bfs_depth_least d queue seen parent trace x k :
  frontier_inv grid s e d queue seen parent trace ->
  bfs_levels grid d queue trace ->
  x ∈ trace \/ (exists rest, queue = x :: rest) ->
  walk grid s x k -> (d x <= k)%nat.
Proof.
  intros Hfi Hlv Hx Hw.
  pose proof Hfi as [Hnd Hseen Hs Htree Hend' Hclosed Hcells Hhead].
  destruct (frontier_lower_bound grid s (fun y => y ∈ trace) (fun y => y ∈ queue)
              d (fun _ => 0%nat)) with (q := x) (n := k)
    as [[_ Hle] | (y & Hy & Hb)].
  - apply Hseen, Hs.
  - destruct (Htree s Hs) as [[_ H0] | [Hn _]]; [exact H0 | congruence].
  - intros u v Hu He. split; [apply Hseen; eauto|].
    destruct Hlv as [_ Hedge]. eauto.
  - intros; lia.
  - exact Hw.
  - exact Hle.
  - destruct queue as [|current rest]; [apply elem_of_nil in Hy; contradiction|].
    pose proof (bfs_levels_head _ _ _ _ _ Hlv) as [Hq Ht].
    specialize (Hq y Hy).
    destruct Hx as [Hx | (rest' & [= -> ->])].
    + specialize (Ht x Hx). lia.
    + lia.
Qed.

Lemma bfs_explores fuel r :
  run (machine_step bfs_search) fuel (Searching (mkBfs grid s e [s] {[s]} ∅ []))
    = Returned r ->
  explored_result grid s r /\ ordered_result grid s r.
Proof.
  apply (run_partial _ bfs_ord
           (fun r => explored_result grid s r /\ ordered_result grid s r)).
  - intros [st|r0] Hinv; [|contradiction]. simpl in Hinv.
    destruct st as [g s0 e0 queue seen parent trace].
    destruct Hinv as (Hg & Hs0 & He0 & d & Hfi & Hlv & Hsorted). simpl in *. subst g s0 e0.
    unfold bfs_search; simpl.
    destruct queue as [|current rest].
    + split; [eapply frontier_exhausted_explored; eauto|].
      exists d. simpl. split; [|exact Hsorted].
      intros x Hx. split.
      * eapply frontier_reachable; eauto.
        apply (fi_seen _ _ _ _ _ _ _ _ Hfi). auto.
      * intros k Hk. eapply bfs_depth_least; eauto.
    + assert (Hcur : current ∈ current :: rest) by left.
      pose proof (bfs_levels_head _ _ _ _ _ Hlv) as [Hq Ht].
      destruct (pos_eqb current e) eqn:Eq.
      * apply pos_eqb_eq in Eq. subst current. right.
        destruct (frontier_found grid s e Hstart Hend bfs_search d _ seen parent trace
                    Hfi Hcur) as (l & Hrun & _).
        exists (S (d e)), (mkResult l (trace ++ [e]) true).
        split; [exact Hrun|].
        split; [eapply frontier_found_explored; eauto|].
        exists d. simpl. split; [|apply sorted_by_snoc; assumption].
        intros x Hx. split.
        -- eapply frontier_reachable; eauto.
           apply (fi_seen _ _ _ _ _ _ _ _ Hfi).
           apply elem_of_app in Hx as [Hx|Hx]; [auto|].
           apply list_elem_of_singleton in Hx. subst. auto.
        -- intros k Hk. eapply bfs_depth_least; eauto.
           apply elem_of_app in Hx as [Hx|Hx]; [auto|].
           apply list_elem_of_singleton in Hx. subst. right. eauto.
      * apply pos_eqb_neq in Eq.
        rewrite (getNeighbors_rect _ cols) by assumption.
        destruct (frontier_step _ _ _ _ _ _ _ _ _ rest Hfi (reflexivity _) Eq)
          as (new & parent' & Hfold & Hnew & Hfi').
        rewrite Hfold. left.
        simpl. repeat split; try reflexivity. eexists; split; [exact Hfi'|]. split.
        -- eapply bfs_levels_step; eauto.
        -- apply (sorted_by_ext d).
           ++ intros x Hx. rewrite decide_True; [reflexivity|].
              apply (fi_seen _ _ _ _ _ _ _ _ Hfi).
              apply elem_of_app in Hx as [Hx|Hx]; [auto|].
              apply list_elem_of_singleton in Hx. subst. auto.
           ++ apply sorted_by_snoc; assumption.
  - simpl. repeat split; try reflexivity. exists (fun _ => 0%nat).
    split; [apply frontier_init; assumption|]. split; [split|].
    + exists 0%nat, [s], []. repeat split; auto.
    + intros u v Hu. apply elem_of_nil in Hu. contradiction.
    + constructor.
Qed.

End Explore.

Section ExploreScores.

Context (grid : Grid) (cols : nat) (s e : Position).
Hypothesis Hrect : rect grid cols.
Hypothesis Hstart : kind_is grid T_start s.
Hypothesis Hend : kind_is grid T_end e.

(** *** Dijkstra *)

Definition dijkstra_ord (m : machine dijkstra_state) : Prop :=
  match m with
  | Searching st =>
      dijkstra_inv grid s e st /\
      StronglySorted
        (fun a b => (score (dj_distances st) a <= score (dj_distances st) b)%nat)
        (dj_visitedPositions st)
  | Rebuilding _ => False
  end.

Lemma dijkstra_reachable distances parent visited trace x :
  dijkstra_ok grid s e distances parent visited trace ->
  labelled distances x -> walk grid s x (score distances x).
Proof.
  intros Hok Hx.
  apply (parent_tree_walk grid s parent (labelled distances) (score distances));
    [eapply dijkstra_tree; eauto | exact Hx].
Qed.

(** The label of a position that no unsettled position undercuts is its
    distance from the start. *)
Lemma dijkstra_score_least distances parent visited trace x k :
  dijkstra_ok grid s e distances parent visited trace ->
  (forall y, labelled distances y -> y ∉ trace ->
             (score distances x <= score distances y)%nat) ->
  walk grid s x k -> (score distances x <= k)%nat.
Proof.
  intros Hok Hle Hw.
  destruct (frontier_lower_bound grid s (fun y => y ∈ trace)
              (fun y => labelled distances y /\ y ∉ trace)
              (score distances) (fun _ => 0%nat)) with (q := x) (n := k)
    as [[_ H] | (y & [Hyl Hyt] & Hb)].
  - destruct (decide (s ∈ trace)); [left; assumption|].
    right. split; [|assumption]. exists 0%nat. apply (dj_source _ _ _ _ _ _ _ Hok).
  - apply label_score, (dj_source _ _ _ _ _ _ _ Hok).
  - intros u v Hu He. destruct (dj_closed _ _ _ _ _ _ _ Hok u v Hu He) as [Hvl Hvd].
    split; [|assumption].
    destruct (decide (v ∈ trace)); [left; assumption | right; split; assumption].
  - intros; lia.
  - exact Hw.
  - exact H.
  - specialize (Hle y Hyl Hyt). lia.
Qed.

Lemma dijkstra_explores fuel r :
  run (machine_step dijkstra_search) fuel
    (Searching (mkDijkstra grid s e (<[s := Fin 0]> (init_scores grid)) ∅ ∅ []))
    = Returned r ->
  explored_result grid s r /\ ordered_result grid s r.
Proof.
  apply (run_partial _ dijkstra_ord
           (fun r => explored_result grid s r /\ ordered_result grid s r)).
  - intros [st|r0] Hinv; [|contradiction]. simpl in Hinv.
    destruct st as [g s0 e0 distances parent visited trace].
    destruct Hinv as ((Hg & Hs0 & He0 & Hok) & Hsorted). simpl in *. subst g s0 e0.
    unfold dijkstra_search; simpl.
    pose proof (getMinDistance_spec grid visited distances
                  (scores_ok_values _ _ (dj_scores _ _ _ _ _ _ _ Hok))) as Hmin.
    assert (Hkeys : forall y, labelled distances y -> y ∈ grid_keys grid).
    { intros y [k Hk]. apply elem_of_grid_keys.
      apply (proj2 (dj_scores _ _ _ _ _ _ _ Hok)). unfold label in Hk. eauto. }
    assert (Htrace : forall x k, x ∈ trace -> walk grid s x k ->
                       (score distances x <= k)%nat).
    { intros x k Hx. eapply dijkstra_score_least; eauto.
      intros y Hyl Hyt. apply (dj_mono _ _ _ _ _ _ _ Hok); assumption. }
    destruct (getMinDistance grid visited distances) as [current|].
    + destruct Hmin as (Hkey & Hnv & Hlc & Hmin).
      assert (Hnt : current ∉ trace)
        by (rewrite <- (dj_visited_trace _ _ _ _ _ _ _ Hok); exact Hnv).
      assert (Hlast : forall t, t ∈ trace ->
                (score distances t <= score distances current)%nat).
      { intros t Ht. apply (dj_mono _ _ _ _ _ _ _ Hok); assumption. }
      destruct (pos_eqb current e) eqn:Eq.
      * apply pos_eqb_eq in Eq. subst current. right.
        destruct (rebuild_from_end dijkstra_search grid s e parent (labelled distances)
                    (score distances) (trace ++ [e]) Hstart
                    (dijkstra_tree _ _ _ _ _ _ _ Hok) Hlc)
          as (l & Hrun & _).
        exists (S (score distances e)), (mkResult l (trace ++ [e]) true).
        split; [exact Hrun|].
        assert (Hlab : forall x, x ∈ trace ++ [e] -> labelled distances x).
        { intros x Hx. apply elem_of_app in Hx as [Hx|Hx].
          - apply (dj_settled _ _ _ _ _ _ _ Hok). exact Hx.
          - apply list_elem_of_singleton in Hx. subst. exact Hlc. }
        split; [split; simpl; [|discriminate]|].
        -- intros x Hx. eexists. eapply dijkstra_reachable; eauto.
        -- exists (score distances). simpl. split; [|apply sorted_by_snoc; assumption].
           intros x Hx. split; [eapply dijkstra_reachable; eauto|].
           intros k Hk. apply elem_of_app in Hx as [Hx|Hx]; [eauto|].
           apply list_elem_of_singleton in Hx. subst x.
           eapply dijkstra_score_least; eauto.
           intros y Hyl Hyt. apply Hmin; [| rewrite (dj_visited_trace _ _ _ _ _ _ _ Hok) |];
             auto.
      * apply pos_eqb_neq in Eq.
        rewrite (getNeighbors_rect _ cols) by assumption.
        destruct (dijkstra_step grid cols s e Hrect Hstart Hend _ _ _ _ _
                    Hok Hkey Hnv Hlc Hmin Eq) as (ds & ps & Hfold & Hok').
        assert (Hcv : current ∈ ({[current]} ∪ visited : gset Position)) by set_solver.
        destruct (dijkstra_relax_fold ({[current]} ∪ visited) current
                    (score distances current) (neighbors grid current)
                    (NoDup_neighbors _ _) Hcv distances parent (labelled_label _ _ Hlc))
          as (ds' & ps' & Hfold' & Hkept).
        rewrite Hfold in Hfold'. injection Hfold' as <- <-.
        rewrite Hfold. left. simpl.
        split; [split; [reflexivity|]; split; [reflexivity|]; split; [reflexivity|];
                exact Hok'|].
        apply (sorted_by_ext (score distances)).
        -- intros x Hx. unfold score.
           destruct (Hkept x) as [_ Hsame]. destruct Hsame as [-> _]; [|reflexivity].
           right. left. apply elem_of_app in Hx as [Hx|Hx].
           ++ apply elem_of_union_r. apply (dj_visited_trace _ _ _ _ _ _ _ Hok). exact Hx.
           ++ apply list_elem_of_singleton in Hx. subst. exact Hcv.
        -- apply sorted_by_snoc; assumption.
    + assert (Hall : forall x, labelled distances x -> x ∈ trace).
      { intros x Hx. destruct (decide (x ∈ trace)) as [|Hn]; [assumption|]. exfalso.
        apply (Hmin x); [| rewrite (dj_visited_trace _ _ _ _ _ _ _ Hok) |]; auto. }
      assert (Hst : s ∈ trace)
        by (apply Hall; exists 0%nat; apply (dj_source _ _ _ _ _ _ _ Hok)).
      split; [split; simpl|].
      * intros x Hx. eexists. eapply dijkstra_reachable; eauto.
        apply (dj_settled _ _ _ _ _ _ _ Hok). exact Hx.
      * intros _ x [n Hw]. induction Hw as [|q q' k Hq IH He]; [assumption|].
        apply Hall. eapply (dj_closed _ _ _ _ _ _ _ Hok); eauto.
      * exists (score distances). simpl. split; [|exact Hsorted].
        intros x Hx. split; [|eauto].
        eapply dijkstra_reachable; eauto. apply (dj_settled _ _ _ _ _ _ _ Hok). exact Hx.
  - simpl. split; [|constructor].
    split; [reflexivity|]. split; [reflexivity|]. split; [reflexivity|].
    eapply dijkstra_init; eauto.
Qed.

(** *** A* *)

(** Every expanded position has a walk from the start whose length plus
    the heuristic is less than the length of the returned path. *)
Definition focused_result (r : AlgorithmResult) : Prop :=
  success r = true ->
  forall x, x ∈ visited r ->
    exists n, walk grid s x n /\
              Z.of_nat n + heuristic x e < Z.of_nat (length (path r)).

Lemma astar_explores fuel r :
  run (machine_step astar_search) fuel
    (Searching (mkAstar grid s e [s] ∅ (<[s := Fin 0]> (init_scores grid))
                  (<[s := Fin (heuristic s e)]> (init_scores grid)) ∅ []))
    = Returned r ->
  explored_result grid s r /\ focused_result r.
Proof.
  apply (run_partial _ (astar_minv grid s e)
           (fun r => explored_result grid s r /\ focused_result r)).
  - intros [st|r0] Hinv; [|contradiction]. simpl in Hinv.
    destruct st as [g s0 e0 openSet closedSet gScore fScore parent trace].
    destruct Hinv as (Hg & Hs0 & He0 & Hok). simpl in *. subst g s0 e0.
    assert (Hreach : forall x, x ∈ trace -> walk grid s x (score gScore x)).
    { intros x Hx.
      apply (parent_tree_walk grid s parent (fun x => x ∈ openSet \/ x ∈ trace)
               (score gScore)); [eapply astar_tree; eauto | auto]. }
    destruct (decide (openSet = [])) as [->|Hne0].
    + unfold astar_search; simpl.
      split; [split; simpl|intros H; discriminate].
      * intros x Hx. eexists. eauto.
      * intros _ x [n Hw]. induction Hw as [|q q' k Hq IH He].
        -- destruct (astar_source_known _ _ _ _ _ _ _ _ _ Hok) as [H|H]; [|assumption].
           apply elem_of_nil in H. contradiction.
        -- destruct (ao_closure _ _ _ _ _ _ _ _ _ Hok q q' IH He) as [[H|H] _];
             [assumption|]. apply elem_of_nil in H. contradiction.
    + rewrite astar_search_open by exact Hne0.
      cbn [as_openSet as_fScore as_end as_grid as_start as_parent
           as_visitedPositions as_closedSet as_gScore].
      destruct (lowest_fScore_spec openSet fScore) as (current & Hsel & Hco & Hmin).
      { intros x Hx. eexists. apply (ao_fscore _ _ _ _ _ _ _ _ _ Hok). assumption. }
      { exact Hne0. }
      rewrite Hsel.
      destruct (pos_eqb current e) eqn:Eq.
      * apply pos_eqb_eq in Eq. subst current. right.
        destruct (rebuild_from_end astar_search grid s e parent
                    (fun x => x ∈ openSet \/ x ∈ trace) (score gScore) trace
                    Hstart (astar_tree _ _ _ _ _ _ _ _ _ Hok) (or_introl Hco))
          as (l & Hrun & Hvalid & Hlen & Hwalk).
        exists (S (score gScore e)), (mkResult l trace true).
        split; [exact Hrun|]. split; [split; simpl; [|discriminate]|].
        -- intros x Hx. eexists. eauto.
        -- intros _ x Hx. simpl in *. exists (score gScore x). split; [eauto|].
           pose proof (ao_mono _ _ _ _ _ _ _ _ _ Hok x e Hx Hco) as Hf.
           unfold fval in Hf. rewrite hn_end in Hf. unfold hn in Hf.
           pose proof (heuristic_nonneg x e). rewrite Hlen. lia.
      * apply pos_eqb_neq in Eq.
        rewrite (getNeighbors_rect _ cols) by assumption.
        destruct (astar_step grid cols s e Hrect Hstart Hend _ _ _ _ _ _ _ Hok Hco Hmin Eq)
          as (os & gs & fs & ps & Hfold & Hok').
        rewrite Hfold. left. simpl.
        split; [reflexivity|]. split; [reflexivity|]. split; [reflexivity|]. exact Hok'.
  - simpl. split; [reflexivity|]. split; [reflexivity|]. split; [reflexivity|].
    eapply astar_init; eauto.
Qed.

End ExploreScores.

(** ** The second copy of the greedy strategy *)

Lemma lowest_heuristic_fold end_ l :
  forall o v,
    (o = None /\ v = Infinity) \/ (exists c, o = Some c /\ v = Fin (heuristic c end_)) ->
    match fst (fold_left (Part002.lowest_body end_) l (o, v)) with
    | None => o = None /\ l = []
    | Some c =>
        (o = Some c \/ c ∈ l) /\
        (forall x, x ∈ l -> heuristic c end_ <= heuristic x end_) /\
        (forall c0, o = Some c0 -> heuristic c end_ <= heuristic c0 end_)
    end.
Proof.
  induction l as [|a l IH]; intros o v Hacc; cbn [fold_left].
  - simpl. destruct o as [c|].
    + split; [auto|]. split.
      * intros x Hx. apply elem_of_nil in Hx. contradiction.
      * intros c0 [= ->]. lia.
    + auto.
  - unfold Part002.lowest_body at 2. cbn [snd].
    destruct Hacc as [[-> ->] | (c0 & -> & ->)].
    + cbn [num_lt].
      specialize (IH (Some a) (Fin (heuristic a end_)) (or_intror (ex_intro _ a (conj eq_refl eq_refl)))).
      destruct (fst (fold_left _ l _)) as [c|]; [|destruct IH; discriminate].
      destruct IH as (Hc & Hmin & Hle).
      split; [right|split; [|intros ? [=]]].
      * destruct Hc as [[= <-]|Hc]; [left | right; exact Hc].
      * intros x Hx. apply elem_of_cons in Hx as [->|Hx]; [apply Hle; reflexivity | auto].
    + cbn [num_lt]. destruct (heuristic a end_ <? heuristic c0 end_) eqn:E.
      * apply Z.ltb_lt in E.
        specialize (IH (Some a) (Fin (heuristic a end_))
                      (or_intror (ex_intro _ a (conj eq_refl eq_refl)))).
        destruct (fst (fold_left _ l _)) as [c|]; [|destruct IH; discriminate].
        destruct IH as (Hc & Hmin & Hle). specialize (Hle a eq_refl).
        split; [right|split].
        -- destruct Hc as [[= <-]|Hc]; [left | right; exact Hc].
        -- intros x Hx. apply elem_of_cons in Hx as [->|Hx]; auto.
        -- intros c1 [= <-]. lia.
      * apply Z.ltb_ge in E.
        specialize (IH (Some c0) (Fin (heuristic c0 end_))
                      (or_intror (ex_intro _ c0 (conj eq_refl eq_refl)))).
        destruct (fst (fold_left _ l _)) as [c|]; [|destruct IH; discriminate].
        destruct IH as (Hc & Hmin & Hle). specialize (Hle c0 eq_refl).
        split; [|split].
        -- destruct Hc as [Hc|Hc]; [left; exact Hc | right; right; exact Hc].
        -- intros x Hx. apply elem_of_cons in Hx as [->|Hx]; [lia | auto].
        -- intros c1 [= <-]. exact Hle.
Qed.

Lemma lowest_heuristic_spec openSet end_ :
  openSet <> [] ->
  exists c, Part002.lowest_heuristic openSet end_ = Some c /\ c ∈ openSet /\
            forall x, x ∈ openSet -> heuristic c end_ <= heuristic x end_.
Proof.
  intros Hne. unfold Part002.lowest_heuristic.
  pose proof (lowest_heuristic_fold end_ openSet None Infinity (or_introl (conj eq_refl eq_refl)))
    as H.
  destruct (fst (fold_left _ openSet _)) as [c|].
  - destruct H as ([H|H] & Hmin & _); [discriminate|]. eauto.
  - destruct H as [_ H]. contradiction.
Qed.

(** The neighbor loop pushes what [discover] pushes, when the positions
    seen are the closed and the open ones. *)
Lemma greedy_relax_discover closedSet current ns :
  forall F (seen : gset Position) (parent : gmap Position Position),
  (forall x, x ∈ seen <-> x ∈ closedSet \/ x ∈ F) ->
  fold_left (Part002.greedy_relax closedSet current) ns (F, parent) =
  (fst (fst (fold_left (discover current) ns (F, seen, parent))),
   snd (fold_left (discover current) ns (F, seen, parent))).
Proof.
  induction ns as [|n ns IH]; intros F seen parent Hseen; cbn [fold_left].
  - reflexivity.
  - unfold Part002.greedy_relax at 2, discover at 2 4.
    destruct (decide (n ∈ seen)) as [Hin|Hout].
    + apply Hseen in Hin.
      destruct (decide (n ∈ closedSet)) as [Hc|Hc]; [apply IH; exact Hseen|].
      destruct Hin as [Hin|Hin]; [contradiction|].
      rewrite bool_decide_eq_true_2 by exact Hin. cbn [negb]. apply IH; exact Hseen.
    + assert (Hc : n ∉ closedSet) by (intros H; apply Hout, Hseen; auto).
      assert (HF : n ∉ F) by (intros H; apply Hout, Hseen; auto).
      rewrite decide_False by exact Hc.
      rewrite bool_decide_eq_false_2 by exact HF. cbn [negb].
      apply IH. intros x. rewrite elem_of_union, elem_of_singleton, elem_of_app,
        list_elem_of_singleton, Hseen. tauto.
Qed.

Lemma filter_ne_Permutation (l : list Position) c :
  NoDup l -> c ∈ l -> l ≡ₚ c :: filter (fun k => k <> c) l.
Proof.
  intros Hnd Hc. apply NoDup_Permutation; [exact Hnd| |].
  - apply NoDup_cons. split; [|apply NoDup_filter; exact Hnd].
    rewrite list_elem_of_filter. tauto.
  - intros x. rewrite elem_of_cons, list_elem_of_filter.
    destruct (decide (x = c)) as [->|]; tauto.
Qed.

Section Part002Total.

Context (grid : Grid) (cols : nat) (s e : Position).
Hypothesis Hrect : rect grid cols.
Hypothesis Hstart : kind_is grid T_start s.
Hypothesis Hend : kind_is grid T_end e.

Definition greedy2_inv (m : machine Part002.greedy_state) : Prop :=
  match m with
  | Searching st =>
      Part002.gr_grid st = grid /\ Part002.gr_start st = s /\ Part002.gr_end st = e /\
      (forall x, x ∈ Part002.gr_closedSet st <-> x ∈ Part002.gr_visitedPositions st) /\
      exists d seen,
        frontier_inv grid s e d (Part002.gr_openSet st) seen (Part002.gr_parent st)
          (Part002.gr_visitedPositions st)
  | Rebuilding _ => False
  end.

Definition greedy2_measure (m : machine Part002.greedy_state) : nat :=
  match m with
  | Searching st => remaining grid (Part002.gr_visitedPositions st)
  | Rebuilding _ => 0%nat
  end.

Lemma greedy2_total :
  exists fuel r,
    run (machine_step Part002.greedy_search) fuel
      (Searching (Part002.mkGreedy grid s e [s] ∅ ∅ [])) = Returned r /\
    sound_result grid s e r /\ explored_result grid s r /\
    (success r = true -> e ∉ visited r).
Proof.
  apply (run_total _ greedy2_inv greedy2_measure).
  - intros [st|r] Hinv; [|contradiction]. simpl in Hinv.
    destruct st as [g s0 e0 openSet closedSet parent trace].
    destruct Hinv as (Hg & Hs0 & He0 & Hclosed & d & seen & Hfi). simpl in *. subst g s0 e0.
    destruct (decide (openSet = [])) as [->|Hne0].
    + unfold Part002.greedy_search; simpl.
      split; [eapply frontier_exhausted; eauto|].
      split; [eapply frontier_exhausted_explored; eauto | discriminate].
    + destruct (lowest_heuristic_spec openSet e Hne0) as (current & Hsel & Hco & _).
      unfold Part002.greedy_search; simpl.
      destruct openSet as [|o l] eqn:Eo; [contradiction|]. rewrite <- Eo in *.
      rewrite Hsel.
      pose proof Hfi as [Hnd Hseen Hs Htree Hend' Hcl Hcells Hhead].
      destruct (pos_eqb current e) eqn:Eq.
      * apply pos_eqb_eq in Eq. subst current. right.
        assert (Hes : e ∈ seen) by (apply Hseen; auto).
        destruct (rebuild_from_end Part002.greedy_search grid s e parent
                    (fun x => x ∈ seen) d trace Hstart Htree Hes)
          as (p & Hrun & Hvalid & _).
        exists (S (d e)), (mkResult p trace true).
        split; [exact Hrun|]. split; [|split; [split|]]; simpl.
        -- split; [|split; [|split]]; simpl.
           ++ apply NoDup_app in Hnd as (Hnt & _). exact Hnt.
           ++ destruct Hhead as [[_ HFs] | [t ->]]; [|reflexivity].
              rewrite HFs in Hco. apply list_elem_of_singleton in Hco.
              exfalso. apply (start_neq_end grid s e Hstart Hend). congruence.
           ++ intros _. exact Hvalid.
           ++ discriminate.
        -- intros x Hx. exists (d x). eapply frontier_reachable; eauto.
           apply Hseen. auto.
        -- discriminate.
        -- intros _. exact Hend'.
      * apply pos_eqb_neq in Eq.
        rewrite (getNeighbors_rect _ cols) by assumption.
        assert (Hndo : NoDup openSet) by (apply NoDup_app in Hnd as (_ & _ & H); exact H).
        pose proof (filter_ne_Permutation openSet current Hndo Hco) as Hperm.
        destruct (frontier_step _ _ _ _ _ _ _ _ _ _ Hfi Hperm Eq)
          as (new & parent' & Hfold & _ & Hfi').
        rewrite (greedy_relax_discover _ current (neighbors grid current) _ seen).
        -- rewrite Hfold. cbn [fst snd]. left. split.
           ++ simpl. split; [reflexivity|]. split; [reflexivity|]. split; [reflexivity|].
              split; [|eauto].
              intros x. rewrite elem_of_union, elem_of_singleton, elem_of_app,
                list_elem_of_singleton, Hclosed. tauto.
           ++ simpl. eapply frontier_measure; eauto.
        -- intros x. rewrite Hseen, elem_of_union, elem_of_singleton, Hclosed,
             list_elem_of_filter.
           destruct (decide (x = current)) as [->|]; tauto.
  - simpl. split; [reflexivity|]. split; [reflexivity|]. split; [reflexivity|].
    split; [intros x; rewrite elem_of_nil; set_solver|].
    exists (fun _ => 0%nat), {[s]}. apply frontier_init; assumption.
Qed.

End Part002Total.

(** ** The strategies on a well-formed grid *)

Lemma search_explores grid s e a fuel r :
  wf_grid grid -> kind_is grid T_start s -> kind_is grid T_end e -> a <> Greedy ->
  search a fuel grid = Returned r -> explored_result grid s r.
Proof.
  intros Hwf Hs He Ha.
  destruct (wf_grid_rect grid Hwf) as (row0 & rows & _ & Hr).
  destruct a; simpl; try contradiction.
  - unfold bfs. rewrite (findStartAndEnd_found grid s e Hwf Hs He). simpl.
    intros H. eapply bfs_explores; eauto.
  - unfold dfs. rewrite (findStartAndEnd_found grid s e Hwf Hs He). simpl.
    intros H. eapply dfs_explores; eauto.
  - unfold dijkstra. rewrite (findStartAndEnd_found grid s e Hwf Hs He). simpl.
    intros H. eapply dijkstra_explores; eauto.
  - unfold aStar. rewrite (findStartAndEnd_found grid s e Hwf Hs He). simpl.
    intros H. eapply astar_explores; eauto.
Qed.

(** X5.  On a well-formed grid with a start and an end, each of [bfs],
    [dfs], [dijkstra] and [aStar] returns; it reports success exactly when
    the end is reachable from the start; it visits only positions that are
    reachable from the start; and when it fails it has visited every
    reachable position. *)
Theorem search_explores_reachable grid s e a :
  wf_grid grid -> kind_is grid T_start s -> kind_is grid T_end e -> a <> Greedy ->
  exists fuel r,
    search a fuel grid = Returned r /\
    (success r = true <-> reachable grid s e) /\
    (forall x, x ∈ visited r -> reachable grid s x) /\
    (success r = false -> forall x, reachable grid s x -> x ∈ visited r).
Proof.
  intros Hwf Hs He Ha.
  destruct (search_returns grid s e Hwf Hs He a Ha) as (fuel & r & Hrun).
  exists fuel, r. split; [exact Hrun|].
  destruct (search_sound grid s e Hwf Hs He a fuel r Hrun) as (_ & _ & Hok & Hfail).
  destruct (search_explores grid s e a fuel r Hwf Hs He Ha Hrun) as [Hin Hall].
  split; [|split; assumption].
  split.
  - intros Hsucc. eexists. apply valid_walk_reachable. apply Hok. exact Hsucc.
  - intros Hreach. destruct (success r); [reflexivity|].
    destruct (Hfail eq_refl) as [_ Hn]. contradiction.
Qed.

Lemma search_explores_reachable_witness :
  wf_grid grid_enclosed /\
  kind_is grid_enclosed T_start (mkPos 1 1) /\ kind_is grid_enclosed T_end (mkPos 2 2) /\
  DFS <> Greedy /\
  exists fuel r,
    search DFS fuel grid_enclosed = Returned r /\
    (success r = true <-> reachable grid_enclosed (mkPos 1 1) (mkPos 2 2)) /\
    (forall x, x ∈ visited r -> reachable grid_enclosed (mkPos 1 1) x) /\
    (success r = false ->
       forall x, reachable grid_enclosed (mkPos 1 1) x -> x ∈ visited r).
Proof.
  split; [apply wf_gridb_ok; reflexivity|].
  split; [eexists; split; reflexivity|].
  split; [eexists; split; reflexivity|].
  split; [discriminate|].
  apply (search_explores_reachable grid_enclosed (mkPos 1 1) (mkPos 2 2) DFS).
  - apply wf_gridb_ok; reflexivity.
  - eexists; split; reflexivity.
  - eexists; split; reflexivity.
  - discriminate.
Defined.

Lemma sorted_lookup {A} (R : A -> A -> Prop) (l : list A) i j x y :
  StronglySorted R l -> (i < j)%nat -> l !! i = Some x -> l !! j = Some y -> R x y.
Proof.
  intros Hs Hij Hi Hj.
  rewrite <- (take_drop j l) in Hs.
  eapply StronglySorted_app_1_elem_of; [exact Hs| |].
  - apply list_elem_of_lookup. exists i. rewrite lookup_take_lt by exact Hij. exact Hi.
  - apply list_elem_of_lookup. exists 0%nat. rewrite lookup_drop, Nat.add_0_r. exact Hj.
Qed.

(** X6.  [bfs] and [dijkstra] visit the positions in the order of their
    distance from the start: on a well-formed grid they return, and of two
    positions of the visited sequence the earlier one is at most as far
    from the start (in moves of a shortest walk) as the later one. *)
Theorem visited_in_distance_order grid s e a :
  wf_grid grid -> kind_is grid T_start s -> kind_is grid T_end e ->
  a = BFS \/ a = Dijkstra ->
  exists fuel r,
    search a fuel grid = Returned r /\
    forall i j x y, (i <= j)%nat -> visited r !! i = Some x -> visited r !! j = Some y ->
      exists n m, distance grid s x n /\ distance grid s y m /\ (n <= m)%nat.
Proof.
  intros Hwf Hs He Ha.
  assert (Hng : a <> Greedy) by (destruct Ha; subst; discriminate).
  destruct (search_returns grid s e Hwf Hs He a Hng) as (fuel & r & Hrun).
  exists fuel, r. split; [exact Hrun|].
  assert (Hord : ordered_result grid s r).
  { destruct (wf_grid_rect grid Hwf) as (row0 & rows & _ & Hr).
    destruct Ha; subst a; simpl in Hrun.
    - unfold bfs in Hrun. rewrite (findStartAndEnd_found grid s e Hwf Hs He) in Hrun.
      simpl in Hrun. eapply bfs_explores; eauto.
    - unfold dijkstra in Hrun. rewrite (findStartAndEnd_found grid s e Hwf Hs He) in Hrun.
      simpl in Hrun. eapply dijkstra_explores; eauto. }
  destruct Hord as (d & Hd & Hsorted).
  intros i j x y Hij Hi Hj. exists (d x), (d y).
  split; [apply Hd; eapply list_elem_of_lookup_2; eauto|].
  split; [apply Hd; eapply list_elem_of_lookup_2; eauto|].
  destruct (decide (i = j)) as [->|Hne].
  - rewrite Hi in Hj. injection Hj as ->. lia.
  - apply (sorted_lookup _ _ i j x y Hsorted); [lia|assumption..].
Qed.

Lemma visited_in_distance_order_witness :
  wf_grid grid_detour /\
  kind_is grid_detour T_start (mkPos 0 0) /\ kind_is grid_detour T_end (mkPos 0 2) /\
  (BFS = BFS \/ BFS = Dijkstra) /\
  exists fuel r,
    search BFS fuel grid_detour = Returned r /\
    forall i j x y, (i <= j)%nat -> visited r !! i = Some x -> visited r !! j = Some y ->
      exists n m, distance grid_detour (mkPos 0 0) x n /\
                  distance grid_detour (mkPos 0 0) y m /\ (n <= m)%nat.
Proof.
  split; [apply wf_gridb_ok; reflexivity|].
  split; [eexists; split; reflexivity|].
  split; [eexists; split; reflexivity|].
  split; [left; reflexivity|].
  apply (visited_in_distance_order grid_detour (mkPos 0 0) (mkPos 0 2) BFS).
  - apply wf_gridb_ok; reflexivity.
  - eexists; split; reflexivity.
  - eexists; split; reflexivity.
  - left; reflexivity.
Defined.

(** X7.  [aStar] expands only positions that may lie on a shortest path: of
    every position in the visited sequence of a successful result, some
    walk from the start reaches it in a number of moves that, added to its
    heuristic value, stays below the number of positions of the returned
    path. *)
Theorem aStar_expands_within_bound grid s e :
  wf_grid grid -> kind_is grid T_start s -> kind_is grid T_end e ->
  (exists fuel r, aStar fuel grid = Returned r) /\
  forall fuel r, aStar fuel grid = Returned r -> success r = true ->
    forall x, x ∈ visited r ->
      exists n, walk grid s x n /\
                Z.of_nat n + heuristic x e < Z.of_nat (length (path r)).
Proof.
  intros Hwf Hs He.
  destruct (aStar_correct grid s e Hwf Hs He) as (fuel0 & r0 & Hrun0 & _).
  split; [eauto|].
  intros fuel r Hrun.
  destruct (wf_grid_rect grid Hwf) as (row0 & rows & _ & Hr).
  unfold aStar in Hrun. rewrite (findStartAndEnd_found grid s e Hwf Hs He) in Hrun.
  simpl in Hrun.
  destruct (astar_explores grid (length row0) s e Hr Hs He fuel r Hrun) as [_ Hf].
  exact Hf.
Qed.

Lemma aStar_expands_within_bound_witness :
  wf_grid grid3x3 /\
  kind_is grid3x3 T_start (mkPos 0 0) /\ kind_is grid3x3 T_end (mkPos 2 2) /\
  (exists fuel r, aStar fuel grid3x3 = Returned r) /\
  forall fuel r, aStar fuel grid3x3 = Returned r -> success r = true ->
    forall x, x ∈ visited r ->
      exists n, walk grid3x3 (mkPos 0 0) x n /\
                Z.of_nat n + heuristic x (mkPos 2 2) < Z.of_nat (length (path r)).
Proof.
  split; [apply wf_gridb_ok; reflexivity|].
  split; [eexists; split; reflexivity|].
  split; [eexists; split; reflexivity|].
  apply (aStar_expands_within_bound grid3x3 (mkPos 0 0) (mkPos 2 2)).
  - apply wf_gridb_ok; reflexivity.
  - eexists; split; reflexivity.
  - eexists; split; reflexivity.
Defined.

(** X8.  The second copy of [greedyBestFirst] terminates on every
    well-formed grid with a start and an end: it returns a result without
    duplicates in the visited sequence, it succeeds exactly when the end is
    reachable, a success carries a valid walk and does not list the end as
    visited, and a failure has an empty path and has visited every
    reachable position. *)
Theorem second_greedyBestFirst_total grid s e :
  wf_grid grid -> kind_is grid T_start s -> kind_is grid T_end e ->
  exists fuel r,
    Part002.greedyBestFirst fuel grid = Returned r /\
    NoDup (visited r) /\ head (visited r) = Some s /\
    (success r = true <-> reachable grid s e) /\
    (success r = true -> valid_walk grid s e (path r) /\ e ∉ visited r) /\
    (success r = false ->
       path r = [] /\ forall x, reachable grid s x -> x ∈ visited r).
Proof.
  intros Hwf Hs He.
  destruct (wf_grid_rect grid Hwf) as (row0 & rows & _ & Hr).
  destruct (greedy2_total grid (length row0) s e Hr Hs He)
    as (fuel & r & Hrun & (Hnd & Hhd & Hok & Hfail) & [_ Hall] & Hend).
  exists fuel, r.
  split.
  { unfold Part002.greedyBestFirst.
    rewrite (findStartAndEnd_found grid s e Hwf Hs He). exact Hrun. }
  split; [exact Hnd|]. split; [exact Hhd|]. split; [|split].
  - split.
    + intros Hsucc. eexists. apply valid_walk_reachable. apply Hok. exact Hsucc.
    + intros Hreach. destruct (success r); [reflexivity|].
      destruct (Hfail eq_refl) as [_ Hn]. contradiction.
  - intros Hsucc. split; auto.
  - intros Hf. split; [apply Hfail; exact Hf | apply Hall; exact Hf].
Qed.

Lemma second_greedyBestFirst_total_witness :
  wf_grid grid1x4 /\
  kind_is grid1x4 T_start (mkPos 0 0) /\ kind_is grid1x4 T_end (mkPos 0 3) /\
  exists fuel r,
    Part002.greedyBestFirst fuel grid1x4 = Returned r /\
    NoDup (visited r) /\ head (visited r) = Some (mkPos 0 0) /\
    (success r = true <-> reachable grid1x4 (mkPos 0 0) (mkPos 0 3)) /\
    (success r = true ->
       valid_walk grid1x4 (mkPos 0 0) (mkPos 0 3) (path r) /\ mkPos 0 3 ∉ visited r) /\
    (success r = false ->
       path r = [] /\ forall x, reachable grid1x4 (mkPos 0 0) x -> x ∈ visited r).
Proof.
  split; [apply wf_gridb_ok; reflexivity|].
  split; [eexists; split; reflexivity|].
  split; [eexists; split; reflexivity|].
  apply (second_greedyBestFirst_total grid1x4 (mkPos 0 0) (mkPos 0 3)).
  - apply wf_gridb_ok; reflexivity.
  - eexists; split; reflexivity.
  - eexists; split; reflexivity.
Defined.

(** ** Grids of any shape *)

(** X9.  [bfs], [dfs], [dijkstra] and [aStar] never throw on a grid that
    lacks a start or an end, whatever its shape, the empty grid and grids
    with rows of different lengths included: they return the empty failure
    without running their loop. *)
Theorem four_strategies_missing_any_shape grid a fuel :
  a <> Greedy ->
  (forall p, ~ kind_is grid T_start p) \/ (forall p, ~ kind_is grid T_end p) ->
  search a fuel grid = Returned (mkResult [] [] false).
Proof.
  intros Ha Hno.
  assert (Hse : se_start (findStartAndEnd grid) = None \/ se_end (findStartAndEnd grid) = None).
  { destruct Hno as [H|H]; [left | right].
    - apply (not_located grid T_start); auto.
    - apply (not_located grid T_end); auto. }
  destruct a; simpl; try contradiction.
  - unfold bfs. destruct Hse as [-> | ->]; [reflexivity|]. destruct (se_start _); reflexivity.
  - unfold dfs. destruct Hse as [-> | ->]; [reflexivity|]. destruct (se_start _); reflexivity.
  - unfold dijkstra. destruct Hse as [-> | ->]; [reflexivity|]. destruct (se_start _); reflexivity.
  - unfold aStar. destruct Hse as [-> | ->]; [reflexivity|]. destruct (se_start _); reflexivity.
Qed.

Lemma four_strategies_missing_any_shape_witness :
  search Dijkstra 0 [] = Returned (mkResult [] [] false).
Proof.
  apply (four_strategies_missing_any_shape [] Dijkstra 0%nat).
  - discriminate.
  - left. intros p (c & Hc & _). unfold cellOf, cellAt in Hc.
    destruct ((row p <? 0) || (col p <? 0)); discriminate.
Defined.

Lemma greedy_locate_row_short grid i js acc j :
  j ∈ js -> cellAt grid i (Z.of_nat j) = None ->
  greedy_locate_row grid i js acc = None.
Proof.
  revert acc. induction js as [|j0 js IH]; intros acc Hj Hc.
  - apply elem_of_nil in Hj. contradiction.
  - cbn [greedy_locate_row]. apply elem_of_cons in Hj as [<-|Hj].
    + rewrite Hc. reflexivity.
    + destruct (cellAt grid i (Z.of_nat j0)); [|reflexivity]. apply IH; assumption.
Qed.

Lemma greedy_locate_rows_short grid rs cols acc i j :
  i ∈ rs -> (j < cols)%nat -> cellAt grid (Z.of_nat i) (Z.of_nat j) = None ->
  greedy_locate_rows grid rs cols acc = None.
Proof.
  revert acc. induction rs as [|i0 rs IH]; intros acc Hi Hj Hc.
  - apply elem_of_nil in Hi. contradiction.
  - cbn [greedy_locate_rows]. apply elem_of_cons in Hi as [<-|Hi].
    + rewrite (greedy_locate_row_short grid (Z.of_nat i) (seq 0 cols) acc j); auto.
      apply elem_of_seq. lia.
    + destruct (greedy_locate_row grid (Z.of_nat i0) (seq 0 cols) acc); [|reflexivity].
      apply IH; assumption.
Qed.

(** X10.  [greedyBestFirst] reads the width of the first row before
    anything else and scans every row up to that width: it throws on the
    empty grid, and on every grid that has a row shorter than the first
    one. *)
Theorem greedyBestFirst_throws grid fuel :
  grid = [] \/
  (exists row0 i cells,
     head grid = Some row0 /\ grid !! i = Some cells /\ (length cells < length row0)%nat) ->
  greedyBestFirst fuel grid = Threw.
Proof.
  intros [-> | (row0 & i & cells & Hhd & Hi & Hlen)]; [reflexivity|].
  destruct grid as [|r0 rest]; [discriminate|]. injection Hhd as ->.
  unfold greedyBestFirst, greedy_locate.
  rewrite (greedy_locate_rows_short (row0 :: rest) _ (length row0) _ i (length cells)).
  - reflexivity.
  - apply elem_of_seq. apply lookup_lt_Some in Hi. lia.
  - exact Hlen.
  - destruct (cellAt (row0 :: rest) (Z.of_nat i) (Z.of_nat (length cells))) as [c|] eqn:E;
      [|reflexivity].
    apply cellAt_Some in E as (i' & j' & cells' & Hi' & Hj' & Hrow & Hcell).
    apply Nat2Z.inj in Hi', Hj'. subst i' j'.
    pose proof (eq_trans (eq_sym Hi) Hrow) as [= <-].
    apply lookup_lt_Some in Hcell. lia.
Qed.

Lemma greedyBestFirst_throws_witness :
  greedyBestFirst 10 grid_ragged = Threw.
Proof.
  apply (greedyBestFirst_throws grid_ragged 10). right.
  exists (mkRow 0 0 [T_start; T_empty]), 1%nat, (mkRow 1 0 [T_end]).
  split; [reflexivity|]. split; [reflexivity|]. simpl. lia.
Defined.

(** ** When the end is next to the start *)

Section GreedyAdjacent.

Context (grid : Grid) (cols : nat) (s e : Position).
Hypothesis Hrect : rect grid cols.
Hypothesis Hstart : kind_is grid T_start s.
Hypothesis Hend : kind_is grid T_end e.
Hypothesis Hadj : adjacent s e.

Lemma greedy_adjacent_run :
  run (machine_step greedy_search) 4
    (Searching (mkGreedy grid (Z.of_nat (length grid)) (Z.of_nat cols) s e
                  [s] {[s]} ∅ [] []))
  = Returned (mkResult [s; e] [s; e] true).
Proof.
  pose proof (start_neq_end grid s e Hstart Hend) as Hse.
  assert (Hedge : edge grid s e) by (split; [exact Hadj | eapply kind_end_passable; eauto]).
  (* first round: the start is expanded *)
  destruct (greedy_search_step grid cols s e Hrect
              (mkGreedy grid (Z.of_nat (length grid)) (Z.of_nat cols) s e [s] {[s]} ∅ [] []))
    as (c1 & rest1 & new1 & cf1 & Hc1 & _ & Hnd1 & Hrest1 & Hnew1 & Hmem1 & Hcf1 & _ & Hstep1).
  { repeat split. }
  { discriminate. }
  { apply NoDup_singleton. }
  simpl in Hc1, Hrest1, Hstep1. apply list_elem_of_singleton in Hc1. subst c1.
  assert (rest1 = []) as ->.
  { destruct rest1 as [|x l]; [reflexivity|]. exfalso.
    destruct (proj1 (Hrest1 x) ltac:(left)) as [Hx Hne].
    apply list_elem_of_singleton in Hx. contradiction. }
  rewrite (proj2 (pos_eqb_neq s e) Hse) in Hstep1. simpl in Hstep1.
  assert (He1 : e ∈ new1).
  { apply Hmem1. split; [exact Hedge|]. split; [congruence | apply not_elem_of_nil]. }
  rewrite (run_S_Continue (machine_step greedy_search) 3 (Searching _) _ Hstep1).
  (* second round: the end is the open position of lowest heuristic value *)
  destruct (greedy_search_step grid cols s e Hrect
              (mkGreedy grid (Z.of_nat (length grid)) (Z.of_nat cols) s e new1 {[s]} cf1 [s] []))
    as (c2 & rest2 & new2 & cf2 & Hc2 & Hmin2 & _ & _ & _ & _ & _ & _ & Hstep2).
  { repeat split. }
  { simpl. intros ->. apply elem_of_nil in He1. contradiction. }
  { exact Hnew1. }
  simpl in Hc2, Hmin2, Hstep2.
  assert (c2 = e) as ->.
  { specialize (Hmin2 e He1). unfold heuristic in Hmin2.
    destruct c2 as [r2 k2], e as [re ke]; simpl in *. f_equal; lia. }
  rewrite pos_eqb_refl in Hstep2.
  rewrite (run_S_Continue (machine_step greedy_search) 2 (Searching _) _ Hstep2).
  (* reconstruction *)
  rewrite run_rebuilding. simpl. unfold rebuild_step at 1. simpl.
  rewrite (proj2 (pos_eqb_neq e s)) by congruence. simpl.
  rewrite (Hcf1 e He1). unfold rebuild_step. simpl. rewrite pos_eqb_refl. reflexivity.
Qed.

End GreedyAdjacent.

(** X11.  When the end is next to the start, [greedyBestFirst] returns
    after four rounds of its loops: it succeeds, and both the path and the
    visited sequence are the start followed by the end. *)
Theorem greedyBestFirst_adjacent grid s e fuel :
  wf_grid grid -> kind_is grid T_start s -> kind_is grid T_end e ->
  adjacent s e -> (4 <= fuel)%nat ->
  greedyBestFirst fuel grid = Returned (mkResult [s; e] [s; e] true).
Proof.
  intros Hwf Hs He Hadj Hfuel.
  destruct (greedyBestFirst_wf grid fuel Hwf) as (cols & Hr & ->).
  rewrite (findStartAndEnd_found grid s e Hwf Hs He).
  apply (run_mono _ 4); [|exact Hfuel].
  apply (greedy_adjacent_run grid cols s e); assumption.
Qed.

Lemma greedyBestFirst_adjacent_witness :
  wf_grid grid1x2 /\
  kind_is grid1x2 T_start (mkPos 0 0) /\ kind_is grid1x2 T_end (mkPos 0 1) /\
  adjacent (mkPos 0 0) (mkPos 0 1) /\ (4 <= 7)%nat /\
  greedyBestFirst 7 grid1x2 = Returned (mkResult [mkPos 0 0; mkPos 0 1] [mkPos 0 0; mkPos 0 1] true).
Proof.
  split; [apply wf_gridb_ok; reflexivity|].
  split; [eexists; split; reflexivity|].
  split; [eexists; split; reflexivity|].
  split; [unfold adjacent; simpl; lia|].
  split; [lia|].
  apply (greedyBestFirst_adjacent grid1x2 (mkPos 0 0) (mkPos 0 1) 7).
  - apply wf_gridb_ok; reflexivity.
  - eexists; split; reflexivity.
  - eexists; split; reflexivity.
  - unfold adjacent; simpl; lia.
  - lia.
Defined.

(** * Properties of the page *)

(** ** Cells of an updated grid *)

Lemma cellAt_nonneg grid r c cell : cellAt grid r c = Some cell -> 0 <= r /\ 0 <= c.
Proof.
  intros H. apply cellAt_Some in H as (i & j & _ & -> & -> & _). lia.
Qed.

Lemma cellAt_map f grid r c : cellAt (map (map f) grid) r c = f <$> cellAt grid r c.
Proof.
  unfold cellAt, Grid in *. destruct ((r <? 0) || (c <? 0)); [reflexivity|].
  change (map (map f) grid) with (map f <$> grid). rewrite list_lookup_fmap.
  destruct (grid !! Z.to_nat r) as [cells|]; [|reflexivity]. simpl.
  change (map f cells) with (f <$> cells). apply list_lookup_fmap.
Qed.

Lemma cellAt_set_type t r c grid r' c' :
  0 <= r -> 0 <= c ->
  cellAt (set_type t r c grid) r' c' =
  if decide (r' = r /\ c' = c) then with_type t <$> cellAt grid r' c' else cellAt grid r' c'.
Proof.
  intros Hr Hc. unfold cellAt, set_type, Grid in *.
  destruct ((r' <? 0) || (c' <? 0)) eqn:Eg.
  { destruct (decide _); reflexivity. }
  apply orb_false_iff in Eg as [Hr' Hc']. apply Z.ltb_ge in Hr', Hc'.
  rewrite list_lookup_alter.
  destruct (decide (Z.to_nat r = Z.to_nat r')) as [Er|Er].
  - assert (r' = r) as -> by lia.
    destruct (grid !! Z.to_nat r) as [cells|]; simpl.
    + rewrite list_lookup_alter.
      destruct (decide (Z.to_nat c = Z.to_nat c')) as [Ec|Ec].
      * assert (c' = c) as -> by lia. rewrite decide_True by auto. reflexivity.
      * rewrite decide_False by (intros [_ ->]; congruence). reflexivity.
    + destruct (decide _); reflexivity.
  - rewrite decide_False by (intros [-> _]; congruence). reflexivity.
Qed.

Lemma length_set_type t r c grid : length (set_type t r c grid) = length grid.
Proof. unfold set_type. apply length_alter. Qed.

Lemma rect_set_type t r c grid cols : rect grid cols -> rect (set_type t r c grid) cols.
Proof.
  unfold rect, set_type. intros H. apply Forall_alter; [exact H|].
  intros cells _ Hlen. rewrite length_alter. exact Hlen.
Qed.

Lemma rect_map f grid cols : rect grid cols -> rect (map (map f) grid) cols.
Proof.
  unfold rect. intros H. apply Forall_forall. intros cells Hin.
  apply list_elem_of_In, in_map_iff in Hin as (cells0 & <- & Hin0).
  rewrite length_map. rewrite Forall_forall in H. apply H, list_elem_of_In, Hin0.
Qed.

(** Two grids with as many rows and the same cell at every coordinate are
    the same grid. *)
Lemma grid_ext (g g' : Grid) :
  length g = length g' -> (forall r c, cellAt g r c = cellAt g' r c) -> g = g'.
Proof.
  intros Hlen Hcell. unfold Grid in *. apply list_eq. intros i.
  destruct (g !! i) as [cells|] eqn:E, (g' !! i) as [cells'|] eqn:E'.
  - f_equal. apply list_eq. intros j.
    specialize (Hcell (Z.of_nat i) (Z.of_nat j)). unfold cellAt, Grid in Hcell.
    replace ((Z.of_nat i <? 0) || (Z.of_nat j <? 0)) with false in Hcell
      by (symmetry; apply orb_false_iff; split; apply Z.ltb_ge; lia).
    rewrite !Nat2Z.id, E, E' in Hcell. exact Hcell.
  - apply lookup_lt_Some in E. apply lookup_ge_None in E'. lia.
  - apply lookup_ge_None in E. apply lookup_lt_Some in E'. lia.
  - reflexivity.
Qed.

Lemma cellAt_initGrid n r c :
  cellAt (initGrid n) r c =
  if decide (0 <= r < Z.of_nat n /\ 0 <= c < Z.of_nat n)
  then Some (mkCell T_empty r c) else None.
Proof.
  unfold cellAt, initGrid, Grid in *.
  destruct ((r <? 0) || (c <? 0)) eqn:Eg.
  { apply orb_true_iff in Eg. rewrite decide_False; [reflexivity|].
    intros [H1 H2]. destruct Eg as [H|H]; apply Z.ltb_lt in H; lia. }
  apply orb_false_iff in Eg as [Hr Hc]. apply Z.ltb_ge in Hr, Hc.
  match goal with |- context [map ?f (seq 0 n) !! Z.to_nat r] =>
    change (map f (seq 0 n)) with (f <$> seq 0 n) end.
  rewrite list_lookup_fmap.
  destruct (decide (Z.to_nat r < n)%nat) as [Hrn|Hrn].
  - rewrite lookup_seq_lt by exact Hrn. simpl.
    match goal with |- context [map ?f (seq 0 n) !! Z.to_nat c] =>
      change (map f (seq 0 n)) with (f <$> seq 0 n) end.
    rewrite list_lookup_fmap.
    destruct (decide (Z.to_nat c < n)%nat) as [Hcn|Hcn].
    + rewrite lookup_seq_lt by exact Hcn. simpl.
      rewrite decide_True by lia. rewrite !Z2Nat.id by lia. reflexivity.
    + rewrite lookup_seq_ge by lia. simpl. rewrite decide_False by lia. reflexivity.
  - rewrite lookup_seq_ge by lia. simpl. rewrite decide_False by lia. reflexivity.
Qed.

Lemma length_initGrid n : length (initGrid n) = n.
Proof. unfold initGrid. rewrite length_map, length_seq. reflexivity. Qed.

Lemma rect_initGrid n : rect (initGrid n) n.
Proof.
  unfold rect, initGrid. apply Forall_forall. intros cells Hin.
  apply list_elem_of_In, in_map_iff in Hin as (i & <- & _).
  rewrite length_map, length_seq. reflexivity.
Qed.

(** ** At most one start and one end *)

Definition at_most_one (t : CellType) (grid : Grid) : Prop :=
  forall p q, kind_is grid t p -> kind_is grid t q -> p = q.

Lemma sorted_filter {A} (R : A -> A -> Prop) (P : A -> Prop) `{forall x, Decision (P x)}
    (l : list A) :
  StronglySorted R l -> StronglySorted R (filter P l).
Proof.
  induction 1 as [|a l Hs IH Hall]; [constructor|].
  rewrite filter_cons. destruct (decide (P a)); [|exact IH].
  constructor; [exact IH|].
  apply Forall_forall. intros x Hx. apply list_elem_of_filter in Hx as [_ Hx].
  rewrite Forall_forall in Hall. auto.
Qed.

Lemma at_most_one_count t grid : at_most_one t grid -> (count_type t grid <= 1)%nat.
Proof.
  intros Huniq. unfold count_type.
  pose proof (sorted_filter entry_lt (fun e => cell_type (snd e) = t) (grid_entries grid)
                (grid_entries_from_sorted 0 grid)) as Hs.
  destruct (filter _ (grid_entries grid)) as [|[p1 c1] [|[p2 c2] l]] eqn:E;
    [simpl; lia | simpl; lia |].
  exfalso.
  assert (H1 : (p1, c1) ∈ filter (fun e => cell_type (snd e) = t) (grid_entries grid))
    by (rewrite E; left).
  assert (H2 : (p2, c2) ∈ filter (fun e => cell_type (snd e) = t) (grid_entries grid))
    by (rewrite E; right; left).
  apply list_elem_of_filter in H1 as [Ht1 Hin1], H2 as [Ht2 Hin2]. simpl in Ht1, Ht2.
  apply grid_entries_elem in Hin1, Hin2.
  assert (p1 = p2) by (apply Huniq; eexists; eauto). subst p2.
  apply StronglySorted_cons in Hs as [Hall _].
  apply Forall_cons in Hall as [Hlt _].
  exact (row_major_lt_irrefl p1 Hlt).
Qed.

Lemma some_type_spec t grid :
  some_type t grid = true <-> exists p, kind_is grid t p.
Proof.
  unfold some_type. rewrite existsb_exists. split.
  - intros (cells & Hin & Hex). apply existsb_exists in Hex as (cell & Hin' & Ht).
    apply bool_decide_eq_true in Ht.
    apply list_elem_of_In, list_elem_of_lookup in Hin as [i Hi].
    apply list_elem_of_In, list_elem_of_lookup in Hin' as [j Hj].
    exists (mkPos (Z.of_nat i) (Z.of_nat j)), cell. split; [|exact Ht].
    apply cellAt_Some. exists i, j, cells. auto.
  - intros (p & cell & Hc & Ht).
    apply cellAt_Some in Hc as (i & j & cells & _ & _ & Hi & Hj).
    exists cells. split; [eapply list_elem_of_In, list_elem_of_lookup_2; eauto|].
    apply existsb_exists. exists cell.
    split; [eapply list_elem_of_In, list_elem_of_lookup_2; eauto|].
    apply bool_decide_eq_true. exact Ht.
Qed.

Lemma kind_is_set_type t r c grid k p :
  0 <= r -> 0 <= c ->
  kind_is (set_type t r c grid) k p ->
  (p = mkPos r c /\ t = k) \/ (p <> mkPos r c /\ kind_is grid k p).
Proof.
  intros Hr Hc (cell & Hcell & Hk). unfold cellOf in Hcell.
  rewrite cellAt_set_type in Hcell by assumption.
  destruct (decide (row p = r /\ col p = c)) as [[<- <-]|Hne].
  - left. destruct (cellAt grid (row p) (col p)) as [c0|]; [|discriminate].
    injection Hcell as <-. simpl in Hk. split; [destruct p; reflexivity | exact Hk].
  - right. split; [intros ->; simpl in Hne; tauto|]. exists cell. auto.
Qed.

Lemma kind_is_map f grid k p :
  kind_is (map (map f) grid) k p ->
  exists cell, cellOf grid p = Some cell /\ cell_type (f cell) = k.
Proof.
  intros (cell & Hcell & Hk). unfold cellOf in Hcell. rewrite cellAt_map in Hcell.
  destruct (cellAt grid (row p) (col p)) as [c0|] eqn:E; [|discriminate].
  injection Hcell as <-. exists c0. auto.
Qed.

(** ** The grids that the page builds *)

(** Every cell carries its own coordinates. *)
Definition own_coordinates (grid : Grid) : Prop :=
  forall r c cell, cellAt grid r c = Some cell -> cell_row cell = r /\ cell_col cell = c.

(** A square grid of side [n] whose cells carry their coordinates, with at
    most one start and at most one end. *)
Definition grid_ok (n : nat) (grid : Grid) : Prop :=
  length grid = n /\ rect grid n /\ own_coordinates grid /\
  at_most_one T_start grid /\ at_most_one T_end grid.

Lemma no_kind_at_most_one t grid : (forall p, ~ kind_is grid t p) -> at_most_one t grid.
Proof. intros Hno p q Hp. destruct (Hno p Hp). Qed.

Lemma grid_ok_initGrid n : grid_ok n (initGrid n).
Proof.
  assert (Hempty : forall t p, t <> T_empty -> ~ kind_is (initGrid n) t p).
  { intros t p Ht (cell & Hc & Hk). unfold cellOf in Hc. rewrite cellAt_initGrid in Hc.
    destruct (decide _); [|discriminate]. injection Hc as <-. simpl in Hk. congruence. }
  split; [apply length_initGrid|]. split; [apply rect_initGrid|]. split; [|split].
  - intros r c cell Hc. rewrite cellAt_initGrid in Hc.
    destruct (decide _); [|discriminate]. injection Hc as <-. auto.
  - apply no_kind_at_most_one. intros p. apply Hempty. discriminate.
  - apply no_kind_at_most_one. intros p. apply Hempty. discriminate.
Qed.

Lemma grid_ok_map f n grid :
  (forall cell, cell_row (f cell) = cell_row cell /\ cell_col (f cell) = cell_col cell) ->
  (forall cell, cell_type (f cell) = T_start -> cell_type cell = T_start) ->
  (forall cell, cell_type (f cell) = T_end -> cell_type cell = T_end) ->
  grid_ok n grid -> grid_ok n (map (map f) grid).
Proof.
  intros Hrc Hs He (Hlen & Hr & Hown & H1 & H2).
  assert (Hkind : forall k, (forall cell, cell_type (f cell) = k -> cell_type cell = k) ->
            forall p, kind_is (map (map f) grid) k p -> kind_is grid k p).
  { intros k Hk p Hp. apply kind_is_map in Hp as (cell & Hc & Ht). exists cell. auto. }
  split; [rewrite length_map; exact Hlen|]. split; [apply rect_map; exact Hr|].
  split; [|split].
  - intros r c cell Hc. rewrite cellAt_map in Hc.
    destruct (cellAt grid r c) as [c0|] eqn:E; [|discriminate]. injection Hc as <-.
    destruct (Hrc c0) as [-> ->]. eapply Hown; eauto.
  - intros p q Hp Hq. apply H1; apply (Hkind T_start); auto.
  - intros p q Hp Hq. apply H2; apply (Hkind T_end); auto.
Qed.

Lemma own_coordinates_set_type t r c grid :
  0 <= r -> 0 <= c -> own_coordinates grid -> own_coordinates (set_type t r c grid).
Proof.
  intros Hr Hc Hown r' c' cell Hcell. rewrite cellAt_set_type in Hcell by assumption.
  destruct (decide _); [|eauto].
  destruct (cellAt grid r' c') as [c0|] eqn:E; [|discriminate]. injection Hcell as <-.
  simpl. eauto.
Qed.

(** Writing a kind other than start and end keeps the grid in shape. *)
Lemma grid_ok_set_type t r c n grid :
  0 <= r -> 0 <= c -> t <> T_start -> t <> T_end ->
  grid_ok n grid -> grid_ok n (set_type t r c grid).
Proof.
  intros Hr Hc Hts Hte (Hlen & Hrect & Hown & H1 & H2).
  split; [rewrite length_set_type; exact Hlen|]. split; [apply rect_set_type; exact Hrect|].
  split; [apply own_coordinates_set_type; assumption|]. split.
  - intros p q Hp Hq.
    apply kind_is_set_type in Hp as [[_ Hp]|[_ Hp]]; [congruence| |assumption..].
    apply kind_is_set_type in Hq as [[_ Hq]|[_ Hq]]; [congruence| |assumption..]. auto.
  - intros p q Hp Hq.
    apply kind_is_set_type in Hp as [[_ Hp]|[_ Hp]]; [congruence| |assumption..].
    apply kind_is_set_type in Hq as [[_ Hq]|[_ Hq]]; [congruence| |assumption..]. auto.
Qed.

(** Writing a start where there is none, or an end where there is none. *)
Lemma grid_ok_set_type_fresh t r c n grid :
  0 <= r -> 0 <= c -> t = T_start \/ t = T_end ->
  (forall p, ~ kind_is grid t p) ->
  grid_ok n grid -> grid_ok n (set_type t r c grid).
Proof.
  intros Hr Hc Ht Hno (Hlen & Hrect & Hown & H1 & H2).
  assert (Hfresh : at_most_one t (set_type t r c grid)).
  { intros p q Hp Hq.
    apply kind_is_set_type in Hp as [[-> _]|[_ Hp]]; [| destruct (Hno _ Hp) |assumption..].
    apply kind_is_set_type in Hq as [[-> _]|[_ Hq]]; [| destruct (Hno _ Hq) |assumption..].
    reflexivity. }
  assert (Hother : forall k, k <> t -> at_most_one k grid ->
                     at_most_one k (set_type t r c grid)).
  { intros k Hk Hone p q Hp Hq.
    apply kind_is_set_type in Hp as [[_ Hp]|[_ Hp]]; [congruence| |assumption..].
    apply kind_is_set_type in Hq as [[_ Hq]|[_ Hq]]; [congruence| |assumption..]. auto. }
  split; [rewrite length_set_type; exact Hlen|]. split; [apply rect_set_type; exact Hrect|].
  split; [apply own_coordinates_set_type; assumption|].
  destruct Ht as [-> | ->].
  - split; [exact Hfresh | apply Hother; [discriminate | exact H2]].
  - split; [apply Hother; [discriminate | exact H1] | exact Hfresh].
Qed.

Lemma some_type_false t grid : some_type t grid = false -> forall p, ~ kind_is grid t p.
Proof.
  intros H p Hp. assert (some_type t grid = true) by (apply some_type_spec; eauto).
  congruence.
Qed.

Lemma grid_ok_click r c n grid grid' :
  handleCellClick_update r c grid = Some grid' -> grid_ok n grid -> grid_ok n grid'.
Proof.
  unfold handleCellClick_update. intros H Hok.
  destruct (cellAt grid r c) as [cell|] eqn:E; [|discriminate].
  destruct (cellAt_nonneg _ _ _ _ E) as [Hr Hc].
  destruct (bool_decide (cell_type cell = T_start) || bool_decide (cell_type cell = T_end)).
  { injection H as <-. apply grid_ok_set_type; auto; discriminate. }
  destruct (some_type T_start grid) eqn:Es; simpl in H.
  2:{ injection H as <-. apply grid_ok_set_type_fresh; auto.
      apply some_type_false. exact Es. }
  destruct (some_type T_end grid) eqn:Ee; simpl in H.
  2:{ injection H as <-. apply grid_ok_set_type_fresh; auto.
      apply some_type_false. exact Ee. }
  injection H as <-. apply grid_ok_set_type; auto;
    destruct (bool_decide (cell_type cell = T_wall)); discriminate.
Qed.

Lemma grid_ok_paint t pos n grid grid' :
  t <> T_start -> t <> T_end ->
  paint t pos grid = Some grid' -> grid_ok n grid -> grid_ok n grid'.
Proof.
  unfold paint, cellOf. intros Hts Hte H Hok.
  destruct (cellAt grid (row pos) (col pos)) as [cell|] eqn:E; [|discriminate].
  destruct (cellAt_nonneg _ _ _ _ E) as [Hr Hc].
  injection H as <-. apply grid_ok_set_type; auto.
Qed.

Lemma grid_ok_visualize_loop grid t ps n :
  t <> T_start -> t <> T_end ->
  forall cur cur', visualize_loop grid t ps cur = Some cur' -> grid_ok n cur -> grid_ok n cur'.
Proof.
  intros Hts Hte. induction ps as [|pos ps IH]; intros cur cur' H Hok; simpl in H.
  - injection H as <-. exact Hok.
  - destruct (cellOf grid pos) as [cell|]; [|discriminate].
    destruct (negb _ && negb _); [|eauto].
    destruct (paint t pos cur) as [cur1|] eqn:Ep; [|discriminate].
    eapply IH; [exact H|]. eapply grid_ok_paint; eauto.
Qed.

Lemma grid_ok_visualizeAlgorithm grid result n cur cur' :
  visualizeAlgorithm grid result cur = Some cur' -> grid_ok n cur -> grid_ok n cur'.
Proof.
  unfold visualizeAlgorithm. intros H Hok.
  destruct (negb (success result)); [injection H as <-; exact Hok|].
  destruct (visualize_loop grid T_visited (visited result) cur) as [cur1|] eqn:E1;
    [|discriminate].
  eapply (grid_ok_visualize_loop grid T_path); [discriminate..|exact H|].
  eapply (grid_ok_visualize_loop grid T_visited); [discriminate..|exact E1|exact Hok].
Qed.

Definition page_ok (pg : Page) : Prop :=
  grid_ok (pg_gridSize pg) (pg_grid pg) /\ pg_isRunning pg = false.

Lemma page_ok_click r c pg pg' :
  handleCellClick r c pg = Some pg' -> page_ok pg -> page_ok pg'.
Proof.
  unfold handleCellClick. intros H [Hok Hrun]. rewrite Hrun in H.
  destruct (handleCellClick_update r c (pg_grid pg)) as [g|] eqn:E; [|discriminate].
  injection H as <-. split; [|exact Hrun]. simpl. eapply grid_ok_click; eauto.
Qed.

Lemma page_state_ok pg : page_state pg -> page_ok pg.
Proof.
  induction 1 as [|n pg _ IH|a pg _ IH|pg _ IH|pg _ IH|r c pg pg' _ IH H|r c pg pg' _ IH H
                  |pg _ IH|fuel pg pg' _ IH H].
  - split; [apply grid_ok_initGrid | reflexivity].
  - unfold setGridSize. destruct (decide _); [exact IH|].
    destruct IH as [_ Hrun]. split; [apply grid_ok_initGrid | exact Hrun].
  - exact IH.
  - unfold clearGrid. destruct IH as [Hok Hrun]. rewrite Hrun.
    split; [|exact Hrun]. simpl. apply grid_ok_map; [auto | discriminate.. | exact Hok].
  - unfold clearPath. destruct IH as [Hok Hrun]. rewrite Hrun.
    split; [|exact Hrun]. simpl. apply grid_ok_map; [auto | | | exact Hok].
    + intros cell. simpl.
      destruct (bool_decide (cell_type cell = T_path) || bool_decide (cell_type cell = T_visited));
        [discriminate | auto].
    + intros cell. simpl.
      destruct (bool_decide (cell_type cell = T_path) || bool_decide (cell_type cell = T_visited));
        [discriminate | auto].
  - unfold handleMouseDown in H. destruct IH as [Hok Hrun]. rewrite Hrun in H.
    apply page_ok_click in H; [exact H|]. split; assumption.
  - unfold handleMouseEnter in H.
    destruct (negb (pg_isDrawing pg) || pg_isRunning pg); [injection H as <-; exact IH|].
    eapply page_ok_click; eauto.
  - exact IH.
  - unfold runAlgorithm in H. destruct IH as [Hok Hrun]. rewrite Hrun in H.
    destruct (run_selected _ _ _) as [result| |]; try discriminate.
    destruct (visualizeAlgorithm _ _ _) as [g|] eqn:E; [|discriminate].
    injection H as <-. split; [|reflexivity]. simpl.
    eapply grid_ok_visualizeAlgorithm; eauto.
Qed.

(** X12.  Every state of the page holds a square grid of [gridSize] rows
    and columns whose cells carry their own coordinates, with at most one
    start and at most one end: a grid of side at least one that the page
    hands to a strategy is well-formed. *)
Theorem page_grid_well_formed pg :
  page_state pg ->
  length (pg_grid pg) = pg_gridSize pg /\
  Forall (fun cells => length cells = pg_gridSize pg) (pg_grid pg) /\
  own_coordinates (pg_grid pg) /\
  (count_type T_start (pg_grid pg) <= 1)%nat /\
  (count_type T_end (pg_grid pg) <= 1)%nat /\
  ((1 <= pg_gridSize pg)%nat -> wf_grid (pg_grid pg)).
Proof.
  intros Hst. destruct (page_state_ok pg Hst) as [(Hlen & Hrect & Hown & H1 & H2) _].
  pose proof (at_most_one_count _ _ H1) as Hc1.
  pose proof (at_most_one_count _ _ H2) as Hc2.
  split; [exact Hlen|]. split; [exact Hrect|]. split; [exact Hown|].
  split; [exact Hc1|]. split; [exact Hc2|].
  intros Hn. split; [lia|]. split; [|split; assumption].
  exists (pg_gridSize pg). split; [exact Hn | exact Hrect].
Qed.

Definition page_clicked : Page :=
  mkPage 5 (set_type T_end 3 4 (set_type T_start 1 2 (initGrid 5))) false A_dijkstra false.

Lemma page_clicked_state : page_state page_clicked.
Proof.
  change (page_state (handleMouseUp
            (mkPage 5 (set_type T_end 3 4 (set_type T_start 1 2 (initGrid 5)))
                    true A_dijkstra false))).
  apply ps_mouseUp.
  apply (ps_mouseEnter 3 4 (mkPage 5 (set_type T_start 1 2 (initGrid 5)) true A_dijkstra false)).
  - apply (ps_mouseDown 1 2 mount); [apply ps_mount | reflexivity].
  - reflexivity.
Defined.

Lemma page_grid_well_formed_witness :
  page_state page_clicked /\
  length (pg_grid page_clicked) = pg_gridSize page_clicked /\
  Forall (fun cells => length cells = pg_gridSize page_clicked) (pg_grid page_clicked) /\
  own_coordinates (pg_grid page_clicked) /\
  (count_type T_start (pg_grid page_clicked) <= 1)%nat /\
  (count_type T_end (pg_grid page_clicked) <= 1)%nat /\
  ((1 <= pg_gridSize page_clicked)%nat -> wf_grid (pg_grid page_clicked)).
Proof.
  split; [exact page_clicked_state|].
  apply (page_grid_well_formed page_clicked). exact page_clicked_state.
Defined.



(** ** Clicks *)

Lemma kind_is_set_type_other t r c grid k p :
  0 <= r -> 0 <= c -> p <> mkPos r c ->
  kind_is grid k p -> kind_is (set_type t r c grid) k p.
Proof.
  intros Hr Hc Hne (cell & Hcell & Hk). exists cell. split; [|exact Hk].
  unfold cellOf in *. rewrite cellAt_set_type by assumption.
  rewrite decide_False; [exact Hcell|].
  intros [H1 H2]. apply Hne. destruct p; simpl in *; congruence.
Qed.

Lemma kind_is_set_type_here t r c grid cell :
  cellAt grid r c = Some cell -> kind_is (set_type t r c grid) t (mkPos r c).
Proof.
  intros Hcell. destruct (cellAt_nonneg _ _ _ _ Hcell) as [Hr Hc].
  exists (with_type t cell). split; [|reflexivity].
  unfold cellOf. simpl. rewrite cellAt_set_type by assumption.
  rewrite decide_True by auto. rewrite Hcell. reflexivity.
Qed.

Lemma some_type_set_type_other t k r c grid cell :
  cellAt grid r c = Some cell -> cell_type cell <> k ->
  some_type k grid = true -> some_type k (set_type t r c grid) = true.
Proof.
  intros Hcell Hne Hsome. destruct (cellAt_nonneg _ _ _ _ Hcell) as [Hr Hc].
  apply some_type_spec in Hsome as (p & Hp). apply some_type_spec. exists p.
  apply kind_is_set_type_other; try assumption.
  intros ->. destruct Hp as (cell' & Hcell' & Hk). unfold cellOf in Hcell'. simpl in Hcell'.
  congruence.
Qed.

Lemma set_type_set_type t t' r c grid cell :
  cellAt grid r c = Some cell -> cell_type cell = t ->
  set_type t r c (set_type t' r c grid) = grid.
Proof.
  intros Hcell Ht. destruct (cellAt_nonneg _ _ _ _ Hcell) as [Hr Hc].
  apply grid_ext; [rewrite !length_set_type; reflexivity|].
  intros r' c'. rewrite !cellAt_set_type by assumption.
  destruct (decide (r' = r /\ c' = c)) as [[-> ->]|]; [|reflexivity].
  rewrite Hcell. simpl. destruct cell; simpl in *. subst. reflexivity.
Qed.

(** X14.  Once the grid has a start and an end, a click on an empty cell
    makes it a wall and a click on a wall makes it empty, leaving every
    other cell as it is; a second click on the same cell gives back the
    grid as it was. *)
Theorem wall_toggle_involution r c grid cell :
  some_type T_start grid = true -> some_type T_end grid = true ->
  cellAt grid r c = Some cell ->
  cell_type cell = T_empty \/ cell_type cell = T_wall ->
  exists grid1,
    handleCellClick_update r c grid = Some grid1 /\
    cellAt grid1 r c =
      Some (with_type (if bool_decide (cell_type cell = T_wall) then T_empty else T_wall) cell) /\
    (forall r' c', (r', c') <> (r, c) -> cellAt grid1 r' c' = cellAt grid r' c') /\
    handleCellClick_update r c grid1 = Some grid.
Proof.
  intros Hs He Hcell Hkind.
  destruct (cellAt_nonneg _ _ _ _ Hcell) as [Hr Hc].
  set (t1 := if bool_decide (cell_type cell = T_wall) then T_empty else T_wall).
  assert (Hne : cell_type cell <> T_start /\ cell_type cell <> T_end)
    by (destruct Hkind as [-> | ->]; split; discriminate).
  assert (Ht1 : t1 = T_empty \/ t1 = T_wall)
    by (unfold t1; destruct (bool_decide _); auto).
  exists (set_type t1 r c grid).
  assert (Hcell1 : cellAt (set_type t1 r c grid) r c = Some (with_type t1 cell)).
  { rewrite cellAt_set_type by assumption. rewrite decide_True by auto.
    rewrite Hcell. reflexivity. }
  split; [|split; [exact Hcell1|split]].
  - unfold handleCellClick_update. rewrite Hcell.
    rewrite !bool_decide_eq_false_2 by tauto. simpl. rewrite Hs, He. reflexivity.
  - intros r' c' Hne'. rewrite cellAt_set_type by assumption.
    rewrite decide_False; [reflexivity|]. intros [-> ->]. congruence.
  - unfold handleCellClick_update. rewrite Hcell1. simpl.
    assert (Hn1 : t1 <> T_start /\ t1 <> T_end)
      by (destruct Ht1 as [-> | ->]; split; discriminate).
    rewrite !bool_decide_eq_false_2 by tauto. simpl.
    rewrite (some_type_set_type_other t1 T_start r c grid cell) by tauto.
    rewrite (some_type_set_type_other t1 T_end r c grid cell) by tauto. simpl.
    f_equal. apply (set_type_set_type _ _ _ _ _ cell); [exact Hcell|].
    unfold t1. destruct Hkind as [-> | ->]; reflexivity.
Qed.

Lemma wall_toggle_involution_witness :
  exists grid1,
    handleCellClick_update 1 1 grid_detour = Some grid1 /\
    cellAt grid1 1 1 = Some (mkCell T_empty 1 1) /\
    (forall r' c', (r', c') <> (1, 1) -> cellAt grid1 r' c' = cellAt grid_detour r' c') /\
    handleCellClick_update 1 1 grid1 = Some grid_detour.
Proof.
  apply (wall_toggle_involution 1 1 grid_detour (mkCell T_wall 1 1)).
  - reflexivity.
  - reflexivity.
  - reflexivity.
  - right. reflexivity.
Defined.

(** ** Placing the start and the end on a fresh grid *)

Lemma shortest_is_manhattan grid cols s e r :
  rect grid cols -> no_walls grid ->
  kind_is grid T_start s -> kind_is grid T_end e ->
  sound_result grid s e r -> shortest_result grid s e r ->
  success r = true /\ Z.of_nat (length (path r)) = heuristic s e + 1.
Proof.
  intros Hr Hnw Hs He (_ & _ & _ & Hfail) Hshort.
  assert (Hwalk : walk grid s e (hn s e)).
  { apply (manhattan_walk grid cols s Hr Hnw); [| |reflexivity].
    - destruct Hs as (c & Hc & _). eauto.
    - destruct He as (c & Hc & _). eauto. }
  assert (Hsucc : success r = true).
  { destruct (success r); [reflexivity|]. destruct (Hfail eq_refl) as [_ Hn].
    exfalso. apply Hn. eexists. exact Hwalk. }
  split; [exact Hsucc|].
  destruct (Hshort Hsucc) as (n & Hlen & Hw & Hmin).
  specialize (Hmin _ Hwalk).
  pose proof (walk_heuristic grid e s e n Hw) as Hlow. rewrite hn_end in Hlow.
  rewrite (hn_sym e s) in Hlow.
  assert (n = hn s e) by lia. subst n. rewrite Hlen. unfold hn.
  pose proof (heuristic_nonneg e s).
  assert (heuristic e s = heuristic s e) as <- by (unfold heuristic; lia). lia.
Qed.

(** X15.  On a fresh grid the first click places the start and a click on
    another cell places the end; the grid is then well-formed, and
    [dijkstra], [aStar] and [bfs], run from the page, succeed with a path
    whose number of positions is the Manhattan distance between the two
    cells plus one. *)
Theorem place_start_end_and_search n r1 c1 r2 c2 a :
  0 <= r1 < Z.of_nat n -> 0 <= c1 < Z.of_nat n ->
  0 <= r2 < Z.of_nat n -> 0 <= c2 < Z.of_nat n ->
  (r1, c1) <> (r2, c2) -> a <> A_dfs ->
  exists g1 g2,
    handleCellClick_update r1 c1 (initGrid n) = Some g1 /\
    handleCellClick_update r2 c2 g1 = Some g2 /\
    wf_grid g2 /\
    kind_is g2 T_start (mkPos r1 c1) /\ kind_is g2 T_end (mkPos r2 c2) /\
    exists fuel r,
      run_selected a fuel g2 = Returned r /\ success r = true /\
      Z.of_nat (length (path r)) = heuristic (mkPos r1 c1) (mkPos r2 c2) + 1.
Proof.
  intros Hr1 Hc1 Hr2 Hc2 Hne Ha.
  set (g0 := initGrid n).
  assert (Hcell0 : forall r c, 0 <= r < Z.of_nat n -> 0 <= c < Z.of_nat n ->
            cellAt g0 r c = Some (mkCell T_empty r c)).
  { intros r c Hr Hc. unfold g0. rewrite cellAt_initGrid, decide_True by auto. reflexivity. }
  assert (Hno0 : forall t, t <> T_empty -> some_type t g0 = false).
  { intros t Ht. destruct (some_type t g0) eqn:E; [|reflexivity].
    apply some_type_spec in E as (p & cell & Hc & Hk). unfold cellOf, g0 in Hc.
    rewrite cellAt_initGrid in Hc. destruct (decide _); [|discriminate].
    injection Hc as <-. simpl in Hk. congruence. }
  set (g1 := set_type T_start r1 c1 g0).
  set (g2 := set_type T_end r2 c2 g1).
  assert (Hclick1 : handleCellClick_update r1 c1 g0 = Some g1).
  { unfold handleCellClick_update. rewrite (Hcell0 r1 c1) by assumption. simpl.
    rewrite (Hno0 T_start) by discriminate. reflexivity. }
  assert (Hcell1 : cellAt g1 r2 c2 = Some (mkCell T_empty r2 c2)).
  { unfold g1. rewrite cellAt_set_type by lia.
    rewrite decide_False by (intros [-> ->]; congruence). apply Hcell0; assumption. }
  assert (Hs1 : kind_is g1 T_start (mkPos r1 c1)).
  { apply (kind_is_set_type_here T_start r1 c1 g0 (mkCell T_empty r1 c1)). auto. }
  assert (Hclick2 : handleCellClick_update r2 c2 g1 = Some g2).
  { unfold handleCellClick_update. rewrite Hcell1. simpl.
    replace (some_type T_start g1) with true
      by (symmetry; apply some_type_spec; eauto).
    simpl.
    replace (some_type T_end g1) with false; [reflexivity|].
    symmetry. destruct (some_type T_end g1) eqn:E; [|reflexivity].
    apply some_type_spec in E as (p & Hp).
    apply kind_is_set_type in Hp as [[_ Hp]|[_ Hp]]; [discriminate| |lia..].
    assert (some_type T_end g0 = true) by (apply some_type_spec; eauto).
    rewrite (Hno0 T_end) in H by discriminate. discriminate. }
  assert (Hok : grid_ok n g2).
  { eapply grid_ok_click; [exact Hclick2|]. eapply grid_ok_click; [exact Hclick1|].
    apply grid_ok_initGrid. }
  destruct Hok as (Hlen & Hrect & _ & H1 & H2).
  assert (Hwf : wf_grid g2).
  { split; [lia|]. split; [exists n; split; [lia | exact Hrect]|].
    split; apply at_most_one_count; assumption. }
  assert (Hs : kind_is g2 T_start (mkPos r1 c1)).
  { apply kind_is_set_type_other; [lia..| |exact Hs1]. intros [= -> ->]. congruence. }
  assert (He : kind_is g2 T_end (mkPos r2 c2)).
  { apply (kind_is_set_type_here T_end r2 c2 g1 _ Hcell1). }
  assert (Hnw : no_walls g2).
  { intros p Hp.
    apply kind_is_set_type in Hp as [[_ Hp]|[_ Hp]]; [discriminate| |lia..].
    apply kind_is_set_type in Hp as [[_ Hp]|[_ Hp]]; [discriminate| |lia..].
    assert (some_type T_wall g0 = true) by (apply some_type_spec; eauto).
    rewrite (Hno0 T_wall) in H by discriminate. discriminate. }
  exists g1, g2. split; [exact Hclick1|]. split; [exact Hclick2|].
  split; [exact Hwf|]. split; [exact Hs|]. split; [exact He|].
  destruct a; simpl; try contradiction.
  - destruct (dijkstra_correct g2 _ _ Hwf Hs He) as (fuel & r & Hrun & Hsound & Hshort).
    exists fuel, r. split; [exact Hrun|]. eapply shortest_is_manhattan; eauto.
  - destruct (aStar_correct g2 _ _ Hwf Hs He) as (fuel & r & Hrun & Hsound & Hshort & _).
    exists fuel, r. split; [exact Hrun|]. eapply shortest_is_manhattan; eauto.
  - destruct (bfs_correct g2 _ _ Hwf Hs He) as (fuel & r & Hrun & Hsound & Hshort).
    exists fuel, r. split; [exact Hrun|]. eapply shortest_is_manhattan; eauto.
Qed.

Lemma place_start_end_and_search_witness :
  exists g1 g2,
    handleCellClick_update 0 0 (initGrid 5) = Some g1 /\
    handleCellClick_update 4 3 g1 = Some g2 /\
    wf_grid g2 /\
    kind_is g2 T_start (mkPos 0 0) /\ kind_is g2 T_end (mkPos 4 3) /\
    exists fuel r,
      run_selected A_astar fuel g2 = Returned r /\ success r = true /\
      Z.of_nat (length (path r)) = heuristic (mkPos 0 0) (mkPos 4 3) + 1.
Proof.
  apply (place_start_end_and_search 5 0 0 4 3 A_astar);
    first [ simpl; lia | discriminate ].
Defined.

(** ** What the engine reads of a grid

    The strategies look at the shape of the grid and, of a cell, only at
    whether it is a wall, a start or an end.  Grids that agree on that are
    searched alike. *)

Definition cell_equiv (c c' : Cell) : Prop :=
  (cell_type c = T_wall <-> cell_type c' = T_wall) /\
  (cell_type c = T_start <-> cell_type c' = T_start) /\
  (cell_type c = T_end <-> cell_type c' = T_end).

Definition engine_equiv (g g' : Grid) : Prop := Forall2 (Forall2 cell_equiv) g g'.

Definition option_equiv (o o' : option Cell) : Prop :=
  match o, o' with
  | Some c, Some c' => cell_equiv c c'
  | None, None => True
  | _, _ => False
  end.

Lemma engine_equiv_length g g' : engine_equiv g g' -> length g = length g'.
Proof. apply Forall2_length. Qed.

Lemma engine_equiv_cellAt g g' r c :
  engine_equiv g g' -> option_equiv (cellAt g r c) (cellAt g' r c).
Proof.
  intros H. unfold cellAt, Grid in *. destruct ((r <? 0) || (c <? 0)); [exact I|].
  destruct (g !! Z.to_nat r) as [cells|] eqn:E.
  - destruct (Forall2_lookup_l _ _ _ _ _ H E) as (cells' & -> & Hrow).
    destruct (cells !! Z.to_nat c) as [cell|] eqn:Ec.
    + destruct (Forall2_lookup_l _ _ _ _ _ Hrow Ec) as (cell' & -> & Hcell). exact Hcell.
    + apply lookup_ge_None in Ec. rewrite (Forall2_length _ _ _ Hrow) in Ec.
      apply lookup_ge_None in Ec. rewrite Ec. exact I.
  - apply lookup_ge_None in E. rewrite (Forall2_length _ _ _ H) in E.
    apply lookup_ge_None in E. rewrite E. exact I.
Qed.

Lemma getNeighbors_equiv g g' p :
  engine_equiv g g' -> getNeighbors g p = getNeighbors g' p.
Proof.
  intros H. unfold getNeighbors.
  pose proof (engine_equiv_length _ _ H) as Hlen.
  pose proof (fun r c => engine_equiv_cellAt g g' r c H) as Hcell.
  generalize (@nil Position) as acc. generalize directions as dirs.
  induction dirs as [|dir dirs IH]; intros acc; cbn [getNeighbors_loop]; [reflexivity|].
  rewrite <- Hlen.
  destruct ((0 <=? row p + row dir) && (row p + row dir <? Z.of_nat (length g))
            && (0 <=? col p + col dir)); [|apply IH].
  specialize (Hcell (row p + row dir) (col p + col dir)).
  destruct H as [|row0 row0' rest rest' Hrow Hrest]; [reflexivity|].
  rewrite <- (Forall2_length _ _ _ Hrow).
  destruct (col p + col dir <? Z.of_nat (length row0)); [|apply IH].
  destruct (cellAt (row0 :: rest) _ _) as [c|], (cellAt (row0' :: rest') _ _) as [c'|];
    simpl in Hcell; try contradiction; [|reflexivity].
  destruct Hcell as [Hw _].
  destruct (decide (cell_type c = T_wall)) as [Hc|Hc].
  - rewrite decide_True by tauto. apply IH.
  - rewrite decide_False by tauto. apply IH.
Qed.

Lemma findStartAndEnd_row_equiv cells cells' :
  Forall2 cell_equiv cells cells' ->
  forall r c acc, findStartAndEnd_row cells r c acc = findStartAndEnd_row cells' r c acc.
Proof.
  induction 1 as [|cell cell' cells cells' (_ & Hs & He) _ IH]; intros r c acc; simpl;
    [reflexivity|].
  rewrite IH. f_equal.
  destruct (decide (cell_type cell = T_start)) as [H1|H1].
  - rewrite (decide_True (P := cell_type cell' = T_start)) by tauto. reflexivity.
  - rewrite (decide_False (P := cell_type cell' = T_start)) by tauto.
    destruct (decide (cell_type cell = T_end)) as [H2|H2].
    + rewrite (decide_True (P := cell_type cell' = T_end)) by tauto. reflexivity.
    + rewrite (decide_False (P := cell_type cell' = T_end)) by tauto. reflexivity.
Qed.

Lemma findStartAndEnd_equiv g g' :
  engine_equiv g g' -> findStartAndEnd g = findStartAndEnd g'.
Proof.
  unfold findStartAndEnd. generalize 0 as r. generalize (mkStartEnd None None) as acc.
  intros acc r H. revert r acc.
  induction H as [|cells cells' g g' Hrow _ IH]; intros r acc; simpl; [reflexivity|].
  rewrite (findStartAndEnd_row_equiv _ _ Hrow). apply IH.
Qed.

Lemma grid_keys_equiv g g' : engine_equiv g g' -> grid_keys g = grid_keys g'.
Proof.
  unfold grid_keys. generalize 0 as r. intros r H. revert r.
  induction H as [|cells cells' g g' Hrow _ IH]; intros r; simpl; [reflexivity|].
  rewrite (Forall2_length _ _ _ Hrow), IH. reflexivity.
Qed.

Lemma greedy_locate_row_equiv g g' i js :
  engine_equiv g g' ->
  forall acc, greedy_locate_row g i js acc = greedy_locate_row g' i js acc.
Proof.
  intros H. induction js as [|j js IH]; intros acc; simpl; [reflexivity|].
  pose proof (engine_equiv_cellAt g g' i (Z.of_nat j) H) as Hcell.
  destruct (cellAt g i (Z.of_nat j)) as [c|], (cellAt g' i (Z.of_nat j)) as [c'|];
    simpl in Hcell; try contradiction; [|reflexivity].
  destruct Hcell as (_ & Hs & He). rewrite IH. f_equal.
  destruct (decide (cell_type c = T_start)) as [H1|H1];
    [rewrite (decide_True (P := cell_type c' = T_start)) by tauto
    |rewrite (decide_False (P := cell_type c' = T_start)) by tauto];
    (destruct (decide (cell_type c = T_end)) as [H2|H2];
     [rewrite (decide_True (P := cell_type c' = T_end)) by tauto
     |rewrite (decide_False (P := cell_type c' = T_end)) by tauto]; reflexivity).
Qed.

Lemma greedy_locate_equiv g g' rows cols :
  engine_equiv g g' -> greedy_locate g rows cols = greedy_locate g' rows cols.
Proof.
  intros H. unfold greedy_locate. generalize (mkStartEnd None None) as acc.
  generalize (seq 0 rows) as rs.
  induction rs as [|i rs IH]; intros acc; simpl; [reflexivity|].
  rewrite (greedy_locate_row_equiv g g' _ _ H).
  destruct (greedy_locate_row g' (Z.of_nat i) (seq 0 cols) acc); [apply IH | reflexivity].
Qed.

Lemma greedy_visit_equiv g g' rows cols closedSet current acc n :
  engine_equiv g g' ->
  greedy_visit g rows cols closedSet current acc n =
  greedy_visit g' rows cols closedSet current acc n.
Proof.
  intros H. unfold greedy_visit. destruct acc as [[openSet cameFrom]|]; [|reflexivity].
  destruct ((row n <? 0) || (rows <=? row n) || (col n <? 0) || (cols <=? col n));
    [reflexivity|].
  pose proof (engine_equiv_cellAt g g' (row n) (col n) H) as Hcell. unfold cellOf.
  destruct (cellAt g (row n) (col n)) as [c|], (cellAt g' (row n) (col n)) as [c'|];
    simpl in Hcell; try contradiction; [|reflexivity].
  destruct Hcell as (Hw & _).
  rewrite (bool_decide_ext _ _ Hw). reflexivity.
Qed.

(** *** Runs from states that differ in the grid only *)

Inductive sim_result {A : Type} (R : A -> A -> Prop) : step_result A -> step_result A -> Prop :=
  | sim_continue a b : R a b -> sim_result R (Continue a) (Continue b)
  | sim_done r : sim_result R (Done r) (Done r)
  | sim_throw : sim_result R Throw Throw.

Lemma run_sim {A : Type} (step : A -> step_result A) (R : A -> A -> Prop) :
  (forall a b, R a b -> sim_result R (step a) (step b)) ->
  forall fuel a b, R a b -> run step fuel a = run step fuel b.
Proof.
  intros Hstep fuel. induction fuel as [|fuel IH]; intros a b Hab; simpl; [reflexivity|].
  destruct (Hstep a b Hab) as [a' b' Hab'|r|]; [apply IH; exact Hab'|reflexivity..].
Qed.

Definition rebuild_sim (r r' : rebuild_state) : Prop :=
  rb_start r = rb_start r' /\ rb_parent r = rb_parent r' /\
  rb_visitedPositions r = rb_visitedPositions r' /\ rb_path r = rb_path r' /\
  rb_currentPos r = rb_currentPos r'.

Inductive machine_sim {St : Type} (R : St -> St -> Prop) : machine St -> machine St -> Prop :=
  | ms_search a b : R a b -> machine_sim R (Searching a) (Searching b)
  | ms_rebuild r r' : rebuild_sim r r' -> machine_sim R (Rebuilding r) (Rebuilding r').

Lemma machine_step_sim {St : Type} (search : St -> step_result (machine St))
    (R : St -> St -> Prop) :
  (forall a b, R a b -> sim_result (machine_sim R) (search a) (search b)) ->
  forall m m', machine_sim R m m' ->
    sim_result (machine_sim R) (machine_step search m) (machine_step search m').
Proof.
  intros Hsearch m m' [a b Hab | r r' Hr]; simpl; [apply Hsearch; exact Hab|].
  destruct r as [g s p vp pa cu], r' as [g' s' p' vp' pa' cu'].
  destruct Hr as (Hs & Hp & Hvp & Hpa & Hcu). simpl in *. subst.
  unfold rebuild_step. simpl. destruct (negb (pos_eqb cu' s')); [|constructor].
  destruct (p' !! cu'); constructor. constructor. repeat split.
Qed.

Ltac sim_start :=
  constructor; apply ms_rebuild; repeat split.

Definition bfs_sim (a b : bfs_state) : Prop :=
  engine_equiv (bfs_grid a) (bfs_grid b) /\ bfs_start a = bfs_start b /\
  bfs_end a = bfs_end b /\ bfs_queue a = bfs_queue b /\ bfs_visited a = bfs_visited b /\
  bfs_parent a = bfs_parent b /\ bfs_visitedPositions a = bfs_visitedPositions b.

Lemma bfs_search_sim a b :
  bfs_sim a b -> sim_result (machine_sim bfs_sim) (bfs_search a) (bfs_search b).
Proof.
  destruct a as [g s e q v p vp], b as [g' s' e' q' v' p' vp'].
  intros (Hg & ? & ? & ? & ? & ? & ?). simpl in *. subst.
  unfold bfs_search. simpl. destruct q' as [|current rest]; [constructor|].
  destruct (pos_eqb current e'); [sim_start|].
  rewrite <- (getNeighbors_equiv _ _ current Hg).
  destruct (getNeighbors g current) as [ns|]; [|constructor].
  destruct (fold_left _ ns _) as [[q s0] pr].
  constructor. apply ms_search. repeat split; auto.
Qed.

Definition dfs_sim (a b : dfs_state) : Prop :=
  engine_equiv (dfs_grid a) (dfs_grid b) /\ dfs_start a = dfs_start b /\
  dfs_end a = dfs_end b /\ dfs_stack a = dfs_stack b /\ dfs_visited a = dfs_visited b /\
  dfs_parent a = dfs_parent b /\ dfs_visitedPositions a = dfs_visitedPositions b.

Lemma dfs_search_sim a b :
  dfs_sim a b -> sim_result (machine_sim dfs_sim) (dfs_search a) (dfs_search b).
Proof.
  destruct a as [g s e q v p vp], b as [g' s' e' q' v' p' vp'].
  intros (Hg & ? & ? & ? & ? & ? & ?). simpl in *. subst.
  unfold dfs_search. simpl. destruct (last q') as [current|]; [|constructor].
  destruct (pos_eqb current e'); [sim_start|].
  rewrite <- (getNeighbors_equiv _ _ current Hg).
  destruct (getNeighbors g current) as [ns|]; [|constructor].
  destruct (fold_left _ ns _) as [[q s0] pr].
  constructor. apply ms_search. repeat split; auto.
Qed.

Definition dijkstra_sim (a b : dijkstra_state) : Prop :=
  engine_equiv (dj_grid a) (dj_grid b) /\ dj_start a = dj_start b /\
  dj_end a = dj_end b /\ dj_distances a = dj_distances b /\ dj_parent a = dj_parent b /\
  dj_visited a = dj_visited b /\ dj_visitedPositions a = dj_visitedPositions b.

Lemma dijkstra_search_sim a b :
  dijkstra_sim a b ->
  sim_result (machine_sim dijkstra_sim) (dijkstra_search a) (dijkstra_search b).
Proof.
  destruct a as [g s e d p v vp], b as [g' s' e' d' p' v' vp'].
  intros (Hg & ? & ? & ? & ? & ? & ?). simpl in *. subst.
  unfold dijkstra_search, getMinDistance. simpl.
  rewrite <- (grid_keys_equiv _ _ Hg).
  destruct (snd (fold_left _ (grid_keys g) _)) as [current|]; [|constructor].
  destruct (pos_eqb current e'); [sim_start|].
  rewrite <- (getNeighbors_equiv _ _ current Hg).
  destruct (getNeighbors g current) as [ns|]; [|constructor].
  destruct (fold_left _ ns _) as [ds pr].
  constructor. apply ms_search. repeat split; auto.
Qed.

Definition astar_sim (a b : astar_state) : Prop :=
  engine_equiv (as_grid a) (as_grid b) /\ as_start a = as_start b /\
  as_end a = as_end b /\ as_openSet a = as_openSet b /\ as_closedSet a = as_closedSet b /\
  as_gScore a = as_gScore b /\ as_fScore a = as_fScore b /\ as_parent a = as_parent b /\
  as_visitedPositions a = as_visitedPositions b.

Lemma astar_search_sim a b :
  astar_sim a b -> sim_result (machine_sim astar_sim) (astar_search a) (astar_search b).
Proof.
  destruct a as [g s e o c gs fs p vp], b as [g' s' e' o' c' gs' fs' p' vp'].
  intros (Hg & ? & ? & ? & ? & ? & ? & ? & ?). simpl in *. subst.
  unfold astar_search. simpl. destruct o' as [|o1 ol]; [constructor|].
  destruct (lowest_fScore (o1 :: ol) fs') as [current|].
  2:{ constructor. apply ms_search. repeat split; auto. }
  destruct (pos_eqb current e'); [sim_start|].
  rewrite <- (getNeighbors_equiv _ _ current Hg).
  destruct (getNeighbors g current) as [ns|]; [|constructor].
  destruct (fold_left _ ns _) as [[[os gs] fs] pr].
  constructor. apply ms_search. repeat split; auto.
Qed.

Definition greedy_sim (a b : greedy_state) : Prop :=
  engine_equiv (gr_grid a) (gr_grid b) /\ gr_rows a = gr_rows b /\ gr_cols a = gr_cols b /\
  gr_start a = gr_start b /\ gr_end a = gr_end b /\ gr_openSet a = gr_openSet b /\
  gr_closedSet a = gr_closedSet b /\ gr_cameFrom a = gr_cameFrom b /\
  gr_visited a = gr_visited b /\ gr_path a = gr_path b.

Lemma greedy_visit_fold_equiv g g' rows cols closedSet current ns :
  engine_equiv g g' ->
  forall acc,
  fold_left (greedy_visit g rows cols closedSet current) ns acc =
  fold_left (greedy_visit g' rows cols closedSet current) ns acc.
Proof.
  intros H. induction ns as [|n ns IH]; intros acc; simpl; [reflexivity|].
  rewrite (greedy_visit_equiv g g' _ _ _ _ _ _ H). apply IH.
Qed.

Lemma greedy_search_sim a b :
  greedy_sim a b -> sim_result (machine_sim greedy_sim) (greedy_search a) (greedy_search b).
Proof.
  destruct a as [g rs cs s e o c cf v pa], b as [g' rs' cs' s' e' o' c' cf' v' pa'].
  intros (Hg & ? & ? & ? & ? & ? & ? & ? & ? & ?). simpl in *. subst.
  unfold greedy_search.
  cbn [gr_grid gr_rows gr_cols gr_start gr_end gr_openSet gr_closedSet gr_cameFrom
       gr_visited gr_path].
  destruct o' as [|o1 ol]; [constructor|].
  destruct ((o1 :: ol) !! greedy_lowest e' (o1 :: ol)) as [current|]; [|constructor].
  destruct (pos_eqb current e'); [sim_start|].
  rewrite (greedy_visit_fold_equiv g g' _ _ _ _ _ Hg).
  destruct (fold_left _ _ _) as [[os cf]|]; [|constructor].
  constructor. apply ms_search. repeat split; auto.
Qed.

Definition greedy2_sim (a b : Part002.greedy_state) : Prop :=
  engine_equiv (Part002.gr_grid a) (Part002.gr_grid b) /\
  Part002.gr_start a = Part002.gr_start b /\ Part002.gr_end a = Part002.gr_end b /\
  Part002.gr_openSet a = Part002.gr_openSet b /\
  Part002.gr_closedSet a = Part002.gr_closedSet b /\
  Part002.gr_parent a = Part002.gr_parent b /\
  Part002.gr_visitedPositions a = Part002.gr_visitedPositions b.

Lemma greedy2_search_sim a b :
  greedy2_sim a b ->
  sim_result (machine_sim greedy2_sim) (Part002.greedy_search a) (Part002.greedy_search b).
Proof.
  destruct a as [g s e o c p vp], b as [g' s' e' o' c' p' vp'].
  intros (Hg & ? & ? & ? & ? & ? & ?). simpl in *. subst.
  unfold Part002.greedy_search. simpl. destruct o' as [|o1 ol]; [constructor|].
  destruct (Part002.lowest_heuristic (o1 :: ol) e') as [current|].
  2:{ constructor. apply ms_search. repeat split; auto. }
  destruct (pos_eqb current e'); [sim_start|].
  rewrite <- (getNeighbors_equiv _ _ current Hg).
  destruct (getNeighbors g current) as [ns|]; [|constructor].
  destruct (fold_left _ ns _) as [os pr].
  constructor. apply ms_search. repeat split; auto.
Qed.

Lemma search_equiv g g' a fuel :
  engine_equiv g g' -> search a fuel g = search a fuel g'.
Proof.
  intros H. pose proof (findStartAndEnd_equiv _ _ H) as Hse.
  destruct a; simpl.
  - unfold bfs. rewrite <- Hse.
    destruct (se_start (findStartAndEnd g)) as [s|]; [|reflexivity].
    destruct (se_end (findStartAndEnd g)) as [e|]; [|reflexivity].
    apply (run_sim _ (machine_sim bfs_sim)); [apply machine_step_sim, bfs_search_sim|].
    apply ms_search. repeat split; auto.
  - unfold dfs. rewrite <- Hse.
    destruct (se_start (findStartAndEnd g)) as [s|]; [|reflexivity].
    destruct (se_end (findStartAndEnd g)) as [e|]; [|reflexivity].
    apply (run_sim _ (machine_sim dfs_sim)); [apply machine_step_sim, dfs_search_sim|].
    apply ms_search. repeat split; auto.
  - unfold dijkstra. rewrite <- Hse.
    destruct (se_start (findStartAndEnd g)) as [s|]; [|reflexivity].
    destruct (se_end (findStartAndEnd g)) as [e|]; [|reflexivity].
    apply (run_sim _ (machine_sim dijkstra_sim));
      [apply machine_step_sim, dijkstra_search_sim|].
    apply ms_search. repeat split; auto.
    simpl. unfold init_scores. rewrite (grid_keys_equiv _ _ H). reflexivity.
  - unfold aStar. rewrite <- Hse.
    destruct (se_start (findStartAndEnd g)) as [s|]; [|reflexivity].
    destruct (se_end (findStartAndEnd g)) as [e|]; [|reflexivity].
    apply (run_sim _ (machine_sim astar_sim)); [apply machine_step_sim, astar_search_sim|].
    apply ms_search. repeat split; auto; simpl; unfold init_scores;
      rewrite (grid_keys_equiv _ _ H); reflexivity.
  - unfold greedyBestFirst.
    pose proof (engine_equiv_length _ _ H) as Hlen.
    destruct H as [|row0 row0' rest rest' Hrow Hrest]; [reflexivity|].
    assert (H : engine_equiv (row0 :: rest) (row0' :: rest')) by (constructor; assumption).
    rewrite <- Hlen, <- (Forall2_length _ _ _ Hrow).
    rewrite <- (greedy_locate_equiv _ _ _ _ H).
    destruct (greedy_locate (row0 :: rest) _ _) as [[[s|] [e|]]|]; try reflexivity.
    apply (run_sim _ (machine_sim greedy_sim)); [apply machine_step_sim, greedy_search_sim|].
    apply ms_search. repeat split; auto.
Qed.

Lemma second_greedy_equiv g g' fuel :
  engine_equiv g g' -> Part002.greedyBestFirst fuel g = Part002.greedyBestFirst fuel g'.
Proof.
  intros H. unfold Part002.greedyBestFirst. rewrite <- (findStartAndEnd_equiv _ _ H).
  destruct (se_start (findStartAndEnd g)) as [s|]; [|reflexivity].
  destruct (se_end (findStartAndEnd g)) as [e|]; [|reflexivity].
  apply (run_sim _ (machine_sim greedy2_sim)); [apply machine_step_sim, greedy2_search_sim|].
  apply ms_search. repeat split; auto.
Qed.

Lemma engine_equiv_of_cells g g' :
  length g = length g' ->
  (forall r c, option_equiv (cellAt g r c) (cellAt g' r c)) ->
  engine_equiv g g'.
Proof.
  intros Hlen Hcell. unfold engine_equiv, Grid in *.
  apply Forall2_same_length_lookup_2; [exact Hlen|].
  intros i cells cells' Hi Hi'.
  assert (Hc : forall j, match cells !! j, cells' !! j with
                         | Some a, Some b => cell_equiv a b
                         | None, None => True
                         | _, _ => False
                         end).
  { intros j. specialize (Hcell (Z.of_nat i) (Z.of_nat j)). unfold cellAt, Grid in Hcell.
    replace ((Z.of_nat i <? 0) || (Z.of_nat j <? 0)) with false in Hcell
      by (symmetry; apply orb_false_iff; split; apply Z.ltb_ge; lia).
    rewrite !Nat2Z.id, Hi, Hi' in Hcell. exact Hcell. }
  apply Forall2_same_length_lookup_2.
  - destruct (Nat.lt_trichotomy (length cells) (length cells')) as [H|[H|H]]; [|exact H|].
    + specialize (Hc (length cells)).
      rewrite (proj2 (lookup_ge_None cells _)) in Hc by lia.
      destruct (lookup_lt_is_Some_2 cells' (length cells) H) as [x Hx].
      rewrite Hx in Hc. contradiction.
    + specialize (Hc (length cells')).
      rewrite (proj2 (lookup_ge_None cells' _)) in Hc by lia.
      destruct (lookup_lt_is_Some_2 cells (length cells') H) as [x Hx].
      rewrite Hx in Hc. contradiction.
  - intros j a b Ha Hb. specialize (Hc j). rewrite Ha, Hb in Hc. exact Hc.
Qed.

Lemma cell_equiv_refl c : cell_equiv c c.
Proof. repeat split; auto. Qed.

Lemma engine_equiv_refl g : engine_equiv g g.
Proof.
  apply engine_equiv_of_cells; [reflexivity|].
  intros r c. destruct (cellAt g r c); simpl; [apply cell_equiv_refl | exact I].
Qed.

Lemma engine_equiv_map f g :
  (forall c, cell_equiv c (f c)) -> engine_equiv g (map (map f) g).
Proof.
  intros Hf. apply engine_equiv_of_cells; [rewrite length_map; reflexivity|].
  intros r c. rewrite cellAt_map. destruct (cellAt g r c); simpl; [apply Hf | exact I].
Qed.

(** X16.  A strategy reads of the grid its shape and, of a cell, whether
    it is a wall, a start or an end: two grids of the same shape that agree
    on that are searched alike by every strategy, with the same outcome for
    every bound on the rounds (empty, path and visited cells are
    interchangeable). *)
Theorem search_reads_walls_start_end g g' a fuel :
  Forall2 (Forall2 (fun c c' =>
     (cell_type c = T_wall <-> cell_type c' = T_wall) /\
     (cell_type c = T_start <-> cell_type c' = T_start) /\
     (cell_type c = T_end <-> cell_type c' = T_end))) g g' ->
  search a fuel g = search a fuel g' /\
  Part002.greedyBestFirst fuel g = Part002.greedyBestFirst fuel g'.
Proof.
  intros H. split; [apply search_equiv | apply second_greedy_equiv]; exact H.
Qed.

Definition grid_painted : Grid :=
  mkGrid [ [T_start; T_wall; T_end];
           [T_path; T_wall; T_visited];
           [T_visited; T_empty; T_path] ].

Lemma grid_painted_equiv : engine_equiv grid_detour grid_painted.
Proof.
  apply engine_equiv_of_cells; [reflexivity|].
  intros r c.
  destruct (cellAt grid_detour r c) as [cell|] eqn:E.
  - apply cellAt_Some in E as (i & j & cells & -> & -> & Hi & Hj).
    destruct i as [|[|[|i]]]; simpl in Hi; try discriminate;
      injection Hi as <-;
      (destruct j as [|[|[|j]]]; simpl in Hj; try discriminate;
       injection Hj as <-; simpl; repeat split; intros; discriminate || reflexivity).
  - destruct (cellAt grid_painted r c) as [cell'|] eqn:E'; [|exact I].
    apply cellAt_Some in E' as (i & j & cells & -> & -> & Hi & Hj).
    destruct i as [|[|[|i]]]; simpl in Hi; try discriminate;
      injection Hi as <-;
      (destruct j as [|[|[|j]]]; simpl in Hj; try discriminate;
       vm_compute in E; discriminate).
Defined.

Lemma search_reads_walls_start_end_witness :
  search DFS 30 grid_detour = search DFS 30 grid_painted /\
  Part002.greedyBestFirst 30 grid_detour = Part002.greedyBestFirst 30 grid_painted.
Proof.
  apply (search_reads_walls_start_end grid_detour grid_painted DFS 30).
  exact grid_painted_equiv.
Defined.

(** The updater of [clearPath] on a cell. *)
Definition clear_cell (cell : Cell) : Cell :=
  with_type (if bool_decide (cell_type cell = T_path)
                || bool_decide (cell_type cell = T_visited)
             then T_empty else cell_type cell) cell.

Lemma clear_cell_equiv c : cell_equiv c (clear_cell c).
Proof.
  unfold cell_equiv, clear_cell. destruct c as [[] r k]; simpl;
    repeat split; intros; first [ discriminate | reflexivity ].
Qed.

(** X17.  Clear Path never changes what a search returns: every strategy
    gives the same outcome on the grid after [clearPath] as on the grid
    before it. *)
Theorem clearPath_keeps_search pg a fuel :
  search a fuel (pg_grid (clearPath pg)) = search a fuel (pg_grid pg).
Proof.
  unfold clearPath. destruct (pg_isRunning pg); [reflexivity|]. simpl.
  symmetry. apply search_equiv. apply (engine_equiv_map clear_cell).
  apply clear_cell_equiv.
Qed.

(** ** The visualization *)

(** The cell at [r], [c] of the captured grid is one that
    [visualizeAlgorithm] paints: it is neither the start nor the end. *)
Definition paintable (grid : Grid) (r c : Z) : bool :=
  match cellAt grid r c with
  | Some cell =>
      negb (bool_decide (cell_type cell = T_start))
      && negb (bool_decide (cell_type cell = T_end))
  | None => false
  end.

Lemma with_type_twice t t' (o : option Cell) :
  with_type t <$> (with_type t' <$> o) = with_type t <$> o.
Proof. destruct o; reflexivity. Qed.

Lemma visualize_loop_cells grid t ps :
  forall cur,
  (forall p, p ∈ ps -> is_Some (cellOf grid p)) ->
  (forall r c, is_Some (cellAt grid r c) -> is_Some (cellAt cur r c)) ->
  exists cur',
    visualize_loop grid t ps cur = Some cur' /\ length cur' = length cur /\
    forall r c,
      cellAt cur' r c =
      if bool_decide (mkPos r c ∈ ps) && paintable grid r c
      then with_type t <$> cellAt cur r c else cellAt cur r c.
Proof.
  induction ps as [|pos ps IH]; intros cur Hin Hcur.
  - exists cur. split; [reflexivity|]. split; [reflexivity|].
    intros r c. rewrite bool_decide_eq_false_2 by apply not_elem_of_nil. reflexivity.
  - cbn [visualize_loop].
    destruct (Hin pos ltac:(left)) as [cell Hcell]. rewrite Hcell.
    assert (Hin' : forall p, p ∈ ps -> is_Some (cellOf grid p))
      by (intros p Hp; apply Hin; right; exact Hp).
    assert (Hmem : forall r c, mkPos r c <> pos ->
              bool_decide (mkPos r c ∈ pos :: ps) = bool_decide (mkPos r c ∈ ps)).
    { intros r c Hne. apply bool_decide_ext. rewrite elem_of_cons. tauto. }
    assert (Hpaint : paintable grid (row pos) (col pos) =
              negb (bool_decide (cell_type cell = T_start))
              && negb (bool_decide (cell_type cell = T_end))).
    { unfold paintable. unfold cellOf in Hcell. rewrite Hcell. reflexivity. }
    destruct (negb (bool_decide (cell_type cell = T_start))
              && negb (bool_decide (cell_type cell = T_end))) eqn:Ep.
    + destruct (Hcur (row pos) (col pos)) as [cell0 Hcell0]; [unfold cellOf in Hcell; eauto|].
      destruct (cellAt_nonneg _ _ _ _ Hcell0) as [Hr Hc].
      unfold paint, cellOf. rewrite Hcell0.
      destruct (IH (set_type t (row pos) (col pos) cur) Hin') as (cur' & Hrun & Hlen & Hcells).
      { intros r c Hrc. rewrite cellAt_set_type by assumption.
        destruct (Hcur r c Hrc) as [x Hx]. rewrite Hx. destruct (decide _); simpl; eauto. }
      exists cur'. split; [exact Hrun|]. split; [rewrite Hlen; apply length_set_type|].
      intros r c. rewrite Hcells, cellAt_set_type by assumption.
      destruct (decide (r = row pos /\ c = col pos)) as [[-> ->]|Hne].
      * rewrite Hpaint, andb_true_r.
        replace (mkPos (row pos) (col pos)) with pos by (destruct pos; reflexivity).
        rewrite (bool_decide_eq_true_2 (pos ∈ pos :: ps)) by left. simpl.
        destruct (bool_decide (pos ∈ ps)); [apply with_type_twice | reflexivity].
      * rewrite Hmem; [reflexivity|]. intros <-. simpl in Hne. tauto.
    + destruct (IH cur Hin' Hcur) as (cur' & Hrun & Hlen & Hcells).
      exists cur'. split; [exact Hrun|]. split; [exact Hlen|].
      intros r c. rewrite Hcells.
      destruct (decide (mkPos r c = pos)) as [<-|Hne]; [|rewrite Hmem by exact Hne; reflexivity].
      simpl in Hpaint. rewrite Hpaint, !andb_false_r. reflexivity.
Qed.

(** The kind that a visualization leaves in a cell of kind [t] at [p]:
    nothing changes for a failure, nor in the start and the end; a cell of
    the path becomes a path cell, any other visited cell a visited cell. *)
Definition painted (result : AlgorithmResult) (p : Position) (t : CellType) : CellType :=
  if negb (success result) then t
  else if bool_decide (t = T_start) || bool_decide (t = T_end) then t
  else if bool_decide (p ∈ path result) then T_path
  else if bool_decide (p ∈ visited result) then T_visited
  else t.

Lemma with_type_same cell : with_type (cell_type cell) cell = cell.
Proof. destruct cell; reflexivity. Qed.

(** X18.  When every position of the result is a cell of the grid,
    [visualizeAlgorithm] runs without an error and leaves a grid of the
    same shape in which: nothing has changed if the result is a failure;
    else the start and the end are as they were, every other cell on the
    path is a path cell, every other cell that was visited is a visited
    cell, and the remaining cells are as they were. *)
Theorem visualizeAlgorithm_paints grid result :
  (forall p, p ∈ visited result -> is_Some (cellOf grid p)) ->
  (forall p, p ∈ path result -> is_Some (cellOf grid p)) ->
  exists grid',
    visualizeAlgorithm grid result grid = Some grid' /\
    length grid' = length grid /\
    forall p, cellOf grid' p =
              (fun cell => with_type (painted result p (cell_type cell)) cell) <$> cellOf grid p.
Proof.
  intros Hv Hp. unfold visualizeAlgorithm.
  destruct (success result) eqn:Es; simpl.
  2:{ exists grid. split; [reflexivity|]. split; [reflexivity|]. intros p.
      destruct (cellOf grid p) as [cell|]; [|reflexivity]. simpl.
      unfold painted. rewrite Es. simpl. destruct cell; reflexivity. }
  destruct (visualize_loop_cells grid T_visited (visited result) grid Hv (fun r c H => H))
    as (cur1 & Hrun1 & Hlen1 & Hcells1).
  rewrite Hrun1.
  destruct (visualize_loop_cells grid T_path (path result) cur1 Hp) as (cur2 & Hrun2 & Hlen2 & Hcells2).
  { intros r c [x Hx]. rewrite Hcells1, Hx. destruct (_ && _); simpl; eauto. }
  exists cur2. split; [exact Hrun2|]. split; [congruence|].
  intros p. unfold cellOf. rewrite Hcells2, Hcells1.
  replace (mkPos (row p) (col p)) with p by (destruct p; reflexivity).
  unfold paintable, painted. rewrite Es.
  destruct (cellAt grid (row p) (col p)) as [[t cr cc]|] eqn:Ec; simpl.
  2:{ rewrite !andb_false_r. reflexivity. }
  destruct t; simpl; rewrite ?andb_false_r, ?andb_true_r;
    destruct (bool_decide (p ∈ path result)), (bool_decide (p ∈ visited result));
    reflexivity.
Qed.

Lemma visualizeAlgorithm_paints_witness :
  exists grid',
    visualizeAlgorithm grid_detour
      (mkResult [mkPos 0 0; mkPos 1 0] [mkPos 0 0; mkPos 1 0; mkPos 2 0] true)
      grid_detour = Some grid' /\
    length grid' = length grid_detour /\
    forall p, cellOf grid' p =
              (fun cell =>
                 with_type
                   (painted (mkResult [mkPos 0 0; mkPos 1 0]
                                      [mkPos 0 0; mkPos 1 0; mkPos 2 0] true)
                            p (cell_type cell)) cell) <$> cellOf grid_detour p.
Proof.
  apply (visualizeAlgorithm_paints grid_detour
           (mkResult [mkPos 0 0; mkPos 1 0] [mkPos 0 0; mkPos 1 0; mkPos 2 0] true)).
  - intros p Hp. simpl in Hp.
    repeat (apply elem_of_cons in Hp as [->|Hp]; [eexists; reflexivity|]).
    apply elem_of_nil in Hp. contradiction.
  - intros p Hp. simpl in Hp.
    repeat (apply elem_of_cons in Hp as [->|Hp]; [eexists; reflexivity|]).
    apply elem_of_nil in Hp. contradiction.
Defined.

(** ** A run from the page *)

Definition strategy_of (a : Algorithm) : Strategy :=
  match a with
  | A_dijkstra => Dijkstra
  | A_astar => AStar
  | A_bfs => BFS
  | A_dfs => DFS
  end.

Lemma run_selected_search a fuel grid :
  run_selected a fuel grid = search (strategy_of a) fuel grid.
Proof. destruct a; reflexivity. Qed.

Lemma strategy_of_not_greedy a : strategy_of a <> Greedy.
Proof. destruct a; discriminate. Qed.

Lemma reachable_passable grid s x :
  kind_is grid T_start s -> reachable grid s x -> passable grid x.
Proof.
  intros Hs [n Hw]. destruct Hw as [|q q' n Hw He].
  - apply kind_start_passable. exact Hs.
  - eapply edge_passable; eauto.
Qed.

Lemma grid_ok_wf n grid p cell :
  grid_ok n grid -> cellOf grid p = Some cell -> wf_grid grid.
Proof.
  intros (Hlen & Hrect & _ & H1 & H2) Hcell.
  destruct (cellAt_rect_bounds _ _ _ _ _ Hrect Hcell) as [Hr Hc].
  split; [lia|]. split; [exists n; split; [lia | exact Hrect]|].
  split; apply at_most_one_count; assumption.
Qed.

(** A strategy of the page returns on the grids of the page, and the
    positions of its result are cells that are not walls. *)
Lemma page_search_returns n grid a :
  grid_ok n grid -> a <> Greedy -> exists fuel r, search a fuel grid = Returned r.
Proof.
  intros Hok Ha. destruct (start_end_cases grid) as [(s & e & Hs & He) | Hno].
  - destruct Hs as (cell & Hcell & Ht).
    pose proof (grid_ok_wf n grid s cell Hok Hcell) as Hwf.
    apply (search_returns grid s e); [exact Hwf|exists cell; auto|exact He|exact Ha].
  - exists 0%nat. eexists. apply four_strategies_missing_any_shape; assumption.
Qed.

Lemma page_search_positions n grid a fuel r :
  grid_ok n grid -> a <> Greedy -> search a fuel grid = Returned r ->
  (forall p, p ∈ visited r -> passable grid p) /\ (forall p, p ∈ path r -> passable grid p).
Proof.
  intros Hok Ha Hrun. destruct (start_end_cases grid) as [(s & e & Hs & He) | Hno].
  - pose proof Hs as (cell & Hcell & Ht).
    pose proof (grid_ok_wf n grid s cell Hok Hcell) as Hwf.
    destruct (search_sound grid s e Hwf Hs He a fuel r Hrun) as (_ & _ & Hok' & Hfail).
    destruct (search_explores grid s e a fuel r Hwf Hs He Ha Hrun) as [Hin _].
    split.
    + intros p Hp. eapply reachable_passable; eauto.
    + intros p Hp. destruct (success r) eqn:Es.
      * destruct (Hok' eq_refl) as (_ & _ & Hpass & _). auto.
      * destruct (Hfail eq_refl) as [Hnil _]. rewrite Hnil in Hp.
        apply elem_of_nil in Hp. contradiction.
  - rewrite (four_strategies_missing_any_shape grid a fuel Ha Hno) in Hrun.
    injection Hrun as <-. simpl. split; intros p Hp; apply elem_of_nil in Hp; contradiction.
Qed.

Lemma painted_cases result p t :
  painted result p t = t \/
  (t <> T_start /\ t <> T_end /\ (p ∈ path result \/ p ∈ visited result) /\
   (painted result p t = T_path \/ painted result p t = T_visited)).
Proof.
  unfold painted. destruct (negb (success result)); [auto|].
  destruct (bool_decide (t = T_start)) eqn:E1; [auto|].
  destruct (bool_decide (t = T_end)) eqn:E2; [auto|]. simpl.
  apply bool_decide_eq_false in E1, E2.
  destruct (bool_decide (p ∈ path result)) eqn:E3.
  { apply bool_decide_eq_true in E3. right. auto 6. }
  destruct (bool_decide (p ∈ visited result)) eqn:E4; [|auto].
  apply bool_decide_eq_true in E4. right. auto 6.
Qed.

Lemma painted_idem result p t :
  painted result p (painted result p t) = painted result p t.
Proof.
  unfold painted. destruct (negb (success result)); [reflexivity|].
  destruct t; simpl;
    destruct (bool_decide (p ∈ path result)), (bool_decide (p ∈ visited result));
    reflexivity.
Qed.

(** What a visualization of a result whose positions are cells that are
    not walls leaves: a grid that the engine cannot tell from the one that
    was searched, that Clear Path turns into what it turns that one into,
    and that a second visualization of the same result leaves as it is. *)
Lemma visualize_result grid r :
  (forall p, p ∈ visited r -> passable grid p) ->
  (forall p, p ∈ path r -> passable grid p) ->
  exists grid',
    visualizeAlgorithm grid r grid = Some grid' /\
    engine_equiv grid grid' /\
    map (map clear_cell) grid' = map (map clear_cell) grid /\
    visualizeAlgorithm grid' r grid' = Some grid'.
Proof.
  intros Hv Hp.
  destruct (visualizeAlgorithm_paints grid r) as (grid' & Hrun & Hlen & Hcells).
  { intros p H. apply passable_in_grid. auto. }
  { intros p H. apply passable_in_grid. auto. }
  assert (Hcell : forall r0 c0, cellAt grid' r0 c0 =
            (fun cell => with_type (painted r (mkPos r0 c0) (cell_type cell)) cell)
              <$> cellAt grid r0 c0)
    by (intros r0 c0; apply (Hcells (mkPos r0 c0))).
  assert (Hkeep : forall p cell, cellOf grid p = Some cell ->
            painted r p (cell_type cell) = cell_type cell \/
            (cell_type cell <> T_start /\ cell_type cell <> T_end /\
             cell_type cell <> T_wall /\
             (painted r p (cell_type cell) = T_path \/
              painted r p (cell_type cell) = T_visited))).
  { intros p cell Hc.
    destruct (painted_cases r p (cell_type cell)) as [H | (H1 & H2 & Hin & H3)]; [auto|].
    right. split; [exact H1|]. split; [exact H2|]. split; [|exact H3].
    assert (Hpass : passable grid p) by (destruct Hin; auto).
    destruct Hpass as (cell' & Hc' & Hw). congruence. }
  exists grid'. split; [exact Hrun|]. split; [|split].
  - apply engine_equiv_of_cells; [congruence|].
    intros r0 c0. rewrite Hcell.
    destruct (cellAt grid r0 c0) as [cell|] eqn:E; simpl; [|exact I].
    destruct (Hkeep (mkPos r0 c0) cell E) as [-> | (H1 & H2 & H3 & H4)].
    + unfold cell_equiv. destruct cell; simpl. tauto.
    + unfold cell_equiv. simpl.
      destruct H4 as [-> | ->]; repeat split; intros; first [discriminate | contradiction].
  - apply grid_ext; [rewrite !length_map; exact Hlen|].
    intros r0 c0. rewrite !cellAt_map, Hcell.
    destruct (cellAt grid r0 c0) as [cell|] eqn:E; simpl; [|reflexivity].
    f_equal.
    destruct (Hkeep (mkPos r0 c0) cell E) as [-> | (H1 & H2 & H3 & H4)].
    + destruct cell; reflexivity.
    + destruct cell as [t cr cc]. simpl in *.
      destruct H4 as [-> | ->]; destruct t; try contradiction; reflexivity.
  - destruct (visualizeAlgorithm_paints grid' r) as (grid'' & Hrun' & Hlen' & Hcells').
    { intros p H. unfold cellOf. rewrite Hcell.
      destruct (passable_in_grid grid p (Hv p H)) as [cell Hc]. unfold cellOf in Hc.
      rewrite Hc. simpl. eauto. }
    { intros p H. unfold cellOf. rewrite Hcell.
      destruct (passable_in_grid grid p (Hp p H)) as [cell Hc]. unfold cellOf in Hc.
      rewrite Hc. simpl. eauto. }
    rewrite Hrun'. f_equal. apply grid_ext; [exact Hlen'|].
    intros r0 c0. pose proof (Hcells' (mkPos r0 c0)) as H2.
    unfold cellOf in H2. simpl in H2. rewrite H2, Hcell.
    destruct (cellAt grid r0 c0) as [cell|]; simpl; [|reflexivity].
    rewrite painted_idem. reflexivity.
Qed.

Lemma runAlgorithm_result pg :
  page_ok pg ->
  exists fuel r grid',
    search (strategy_of (pg_selectedAlgorithm pg)) fuel (pg_grid pg) = Returned r /\
    runAlgorithm fuel pg =
      Returned (mkPage (pg_gridSize pg) grid' (pg_isDrawing pg) (pg_selectedAlgorithm pg) false) /\
    visualizeAlgorithm (pg_grid pg) r (pg_grid pg) = Some grid' /\
    engine_equiv (pg_grid pg) grid' /\
    map (map clear_cell) grid' = map (map clear_cell) (pg_grid pg) /\
    visualizeAlgorithm grid' r grid' = Some grid'.
Proof.
  intros [Hok Hrun].
  destruct (page_search_returns _ _ (strategy_of (pg_selectedAlgorithm pg)) Hok
              (strategy_of_not_greedy _)) as (fuel & r & Hs).
  destruct (page_search_positions _ _ _ fuel r Hok (strategy_of_not_greedy _) Hs) as [Hv Hp].
  destruct (visualize_result (pg_grid pg) r Hv Hp) as (grid' & Hvis & Heq & Hclear & Hidem).
  exists fuel, r, grid'. split; [exact Hs|]. split; [|auto].
  unfold runAlgorithm. rewrite Hrun, run_selected_search, Hs, Hvis. reflexivity.
Qed.

Lemma runAlgorithm_deterministic fuel1 fuel2 pg pg1 pg2 :
  runAlgorithm fuel1 pg = Returned pg1 -> runAlgorithm fuel2 pg = Returned pg2 -> pg1 = pg2.
Proof.
  unfold runAlgorithm. destruct (pg_isRunning pg); [congruence|].
  rewrite !run_selected_search.
  destruct (search _ fuel1 _) as [r1| |] eqn:E1; try discriminate.
  destruct (search _ fuel2 _) as [r2| |] eqn:E2; try discriminate.
  rewrite (search_deterministic _ _ _ _ _ _ E1 E2). congruence.
Qed.

(** X19.  Clear Path undoes a visualization: in every state of the page a
    run returns, and Clear Path after the run leaves the grid that Clear
    Path before the run would have left. *)
Theorem clearPath_undoes_run pg :
  page_state pg ->
  (exists fuel pg', runAlgorithm fuel pg = Returned pg') /\
  forall fuel pg', runAlgorithm fuel pg = Returned pg' ->
    pg_grid (clearPath pg') = pg_grid (clearPath pg).
Proof.
  intros Hst. pose proof (page_state_ok pg Hst) as Hok.
  destruct (runAlgorithm_result pg Hok) as (fuel0 & r & grid' & _ & Hrun0 & _ & _ & Hclear & _).
  split; [eauto|].
  intros fuel pg' Hrun.
  rewrite (runAlgorithm_deterministic _ _ _ _ _ Hrun Hrun0).
  destruct Hok as [_ Hnr]. unfold clearPath. rewrite Hnr. simpl. exact Hclear.
Qed.

Lemma clearPath_undoes_run_witness :
  page_state page_clicked /\
  (exists fuel pg', runAlgorithm fuel page_clicked = Returned pg') /\
  forall fuel pg', runAlgorithm fuel page_clicked = Returned pg' ->
    pg_grid (clearPath pg') = pg_grid (clearPath page_clicked).
Proof.
  split; [exact page_clicked_state|].
  apply (clearPath_undoes_run page_clicked). exact page_clicked_state.
Defined.


